(** * PeerNS: a shallow embedding of the messaging core

    The development follows the TypeScript sources of the repository:
    - [types.ts], [p2p-types.ts]  the data model;
    - [p2p-messaging.ts]          direct message handling, queue flush, resets;
    - [p2p.ts]                    shared keys, the send path, fingerprints,
                                  contact migration;
    - [p2p-ns.ts]                 the namespace registry merge;
    - [p2p-rvz.ts]                the rendezvous PID exchange;
    - [p2p-group.ts]              group send, relay handling, check-in, backfill;
    - [p2p-handshake.ts]          the identity check of a connection request,
                                  [connectPersistent] up to the dial;
    - [peer-queue.ts]             the global signaling gate ([PeerQueue]).

    Conventions.  JavaScript numbers that hold counters and millisecond
    timestamps are integers of [Z].  [Date.now()] is an explicit argument
    [now] of every operation that reads the clock, and the result of
    [crypto.randomUUID()] an explicit argument [uuid].  A JavaScript object
    used as a dictionary ([Record<string, T>]) whose key order is observed
    through [Object.keys], [Object.values] or [Object.entries] is an
    insertion-ordered association list ([JsObj]); its keys are fingerprints,
    peer ids and discovery ids, none of which is an array index.  A [Map] or
    object that is only read by key is a [gmap]; a [WeakSet] of connections
    is a [gset] of connection handles.  The code is single-threaded, and a
    handler is written as one step: the function from the manager it finds
    to the manager it leaves when nothing else runs between its [await]s.
    Where what is proved depends on what may run in between, the parts of
    the handler are steps of their own: the group handlers that await a
    decryption between the test of a message id and the push ([GroupAwait]),
    and the error report of the peer queue, whose probe settles later
    ([QueueRuns]).  What a handler does outside the manager's fields (sends,
    closes, persistence, events, calls into subsystems that are not
    modelled) is appended to a log of effects, in the order of the calls.
    Calls into Web Crypto and the [crypto.ts] helpers go through an
    interface ([CryptoOps]); a call that throws is a result of [None]. *)

From Stdlib Require Import ZArith NArith QArith Lia Lqa List String Ascii Bool.
From Stdlib.Strings Require Import Byte.
From stdpp Require Import gmap strings list fin_maps.

Local Open Scope Z_scope.

(** * JavaScript values *)

Module Js.

(** Truthiness of an optional string: [undefined], [null] and [''] are falsy. *)
Definition truthy (s : option string) : bool :=
  match s with
  | Some s => negb (String.eqb s EmptyString)
  | None => false
  end.

(** [s || d] for an optional string. *)
Definition orElse (s : option string) (d : string) : string :=
  if truthy s then default d s else d.

(** [[...new Set(l)]]: the elements of [l] in order of first occurrence. *)
Definition setAdd (acc : list string) (x : string) : list string :=
  if existsb (String.eqb x) acc then acc else acc ++ [x].

Definition setOf (l : list string) : list string := fold_left setAdd l [].

End Js.

(** An object used as a dictionary: own string keys in insertion order.
    Assigning to an existing key keeps its place, assigning to a new key
    appends it, [delete] removes it. *)
Module JsObj.
Section WithValue.
Context {V : Type}.

Definition t := list (string * V).

Fixpoint get (k : string) (o : t) : option V :=
  match o with
  | [] => None
  | (k', v) :: o' => if String.eqb k k' then Some v else get k o'
  end.

Fixpoint set (k : string) (v : V) (o : t) : t :=
  match o with
  | [] => [(k, v)]
  | (k', v') :: o' =>
    if String.eqb k k' then (k, v) :: o' else (k', v') :: set k v o'
  end.

Definition del (k : string) (o : t) : t :=
  List.filter (fun kv => negb (String.eqb k (fst kv))) o.

Definition keys (o : t) : list string := List.map fst o.
Definition values (o : t) : list V := List.map snd o.

(** [o[k] = f(o[k])] for a key that is present. *)
Definition update (k : string) (f : V -> V) (o : t) : t :=
  match get k o with
  | Some v => set k (f v) o
  | None => o
  end.

End WithValue.
Arguments t : clear implicits.
End JsObj.

(** * Data model: [types.ts], [p2p-types.ts] *)

(** A [CryptoKey] is an opaque handle. *)
Definition CryptoKey := string.

Module Conn.

(** A PeerJS [DataConnection] as seen by a handler: its identity, the remote
    peer id and whether it is open when the handler reads [conn.open]. *)
Record t := mk {
  cid : nat;
  peer : string;
  open : bool
}.


End Conn.

Inductive Pending := outgoing | incoming.

Module Contact.

(** [interface Contact].  [onNetwork] and [pendingVerified] are only read for
    truthiness: an absent field is [false]. *)
Record t := mk {
  friendlyName : string;
  fingerprint : option string;
  publicKey : option string;
  currentPID : string;
  knownPIDs : option (list string);
  discoveryID : option string;
  discoveryUUID : string;
  sharedKeyFingerprint : option string;
  conn : option Conn.t;
  onNetwork : bool;
  networkDiscID : option string;
  lastSeen : option Z;
  pending : option Pending;
  pendingFingerprint : option string;
  pendingVerified : bool
}.

Definition set_fingerprint (x : option string) (r : t) : t :=
  mk (friendlyName r) x (publicKey r) (currentPID r) (knownPIDs r) (discoveryID r) (discoveryUUID r) (sharedKeyFingerprint r) (conn r) (onNetwork r) (networkDiscID r) (lastSeen r) (pending r) (pendingFingerprint r) (pendingVerified r).
Definition set_publicKey (x : option string) (r : t) : t :=
  mk (friendlyName r) (fingerprint r) x (currentPID r) (knownPIDs r) (discoveryID r) (discoveryUUID r) (sharedKeyFingerprint r) (conn r) (onNetwork r) (networkDiscID r) (lastSeen r) (pending r) (pendingFingerprint r) (pendingVerified r).
Definition set_currentPID (x : string) (r : t) : t :=
  mk (friendlyName r) (fingerprint r) (publicKey r) x (knownPIDs r) (discoveryID r) (discoveryUUID r) (sharedKeyFingerprint r) (conn r) (onNetwork r) (networkDiscID r) (lastSeen r) (pending r) (pendingFingerprint r) (pendingVerified r).
Definition set_knownPIDs (x : option (list string)) (r : t) : t :=
  mk (friendlyName r) (fingerprint r) (publicKey r) (currentPID r) x (discoveryID r) (discoveryUUID r) (sharedKeyFingerprint r) (conn r) (onNetwork r) (networkDiscID r) (lastSeen r) (pending r) (pendingFingerprint r) (pendingVerified r).
Definition set_sharedKeyFingerprint (x : option string) (r : t) : t :=
  mk (friendlyName r) (fingerprint r) (publicKey r) (currentPID r) (knownPIDs r) (discoveryID r) (discoveryUUID r) x (conn r) (onNetwork r) (networkDiscID r) (lastSeen r) (pending r) (pendingFingerprint r) (pendingVerified r).
Definition set_conn (x : option Conn.t) (r : t) : t :=
  mk (friendlyName r) (fingerprint r) (publicKey r) (currentPID r) (knownPIDs r) (discoveryID r) (discoveryUUID r) (sharedKeyFingerprint r) x (onNetwork r) (networkDiscID r) (lastSeen r) (pending r) (pendingFingerprint r) (pendingVerified r).
Definition set_onNetwork (x : bool) (r : t) : t :=
  mk (friendlyName r) (fingerprint r) (publicKey r) (currentPID r) (knownPIDs r) (discoveryID r) (discoveryUUID r) (sharedKeyFingerprint r) (conn r) x (networkDiscID r) (lastSeen r) (pending r) (pendingFingerprint r) (pendingVerified r).
Definition set_networkDiscID (x : option string) (r : t) : t :=
  mk (friendlyName r) (fingerprint r) (publicKey r) (currentPID r) (knownPIDs r) (discoveryID r) (discoveryUUID r) (sharedKeyFingerprint r) (conn r) (onNetwork r) x (lastSeen r) (pending r) (pendingFingerprint r) (pendingVerified r).

End Contact.

Inductive Dir := sent | recv.
Inductive MsgType := text | file | call.
Inductive Status := waiting | st_sent | delivered | failed.

Module ChatMessage.

(** [interface ChatMessage]. *)
Record t := mk {
  id : string;
  dir : Dir;
  type : option MsgType;
  content : option string;
  name : option string;
  tid : option string;
  size : option Z;
  ts : Z;
  status : option Status;
  edited : bool;
  deleted : bool;
  retries : option Z;
  callKind : option string;
  callDuration : option Z;
  callResult : option string
}.

Definition set_status (x : option Status) (r : t) : t :=
  mk (id r) (dir r) (type r) (content r) (name r) (tid r) (size r) (ts r) x (edited r) (deleted r) (retries r) (callKind r) (callDuration r) (callResult r).
Definition set_content (x : option string) (r : t) : t :=
  mk (id r) (dir r) (type r) x (name r) (tid r) (size r) (ts r) (status r) (edited r) (deleted r) (retries r) (callKind r) (callDuration r) (callResult r).

End ChatMessage.

Module DirectMsg.

(** The payload of a wire message of type ['message'].  An absent field is
    [None]; an absent [e2e] is [false]. *)
Record t := mk {
  id : option string;
  ts : Z;
  content : option string;
  iv : option string;
  ct : option string;
  sig : option string;
  e2e : bool
}.


End DirectMsg.

Module RvzExchange.

(** The payload of a wire message of type ['rvz-exchange'].  The handler
    reads the sender's name under [friendlyName] and, failing that, under
    the lower-case key [friendlyname]. *)
Record t := mk {
  persistentID : option string;
  friendlyName : option string;
  friendlyname : option string;
  publicKey : option string;
  ts : option string;
  signature : option string
}.


End RvzExchange.

Inductive GType := g_text | g_file | g_system.
Inductive GStatus := g_sending | g_sent | g_failed.

Module GroupMessage.

(** [interface GroupMessage]. *)
Record t := mk {
  id : string;
  groupId : string;
  senderFP : string;
  senderName : string;
  content : string;
  ts : Z;
  type : GType;
  name : option string;
  tid : option string;
  size : option Z;
  deliveredTo : option (list string);
  status : option GStatus;
  edited : bool;
  deleted : bool;
  e2e : bool;
  iv : option string;
  ct : option string
}.

Definition set_content (x : string) (r : t) : t :=
  mk (id r) (groupId r) (senderFP r) (senderName r) x (ts r) (type r) (name r) (tid r) (size r) (deliveredTo r) (status r) (edited r) (deleted r) (e2e r) (iv r) (ct r).
Definition set_status (x : option GStatus) (r : t) : t :=
  mk (id r) (groupId r) (senderFP r) (senderName r) (content r) (ts r) (type r) (name r) (tid r) (size r) (deliveredTo r) x (edited r) (deleted r) (e2e r) (iv r) (ct r).

End GroupMessage.

Inductive Role := admin | member.

Module GroupMember.

(** [interface GroupMember]. *)
Record t := mk {
  fingerprint : string;
  friendlyName : string;
  publicKey : option string;
  currentPID : option string;
  joinedAt : Z;
  role : Role
}.

Definition set_friendlyName (x : string) (r : t) : t :=
  mk (fingerprint r) x (publicKey r) (currentPID r) (joinedAt r) (role r).
Definition set_publicKey (x : option string) (r : t) : t :=
  mk (fingerprint r) (friendlyName r) x (currentPID r) (joinedAt r) (role r).
Definition set_currentPID (x : option string) (r : t) : t :=
  mk (fingerprint r) (friendlyName r) (publicKey r) x (joinedAt r) (role r).

End GroupMember.

Module GroupInfo.

(** [interface GroupInfo]. *)
Record t := mk {
  id : string;
  name : string;
  createdBy : string;
  createdAt : Z;
  members : JsObj.t GroupMember.t;
  inviteSlug : option string;
  groupKeyBase64 : option string
}.

Definition set_members (x : JsObj.t GroupMember.t) (r : t) : t :=
  mk (id r) (name r) (createdBy r) (createdAt r) x (inviteSlug r) (groupKeyBase64 r).

End GroupInfo.

Module PeerInfo.

(** [interface PeerInfo].  [isMe] is only read for truthiness. *)
Record t := mk {
  discoveryID : string;
  friendlyName : string;
  lastSeen : Z;
  isMe : bool;
  conn : option Conn.t;
  knownPID : option string;
  publicKey : option string
}.


End PeerInfo.

Module RegistryPeer.

(** An element of the [peers] array of a ['registry'] broadcast. *)
Record t := mk {
  discoveryID : string;
  friendlyname : string;
  publicKey : option string
}.


End RegistryPeer.

Module GroupCheckin.

(** The payload of a wire message of type ['group-checkin']. *)
Record t := mk {
  fingerprint : option string;
  friendlyName : option string;
  publicKey : option string;
  pid : option string;
  sinceTs : option Z
}.


End GroupCheckin.

(** Messages put on the wire by the modelled functions. *)
Inductive Wire :=
| W_message (m : DirectMsg.t)
| W_message_ack (id : option string)
| W_rvz_exchange (x : RvzExchange.t)
| W_group_message (m : GroupMessage.t)
| W_group_relay (m : GroupMessage.t)
| W_group_message_ack (id fp : string)
| W_group_backfill (ms : list GroupMessage.t)
| W_group_info_update (info : GroupInfo.t)
| W_group_key_distribute (iv ct : string).

(** What a handler does to the world outside the manager's fields, in the
    order it does it: sends, closes, persistence, events, and calls into
    subsystems that are not part of this model. *)
Inductive Effect :=
| Send (c : nat) (w : Wire)
| Close (c : nat)
| CloseAfter (c : nat) (ms : Z)
| Log (tag : string)
| Notify (title tag : string)
| Dispatch (event key : string)
| SaveContacts
| SaveChats
| SaveGroupMessages (gid : string)
| GroupSave
| GroupEmit
| NsEmit
| NsTeardown (ns : nat)
| RvzCheckRegistry
| ConnectPersistent (pid fname : string)
| SendFileNow (contactKey file : string) (c : nat).

Record SharedKey := mkSharedKey { key : CryptoKey; sk_fingerprint : string }.

Module RvzEntry.

(** An entry of [rvzMap]: the namespace state (a handle) and whether a window
    timer is pending. *)
Record t := mk {
  state : nat;
  windowTimer : bool
}.


End RvzEntry.

Module GroupNSState.

(** [interface GroupNSState]: the fields read or written by the modelled
    functions. *)
Record t := mk {
  isRouter : bool;
  registry : JsObj.t PeerInfo.t;
  routerConn : option Conn.t;
  groupId : string;
  info : GroupInfo.t;
  messages : list GroupMessage.t;
  groupKey : option CryptoKey;
  groupKeyHistory : option (list CryptoKey)
}.

Definition set_messages (x : list GroupMessage.t) (r : t) : t :=
  mk (isRouter r) (registry r) (routerConn r) (groupId r) (info r) x (groupKey r) (groupKeyHistory r).
Definition set_info (x : GroupInfo.t) (r : t) : t :=
  mk (isRouter r) (registry r) (routerConn r) (groupId r) x (messages r) (groupKey r) (groupKeyHistory r).

End GroupNSState.

Module Mgr.

(** [class P2PManager]: the fields read or written by the modelled functions,
    the module-level [rvzRepliedConns] of [p2p-rvz.ts], and the log of
    effects. *)
Record t := mk {
  contacts : JsObj.t Contact.t;
  chats : gmap string (list ChatMessage.t);
  sharedKeys : gmap string SharedKey;
  pidToFP : gmap string string;
  connectFailures : gmap string Z;
  pendingFiles : gmap string (list string);
  rvzMap : gmap string RvzEntry.t;
  groups : gmap string GroupNSState.t;
  privateKey : option CryptoKey;
  ecdhPrivateKey : option CryptoKey;
  publicKeyStr : string;
  friendlyName : string;
  persistentID : string;
  pubkeyFingerprint : string;
  rvzRepliedConns : gset nat;
  effects : list Effect
}.

Definition set_contacts (x : JsObj.t Contact.t) (r : t) : t :=
  mk x (chats r) (sharedKeys r) (pidToFP r) (connectFailures r) (pendingFiles r) (rvzMap r) (groups r) (privateKey r) (ecdhPrivateKey r) (publicKeyStr r) (friendlyName r) (persistentID r) (pubkeyFingerprint r) (rvzRepliedConns r) (effects r).
Definition set_chats (x : gmap string (list ChatMessage.t)) (r : t) : t :=
  mk (contacts r) x (sharedKeys r) (pidToFP r) (connectFailures r) (pendingFiles r) (rvzMap r) (groups r) (privateKey r) (ecdhPrivateKey r) (publicKeyStr r) (friendlyName r) (persistentID r) (pubkeyFingerprint r) (rvzRepliedConns r) (effects r).
Definition set_sharedKeys (x : gmap string SharedKey) (r : t) : t :=
  mk (contacts r) (chats r) x (pidToFP r) (connectFailures r) (pendingFiles r) (rvzMap r) (groups r) (privateKey r) (ecdhPrivateKey r) (publicKeyStr r) (friendlyName r) (persistentID r) (pubkeyFingerprint r) (rvzRepliedConns r) (effects r).
Definition set_pidToFP (x : gmap string string) (r : t) : t :=
  mk (contacts r) (chats r) (sharedKeys r) x (connectFailures r) (pendingFiles r) (rvzMap r) (groups r) (privateKey r) (ecdhPrivateKey r) (publicKeyStr r) (friendlyName r) (persistentID r) (pubkeyFingerprint r) (rvzRepliedConns r) (effects r).
Definition set_connectFailures (x : gmap string Z) (r : t) : t :=
  mk (contacts r) (chats r) (sharedKeys r) (pidToFP r) x (pendingFiles r) (rvzMap r) (groups r) (privateKey r) (ecdhPrivateKey r) (publicKeyStr r) (friendlyName r) (persistentID r) (pubkeyFingerprint r) (rvzRepliedConns r) (effects r).
Definition set_pendingFiles (x : gmap string (list string)) (r : t) : t :=
  mk (contacts r) (chats r) (sharedKeys r) (pidToFP r) (connectFailures r) x (rvzMap r) (groups r) (privateKey r) (ecdhPrivateKey r) (publicKeyStr r) (friendlyName r) (persistentID r) (pubkeyFingerprint r) (rvzRepliedConns r) (effects r).
Definition set_rvzMap (x : gmap string RvzEntry.t) (r : t) : t :=
  mk (contacts r) (chats r) (sharedKeys r) (pidToFP r) (connectFailures r) (pendingFiles r) x (groups r) (privateKey r) (ecdhPrivateKey r) (publicKeyStr r) (friendlyName r) (persistentID r) (pubkeyFingerprint r) (rvzRepliedConns r) (effects r).
Definition set_groups (x : gmap string GroupNSState.t) (r : t) : t :=
  mk (contacts r) (chats r) (sharedKeys r) (pidToFP r) (connectFailures r) (pendingFiles r) (rvzMap r) x (privateKey r) (ecdhPrivateKey r) (publicKeyStr r) (friendlyName r) (persistentID r) (pubkeyFingerprint r) (rvzRepliedConns r) (effects r).
Definition set_rvzRepliedConns (x : gset nat) (r : t) : t :=
  mk (contacts r) (chats r) (sharedKeys r) (pidToFP r) (connectFailures r) (pendingFiles r) (rvzMap r) (groups r) (privateKey r) (ecdhPrivateKey r) (publicKeyStr r) (friendlyName r) (persistentID r) (pubkeyFingerprint r) x (effects r).
Definition set_effects (x : list Effect) (r : t) : t :=
  mk (contacts r) (chats r) (sharedKeys r) (pidToFP r) (connectFailures r) (pendingFiles r) (rvzMap r) (groups r) (privateKey r) (ecdhPrivateKey r) (publicKeyStr r) (friendlyName r) (persistentID r) (pubkeyFingerprint r) (rvzRepliedConns r) x.

End Mgr.

(** [emit e m] appends an effect to the log. *)
Definition emit (e : Effect) (m : Mgr.t) : Mgr.t :=
  Mgr.set_effects (Mgr.effects m ++ [e]) m.

(** * Web Crypto and the helpers of [crypto.ts]

    The helpers are not part of the modelled sources; they are taken as an
    interface.  A call that throws (a rejected promise) returns [None]. *)
Record CryptoOps := mkCryptoOps {
  (** [window.crypto?.subtle] is available *)
  subtle : bool;
  (** [ecdsaToECDHPublic], [deriveSharedKey] and [fingerprintSharedKey] in
      sequence, from our ECDH private key and the peer's public key *)
  deriveSharedKey : CryptoKey -> string -> option SharedKey;
  (** [encryptMessage(key, plaintext)] gives [(iv, ct)] *)
  encryptMessage : CryptoKey -> string -> option (string * string);
  (** [decryptMessage(key, iv, ct)] *)
  decryptMessage : CryptoKey -> string -> string -> option string;
  (** [signData(privateKey, data)] *)
  signData : CryptoKey -> string -> option string;
  (** [importPublicKey(base64)] *)
  importPublicKey : string -> option CryptoKey;
  (** [verifySignature(key, signature, data)] *)
  verifySignature : CryptoKey -> option string -> string -> option bool;
  (** [ecdsaToECDHPrivate], [ecdsaToECDHPublic], [deriveSharedKey] and
      [encryptGroupKeyForPeer] in sequence: group key, our private key,
      the member's public key *)
  wrapGroupKey : CryptoKey -> option CryptoKey -> string -> option (string * string);
  (** [crypto.subtle.digest('SHA-256', bytes)] *)
  digest : list byte -> option (list byte)
}.

(** * Direct messages: [p2p-messaging.ts] and the send path of [p2p.ts]

    Every handler of this part is modelled as one step: the interleavings
    that the [await]s inside a handler allow are not part of it. *)

Module Messaging.
Section WithCrypto.
Context (C : CryptoOps).

(** [contactKeyForPID]: the cached mapping, else a search of the contacts
    (caching the hit), else the PID itself. *)
Definition contactKeyForPID (pid : string) (m : Mgr.t) : string * Mgr.t :=
  if Js.truthy (Mgr.pidToFP m !! pid) then (default pid (Mgr.pidToFP m !! pid), m)
  else
    match List.find (fun kc : string * Contact.t =>
                       String.eqb (Contact.currentPID (snd kc)) pid
                       || existsb (String.eqb pid) (default [] (Contact.knownPIDs (snd kc))))
                    (Mgr.contacts m) with
    | Some (key, _) => (key, Mgr.set_pidToFP (<[pid := key]> (Mgr.pidToFP m)) m)
    | None => (pid, m)
    end.

(** [getOrDeriveSharedKey]. *)
Definition getOrDeriveSharedKey (contactKey : string) (m : Mgr.t)
  : option SharedKey * Mgr.t :=
  match Mgr.ecdhPrivateKey m with
  | None => (None, m)
  | Some ecdh =>
    match JsObj.get contactKey (Mgr.contacts m) with
    | None => (None, m)
    | Some c =>
      if negb (Js.truthy (Contact.publicKey c)) then (None, m)
      else
        match Mgr.sharedKeys m !! contactKey with
        | Some cached => (Some cached, m)
        | None =>
          match deriveSharedKey C ecdh (default EmptyString (Contact.publicKey c)) with
          | Some entry =>
            let m1 := Mgr.set_sharedKeys (<[contactKey := entry]> (Mgr.sharedKeys m)) m in
            let c' := Contact.set_sharedKeyFingerprint (Some (sk_fingerprint entry)) c in
            let m2 := Mgr.set_contacts (JsObj.set contactKey c' (Mgr.contacts m1)) m1 in
            (Some entry, emit (Log "shared-key-derived") (emit SaveContacts m2))
          | None => (None, emit (Log "shared-key-derive-failed") m)
          end
        end
    end
  end.

(** The two payloads of [sendEncryptedMessage]. *)
Definition plaintextPayload (msg : ChatMessage.t) : DirectMsg.t :=
  DirectMsg.mk (Some (ChatMessage.id msg)) (ChatMessage.ts msg)
               (ChatMessage.content msg) None None None false.

Definition encryptedPayload (msg : ChatMessage.t) (iv ct sig : string) : DirectMsg.t :=
  DirectMsg.mk (Some (ChatMessage.id msg)) (ChatMessage.ts msg)
               None (Some iv) (Some ct) (Some sig) true.

(** The body of the [try] block of [sendEncryptedMessage]: [None] when
    [encryptMessage] or [signData] throws. *)
Definition encryptAndSign (sk : SharedKey) (priv : CryptoKey) (msg : ChatMessage.t)
  : option DirectMsg.t :=
  match encryptMessage C (key sk) (Js.orElse (ChatMessage.content msg) EmptyString) with
  | Some (iv, ct) =>
    match signData C priv ct with
    | Some sig => Some (encryptedPayload msg iv ct sig)
    | None => None
    end
  | None => None
  end.

(** [sendEncryptedMessage]. *)
Definition sendEncryptedMessage (contactKey : string) (conn : Conn.t)
    (msg : ChatMessage.t) (m : Mgr.t) : Mgr.t :=
  let '(sk, m1) := getOrDeriveSharedKey contactKey m in
  match sk, Mgr.privateKey m1 with
  | Some sk, Some priv =>
    match encryptAndSign sk priv msg with
    | Some d => emit (Send (Conn.cid conn) (W_message d)) m1
    | None =>
      emit (Send (Conn.cid conn) (W_message (plaintextPayload msg)))
           (emit (Log "e2e-encrypt-failed-sending-plaintext") m1)
    end
  | _, _ => emit (Send (Conn.cid conn) (W_message (plaintextPayload msg))) m1
  end.

(** The payload [sendEncryptedMessage] chooses. *)
Definition chosenPayload (sk : option SharedKey) (priv : option CryptoKey)
    (msg : ChatMessage.t) : DirectMsg.t :=
  match sk, priv with
  | Some sk, Some priv =>
    match encryptAndSign sk priv msg with
    | Some d => d
    | None => plaintextPayload msg
    end
  | _, _ => plaintextPayload msg
  end.

Definition connOpen (c : option Conn.t) : bool :=
  match c with Some c => Conn.open c | None => false end.

(** [sendMessage] of [p2p.ts]; [uuid] is the result of [crypto.randomUUID()].
    The send is logged where [sendEncryptedMessage] is called.  The method
    of that name on the manager starts the function of [p2p-messaging.ts]
    without awaiting it, so in the code the payload leaves after the status
    ['sent'] has been saved and the event dispatched; the payload and the
    stored status are the same. *)
Definition sendMessage (now : Z) (uuid : string) (contactKey content : string)
    (m : Mgr.t) : Mgr.t :=
  let c := JsObj.get contactKey (Mgr.contacts m) in
  let msg := ChatMessage.mk uuid sent (Some text) (Some content) None None None now
                            (Some waiting) false false None None None None in
  let old := default [] (Mgr.chats m !! contactKey) in
  let m1 := emit SaveChats (Mgr.set_chats (<[contactKey := old ++ [msg]]> (Mgr.chats m)) m) in
  let m2 :=
    match c with
    | Some c =>
      match Contact.conn c with
      | Some conn =>
        if Conn.open conn then
          let m2 := sendEncryptedMessage contactKey conn msg m1 in
          let msg' := ChatMessage.set_status (Some st_sent) msg in
          emit SaveChats
               (Mgr.set_chats (<[contactKey := old ++ [msg']]> (Mgr.chats m2)) m2)
        else
          let m2 := Mgr.set_contacts
                      (JsObj.update contactKey (Contact.set_conn None) (Mgr.contacts m1)) m1 in
          emit (ConnectPersistent
                  (Js.orElse (Some (Contact.currentPID c)) contactKey)
                  (Contact.friendlyName c)) m2
      | None =>
        emit (ConnectPersistent
                (Js.orElse (Some (Contact.currentPID c)) contactKey)
                (Contact.friendlyName c)) m1
      end
    | None => m1
    end in
  emit (Dispatch "message" contactKey) m2.

(** The filter of [flushMessageQueue]. *)
Definition queued (msg : ChatMessage.t) : bool :=
  match ChatMessage.dir msg, ChatMessage.status msg with
  | sent, Some waiting | sent, Some failed => true
  | _, _ => false
  end.

Definition isText (msg : ChatMessage.t) : bool :=
  match ChatMessage.type msg with Some text => true | _ => false end.

(** The [for] loop of [flushMessageQueue], over the chat in its order: a
    queued text message is sent and marked ['sent'] in place; the result
    carries the [updated] flag. *)
Fixpoint flushLoop (contactKey : string) (conn : Conn.t) (msgs : list ChatMessage.t)
    (m : Mgr.t) : list ChatMessage.t * bool * Mgr.t :=
  match msgs with
  | [] => ([], false, m)
  | msg :: rest =>
    if queued msg && isText msg then
      let m1 := sendEncryptedMessage contactKey conn msg m in
      let '(rest', _, m2) := flushLoop contactKey conn rest m1 in
      (ChatMessage.set_status (Some st_sent) msg :: rest', true, m2)
    else
      let '(rest', updated, m2) := flushLoop contactKey conn rest m in
      (msg :: rest', updated, m2)
  end.

(** [flushMessageQueue]. *)
Definition flushMessageQueue (contactKey : string) (m : Mgr.t) : Mgr.t :=
  match JsObj.get contactKey (Mgr.contacts m) with
  | None => m
  | Some c =>
    match Contact.conn c with
    | None => m
    | Some conn =>
      if negb (Conn.open conn) then m
      else
        let m1 :=
          match Mgr.chats m !! contactKey with
          | None => m
          | Some msgs =>
            let '(msgs', updated, m1) := flushLoop contactKey conn msgs m in
            let m2 := Mgr.set_chats (<[contactKey := msgs']> (Mgr.chats m1)) m1 in
            if updated then
              let m3 := emit (Dispatch "message" contactKey) (emit SaveChats m2) in
              let pid := Js.orElse (Some (Contact.currentPID c)) contactKey in
              Mgr.set_connectFailures (delete pid (Mgr.connectFailures m3)) m3
            else m2
          end in
        match Mgr.pendingFiles m1 !! contactKey with
        | Some (f :: fs) =>
          let m2 := fold_left (fun acc file =>
                                 emit (SendFileNow contactKey file (Conn.cid conn)) acc)
                              (f :: fs) m1 in
          Mgr.set_pendingFiles (delete contactKey (Mgr.pendingFiles m2)) m2
        | _ => m1
        end
    end
  end.

(** The test of [resetContactMessages] and [resetUnackedMessages]. *)
Definition unacked (msg : ChatMessage.t) : bool :=
  match ChatMessage.dir msg, ChatMessage.status msg with
  | sent, Some st_sent => true
  | _, _ => false
  end.

Definition resetMessage (msg : ChatMessage.t) : ChatMessage.t :=
  if unacked msg then ChatMessage.set_status (Some waiting) msg else msg.

(** [resetContactMessages]. *)
Definition resetContactMessages (contactKey : string) (m : Mgr.t) : Mgr.t :=
  match Mgr.chats m !! contactKey with
  | None => m
  | Some msgs =>
    let m1 := Mgr.set_chats (<[contactKey := List.map resetMessage msgs]> (Mgr.chats m)) m in
    if existsb unacked msgs
    then emit (Dispatch "message" contactKey) (emit SaveChats m1)
    else m1
  end.

(** [resetUnackedMessages]: every chat, every message; the function reads
    no clock. *)
Definition resetUnackedMessages (m : Mgr.t) : Mgr.t :=
  let changed := bool_decide (map_Exists (fun _ msgs => existsb unacked msgs = true) (Mgr.chats m)) in
  let m1 := Mgr.set_chats (List.map resetMessage <$> Mgr.chats m) m in
  if changed then emit SaveChats m1 else m1.

(** The body of the interval callback of [startCheckinTimer] when signaling
    is alive: reset, then flush the queue of every connected contact. *)
Definition checkinTick (m : Mgr.t) : Mgr.t :=
  let m1 := resetUnackedMessages m in
  let m2 := fold_left (fun acc k =>
                         if connOpen (c ← JsObj.get k (Mgr.contacts acc); Contact.conn c)
                         then flushMessageQueue k acc else acc)
                      (JsObj.keys (Mgr.contacts m1)) m1 in
  emit (Log "checkin-signaling-alive") m2.

(** The content shown for an incoming ['message']. *)
Definition receivedContent (ck : string) (d : DirectMsg.t) (m : Mgr.t) : string * Mgr.t :=
  let content := Js.orElse (DirectMsg.content d) EmptyString in
  if DirectMsg.e2e d && Js.truthy (DirectMsg.ct d) && Js.truthy (DirectMsg.iv d) then
    let ct := default EmptyString (DirectMsg.ct d) in
    let iv := default EmptyString (DirectMsg.iv d) in
    let '(sk, m1) := getOrDeriveSharedKey ck m in
    let failed := ("[encrypted — decryption failed]"%string, emit (Log "e2e-decrypt-failed") m1) in
    match sk, JsObj.get ck (Mgr.contacts m1) with
    | Some sk, Some contact =>
      if Js.truthy (Contact.publicKey contact) then
        match importPublicKey C (default EmptyString (Contact.publicKey contact)) with
        | None => failed
        | Some pubKey =>
          match verifySignature C pubKey (DirectMsg.sig d) ct with
          | None => failed
          | Some true =>
            match decryptMessage C (key sk) iv ct with
            | Some plain => (plain, m1)
            | None => failed
            end
          | Some false =>
            ("[unverified encrypted message]"%string, emit (Log "e2e-signature-mismatch") m1)
          end
        end
      else ("[encrypted — no shared key]"%string, m1)
    | _, _ => ("[encrypted — no shared key]"%string, m1)
    end
  else (content, m).

(** The data handled by this model of [handlePersistentData]. *)
Inductive PersistentData :=
| D_message (d : DirectMsg.t)
| D_message_ack (id : option string).

Fixpoint markDelivered (id : string) (msgs : list ChatMessage.t)
  : option (list ChatMessage.t) :=
  match msgs with
  | [] => None
  | msg :: rest =>
    match ChatMessage.dir msg with
    | sent =>
      if String.eqb (ChatMessage.id msg) id
      then Some (ChatMessage.set_status (Some delivered) msg :: rest)
      else cons msg <$> markDelivered id rest
    | recv => cons msg <$> markDelivered id rest
    end
  end.

(** [handlePersistentData] for the types ['message'] and ['message-ack'];
    [uuid] is the result of [crypto.randomUUID()] when the handler calls it. *)
Definition handlePersistentData (uuid : string) (d : PersistentData) (conn : Conn.t)
    (m : Mgr.t) : Mgr.t :=
  let '(ck, m0) := contactKeyForPID (Conn.peer conn) m in
  match d with
  | D_message d =>
    let old := default [] (Mgr.chats m0 !! ck) in
    let '(content, m1) := receivedContent ck d m0 in
    let msg := ChatMessage.mk (Js.orElse (DirectMsg.id d) uuid) recv (Some text)
                 (Some content) None None None (DirectMsg.ts d) None false false
                 None None None None in
    let m2 := emit SaveChats
                (Mgr.set_chats (<[ck := old ++ [msg]]> (Mgr.chats m1)) m1) in
    let m3 := if Conn.open conn
              then emit (Send (Conn.cid conn) (W_message_ack (DirectMsg.id d))) m2
              else m2 in
    let fname := match JsObj.get ck (Mgr.contacts m3) with
                 | Some c => if String.eqb (Contact.friendlyName c) EmptyString
                             then "Someone"%string else Contact.friendlyName c
                 | None => "Someone"%string
                 end in
    emit (Dispatch "message" ck) (emit (Notify fname ("msg-" ++ ck)) m3)
  | D_message_ack id =>
    match Mgr.chats m0 !! ck, id with
    | Some msgs, Some id =>
      match markDelivered id msgs with
      | Some msgs' =>
        emit (Dispatch "message" ck)
             (emit SaveChats (Mgr.set_chats (<[ck := msgs']> (Mgr.chats m0)) m0))
      | None => m0
      end
    | _, _ => m0
    end
  end.

End WithCrypto.
End Messaging.

(** * Contact records: [findContactByPublicKey] and [migrateContact] of [p2p.ts] *)

Module Contacts.

(** [findContactByPublicKey(publicKey, excludePID)]. *)
Definition findContactByPublicKey (publicKey : string) (excludePID : option string)
    (m : Mgr.t) : option string :=
  fst <$> List.find (fun kc : string * Contact.t =>
                       negb (bool_decide (Some (fst kc) = excludePID))
                       && Js.truthy (Contact.publicKey (snd kc))
                       && bool_decide (Contact.publicKey (snd kc) = Some publicKey))
                    (Mgr.contacts m).

(** [Array.prototype.sort((a, b) => a.ts - b.ts)]: the sort is stable, so its
    result is the stable insertion sort by timestamp. *)
Fixpoint insertByTs (x : ChatMessage.t) (l : list ChatMessage.t) : list ChatMessage.t :=
  match l with
  | [] => [x]
  | y :: l' =>
    if ChatMessage.ts x <=? ChatMessage.ts y then x :: y :: l' else y :: insertByTs x l'
  end.

Definition sortByTs (l : list ChatMessage.t) : list ChatMessage.t :=
  fold_right insertByTs [] l.

(** A history in timestamp order. *)
Fixpoint sortedTs (l : list ChatMessage.t) : Prop :=
  match l with
  | [] => True
  | x :: l' =>
    match l' with
    | [] => True
    | y :: _ => ChatMessage.ts x <= ChatMessage.ts y /\ sortedTs l'
    end
  end.

(** The merge of two chat histories: the messages of the old key whose id is
    not among the ids of the new key are appended, then the whole is sorted
    by timestamp. *)
Definition mergeChats (newMsgs oldMsgs : list ChatMessage.t) : list ChatMessage.t :=
  let existingIds := List.map ChatMessage.id newMsgs in
  sortByTs (newMsgs ++
            List.filter (fun msg => negb (existsb (String.eqb (ChatMessage.id msg)) existingIds))
                        oldMsgs).

(** The merge of the known PIDs: [[...new Set([...new, ...old])]]. *)
Definition mergeKnownPIDs (newPIDs : option (list string)) (oldPIDs : list string)
  : list string :=
  Js.setOf (default [] newPIDs ++ oldPIDs).

(** The [else] branch of the contact merge: fields of the old record that
    the record under the new key lacks, the old current PID, the union of
    the known PIDs. *)
Definition mergeContact (existing target : Contact.t) : Contact.t :=
  let c1 := if Js.truthy (Contact.publicKey existing) && negb (Js.truthy (Contact.publicKey target))
            then Contact.set_publicKey (Contact.publicKey existing) target else target in
  let c2 := if Js.truthy (Contact.fingerprint existing) && negb (Js.truthy (Contact.fingerprint c1))
            then Contact.set_fingerprint (Contact.fingerprint existing) c1 else c1 in
  let c3 := if Js.truthy (Some (Contact.currentPID existing))
            then Contact.set_currentPID (Contact.currentPID existing) c2 else c2 in
  match Contact.knownPIDs existing with
  | Some oldPIDs => Contact.set_knownPIDs (Some (mergeKnownPIDs (Contact.knownPIDs c3) oldPIDs)) c3
  | None => c3
  end.

(** The update of [pidToFP] and [connectFailures] at the end of
    [migrateContact]. *)
Definition remapPID (fp : string) (acc : gmap string string * gmap string Z) (pid : string)
  : gmap string string * gmap string Z :=
  (<[pid := fp]> (fst acc), delete pid (snd acc)).

(** [migrateContact(oldKey, newKey)]. *)
Definition migrateContact (oldKey newKey : string) (m : Mgr.t) : Mgr.t :=
  if String.eqb oldKey newKey then m
  else
    match JsObj.get oldKey (Mgr.contacts m) with
    | None => m
    | Some existing =>
      let target :=
        match JsObj.get newKey (Mgr.contacts m) with
        | None => Contact.set_conn None existing
        | Some target => mergeContact existing target
        end in
      let contacts1 := JsObj.set newKey target (Mgr.contacts m) in
      let chats1 :=
        match Mgr.chats m !! oldKey with
        | Some oldMsgs =>
          let merged := match Mgr.chats m !! newKey with
                        | None => oldMsgs
                        | Some newMsgs => mergeChats newMsgs oldMsgs
                        end in
          delete oldKey (<[newKey := merged]> (Mgr.chats m))
        | None => Mgr.chats m
        end in
      let sharedKeys1 :=
        let sk := match Mgr.sharedKeys m !! oldKey, Mgr.sharedKeys m !! newKey with
                  | Some oldSK, None => <[newKey := oldSK]> (Mgr.sharedKeys m)
                  | _, _ => Mgr.sharedKeys m
                  end in
        delete oldKey sk in
      let '(pidToFP1, failures1) :=
        if Js.truthy (Contact.fingerprint target) then
          let fp := default EmptyString (Contact.fingerprint target) in
          let acc := fold_left (remapPID fp) (default [] (Contact.knownPIDs target))
                               (Mgr.pidToFP m, Mgr.connectFailures m) in
          if Js.truthy (Some (Contact.currentPID target))
          then remapPID fp acc (Contact.currentPID target)
          else acc
        else (Mgr.pidToFP m, Mgr.connectFailures m) in
      let contacts2 := JsObj.del oldKey contacts1 in
      let m1 := Mgr.set_contacts contacts2
                  (Mgr.set_chats chats1
                     (Mgr.set_sharedKeys sharedKeys1
                        (Mgr.set_pidToFP pidToFP1
                           (Mgr.set_connectFailures failures1 m)))) in
      emit (Dispatch "contact-migrated" oldKey)
           (emit (Log "contact-migrated") (emit SaveChats (emit SaveContacts m1)))
    end.

End Contacts.

(** * The namespace registry: [nsMergeRegistry] of [p2p-ns.ts] *)

Module NS.
Section WithDiscovery.
(** [extractDiscUUID] of [discovery.ts]. *)
Context (extractDiscUUID : string -> string).

(** [Object.values(s.registry).find(r => r.isMe)]. *)
Definition findMe (registry : JsObj.t PeerInfo.t) : option PeerInfo.t :=
  List.find PeerInfo.isMe (JsObj.values registry).

(** The stale entry of the same public key: the first key of the registry
    under construction that is not the peer's own, is not the self-entry and
    carries the peer's public key. *)
Definition findStaleKey (p : RegistryPeer.t) (newRegistry : JsObj.t PeerInfo.t)
  : option string :=
  fst <$> List.find (fun kr : string * PeerInfo.t =>
                       negb (String.eqb (fst kr) (RegistryPeer.discoveryID p))
                       && negb (PeerInfo.isMe (snd kr))
                       && Js.truthy (PeerInfo.publicKey (snd kr))
                       && bool_decide (PeerInfo.publicKey (snd kr) = RegistryPeer.publicKey p))
                    newRegistry.

(** The contact a broadcast entry belongs to: by public key, else by
    discovery UUID. *)
Definition findKnownPID (p : RegistryPeer.t) (contacts : JsObj.t Contact.t) : option string :=
  let uuid := extractDiscUUID (RegistryPeer.discoveryID p) in
  fst <$> List.find (fun kc : string * Contact.t =>
                       (Js.truthy (RegistryPeer.publicKey p)
                        && Js.truthy (Contact.publicKey (snd kc))
                        && bool_decide (Contact.publicKey (snd kc) = RegistryPeer.publicKey p))
                       || String.eqb (Contact.discoveryUUID (snd kc)) uuid)
                    contacts.

(** [x || undefined] and [x || null] on an optional string. *)
Definition orNone (s : option string) : option string :=
  if Js.truthy s then s else None.

(** The state threaded through [peers.forEach]: the registry under
    construction and the manager (contacts and effects). *)
Definition mergePeer (now : Z) (myDiscID : string)
    (acc : JsObj.t PeerInfo.t * Mgr.t) (p : RegistryPeer.t)
  : JsObj.t PeerInfo.t * Mgr.t :=
  let '(newRegistry, m) := acc in
  if String.eqb (RegistryPeer.discoveryID p) myDiscID then acc
  else
    let newRegistry1 :=
      if Js.truthy (RegistryPeer.publicKey p) then
        match orNone (findStaleKey p newRegistry) with
        | Some staleKey => JsObj.del staleKey newRegistry
        | None => newRegistry
        end
      else newRegistry in
    let knownPID := orNone (findKnownPID p (Mgr.contacts m)) in
    let m1 :=
      match knownPID with
      | Some k =>
        let m1 := Mgr.set_contacts
                    (JsObj.update k (fun c => Contact.set_networkDiscID
                                                (Some (RegistryPeer.discoveryID p))
                                                (Contact.set_onNetwork true c))
                                  (Mgr.contacts m)) m in
        match JsObj.get k (Mgr.contacts m1) with
        | Some c =>
          if Js.truthy (RegistryPeer.publicKey p) && negb (Js.truthy (Contact.publicKey c))
          then emit SaveContacts
                 (Mgr.set_contacts
                    (JsObj.update k (Contact.set_publicKey (RegistryPeer.publicKey p))
                                  (Mgr.contacts m1)) m1)
          else m1
        | None => m1
        end
      | None => m
      end in
    let entry := PeerInfo.mk (RegistryPeer.discoveryID p) (RegistryPeer.friendlyname p)
                             now false None knownPID (orNone (RegistryPeer.publicKey p)) in
    (JsObj.set (RegistryPeer.discoveryID p) entry newRegistry1, m1).

(** The registry the merge starts from: the self-entry alone, under its own
    discovery id. *)
Definition initialRegistry (registry : JsObj.t PeerInfo.t) : JsObj.t PeerInfo.t :=
  match findMe registry with
  | Some myEntry => JsObj.set (PeerInfo.discoveryID myEntry) myEntry []
  | None => []
  end.

Definition resetOnNetwork (c : Contact.t) : Contact.t :=
  Contact.set_networkDiscID None (Contact.set_onNetwork false c).

(** The auto-connect pass that ends [nsMergeRegistry]; [canConnect] is
    [!mgr.offlineMode && mgr.persPeer && !mgr.persPeer.destroyed] and
    [connecting] is [mgr.connectingPIDs] when the pass starts.  The calls of
    [connectPersistent] are recorded; what the callee does (it may add the
    PID to [connectingPIDs]) is not part of this model. *)
Definition autoConnect (canConnect : bool) (connecting : list string) (m : Mgr.t) : Mgr.t :=
  if canConnect then
    fold_left (fun acc kc =>
                 let c : Contact.t := snd kc in
                 if Contact.onNetwork c && negb (Messaging.connOpen (Contact.conn c))
                    && negb (bool_decide (is_Some (Contact.pending c)))
                 then
                   let pid := Js.orElse (Some (Contact.currentPID c)) (fst kc) in
                   if existsb (String.eqb pid) connecting then acc
                   else emit (ConnectPersistent pid (Contact.friendlyName c))
                             (emit (Log "auto-connecting") acc)
                 else acc)
              (Mgr.contacts m) m
  else m.

(** [nsMergeRegistry(mgr, s, cfg, peers)]: [registry] is [s.registry],
    [isPublic] is [s === mgr.publicNS], [myDiscID] is
    [cfg.makeDiscID(mgr.discoveryUUID)].  The result is the new
    [s.registry] and the manager. *)
Definition nsMergeRegistry (now : Z) (isPublic : bool) (myDiscID : string)
    (canConnect : bool) (connecting : list string)
    (registry : JsObj.t PeerInfo.t) (peers : list RegistryPeer.t) (m : Mgr.t)
  : JsObj.t PeerInfo.t * Mgr.t :=
  let m0 := emit (Log "registry-update") m in
  let newRegistry := initialRegistry registry in
  let m1 := if isPublic
            then Mgr.set_contacts
                   (List.map (fun kc => (fst kc, resetOnNetwork (snd kc))) (Mgr.contacts m0)) m0
            else m0 in
  let '(newRegistry', m2) := fold_left (mergePeer now myDiscID) peers (newRegistry, m1) in
  let m3 := emit RvzCheckRegistry (emit NsEmit m2) in
  (newRegistry', autoConnect canConnect connecting m3).


(** An entry of the new registry that was built from the broadcast peer [p]. *)
Definition fromBroadcast (now : Z) (p : RegistryPeer.t) (r : PeerInfo.t) : Prop :=
  PeerInfo.discoveryID r = RegistryPeer.discoveryID p /\
  PeerInfo.friendlyName r = RegistryPeer.friendlyname p /\
  PeerInfo.publicKey r = orNone (RegistryPeer.publicKey p) /\
  PeerInfo.lastSeen r = now /\ PeerInfo.isMe r = false /\ PeerInfo.conn r = None.

(** A broadcast as the router builds it from its registry: one entry per
    discovery id, and one discovery id per public key (the router evicts an
    older entry of the same key on check-in). *)
Definition distinctPeers (peers : list RegistryPeer.t) : Prop :=
  (forall p q, In p peers -> In q peers ->
     RegistryPeer.discoveryID p = RegistryPeer.discoveryID q -> p = q) /\
  (forall p q, In p peers -> In q peers ->
     Js.truthy (RegistryPeer.publicKey p) = true ->
     RegistryPeer.publicKey p = RegistryPeer.publicKey q ->
     RegistryPeer.discoveryID p = RegistryPeer.discoveryID q).

(** The peers of [done] that are not ourselves are in the registry. *)
Definition listed (now : Z) (myDiscID : string) (done : list RegistryPeer.t)
    (reg : JsObj.t PeerInfo.t) : Prop :=
  forall q, In q done -> RegistryPeer.discoveryID q <> myDiscID ->
    exists r, JsObj.get (RegistryPeer.discoveryID q) reg = Some r /\ fromBroadcast now q r.

(** The invariant of the [forEach] over the broadcast: the self-entry sits
    under its key [meKey], and every other entry was built from a peer of
    the broadcast other than ourselves, under that peer's discovery id. *)
Definition mergeInv (now : Z) (myDiscID meKey : string) (me : option PeerInfo.t)
    (peers : list RegistryPeer.t) (reg : JsObj.t PeerInfo.t) : Prop :=
  (forall r, me = Some r -> JsObj.get meKey reg = Some r) /\
  (forall k r, In (k, r) reg ->
     (k = meKey /\ me = Some r /\ PeerInfo.isMe r = true) \/
     (k <> meKey /\ k <> myDiscID /\
      exists p, In p peers /\ RegistryPeer.discoveryID p = k /\ fromBroadcast now p r)).

(** The broadcast does not list the key of the self-entry, except as our
    own discovery id (which the merge skips). *)
Definition selfKeyFree (myDiscID meKey : string) (peers : list RegistryPeer.t) : Prop :=
  forall p, In p peers -> RegistryPeer.discoveryID p = meKey ->
            RegistryPeer.discoveryID p = myDiscID.

End WithDiscovery.
End NS.

(** * The rendezvous PID exchange: [rvzHandleExchange] of [p2p-rvz.ts] *)

Module Rvz.
Section WithCrypto.
Context (C : CryptoOps).

(** [rvzDeactivate]. *)
Definition rvzDeactivate (contactKey : string) (m : Mgr.t) : Mgr.t :=
  match Mgr.rvzMap m !! contactKey with
  | None => m
  | Some entry =>
    emit (NsTeardown (RvzEntry.state entry))
         (Mgr.set_rvzMap (delete contactKey (Mgr.rvzMap m)) m)
  end.

(** The signature check that opens [rvzHandleExchange]: [false] when the
    handler closes the connection and returns. *)
Definition exchangeVerified (d : RvzExchange.t) : bool :=
  if Js.truthy (RvzExchange.publicKey d) && Js.truthy (RvzExchange.signature d)
     && Js.truthy (RvzExchange.ts d) && subtle C
  then
    match importPublicKey C (default EmptyString (RvzExchange.publicKey d)) with
    | Some key =>
      match verifySignature C key (RvzExchange.signature d)
                            (default EmptyString (RvzExchange.ts d)) with
      | Some valid => valid
      | None => false
      end
    | None => false
    end
  else true.

(** The update of the contact found by public key.  [None] when the handler
    throws: the log line reads [newPID.slice] and [persistentID] is absent. *)
Definition updateContactPID (contactKey : string) (c : Contact.t)
    (newPID : option string) (m : Mgr.t) : option Mgr.t :=
  if bool_decide (Some (Contact.currentPID c) = newPID) then Some m
  else
    match newPID with
    | None => None
    | Some pid =>
      let known := default [] (Contact.knownPIDs c) in
      let c1 := Contact.set_currentPID pid c in
      let c2 := if existsb (String.eqb pid) known then c1
                else Contact.set_knownPIDs (Some (known ++ [pid])) c1 in
      let m1 := emit (Log "rvz-pid-updated") m in
      let m2 := Mgr.set_contacts (JsObj.set contactKey c2 (Mgr.contacts m1)) m1 in
      let m3 := Mgr.set_pidToFP (<[pid := contactKey]> (Mgr.pidToFP m2)) m2 in
      Some (emit SaveContacts m3)
    end.

(** The reply of the responder. *)
Definition replyPayload (ts signature : string) (m : Mgr.t) : RvzExchange.t :=
  RvzExchange.mk (Some (Mgr.persistentID m)) (Some (Mgr.friendlyName m)) None
                 (Some (Mgr.publicKeyStr m)) (Some ts) (Some signature).

(** [d.friendlyName || d.friendlyname || 'Unknown']. *)
Definition senderName (d : RvzExchange.t) : string :=
  Js.orElse (RvzExchange.friendlyName d) (Js.orElse (RvzExchange.friendlyname d) "Unknown").

(** The tail of [rvzHandleExchange] after the reply; [connect] is what the
    call [mgr.connectPersistent(newPID, fname)] does to the manager. *)
Definition reconnectWith (connect : string -> string -> Mgr.t -> Mgr.t)
    (contactKey : option string) (newPID : option string)
    (fname : string) (m : Mgr.t) : Mgr.t :=
  let m1 := if Js.truthy contactKey
            then rvzDeactivate (default EmptyString contactKey) m
            else m in
  let ck := if Js.truthy contactKey then contactKey else newPID in
  match ck with
  | Some ck =>
    match JsObj.get ck (Mgr.contacts m1), newPID with
    | Some _, Some pid =>
      connect pid fname (Mgr.set_connectFailures (delete pid (Mgr.connectFailures m1)) m1)
    | Some _, None => connect EmptyString fname m1
    | None, _ => m1
    end
  | None => m1
  end.

(** The call of [connectPersistent] recorded in the log of effects and not
    carried out. *)
Definition connectLater (pid fname : string) (m : Mgr.t) : Mgr.t :=
  emit (ConnectPersistent pid fname) m.

Definition reconnect : option string -> option string -> string -> Mgr.t -> Mgr.t :=
  reconnectWith connectLater.

(** [rvzHandleExchange(mgr, d, conn)]; [ts] is [Date.now().toString()] and
    [connect] is what the call of [connectPersistent] that ends the handler
    does. *)
Definition rvzHandleExchangeWith (connect : string -> string -> Mgr.t -> Mgr.t)
    (ts : string) (d : RvzExchange.t) (conn : Conn.t)
    (m : Mgr.t) : Mgr.t :=
  if negb (exchangeVerified d) then
    emit (Close (Conn.cid conn)) (emit (Log "rvz-invalid-signature") m)
  else
    let newPID := RvzExchange.persistentID d in
    let fname := senderName d in
    let contactKey :=
      if Js.truthy (RvzExchange.publicKey d)
      then Contacts.findContactByPublicKey
             (default EmptyString (RvzExchange.publicKey d)) None m
      else None in
    let found := if Js.truthy contactKey
                 then c ← contactKey; JsObj.get c (Mgr.contacts m)
                 else None in
    let m1 :=
      match found with
      | Some c => updateContactPID (default EmptyString contactKey) c newPID m
      | None =>
        if negb (Js.truthy contactKey) && Js.truthy newPID
        then Some (emit (Log "rvz-unexpected-peer") m)
        else Some m
      end in
    match m1 with
    | None => m
    | Some m1 =>
      let replied :=
        if Conn.open conn && negb (bool_decide (Conn.cid conn ∈ Mgr.rvzRepliedConns m1)) then
          let m2 := Mgr.set_rvzRepliedConns ({[Conn.cid conn]} ∪ Mgr.rvzRepliedConns m1) m1 in
          match Mgr.privateKey m2 with
          | Some priv =>
            match signData C priv ts with
            | Some signature =>
              Some (emit (CloseAfter (Conn.cid conn) 1000)
                      (emit (Send (Conn.cid conn)
                                  (W_rvz_exchange (replyPayload ts signature m2))) m2))
            | None => None
            end
          | None =>
            Some (emit (CloseAfter (Conn.cid conn) 1000)
                    (emit (Send (Conn.cid conn)
                                (W_rvz_exchange (replyPayload ts EmptyString m2))) m2))
          end
        else Some m1 in
      match replied with
      | Some m3 => reconnectWith connect contactKey newPID fname m3
      | None =>
        (* [signData] threw after the connection was marked: the handler stops *)
        Mgr.set_rvzRepliedConns ({[Conn.cid conn]} ∪ Mgr.rvzRepliedConns m1) m1
      end
    end.

(** The handler up to its call of [connectPersistent], which is recorded in
    the log. *)
Definition rvzHandleExchange : string -> RvzExchange.t -> Conn.t -> Mgr.t -> Mgr.t :=
  rvzHandleExchangeWith connectLater.

(** The number of [rvz-exchange] messages sent on connection [c]. *)
Definition isReplyOn (c : nat) (e : Effect) : bool :=
  match e with
  | Send c' (W_rvz_exchange _) => Nat.eqb c c'
  | _ => false
  end.

Definition repliesOn (c : nat) (m : Mgr.t) : nat :=
  length (List.filter (isReplyOn c) (Mgr.effects m)).

(** The parts of the handler around the reply send no [rvz-exchange] and
    leave the replied set alone. *)
Definition quiet (m m' : Mgr.t) : Prop :=
  (forall c, repliesOn c m' = repliesOn c m) /\
  Mgr.rvzRepliedConns m' = Mgr.rvzRepliedConns m.

(** A run of the handler over a sequence of deliveries. *)
Fixpoint handleAll (ds : list (string * RvzExchange.t * Conn.t)) (m : Mgr.t) : Mgr.t :=
  match ds with
  | [] => m
  | (ts, d, conn) :: rest => handleAll rest (rvzHandleExchange ts d conn m)
  end.

End WithCrypto.
End Rvz.

(** * Group chats: [p2p-group.ts] *)

Module Group.
Section WithCrypto.
Context (C : CryptoOps).

(** The broadcast loop used by the router: one [send] per registry entry
    that has a connection and is not the self-entry. *)
Definition broadcast (w : Wire) (registry : JsObj.t PeerInfo.t) (m : Mgr.t) : Mgr.t :=
  fold_left (fun acc r =>
               match PeerInfo.conn r with
               | Some conn => if PeerInfo.isMe r then acc else emit (Send (Conn.cid conn) w) acc
               | None => acc
               end)
            (JsObj.values registry) m.

(** [groupRelayMessage]. *)
Definition groupRelayMessage (groupId : string) (msg : GroupMessage.t) (m : Mgr.t) : Mgr.t :=
  match Mgr.groups m !! groupId with
  | Some state =>
    if GroupNSState.isRouter state
    then broadcast (W_group_relay msg) (GroupNSState.registry state) m
    else m
  | None => m
  end.

Definition setMessages (groupId : string) (state : GroupNSState.t)
    (msgs : list GroupMessage.t) (m : Mgr.t) : Mgr.t :=
  Mgr.set_groups (<[groupId := GroupNSState.set_messages msgs state]> (Mgr.groups m)) m.



Definition hasId (id : string) (msgs : list GroupMessage.t) : bool :=
  existsb (fun msg => String.eqb (GroupMessage.id msg) id) msgs.

(** The first key of the history that decrypts, if any. *)
Fixpoint decryptWithHistory (keys : list CryptoKey) (iv ct : string) : option string :=
  match keys with
  | [] => None
  | hk :: rest =>
    match decryptMessage C hk iv ct with
    | Some plain => Some plain
    | None => decryptWithHistory rest iv ct
    end
  end.

(** The local copy of a relayed message: decrypted with the current key,
    else with the first history key that works, else left as received. *)
Definition localCopy (state : GroupNSState.t) (msg : GroupMessage.t) : GroupMessage.t :=
  match GroupNSState.groupKey state with
  | Some gk =>
    if GroupMessage.e2e msg && Js.truthy (GroupMessage.iv msg) && Js.truthy (GroupMessage.ct msg)
    then
      let iv := default EmptyString (GroupMessage.iv msg) in
      let ct := default EmptyString (GroupMessage.ct msg) in
      match decryptMessage C gk iv ct with
      | Some plain => GroupMessage.set_content plain msg
      | None =>
        match decryptWithHistory (default [] (GroupNSState.groupKeyHistory state)) iv ct with
        | Some plain => GroupMessage.set_content plain msg
        | None => msg
        end
      end
    else msg
  | None => msg
  end.

(** [groupHandleMemberData] for the type ['group-relay'], run through: the
    handler awaits the decryption of an encrypted message between the test
    of the id and the push, and this is what it does when no other delivery
    for the group is handled in the meantime (the handler with its awaits
    is [GroupAwait.groupHandleMemberData_relay]). *)
Definition groupHandleMemberData_relay (groupId : string) (msg : GroupMessage.t)
    (conn : option Conn.t) (m : Mgr.t) : Mgr.t :=
  match Mgr.groups m !! groupId with
  | None => m
  | Some state =>
    if String.eqb (GroupMessage.senderFP msg) (Mgr.pubkeyFingerprint m) then m
    else if hasId (GroupMessage.id msg) (GroupNSState.messages state) then m
    else
      let localMsg := localCopy state msg in
      let m1 := emit (SaveGroupMessages groupId)
                  (setMessages groupId state (GroupNSState.messages state ++ [localMsg]) m) in
      let m2 := match conn with
                | Some conn =>
                  if Conn.open conn
                  then emit (Send (Conn.cid conn)
                                  (W_group_message_ack (GroupMessage.id msg)
                                                       (Mgr.pubkeyFingerprint m1))) m1
                  else m1
                | None => m1
                end in
      let m3 := match GroupMessage.type localMsg with
                | g_system => m2
                | _ => emit (Notify (GroupMessage.senderName localMsg) ("group-" ++ groupId)) m2
                end in
      emit GroupEmit m3
  end.

(** [groupBackfill(mgr, groupId, conn, sinceTs)]. *)
Definition groupBackfill (groupId : string) (conn : Conn.t) (sinceTs : Z) (m : Mgr.t) : Mgr.t :=
  match Mgr.groups m !! groupId with
  | None => m
  | Some state =>
    let missed := List.filter (fun msg => sinceTs <? GroupMessage.ts msg)
                              (GroupNSState.messages state) in
    match missed with
    | _ :: _ => if Conn.open conn
                then emit (Send (Conn.cid conn) (W_group_backfill missed)) m
                else m
    | [] => m
    end
  end.

(** [d.sinceTs || 0]. *)
Definition sinceOrZero (sinceTs : option Z) : Z := default 0 sinceTs.

(** The member record written by a ['group-checkin']. *)
Definition checkinMember (now : Z) (d : GroupCheckin.t) (info : GroupInfo.t) : GroupInfo.t :=
  if Js.truthy (GroupCheckin.fingerprint d) then
    let fp := default EmptyString (GroupCheckin.fingerprint d) in
    match JsObj.get fp (GroupInfo.members info) with
    | Some mem =>
      let mem1 := GroupMember.set_currentPID (GroupCheckin.pid d) mem in
      let mem2 := GroupMember.set_friendlyName
                    (Js.orElse (GroupCheckin.friendlyName d) (GroupMember.friendlyName mem1))
                    mem1 in
      let mem3 := if Js.truthy (GroupCheckin.publicKey d)
                  then GroupMember.set_publicKey (GroupCheckin.publicKey d) mem2 else mem2 in
      GroupInfo.set_members (JsObj.set fp mem3 (GroupInfo.members info)) info
    | None =>
      let mem := GroupMember.mk fp (Js.orElse (GroupCheckin.friendlyName d) "Unknown")
                                (GroupCheckin.publicKey d) (GroupCheckin.pid d) now member in
      GroupInfo.set_members (JsObj.set fp mem (GroupInfo.members info)) info
    end
  else info.

(** [groupHandleRouterData] for the type ['group-checkin']. *)
Definition groupHandleRouterData_checkin (now : Z) (groupId : string) (d : GroupCheckin.t)
    (conn : Conn.t) (m : Mgr.t) : Mgr.t :=
  match Mgr.groups m !! groupId with
  | None => m
  | Some state =>
    let info := checkinMember now d (GroupNSState.info state) in
    let state1 := GroupNSState.set_info info state in
    let m1 := emit GroupSave (Mgr.set_groups (<[groupId := state1]> (Mgr.groups m)) m) in
    let m2 := if Conn.open conn
              then groupBackfill groupId conn (sinceOrZero (GroupCheckin.sinceTs d))
                     (emit (Send (Conn.cid conn) (W_group_info_update info)) m1)
              else m1 in
    let m3 :=
      match GroupNSState.groupKey state1 with
      | Some gk =>
        if Js.truthy (GroupCheckin.publicKey d) && Conn.open conn then
          match wrapGroupKey C gk (Mgr.privateKey m2)
                             (default EmptyString (GroupCheckin.publicKey d)) with
          | Some (iv, ct) => emit (Send (Conn.cid conn) (W_group_key_distribute iv ct)) m2
          | None => emit (Log "group-key-distribute-failed") m2
          end
        else m2
      | None => m2
      end in
    emit GroupEmit (broadcast (W_group_info_update info) (GroupNSState.registry state1) m3)
  end.



(** The [group-backfill] messages sent on connection [c], oldest first. *)
Definition backfillsOn (c : nat) (effs : list Effect) : list (list GroupMessage.t) :=
  omap (fun e => match e with
                 | Send c' (W_group_backfill ms) => if Nat.eqb c c' then Some ms else None
                 | _ => None
                 end) effs.

End WithCrypto.
End Group.

(** * Fingerprints: [computeFingerprint] of [p2p.ts] *)

Module Fingerprint.

Definition hexDigit (n : N) : ascii :=
  match n with
  | 0 => "0" | 1 => "1" | 2 => "2" | 3 => "3" | 4 => "4" | 5 => "5" | 6 => "6" | 7 => "7"
  | 8 => "8" | 9 => "9" | 10 => "a" | 11 => "b" | 12 => "c" | 13 => "d" | 14 => "e"
  | _ => "f"
  end%N%char.

(** [Number.prototype.toString(16)] on a non-negative integer. *)
Fixpoint toString16_aux (fuel : nat) (n : N) (acc : string) : string :=
  match fuel with
  | O => acc
  | S fuel' =>
    let acc' := String (hexDigit (n mod 16)) acc in
    if (n / 16 =? 0)%N then acc' else toString16_aux fuel' (n / 16) acc'
  end.

Definition toString16 (n : N) : string :=
  toString16_aux (S (N.to_nat (N.log2 n))) n EmptyString.

(** [String.prototype.padStart(targetLength, fill)] with a one-character fill. *)
Definition padStart (targetLength : nat) (fill : ascii) (s : string) : string :=
  (string_of_list_ascii (repeat fill (targetLength - String.length s)) ++ s)%string.

(** [b => b.toString(16).padStart(2, '0')]. *)
Definition byteHex (b : byte) : string :=
  padStart 2 "0"%char (toString16 (Byte.to_N b)).

(** [Array.from(new Uint8Array(hash)).slice(0, 8).map(...).join('')]. *)
Definition hexOfFirst8 (hash : list byte) : string :=
  String.concat EmptyString (List.map byteHex (firstn 8 hash)).

(** [new TextEncoder().encode(pk)]: a [string] is its UTF-8 byte sequence. *)
Definition encode (pk : string) : list byte := list_byte_of_string pk.

(** [computeFingerprint(pk)]. *)
Definition computeFingerprint (C : CryptoOps) (pk : string) : string :=
  if negb (subtle C) then EmptyString
  else
    match digest C (encode pk) with
    | Some hash => hexOfFirst8 hash
    | None => EmptyString
    end.

(** The identity check of a ['request'] in [handleHandshakeData]: the
    [verified] flag and the fingerprint, computed inline in one [try]. *)
Definition requestIdentity (C : CryptoOps) (publicKey ts signature : option string)
  : bool * string :=
  if Js.truthy publicKey && Js.truthy ts && Js.truthy signature && subtle C then
    match importPublicKey C (default EmptyString publicKey) with
    | None => (false, EmptyString)
    | Some key =>
      match verifySignature C key signature (default EmptyString ts) with
      | None => (false, EmptyString)
      | Some verified =>
        match digest C (encode (default EmptyString publicKey)) with
        | Some hash => (verified, hexOfFirst8 hash)
        | None => (verified, EmptyString)
        end
      end
    end
  else (false, EmptyString).

Definition isLowerHex (a : ascii) : bool :=
  let n := N_of_ascii a in
  ((48 <=? n) && (n <=? 57) || (97 <=? n) && (n <=? 102))%N.

(** Reading hexadecimal back, to state which string a rendering is: the
    value of a lowercase digit, and the bytes written by a string of digit
    pairs, the high digit of each byte first.  [computeFingerprint] does
    not use them. *)
Definition hexValue (a : ascii) : option N :=
  let n := N_of_ascii a in
  (if (48 <=? n) && (n <=? 57) then Some (n - 48)
   else if (97 <=? n) && (n <=? 102) then Some (n - 87)
   else None)%N.

Fixpoint bytesOfHex (s : string) : option (list N) :=
  match s with
  | EmptyString => Some []
  | String hi (String lo rest) =>
    match hexValue hi, hexValue lo, bytesOfHex rest with
    | Some h, Some l, Some bs => Some ((16 * h + l)%N :: bs)
    | _, _, _ => None
    end
  | String _ EmptyString => None
  end.

End Fingerprint.

(** * SHA-256 (FIPS 180-4)

    A reference implementation of the digest that Web Crypto computes, used
    to instantiate the interface on concrete inputs. *)

Module SHA256.
Local Open Scope N_scope.

Definition w32 (x : N) : N := N.land x 0xFFFFFFFF.
Definition add32 (x y : N) : N := w32 (x + y).
Definition rotr (n x : N) : N := N.lor (N.shiftr x n) (w32 (N.shiftl x (32 - n))).
Definition Ch (x y z : N) : N := N.lxor (N.land x y) (N.land (N.lxor x 0xFFFFFFFF) z).
Definition Maj (x y z : N) : N := N.lxor (N.lxor (N.land x y) (N.land x z)) (N.land y z).
Definition Sigma0 (x : N) : N := N.lxor (N.lxor (rotr 2 x) (rotr 13 x)) (rotr 22 x).
Definition Sigma1 (x : N) : N := N.lxor (N.lxor (rotr 6 x) (rotr 11 x)) (rotr 25 x).
Definition sigma0 (x : N) : N := N.lxor (N.lxor (rotr 7 x) (rotr 18 x)) (N.shiftr x 3).
Definition sigma1 (x : N) : N := N.lxor (N.lxor (rotr 17 x) (rotr 19 x)) (N.shiftr x 10).

(** The round constants and the initial hash value, in decimal. *)
Definition K : list N :=
  [1116352408; 1899447441; 3049323471; 3921009573; 961987163; 1508970993; 2453635748; 2870763221;
   3624381080; 310598401; 607225278; 1426881987; 1925078388; 2162078206; 2614888103; 3248222580;
   3835390401; 4022224774; 264347078; 604807628; 770255983; 1249150122; 1555081692; 1996064986;
   2554220882; 2821834349; 2952996808; 3210313671; 3336571891; 3584528711; 113926993; 338241895;
   666307205; 773529912; 1294757372; 1396182291; 1695183700; 1986661051; 2177026350; 2456956037;
   2730485921; 2820302411; 3259730800; 3345764771; 3516065817; 3600352804; 4094571909; 275423344;
   430227734; 506948616; 659060556; 883997877; 958139571; 1322822218; 1537002063; 1747873779;
   1955562222; 2024104815; 2227730452; 2361852424; 2428436474; 2756734187; 3204031479; 3329325298].

Record Hash := mkHash { ha : N; hb : N; hc : N; hd : N; he : N; hf : N; hg : N; hh : N }.

Definition H0 : Hash :=
  mkHash 1779033703 3144134277 1013904242 2773480762 1359893119 2600822924 528734635 1541459225.

(** The [n] low bytes of [x], most significant first. *)
Definition be_bytes (n : nat) (x : N) : list N :=
  List.map (fun i => N.land (N.shiftr x (8 * N.of_nat i)) 0xFF) (rev (seq 0 n)).

(** Padding: the byte 0x80, zeros up to 56 modulo 64, the bit length on 8 bytes. *)
Definition pad (msg : list N) : list N :=
  let len := length msg in
  let zeros := ((119 - len mod 64) mod 64)%nat in
  msg ++ [0x80] ++ repeat 0 zeros ++ be_bytes 8 (8 * N.of_nat len).

Fixpoint words (bs : list N) : list N :=
  match bs with
  | b0 :: b1 :: b2 :: b3 :: rest =>
    (N.shiftl b0 24 + N.shiftl b1 16 + N.shiftl b2 8 + b3) :: words rest
  | _ => []
  end.

(** The message schedule: the 16 words of a block extended by [n] words. *)
Fixpoint extend (n : nat) (w : list N) : list N :=
  match n with
  | O => w
  | S n' =>
    let t := length w in
    let g i := nth (t - i) w 0 in
    extend n' (w ++ [add32 (add32 (sigma1 (g 2%nat)) (g 7%nat))
                           (add32 (sigma0 (g 15%nat)) (g 16%nat))])
  end.

Definition round (h : Hash) (kw : N * N) : Hash :=
  let '(k, w) := kw in
  let t1 := add32 (add32 (add32 (hh h) (Sigma1 (he h))) (add32 (Ch (he h) (hf h) (hg h)) k)) w in
  let t2 := add32 (Sigma0 (ha h)) (Maj (ha h) (hb h) (hc h)) in
  mkHash (add32 t1 t2) (ha h) (hb h) (hc h) (add32 (hd h) t1) (he h) (hf h) (hg h).

Definition compress (h : Hash) (block : list N) : Hash :=
  let w := extend 48 (words block) in
  let r := fold_left round (combine K w) h in
  mkHash (add32 (ha h) (ha r)) (add32 (hb h) (hb r)) (add32 (hc h) (hc r)) (add32 (hd h) (hd r))
         (add32 (he h) (he r)) (add32 (hf h) (hf r)) (add32 (hg h) (hg r)) (add32 (hh h) (hh r)).

Fixpoint blocks (n : nat) (bs : list N) (h : Hash) : Hash :=
  match n with
  | O => h
  | S n' => blocks n' (skipn 64 bs) (compress h (firstn 64 bs))
  end.

Definition toByte (n : N) : byte :=
  match Byte.of_N n with Some b => b | None => x00 end.

Definition output (h : Hash) : list byte :=
  List.map toByte
    (be_bytes 4 (ha h) ++ be_bytes 4 (hb h) ++ be_bytes 4 (hc h) ++ be_bytes 4 (hd h) ++
     be_bytes 4 (he h) ++ be_bytes 4 (hf h) ++ be_bytes 4 (hg h) ++ be_bytes 4 (hh h)).

Definition digest (msg : list byte) : list byte :=
  let p := pad (List.map Byte.to_N msg) in
  output (blocks (length p / 64) p H0).

End SHA256.

(** * Instances of the crypto interface for concrete runs

    [testCrypto] has every operation succeed (with SHA-256 as the digest);
    [encryptFails] differs in that [encryptMessage] throws; [noSubtle] is a
    context without [crypto.subtle]; [digestFails] has the digest throw. *)

Definition testCrypto : CryptoOps :=
  mkCryptoOps true
    (fun ecdh pub => Some (mkSharedKey ("shared:" ++ pub)%string "skfp"))
    (fun key plain => Some ("iv0", "ct(" ++ plain ++ ")"))%string
    (fun key iv ct => Some ("plain(" ++ ct ++ ")"))%string
    (fun priv data => Some ("sig(" ++ data ++ ")"))%string
    (fun pk => Some pk)
    (fun key sig data => Some true)
    (fun gk priv pub => Some ("iv1", "wrapped"))%string
    (fun bytes => Some (SHA256.digest bytes)).


Definition noSubtle : CryptoOps :=
  mkCryptoOps false (deriveSharedKey testCrypto) (encryptMessage testCrypto)
    (decryptMessage testCrypto) (signData testCrypto) (importPublicKey testCrypto)
    (verifySignature testCrypto) (wrapGroupKey testCrypto) (digest testCrypto).

Definition digestFails : CryptoOps :=
  mkCryptoOps true (deriveSharedKey testCrypto) (encryptMessage testCrypto)
    (decryptMessage testCrypto) (signData testCrypto) (importPublicKey testCrypto)
    (verifySignature testCrypto) (wrapGroupKey testCrypto) (fun _ => None).

(** * Observations on the effect log and concrete states for runs *)

(** The ['message'] payloads sent on connection [c], oldest first. *)
Definition directPayloads (c : nat) (effs : list Effect) : list DirectMsg.t :=
  omap (fun e => match e with
                 | Send c' (W_message d) => if Nat.eqb c c' then Some d else None
                 | _ => None
                 end) effs.

(** A payload is plaintext when it carries the raw content and none of the
    fields [iv], [ct], [sig], [e2e]; it is encrypted when it carries [iv],
    [ct], [sig] and [e2e: true] and no content. *)
Definition isPlaintext (d : DirectMsg.t) : bool :=
  negb (DirectMsg.e2e d) && negb (bool_decide (is_Some (DirectMsg.iv d)))
  && negb (bool_decide (is_Some (DirectMsg.ct d)))
  && negb (bool_decide (is_Some (DirectMsg.sig d))).


Definition emptyMgr : Mgr.t :=
  Mgr.mk [] ∅ ∅ ∅ ∅ ∅ ∅ ∅ None None EmptyString EmptyString EmptyString EmptyString ∅ [].

(** Our own identity, with both keys loaded. *)
Definition meMgr : Mgr.t :=
  Mgr.mk [] ∅ ∅ ∅ ∅ ∅ ∅ ∅ (Some "priv-me"%string) (Some "ecdh-me"%string)
         "pk-me" "Me" "pid-me" "fp-me" ∅ [].

Definition aliceConn : Conn.t := Conn.mk 1 "pid-alice" true.

(** A saved contact with a public key, connected over [aliceConn]. *)
Definition alice : Contact.t :=
  Contact.mk "Alice" (Some "fp-alice"%string) (Some "pk-alice"%string) "pid-alice"
             (Some ["pid-alice"%string]) None "uuid-alice" None (Some aliceConn)
             false None None None None false.

Definition aliceMgr : Mgr.t :=
  Mgr.set_contacts [("fp-alice"%string, alice)] meMgr.

Definition textMsg (id content : string) (ts : Z) (status : Status) : ChatMessage.t :=
  ChatMessage.mk id sent (Some text) (Some content) None None None ts (Some status)
                 false false None None None None.

Definition groupMsg (id sender content : string) (ts : Z) : GroupMessage.t :=
  GroupMessage.mk id "g1" sender sender content ts g_text None None None None (Some g_sent)
                  false false false None None.

Definition groupInfo : GroupInfo.t :=
  GroupInfo.mk "g1" "Friends" "fp-me" 0 [] None None.

(** A group of which we are the router, with three stored messages. *)
Definition routerState : GroupNSState.t :=
  GroupNSState.mk true [] None "g1" groupInfo
    [groupMsg "a" "fp-bob" "one" 10; groupMsg "b" "fp-bob" "two" 20;
     groupMsg "c" "fp-carol" "three" 30]
    (Some "group-key"%string) None.

Definition routerMgr : Mgr.t :=
  Mgr.set_groups {[ "g1"%string := routerState ]} meMgr.

(** The same group seen by a member connected to its router. *)
Definition memberState : GroupNSState.t :=
  GroupNSState.mk false [] (Some (Conn.mk 9 "router" true)) "g1" groupInfo []
                  (Some "group-key"%string) None.

Definition memberMgr : Mgr.t :=
  Mgr.set_groups {[ "g1"%string := memberState ]} meMgr.

(** Bob twice: a record keyed by his current PID, connected, and an older
    record keyed by his fingerprint, each with a chat history. *)
Definition bobByPID : Contact.t :=
  Contact.mk "Bob" None (Some "pk-bob"%string) "pid-bob-2" (Some ["pid-bob-2"%string])
             None "uuid-bob" None (Some (Conn.mk 4 "pid-bob-2" true))
             false None None None None false.

Definition bobByFP : Contact.t :=
  Contact.mk "Bob" (Some "fp-bob"%string) None "pid-bob-1" (Some ["pid-bob-1"%string])
             None "uuid-bob" None None false None None None None false.

Definition twoBobs : Mgr.t :=
  Mgr.set_chats
    {[ "pid-bob-2"%string := [textMsg "m2" "b" 20 delivered; textMsg "m1" "a" 10 delivered];
       "fp-bob"%string := [textMsg "m1" "a" 10 delivered; textMsg "m3" "c" 30 waiting] ]}
    (Mgr.set_contacts [("pid-bob-2"%string, bobByPID); ("fp-bob"%string, bobByFP)] meMgr).

(** A registry with our self-entry and an entry of an earlier broadcast,
    and a broadcast that lists us, Alice and Bob. *)
Definition meEntry : PeerInfo.t :=
  PeerInfo.mk "disc-me" "Me" 5 true None None (Some "pk-me"%string).




(** An exchange from Alice, who got a new PID, on an open connection. *)
Definition rvzFromAlice : RvzExchange.t :=
  RvzExchange.mk (Some "pid-alice-2"%string) (Some "Alice"%string) None
                 (Some "pk-alice"%string)
                 (Some "1700000000000"%string) (Some "sig"%string).

Definition rvzConn : Conn.t := Conn.mk 7 "disc-alice" true.


(** The claim of the specification about duplicate deliveries, read
    literally for a direct ['message']: the second delivery changes nothing. *)
Definition direct_message_idempotent : Prop :=
  forall (C : CryptoOps) (uuid uuid' : string) (d : DirectMsg.t) (conn : Conn.t) (m : Mgr.t),
    let m1 := Messaging.handlePersistentData C uuid (Messaging.D_message d) conn m in
    Messaging.handlePersistentData C uuid' (Messaging.D_message d) conn m1 = m1.

(** The claim of the specification about the periodic reset, read literally:
    a ['sent'] message that has waited for its acknowledgment for less than
    2 minutes at the time [now] of the reset is left unchanged. *)
Definition reset_spares_recent (now : Z) : Prop :=
  forall (m : Mgr.t) (k : string) (msgs : list ChatMessage.t) (msg : ChatMessage.t),
    Mgr.chats m !! k = Some msgs -> In msg msgs ->
    Messaging.unacked msg = true -> now - ChatMessage.ts msg < 120000 ->
    exists msgs', Mgr.chats (Messaging.resetUnackedMessages m) !! k = Some msgs' /\
                  In msg msgs'.

(** * The signaling gate: [peer-queue.ts] *)

Module PeerQueue.

Inductive Priority := high | normal.

(** [QueueEntry]: the callback is an opaque closure; it is represented by a
    handle and running it is recorded in the [executed] log of the gate. *)
Record QueueEntry := mkEntry { fn : nat; priority : Priority }.

Definition BASE_INTERVAL : Z := 1500.
Definition THROTTLE_MULTIPLIER : Z := 3.
Definition MAX_INTERVAL : Z := 15000.
Definition THROTTLE_DECAY : Z := 60000.
Definition PROBE_COOLDOWN : Z := 10000.

(** The private fields of [class PeerQueue].  [timer] holds the due time of
    the pending [setTimeout] (the time it was armed plus its delay). *)
Record t := mk {
  queue : list QueueEntry;
  lastCreate : Z;
  timer : option Z;
  throttleCount : Z;
  lastThrottleTs : Z;
  lastProbeTs : Z;
  lastProbeResult : option bool;
  totalCreated : Z;
  networkDown : bool;
  executed : list nat
}.

Definition init : t :=
  mk [] 0 None 0 0 0 None 0 false [].

Definition set_queue (q : list QueueEntry) (s : t) : t :=
  mk q (lastCreate s) (timer s) (throttleCount s) (lastThrottleTs s)
     (lastProbeTs s) (lastProbeResult s) (totalCreated s) (networkDown s) (executed s).
Definition set_timer (tm : option Z) (s : t) : t :=
  mk (queue s) (lastCreate s) tm (throttleCount s) (lastThrottleTs s)
     (lastProbeTs s) (lastProbeResult s) (totalCreated s) (networkDown s) (executed s).
Definition set_throttleCount (c : Z) (s : t) : t :=
  mk (queue s) (lastCreate s) (timer s) c (lastThrottleTs s)
     (lastProbeTs s) (lastProbeResult s) (totalCreated s) (networkDown s) (executed s).
Definition set_lastThrottleTs (ts : Z) (s : t) : t :=
  mk (queue s) (lastCreate s) (timer s) (throttleCount s) ts
     (lastProbeTs s) (lastProbeResult s) (totalCreated s) (networkDown s) (executed s).
Definition set_probe (ts : Z) (r : option bool) (s : t) : t :=
  mk (queue s) (lastCreate s) (timer s) (throttleCount s) (lastThrottleTs s)
     ts r (totalCreated s) (networkDown s) (executed s).
Definition set_networkDown (b : bool) (s : t) : t :=
  mk (queue s) (lastCreate s) (timer s) (throttleCount s) (lastThrottleTs s)
     (lastProbeTs s) (lastProbeResult s) (totalCreated s) b (executed s).

(** The interval as a function of the throttle count (the part of the
    getter after the decay). *)
Definition intervalOf (c : Z) : Z :=
  if c =? 0 then BASE_INTERVAL
  else Z.min (BASE_INTERVAL * THROTTLE_MULTIPLIER ^ (Z.min c 4)) MAX_INTERVAL.

(** [get currentInterval]: the getter first decays the throttle count (a
    write to [this.throttleCount]), then computes the interval. *)
Definition decay (now : Z) (s : t) : t :=
  if (0 <? throttleCount s) && (THROTTLE_DECAY <? now - lastThrottleTs s)
  then set_throttleCount (Z.max 0 (throttleCount s - 1)) s
  else s.

Definition currentInterval (now : Z) (s : t) : Z * t :=
  let s1 := decay now s in
  (intervalOf (throttleCount s1), s1).

(** [emitState] builds [this.state], which reads [currentInterval]; the
    listeners only observe the snapshot. *)
Definition emitState (now : Z) (s : t) : t := snd (currentInterval now s).

(** [flush]. *)
Definition flush (now : Z) (s : t) : t :=
  match queue s with
  | [] => s
  | entry :: rest =>
    if networkDown s then s
    else
      let '(interval, s1) := currentInterval now s in
      let elapsed := now - lastCreate s1 in
      if elapsed <? interval then
        match timer s1 with
        | None => set_timer (Some (now + (interval - elapsed))) s1
        | Some _ => s1
        end
      else
        let s2 := mk rest now (timer s1) (throttleCount s1) (lastThrottleTs s1)
                     (lastProbeTs s1) (lastProbeResult s1) (totalCreated s1 + 1)
                     (networkDown s1) (executed s1 ++ [fn entry]) in
        let s3 := emitState now s2 in
        match queue s3, timer s3 with
        | _ :: _, None =>
          let '(i2, s4) := currentInterval now s3 in
          set_timer (Some (now + i2)) s4
        | _, _ => s3
        end
  end.

(** The [setTimeout] callback of [flush]: [this.timer = null; this.flush()].
    It can run at any time [now] not before the due time. *)
Definition timerFire (now : Z) (s : t) : t :=
  match timer s with
  | Some due => if due <=? now then flush now (set_timer None s) else s
  | None => s
  end.

(** [queue.findIndex(e => e.priority === 'normal')] then [splice]/[push]. *)
Fixpoint insertHigh (e : QueueEntry) (q : list QueueEntry) : list QueueEntry :=
  match q with
  | [] => [e]
  | x :: q' =>
    match priority x with
    | normal => e :: x :: q'
    | high => x :: insertHigh e q'
    end
  end.

Definition schedule (now : Z) (f : nat) (p : Priority) (s : t) : t :=
  let entry := mkEntry f p in
  let q := match p with
           | high => insertHigh entry (queue s)
           | normal => queue s ++ [entry]
           end in
  flush now (set_queue q s).

(** [probeNetwork] is asynchronous and runs in two parts.  When it is called,
    at [now], it tests the cache (l.240-243): a result whose probe was
    called less than [PROBE_COOLDOWN] ago is returned without a request. *)
Definition probeCached (now : Z) (s : t) : option bool :=
  match lastProbeResult s with
  | Some r => if now - lastProbeTs s <? PROBE_COOLDOWN then Some r else None
  | None => None
  end.

(** Otherwise it sends the HEAD request and gives way.  Once the request
    has settled ([fetchOk] is false when it throws or is aborted) the
    result is written to the cache, dated with the time [started] at which
    the probe was called (l.245-261). *)
Definition probeSettled (started : Z) (fetchOk : bool) (s : t) : t :=
  set_probe started (Some fetchOk) s.

(** A probe during which nothing else runs on the queue: the two parts in
    one step. *)
Definition probeNetwork (now : Z) (fetchOk : bool) (s : t) : bool * t :=
  match probeCached now s with
  | Some r => (r, s)
  | None => (fetchOk, probeSettled now fetchOk s)
  end.

(** The [.then] continuation of [reportSignalingError], run at [now] with
    the result of the probe. *)
Definition onProbeResult (now : Z) (networkUp : bool) (s : t) : t :=
  if networkUp then
    let s1 := set_networkDown false s in
    let s2 := set_throttleCount (throttleCount s1 + 1) s1 in
    let s3 := set_lastThrottleTs now s2 in
    let s4 := snd (currentInterval now s3) in   (* the log line reads the getter *)
    emitState now s4
  else
    let s1 := set_networkDown true s in
    let s2 := set_queue [] s1 in
    let s3 := set_timer None s2 in
    emitState now s3.

(** [reportSignalingError] when nothing else runs on the queue before its
    continuation: the probe is called at [now], the continuation runs at
    [now'].  (The parts of a report that overlaps with other operations are
    operations of their own in [QueueRuns].) *)
Definition reportSignalingError (now now' : Z) (fetchOk : bool) (s : t) : t :=
  let '(up, s1) := probeNetwork now fetchOk s in
  onProbeResult now' up s1.

Definition reportSignalingSuccess (now : Z) (s : t) : t :=
  let s1 := if networkDown s then set_networkDown false s else s in
  let s2 := if 0 <? throttleCount s1
            then set_throttleCount (Z.max 0 (throttleCount s1 - 1)) s1 else s1 in
  let s3 := emitState now s2 in
  flush now s3.

Definition cancelAll (s : t) : t := set_timer None (set_queue [] s).

(** A run of the event loop in which only the gate's own timer fires:
    the i-th firing happens [late_i] ms after its due time. *)
Fixpoint drain (lates : list Z) (s : t) : t :=
  match lates with
  | [] => s
  | late :: ls =>
    match timer s with
    | Some due => drain ls (timerFire (due + late) s)
    | None => s
    end
  end.

(** Scheduling a batch of callbacks, each at its own time. *)
Fixpoint scheduleAll (jobs : list (Z * nat * Priority)) (s : t) : t :=
  match jobs with
  | [] => s
  | (now, f, p) :: js => scheduleAll js (schedule now f p s)
  end.

(** The queue after a batch of [schedule] calls that run no callback (the
    insertion part of [schedule] alone). *)
Definition enqueue (q : list QueueEntry) (job : Z * nat * Priority) : list QueueEntry :=
  let '(_, f, p) := job in
  match p with
  | high => insertHigh (mkEntry f p) q
  | normal => q ++ [mkEntry f p]
  end.

(** Invariants of a gate that is processing: the throttle count is never
    negative, and a pending timer is due no earlier than one interval after
    the last creation; with no timer pending the queue is empty. *)
Definition timer_ok (s : t) : Prop :=
  match timer s with
  | Some due => lastCreate s + intervalOf (throttleCount s) <= due
  | None => queue s = []
  end.

Definition running (s : t) : Prop :=
  networkDown s = false /\ 0 <= throttleCount s /\ timer_ok s.

(** The claim of the specification read literally: an entry that is pending
    when the failed probe is reported is still queued afterwards. *)
Definition pending_entries_survive : Prop :=
  forall now now' fetchOk s e,
    fst (probeNetwork now fetchOk s) = false ->
    In e (queue s) -> In e (queue (reportSignalingError now now' fetchOk s)).

End PeerQueue.

(** * Runs of the peer queue: the operations of [peer-queue.ts] in sequence *)

Module QueueRuns.
Import PeerQueue.

(** The public methods of [PeerQueue] and the callback of its timer.

    An error report acts on the queue at up to three moments: the call,
    which tests the probe cache and changes nothing; the settling of the
    HEAD request, if one was sent, which writes the cache; and the [.then]
    continuation, which receives the result.  [OpError] is a report during
    which nothing else runs on the queue: the probe is called when the
    operation runs and the continuation follows [wait] ms later.
    [OpProbeSettled] and [OpProbeResult] are the two later moments on their
    own, for a report that other operations overlap: the request of a probe
    called at [started] settles, and the continuation of a report runs with
    the result [networkUp] of its probe.  A run does not check that a
    settling or a continuation belongs to a report made earlier, so what
    holds of every run holds of every execution of the queue. *)
Inductive Op :=
| OpSchedule (f : nat) (p : Priority)
| OpTimer
| OpError (wait : Z) (fetchOk : bool)
| OpProbeSettled (started : Z) (fetchOk : bool)
| OpProbeResult (networkUp : bool)
| OpSuccess
| OpCancel.

(** One operation, run at the time [now]. *)
Definition step (now : Z) (o : Op) (s : t) : t :=
  match o with
  | OpSchedule f p => schedule now f p s
  | OpTimer => timerFire now s
  | OpError wait fetchOk => reportSignalingError now (now + wait) fetchOk s
  | OpProbeSettled started fetchOk => probeSettled started fetchOk s
  | OpProbeResult networkUp => onProbeResult now networkUp s
  | OpSuccess => reportSignalingSuccess now s
  | OpCancel => cancelAll s
  end.

(** The probe result that the continuation of an error report receives,
    for the operations that run one. *)
Definition reported (now : Z) (o : Op) (s : t) : option bool :=
  match o with
  | OpError _ fetchOk => Some (fst (probeNetwork now fetchOk s))
  | OpProbeResult networkUp => Some networkUp
  | _ => None
  end.

Fixpoint run (ops : list (Z * Op)) (s : t) : t :=
  match ops with
  | [] => s
  | (now, o) :: rest => run rest (step now o s)
  end.

(** The times at which a run creates a peer, that is, runs a callback of
    the queue ([totalCreated] grows), oldest first. *)
Fixpoint creations (ops : list (Z * Op)) (s : t) : list Z :=
  match ops with
  | [] => []
  | (now, o) :: rest =>
    let s' := step now o s in
    if totalCreated s <? totalCreated s' then now :: creations rest s'
    else creations rest s'
  end.

(** Consecutive times of a list, starting after [prev], are at least the
    base interval apart. *)
Fixpoint spaced (prev : Z) (ts : list Z) : Prop :=
  match ts with
  | [] => True
  | t :: ts' => prev + BASE_INTERVAL <= t /\ spaced t ts'
  end.

Definition isHigh (e : QueueEntry) : bool :=
  match priority e with high => true | normal => false end.

Definition isNormal (e : QueueEntry) : bool := negb (isHigh e).

(** What holds of the queue object whatever is called on it. *)
Definition inv (s : t) : Prop :=
  0 <= throttleCount s /\
  (networkDown s = true -> timer s = None) /\
  queue s = List.filter isHigh (queue s) ++ List.filter isNormal (queue s).

(** An operation that writes no probe result. *)
Definition keepsProbe (o : Z * Op) : Prop :=
  match snd o with
  | OpError _ _ | OpProbeSettled _ _ => False
  | _ => True
  end.

End QueueRuns.

(** * Geohashes: [geohash.ts]

    A JavaScript number that holds a coordinate is a rational of [Q]: every
    finite double is one, the comparisons of the code are exact, and the
    interval bounds the loops compute (halvings of the ranges [-90, 90] and
    [-180, 180]) are dyadic rationals that a double holds exactly as long as
    a hash has at most 18 characters; the statements below are about hashes
    of at most 12 characters.  [NaN] and the infinities are not modelled.
    The [precision] argument is a natural number. *)

Module Geohash.
Local Open Scope Q_scope.

Definition BASE32 : string := "0123456789bcdefghjkmnpqrstuvwxyz".

(** The four bounds of the loops of [encode] and [decode]. *)
Record Box := mkBox { minLat : Q; maxLat : Q; minLng : Q; maxLng : Q }.

Definition world : Box := mkBox (-90) 90 (-180) 180.

Definition mid (lo hi : Q) : Q := (lo + hi) / 2.

(** The body shared by the loops of [encode] and [decode]: the range of one
    coordinate is cut at its middle and its upper or its lower half kept. *)
Definition narrow (isLng upper : bool) (b : Box) : Box :=
  if isLng then
    if upper
    then mkBox (minLat b) (maxLat b) (mid (minLng b) (maxLng b)) (maxLng b)
    else mkBox (minLat b) (maxLat b) (minLng b) (mid (minLng b) (maxLng b))
  else
    if upper
    then mkBox (mid (minLat b) (maxLat b)) (maxLat b) (minLng b) (maxLng b)
    else mkBox (minLat b) (mid (minLat b) (maxLat b)) (minLng b) (maxLng b).

(** The variables of the loop of [encode]. *)
Record Enc := mkEnc { box : Box; hash : string; bit : Z; ch : Z; isLng : bool }.

(** [lng >= mid] or [lat >= mid], for the coordinate in turn. *)
Definition upperHalf (lat lng : Q) (isLng : bool) (b : Box) : bool :=
  if isLng then Qle_bool (mid (minLng b) (maxLng b)) lng
  else Qle_bool (mid (minLat b) (maxLat b)) lat.

(** [hash += BASE32[ch]]. *)
Definition appendChar (hash : string) (ch : Z) : string :=
  match String.get (Z.to_nat ch) BASE32 with
  | Some c => (hash ++ String c EmptyString)%string
  | None => (hash ++ "undefined")%string
  end.

(** One iteration of the [while] loop of [encode]. *)
Definition encodeStep (lat lng : Q) (e : Enc) : Enc :=
  let upper := upperHalf lat lng (isLng e) (box e) in
  let ch1 := if upper then Z.lor (ch e) (Z.shiftl 1 (4 - bit e)) else ch e in
  let box1 := narrow (isLng e) upper (box e) in
  let bit1 := (bit e + 1)%Z in
  if (bit1 =? 5)%Z
  then mkEnc box1 (appendChar (hash e) ch1) 0 0 (negb (isLng e))
  else mkEnc box1 (hash e) bit1 ch1 (negb (isLng e)).

(** [while (hash.length < precision)]. *)
Fixpoint encodeLoop (fuel precision : nat) (lat lng : Q) (e : Enc) : string :=
  match fuel with
  | O => hash e
  | S fuel' =>
    if (String.length (hash e) <? precision)%nat
    then encodeLoop fuel' precision lat lng (encodeStep lat lng e)
    else hash e
  end.

(** [encode(lat, lng, precision)]: five iterations give one character. *)
Definition encode (lat lng : Q) (precision : nat) : string :=
  encodeLoop (5 * precision) precision lat lng (mkEnc world EmptyString 0 0 true).

(** [BASE32.indexOf(c)]. *)
Fixpoint indexOf (c : ascii) (s : string) : option nat :=
  match s with
  | EmptyString => None
  | String c' s' => if Ascii.eqb c c' then Some O else S <$> indexOf c s'
  end.

(** The body of the inner [for] of [decode], for one [bit]. *)
Definition decodeBit (idx : Z) (acc : Box * bool) (bit : Z) : Box * bool :=
  let '(b, isLng) := acc in
  (narrow isLng (negb (Z.land idx (Z.shiftl 1 bit) =? 0)%Z) b, negb isLng).

(** The body of the outer [for] of [decode]: a character that is not in the
    alphabet is skipped. *)
Definition decodeChar (acc : Box * bool) (c : ascii) : Box * bool :=
  match indexOf c BASE32 with
  | None => acc
  | Some idx => fold_left (decodeBit (Z.of_nat idx)) [4; 3; 2; 1; 0]%Z acc
  end.

(** The bounds when the loops of [decode] end. *)
Definition decodeBox (hash : string) : Box :=
  fst (fold_left decodeChar (list_ascii_of_string hash) (world, true)).

(** [decode(hash)]: the pair [(lat, lng)]. *)
Definition decode (hash : string) : Q * Q :=
  let b := decodeBox hash in
  (mid (minLat b) (maxLat b), mid (minLng b) (maxLng b)).

(** The iterations of [encode] taken [n] at a time from the bounds [b]:
    the halves chosen, and the bounds and the coordinate in turn after them. *)
Fixpoint pointBits (n : nat) (lat lng : Q) (isLng : bool) (b : Box)
  : list bool * (Box * bool) :=
  match n with
  | O => ([], (b, isLng))
  | S n' =>
    let u := upperHalf lat lng isLng b in
    let '(us, r) := pointBits n' lat lng (negb isLng) (narrow isLng u b) in
    (u :: us, r)
  end.

(** The bounds after the halves [us], chosen for the two coordinates in turn. *)
Definition narrowBits (us : list bool) (acc : Box * bool) : Box * bool :=
  fold_left (fun (a : Box * bool) (u : bool) => (narrow (snd a) u (fst a), negb (snd a))) us acc.

(** [w / 2^n]. *)
Fixpoint halved (n : nat) (w : Q) : Q :=
  match n with
  | O => w
  | S n' => halved n' w / 2
  end.

(** The value of [ch] after the bits [us], most significant first. *)
Definition indexOfBits (us : list bool) : Z :=
  fold_left (fun acc (u : bool) => if u then (2 * acc + 1)%Z else (2 * acc)%Z) us 0%Z.

(** [encode] character by character. *)
Fixpoint encodeChars (k : nat) (lat lng : Q) (isLng : bool) (b : Box) : string :=
  match k with
  | O => EmptyString
  | S k' =>
    let '(us, (b5, isLng5)) := pointBits 5 lat lng isLng b in
    appendChar EmptyString (indexOfBits us) ++ encodeChars k' lat lng isLng5 b5
  end%string.

(** Bounds with a lower bound below the upper one, and bounds within bounds. *)
Definition proper (b : Box) : Prop := minLat b < maxLat b /\ minLng b < maxLng b.

Definition within (b' b : Box) : Prop :=
  minLat b <= minLat b' /\ maxLat b' <= maxLat b /\
  minLng b <= minLng b' /\ maxLng b' <= maxLng b.

(** A point lies strictly inside a box. *)
Definition inside (b : Box) (lat lng : Q) : Prop :=
  minLat b < lat /\ lat < maxLat b /\ minLng b < lng /\ lng < maxLng b.

(** The characters of a hash are in the alphabet. *)
Definition wellFormed (hash : string) : Prop :=
  Forall (fun c => indexOf c BASE32 <> None) (list_ascii_of_string hash).

(** A point lies in a box, bounds included. *)
Definition contains (b : Box) (lat lng : Q) : Prop :=
  minLat b <= lat /\ lat <= maxLat b /\ minLng b <= lng /\ lng <= maxLng b.

End Geohash.

(** * Direct messages, continued: [markWaitingMessagesFailed] of
      [p2p-messaging.ts], [retryMessage] of [p2p.ts], and runs of the
      handlers that move a message through its statuses *)

Module Chat.
Section WithCrypto.
Context (C : CryptoOps).

(** The test of [markWaitingMessagesFailed]. *)
Definition stalled (msg : ChatMessage.t) : bool :=
  match ChatMessage.dir msg, ChatMessage.status msg with
  | sent, Some waiting => true
  | _, _ => false
  end.

Definition failMessage (msg : ChatMessage.t) : ChatMessage.t :=
  if stalled msg then ChatMessage.set_status (Some failed) msg else msg.

(** [markWaitingMessagesFailed]. *)
Definition markWaitingMessagesFailed (contactKey : string) (m : Mgr.t) : Mgr.t :=
  match Mgr.chats m !! contactKey with
  | None => m
  | Some msgs =>
    let m1 := Mgr.set_chats (<[contactKey := List.map failMessage msgs]> (Mgr.chats m)) m in
    if existsb stalled msgs
    then emit (Dispatch "message" contactKey) (emit SaveChats m1)
    else m1
  end.

(** [msgs.find(m => m.id === id && m.dir === 'sent' && m.status === 'failed')]
    and the assignment [msg.status = 'waiting']. *)
Fixpoint retryFirst (id : string) (msgs : list ChatMessage.t) : option (list ChatMessage.t) :=
  match msgs with
  | [] => None
  | msg :: rest =>
    if String.eqb (ChatMessage.id msg) id
       && match ChatMessage.dir msg, ChatMessage.status msg with
          | sent, Some failed => true
          | _, _ => false
          end
    then Some (ChatMessage.set_status (Some waiting) msg :: rest)
    else cons msg <$> retryFirst id rest
  end.

(** [retryMessage(contactKey, id)]. *)
Definition retryMessage (contactKey id : string) (m : Mgr.t) : Mgr.t :=
  match Mgr.chats m !! contactKey with
  | None => m
  | Some msgs =>
    match retryFirst id msgs with
    | None => m
    | Some msgs' =>
      let c := JsObj.get contactKey (Mgr.contacts m) in
      let pid := match c with
                 | Some c => Js.orElse (Some (Contact.currentPID c)) contactKey
                 | None => contactKey
                 end in
      let m1 := Mgr.set_connectFailures (delete pid (Mgr.connectFailures m))
                  (Mgr.set_chats (<[contactKey := msgs']> (Mgr.chats m)) m) in
      let m2 := emit (Dispatch "message" contactKey) (emit SaveChats m1) in
      match c with
      | Some c => emit (ConnectPersistent pid (Contact.friendlyName c)) m2
      | None => m2
      end
    end
  end.

(** What one flush does to a message of the chat. *)
Definition flushed (msg : ChatMessage.t) : ChatMessage.t :=
  if Messaging.queued msg && Messaging.isText msg
  then ChatMessage.set_status (Some st_sent) msg else msg.

(** The handlers and calls that touch stored messages, as events of a run:
    a delivery on a connection, the periodic reset, the reset on close, the
    mark after the last failed connection attempt, a retry asked by the
    user, a flush, and a new message typed by the user. *)
Inductive Event :=
| EvData (uuid : string) (d : Messaging.PersistentData) (conn : Conn.t)
| EvResetUnacked
| EvResetContact (contactKey : string)
| EvMarkFailed (contactKey : string)
| EvRetry (contactKey id : string)
| EvFlush (contactKey : string)
| EvSend (now : Z) (uuid contactKey content : string).

Definition handle (e : Event) (m : Mgr.t) : Mgr.t :=
  match e with
  | EvData uuid d conn => Messaging.handlePersistentData C uuid d conn m
  | EvResetUnacked => Messaging.resetUnackedMessages m
  | EvResetContact k => Messaging.resetContactMessages k m
  | EvMarkFailed k => markWaitingMessagesFailed k m
  | EvRetry k id => retryMessage k id m
  | EvFlush k => Messaging.flushMessageQueue C k m
  | EvSend now uuid k content => Messaging.sendMessage C now uuid k content m
  end.

(** Every delivered message of [msgs] is at its place, unchanged, in [msgs']. *)
Definition keeps (msgs msgs' : list ChatMessage.t) : Prop :=
  forall i msg, msgs !! i = Some msg -> ChatMessage.status msg = Some delivered ->
                msgs' !! i = Some msg.

Definition handleAll (es : list Event) (m : Mgr.t) : Mgr.t := fold_left (fun m e => handle e m) es m.

(** The state in which a connection to a contact has been opened:
    [mgr.contacts[ck].conn = conn]. *)
Definition withConn (contactKey : string) (conn : Conn.t) (m : Mgr.t) : Mgr.t :=
  Mgr.set_contacts (JsObj.update contactKey (Contact.set_conn (Some conn)) (Mgr.contacts m)) m.

(** The laws of the cipher and of the signature that a round trip between
    two peers relies on: a ciphertext decrypts to its plaintext under the
    key it was made with, neither part of it is the empty string, and a
    signature made with the private key [priv] verifies under the imported
    public key [pub]. *)
Definition cipherLaws : Prop :=
  forall key plain iv ct,
    encryptMessage C key plain = Some (iv, ct) ->
    decryptMessage C key iv ct = Some plain /\ iv <> EmptyString /\ ct <> EmptyString.

Definition signatureLaws (priv pub : CryptoKey) : Prop :=
  forall data sig, signData C priv data = Some sig ->
    verifySignature C pub (Some sig) data = Some true.

(** The receiving end can read what a sender holding the shared key [skS]
    and the signing key [privS] encrypts: the key it derives for the contact
    [ck] is the sender's, and the contact's stored public key imports to a
    key that verifies the sender's signatures. *)
Definition receiverReady (ck : string) (m : Mgr.t) (skS : option SharedKey)
    (privS : option CryptoKey) : Prop :=
  exists skR contact pub,
    fst (Messaging.getOrDeriveSharedKey C ck m) = Some skR /\
    (forall sk, skS = Some sk -> key sk = key skR) /\
    JsObj.get ck (Mgr.contacts (snd (Messaging.getOrDeriveSharedKey C ck m))) = Some contact /\
    Js.truthy (Contact.publicKey contact) = true /\
    importPublicKey C (default EmptyString (Contact.publicKey contact)) = Some pub /\
    (forall priv, privS = Some priv -> signatureLaws priv pub).

(** The message stored for an incoming ['message']. *)
Definition received (id content : string) (ts : Z) : ChatMessage.t :=
  ChatMessage.mk id recv (Some text) (Some content) None None None ts None false false
                 None None None None.

(** The three texts shown in place of an encrypted message that was not
    read. *)
Definition placeholders : list string :=
  ["[encrypted — decryption failed]"; "[unverified encrypted message]";
   "[encrypted — no shared key]"]%string.

(** What a reset followed by a flush sends again: the text messages we sent
    that are not ['delivered']. *)
Definition undelivered (msg : ChatMessage.t) : bool :=
  match ChatMessage.dir msg, ChatMessage.status msg with
  | sent, Some waiting | sent, Some failed | sent, Some st_sent => Messaging.isText msg
  | _, _ => false
  end.

End WithCrypto.

(** A crypto interface whose cipher is invertible, for concrete runs:
    [encryptMessage] prefixes the plaintext with a mark that
    [decryptMessage] removes. *)
Definition echoCrypto : CryptoOps :=
  mkCryptoOps true
    (fun ecdh pub => Some (mkSharedKey "shared" "skfp"))
    (fun key plain => Some ("iv0", String "#" plain))
    (fun key iv ct => match ct with String _ plain => Some plain | EmptyString => None end)
    (fun priv data => Some ("sig(" ++ data ++ ")"))%string
    (fun pk => Some pk)
    (fun key sig data => Some true)
    (fun gk priv pub => Some ("iv1", "wrapped"))%string
    (fun bytes => Some (SHA256.digest bytes)).

(** Alice's chat with a message of each status, and the state holding it. *)
Definition aliceChat : list ChatMessage.t :=
  [textMsg "a" "one" 10 waiting; textMsg "b" "two" 20 delivered;
   textMsg "c" "three" 30 failed; textMsg "d" "four" 40 st_sent].

Definition aliceChats : Mgr.t :=
  Mgr.set_chats {[ "fp-alice"%string := aliceChat ]} aliceMgr.

(** Alice's record while no connection to her is open. *)
Definition aliceOffline : Mgr.t :=
  Mgr.set_contacts [("fp-alice"%string, Contact.set_conn None alice)] aliceChats.

End Chat.

(** * Contact records, continued: [deleteContact] of [p2p.ts] *)

Module Roster.

(** [emitPeerListUpdate()]: the event ['peer-list-update'], which carries no
    detail. *)
Definition emitPeerListUpdate (m : Mgr.t) : Mgr.t :=
  emit (Dispatch "peer-list-update" EmptyString) m.

(** [deleteContact(contactKey)]. *)
Definition deleteContact (contactKey : string) (m : Mgr.t) : Mgr.t :=
  let c := JsObj.get contactKey (Mgr.contacts m) in
  let m1 := if Messaging.connOpen (c ← c; Contact.conn c)
            then match c ← c; Contact.conn c with
                 | Some conn => emit (Close (Conn.cid conn)) m
                 | None => m
                 end
            else m in
  let known := default [] (c ← c; Contact.knownPIDs c) in
  let p1 := fold_left (fun acc pid => delete pid acc) known (Mgr.pidToFP m1) in
  let p2 := match c with
            | Some c => if Js.truthy (Some (Contact.currentPID c))
                        then delete (Contact.currentPID c) p1 else p1
            | None => p1
            end in
  let m2 := Mgr.set_chats (delete contactKey (Mgr.chats m1))
              (Mgr.set_contacts (JsObj.del contactKey (Mgr.contacts m1))
                 (Mgr.set_sharedKeys (delete contactKey (Mgr.sharedKeys m1))
                    (Mgr.set_pidToFP p2 m1))) in
  emit (Log "contact-deleted") (emitPeerListUpdate (emit SaveChats (emit SaveContacts m2))).

(** The PIDs under which a contact record is known. *)
Definition pidsOf (c : Contact.t) : list string :=
  default [] (Contact.knownPIDs c)
  ++ (if Js.truthy (Some (Contact.currentPID c)) then [Contact.currentPID c] else []).

(** The ids of a chat history. *)
Definition ids (msgs : list ChatMessage.t) : list string := List.map ChatMessage.id msgs.

End Roster.

(** * The rendezvous exchange, continued: [connectPersistent] of
      [p2p-handshake.ts] up to the dial, and [rvzHandleExchange] with that
      call carried out *)

Module Handshake.

(** What [connectPersistent] reads of [mgr.persPeer]: absent or destroyed,
    disconnected from the signaling server, or ready. *)
Inductive PersPeer := persAbsent | persDisconnected | persReady.

(** The outcome of the call: the manager, the set [mgr.connectingPIDs] and
    the PID passed to [persPeer.connect], if the call dials.  The handlers
    that the call installs on the new connection run later and are not part
    of it. *)
Record Dialled := mkDialled {
  mgr : Mgr.t;
  connecting : list string;
  dialled : option string
}.

(** [connectPersistent(mgr, pid, fname)] (l.203-222). *)
Definition connectPersistent (persPeer : PersPeer) (connectingPIDs : list string)
    (pid fname : string) (m : Mgr.t) : Dialled :=
  match persPeer with
  | persAbsent => mkDialled m connectingPIDs None
  | persDisconnected => mkDialled (emit (Log "signaling-down") m) connectingPIDs None
  | persReady =>
    if existsb (String.eqb pid) connectingPIDs then mkDialled m connectingPIDs None
    else
      let '(ck, m1) := Messaging.contactKeyForPID pid m in
      let m2 :=
        match JsObj.get ck (Mgr.contacts m1) with
        | Some c =>
          match Contact.conn c with
          | Some conn =>
            if Conn.open conn then m1
            else Mgr.set_contacts
                   (JsObj.set ck (Contact.set_conn None c) (Mgr.contacts m1)) m1
          | None => m1
          end
        | None => m1
        end in
      if Messaging.connOpen (c ← JsObj.get ck (Mgr.contacts m2); Contact.conn c)
      then mkDialled (emit (Log "already-connected") m2) connectingPIDs None
      else mkDialled (emit (Log "opening-persistent-connection") m2)
                     (pid :: connectingPIDs) (Some pid)
  end.

Section WithCrypto.
Context (C : CryptoOps).

(** [rvzHandleExchange] with the call of [connectPersistent] that ends it
    carried out; [persPeer] and [connectingPIDs] are what the call finds. *)
Definition rvzHandleExchange (persPeer : PersPeer) (connectingPIDs : list string)
    (ts : string) (d : RvzExchange.t) (conn : Conn.t) (m : Mgr.t) : Mgr.t :=
  Rvz.rvzHandleExchangeWith C
    (fun pid fname m0 => mgr (connectPersistent persPeer connectingPIDs pid fname
                                                (Rvz.connectLater pid fname m0)))
    ts d conn m.

End WithCrypto.

(** Alice is also known, without a public key, under her new PID: a record
    of an earlier meeting, whose connection has closed. *)
Definition aliceByPID : Contact.t :=
  Contact.mk "Alice" None None "pid-alice-2" (Some ["pid-alice-2"%string])
             None "uuid-alice" None (Some (Conn.mk 8 "pid-alice-2" false))
             false None None None None false.

Definition twoAlices : Mgr.t :=
  Mgr.set_contacts (Mgr.contacts aliceMgr ++ [("pid-alice-2"%string, aliceByPID)]) aliceMgr.

End Handshake.

(** * Group chats, continued: the router's handler of ['group-message'] and
      the member's handler of ['group-backfill'] in [p2p-group.ts] *)

Module GroupSync.
Section WithCrypto.
Context (C : CryptoOps).

(** [groupHandleRouterData] for the type ['group-message'], run through: the
    message is stored unless its id is, decrypted for the router's own view,
    and relayed as it was received.  The handler awaits the decryption
    between the test of the id and the push; this is what it does when no
    other delivery for the group is handled in the meantime (the handler
    with its awaits is [GroupAwait.groupHandleRouterData_message]). *)
Definition groupHandleRouterData_message (groupId : string) (msg : GroupMessage.t)
    (m : Mgr.t) : Mgr.t :=
  match Mgr.groups m !! groupId with
  | None => m
  | Some state =>
    let m1 := if Group.hasId (GroupMessage.id msg) (GroupNSState.messages state) then m
              else emit (SaveGroupMessages groupId)
                     (Group.setMessages groupId state
                        (GroupNSState.messages state ++ [Group.localCopy C state msg]) m) in
    emit GroupEmit (Group.groupRelayMessage groupId msg m1)
  end.

(** [Array.prototype.sort((a, b) => a.ts - b.ts)] on group messages: the
    stable insertion sort by timestamp. *)
Fixpoint insertByTs (x : GroupMessage.t) (l : list GroupMessage.t) : list GroupMessage.t :=
  match l with
  | [] => [x]
  | y :: l' =>
    if GroupMessage.ts x <=? GroupMessage.ts y then x :: y :: l' else y :: insertByTs x l'
  end.

Definition sortByTs (l : list GroupMessage.t) : list GroupMessage.t :=
  fold_right insertByTs [] l.

(** The [for] loop of the ['group-backfill'] handler over the batch, run
    through: [acc] is [state.messages], to which the messages with a new id
    are pushed, and the flag is [added].  The loop awaits the decryption of
    each new encrypted message before it pushes it; this is what it
    computes when nothing else writes to the group in the meantime (the
    loop with its awaits is [GroupAwait.backfillFrom]). *)
Fixpoint backfillLoop (state : GroupNSState.t) (msgs acc : list GroupMessage.t)
    (added : bool) : list GroupMessage.t * bool :=
  match msgs with
  | [] => (acc, added)
  | msg :: rest =>
    if Group.hasId (GroupMessage.id msg) acc then backfillLoop state rest acc added
    else backfillLoop state rest (acc ++ [Group.localCopy C state msg]) true
  end.

(** [groupHandleMemberData] for the type ['group-backfill'], run through. *)
Definition groupHandleMemberData_backfill (groupId : string) (msgs : list GroupMessage.t)
    (m : Mgr.t) : Mgr.t :=
  match Mgr.groups m !! groupId with
  | None => m
  | Some state =>
    let '(acc, added) := backfillLoop state msgs (GroupNSState.messages state) false in
    if added
    then emit GroupEmit (emit (SaveGroupMessages groupId)
                           (Group.setMessages groupId state (sortByTs acc) m))
    else m
  end.

End WithCrypto.

(** The ids of a group history. *)
Definition ids (msgs : list GroupMessage.t) : list string := List.map GroupMessage.id msgs.

(** A group history in timestamp order. *)
Fixpoint sortedTs (l : list GroupMessage.t) : Prop :=
  match l with
  | [] => True
  | x :: l' =>
    match l' with
    | [] => True
    | y :: _ => GroupMessage.ts x <= GroupMessage.ts y /\ sortedTs l'
    end
  end.

(** The ['group-relay'] messages put on the wire, with the connection of
    each, oldest first. *)
Definition relays (effs : list Effect) : list (nat * GroupMessage.t) :=
  omap (fun e => match e with
                 | Send c (W_group_relay w) => Some (c, w)
                 | _ => None
                 end) effs.

(** The connections of the registry entries a broadcast reaches. *)
Definition reached (registry : JsObj.t PeerInfo.t) : list nat :=
  omap (fun r : PeerInfo.t =>
          match PeerInfo.conn r with
          | Some conn => if PeerInfo.isMe r then None else Some (Conn.cid conn)
          | None => None
          end) (JsObj.values registry).

(** The router of group [g1] with Bob and Carol connected. *)
Definition busyRouterState : GroupNSState.t :=
  GroupNSState.mk true
    [("disc-bob"%string,
      PeerInfo.mk "disc-bob" "Bob" 5 false (Some (Conn.mk 11 "pid-bob" true)) None
                  (Some "pk-bob"%string));
     ("disc-me"%string, meEntry);
     ("disc-carol"%string,
      PeerInfo.mk "disc-carol" "Carol" 5 false (Some (Conn.mk 12 "pid-carol" true)) None
                  (Some "pk-carol"%string))]
    None "g1" groupInfo [groupMsg "a" "fp-bob" "one" 10] (Some "group-key"%string) None.

Definition busyRouterMgr : Mgr.t :=
  Mgr.set_groups {[ "g1"%string := busyRouterState ]} meMgr.

End GroupSync.

(** * Group handlers that give way: [groupHandleRouterData] and
      [groupHandleMemberData] of [p2p-group.ts] with their [await]s

    The two handlers are [async], and [groupHandleNSData], which calls them
    for each delivery, does not wait for them.  For a message whose id is
    not stored they [await decryptMessage] between the test of the id and
    the push of the message, so the handler of another delivery can run in
    between.  Here a handler is a computation that is either finished or
    waiting for a decryption, to be resumed on the manager as it is by
    then.  The state object of the group that a handler holds is the one
    that [mgr.groups] has under the group id: what other handlers have
    written to it meanwhile is what the handler finds when it resumes; when
    the group has been removed meanwhile the handler is left with the object
    as it last saw it, and what it writes to it no longer reaches the
    manager. *)

Module GroupAwait.
Section WithCrypto.
Context (C : CryptoOps).

(** A handler in progress: finished, leaving the manager [m]; or having run
    up to an [await decryptMessage(key, iv, ct)], leaving the manager [m],
    with what it does once the decryption has settled (with the plaintext,
    or [None] when it throws) on the manager as it is then. *)
Inductive Async :=
| Done (m : Mgr.t)
| Await (m : Mgr.t) (key : CryptoKey) (iv ct : string)
        (continue : option string -> Mgr.t -> Async).

(** A waiting handler is resumed on the manager [now]; a finished one does
    nothing more. *)
Definition resume (a : Async) (now : Mgr.t) : Async :=
  match a with
  | Done _ => Done now
  | Await _ key iv ct continue => continue (decryptMessage C key iv ct) now
  end.

(** A handler run to its end with nothing else running in between: each
    time it resumes on the manager it left. *)
Fixpoint complete (a : Async) : Mgr.t :=
  match a with
  | Done m => m
  | Await m key iv ct continue => complete (continue (decryptMessage C key iv ct) m)
  end.

(** The state object [held] by a handler, as it is now. *)
Definition current (groupId : string) (held : GroupNSState.t) (m : Mgr.t) : GroupNSState.t :=
  default held (Mgr.groups m !! groupId).

(** [state.messages.push(msg)] on the state object of the group. *)
Definition pushMessage (groupId : string) (msg : GroupMessage.t) (m : Mgr.t) : Mgr.t :=
  match Mgr.groups m !! groupId with
  | Some state =>
    Group.setMessages groupId state (GroupNSState.messages state ++ [msg]) m
  | None => m
  end.

(** The [for] loop over the history keys in the [catch] of the first
    decryption: one [await] per key, until one decrypts. *)
Fixpoint tryHistory (keys : list CryptoKey) (iv ct : string) (localMsg : GroupMessage.t)
    (next : GroupMessage.t -> Mgr.t -> Async) (m : Mgr.t) : Async :=
  match keys with
  | [] => next localMsg m
  | hk :: rest =>
    Await m hk iv ct
          (fun r m1 =>
             match r with
             | Some plain => next (GroupMessage.set_content plain localMsg) m1
             | None => tryHistory rest iv ct localMsg next m1
             end)
  end.

(** Whether the handler awaits a decryption for [msg]:
    [localMsg.e2e && localMsg.iv && localMsg.ct && state.groupKey]. *)
Definition awaitsDecrypt (state : GroupNSState.t) (msg : GroupMessage.t) : bool :=
  GroupMessage.e2e msg && Js.truthy (GroupMessage.iv msg) && Js.truthy (GroupMessage.ct msg)
  && bool_decide (is_Some (GroupNSState.groupKey state)).

(** [const localMsg = { ...msg }] and its decryption, then [next]: the
    current key is read when the decryption is called, the key history
    when it has failed. *)
Definition decryptLocal (groupId : string) (state : GroupNSState.t) (msg : GroupMessage.t)
    (next : GroupMessage.t -> Mgr.t -> Async) (m : Mgr.t) : Async :=
  match GroupNSState.groupKey state with
  | Some gk =>
    if GroupMessage.e2e msg && Js.truthy (GroupMessage.iv msg) && Js.truthy (GroupMessage.ct msg)
    then
      let iv := default EmptyString (GroupMessage.iv msg) in
      let ct := default EmptyString (GroupMessage.ct msg) in
      Await m gk iv ct
            (fun r m1 =>
               match r with
               | Some plain => next (GroupMessage.set_content plain msg) m1
               | None =>
                 tryHistory (default [] (GroupNSState.groupKeyHistory (current groupId state m1)))
                            iv ct msg next m1
               end)
    else next msg m
  | None => next msg m
  end.

(** [groupHandleRouterData] for the type ['group-message']. *)
Definition groupHandleRouterData_message (groupId : string) (msg : GroupMessage.t)
    (m : Mgr.t) : Async :=
  match Mgr.groups m !! groupId with
  | None => Done m
  | Some state =>
    let relay (m1 : Mgr.t) := Done (emit GroupEmit (Group.groupRelayMessage groupId msg m1)) in
    if Group.hasId (GroupMessage.id msg) (GroupNSState.messages state) then relay m
    else decryptLocal groupId state msg
           (fun localMsg m1 =>
              relay (emit (SaveGroupMessages groupId) (pushMessage groupId localMsg m1)))
           m
  end.

(** [groupHandleMemberData] for the type ['group-relay']. *)
Definition groupHandleMemberData_relay (groupId : string) (msg : GroupMessage.t)
    (conn : option Conn.t) (m : Mgr.t) : Async :=
  match Mgr.groups m !! groupId with
  | None => Done m
  | Some state =>
    if String.eqb (GroupMessage.senderFP msg) (Mgr.pubkeyFingerprint m) then Done m
    else if Group.hasId (GroupMessage.id msg) (GroupNSState.messages state) then Done m
    else decryptLocal groupId state msg
           (fun localMsg m0 =>
              let m1 := emit (SaveGroupMessages groupId) (pushMessage groupId localMsg m0) in
              let m2 := match conn with
                        | Some conn =>
                          if Conn.open conn
                          then emit (Send (Conn.cid conn)
                                          (W_group_message_ack (GroupMessage.id msg)
                                                               (Mgr.pubkeyFingerprint m1))) m1
                          else m1
                        | None => m1
                        end in
              let m3 := match GroupMessage.type localMsg with
                        | g_system => m2
                        | _ => emit (Notify (GroupMessage.senderName localMsg)
                                            ("group-" ++ groupId)) m2
                        end in
              Done (emit GroupEmit m3))
           m
  end.

(** [state.messages.sort((a, b) => a.ts - b.ts)] on the state object. *)
Definition sortMessages (groupId : string) (m : Mgr.t) : Mgr.t :=
  match Mgr.groups m !! groupId with
  | Some state =>
    Group.setMessages groupId state (GroupSync.sortByTs (GroupNSState.messages state)) m
  | None => m
  end.

(** The [for] loop of the ['group-backfill'] handler from the message it
    has reached, and what follows the loop; [held] is the state object. *)
Fixpoint backfillFrom (groupId : string) (held : GroupNSState.t) (msgs : list GroupMessage.t)
    (added : bool) (m : Mgr.t) : Async :=
  match msgs with
  | [] =>
    Done (if added
          then emit GroupEmit (emit (SaveGroupMessages groupId) (sortMessages groupId m))
          else m)
  | msg :: rest =>
    let state := current groupId held m in
    if Group.hasId (GroupMessage.id msg) (GroupNSState.messages state)
    then backfillFrom groupId state rest added m
    else decryptLocal groupId state msg
           (fun localMsg m1 =>
              let state1 := current groupId state m1 in
              backfillFrom groupId
                (GroupNSState.set_messages (GroupNSState.messages state1 ++ [localMsg]) state1)
                rest true (pushMessage groupId localMsg m1))
           m
  end.

(** [groupHandleMemberData] for the type ['group-backfill']. *)
Definition groupHandleMemberData_backfill (groupId : string) (msgs : list GroupMessage.t)
    (m : Mgr.t) : Async :=
  match Mgr.groups m !! groupId with
  | None => Done m
  | Some state => backfillFrom groupId state msgs false m
  end.

End WithCrypto.

(** An encrypted message of Bob's, as it arrives at the router and at a
    member of group [g1]. *)
Definition sealedMsg : GroupMessage.t :=
  GroupMessage.mk "s1" "g1" "fp-bob" "Bob" EmptyString 40 g_text None None None None
                  (Some g_sent) false false true (Some "iv0"%string) (Some "ct(four)"%string).

End GroupAwait.

(** * The router of a namespace: [nsHandleRouterConn], [nsBroadcast] and
      [nsStartPingTimer] of [p2p-ns.ts]

    The state is [s.registry], the messages the router has put on its
    connections, and the manager (contacts and effects).  A connection is
    identified by its [Conn.cid].  The namespace is not a group namespace
    (['groupId' in s] is false), so nothing is forwarded to the group
    handler. *)

Module Router.

(** [TTL] of [types.ts]. *)
Definition TTL : Z := 90000.

(** What the router sends: ['registry'] with its [peers], and ['ping']. *)
Inductive Msg :=
| R_registry (peers : list RegistryPeer.t)
| R_ping.

Record t := mk {
  registry : JsObj.t PeerInfo.t;
  sent : list (nat * Msg);
  mgr : Mgr.t
}.

Definition set_registry (x : JsObj.t PeerInfo.t) (s : t) : t := mk x (sent s) (mgr s).
Definition set_mgr (x : Mgr.t) (s : t) : t := mk (registry s) (sent s) x.
Definition send (c : nat) (w : Msg) (s : t) : t := mk (registry s) (sent s ++ [(c, w)]) (mgr s).
Definition effect (e : Effect) (s : t) : t := set_mgr (emit e (mgr s)) s.

(** The [peers] array of [nsBroadcast]: one element per key of the
    registry, in key order. *)
Definition peersOf (registry : JsObj.t PeerInfo.t) : list RegistryPeer.t :=
  List.map (fun kr : string * PeerInfo.t =>
              RegistryPeer.mk (fst kr) (PeerInfo.friendlyName (snd kr))
                              (PeerInfo.publicKey (snd kr)))
           registry.

(** [nsBroadcast]. *)
Definition nsBroadcast (s : t) : t :=
  let peers := peersOf (registry s) in
  fold_left (fun acc r =>
               match PeerInfo.conn r with
               | Some conn => if PeerInfo.isMe r then acc
                              else send (Conn.cid conn) (R_registry peers) acc
               | None => acc
               end)
            (JsObj.values (registry s)) s.

(** [Object.keys(s.registry).find(k => s.registry[k].conn === conn)]. *)
Definition keyOfConn (conn : Conn.t) (registry : JsObj.t PeerInfo.t) : option string :=
  fst <$> List.find (fun kr : string * PeerInfo.t =>
                       match PeerInfo.conn (snd kr) with
                       | Some c => Nat.eqb (Conn.cid c) (Conn.cid conn)
                       | None => false
                       end)
                    registry.

Section WithDiscovery.
(** [extractDiscUUID] of [discovery.ts]. *)
Context (extractDiscUUID : string -> string).

(** The stale entry a check-in replaces: the first key other than the
    peer's own whose entry carries the peer's public key. *)
Definition findStaleKey (d : RegistryPeer.t) (registry : JsObj.t PeerInfo.t)
  : option string :=
  fst <$> List.find (fun kr : string * PeerInfo.t =>
                       negb (String.eqb (fst kr) (RegistryPeer.discoveryID d))
                       && Js.truthy (PeerInfo.publicKey (snd kr))
                       && bool_decide (PeerInfo.publicKey (snd kr) = RegistryPeer.publicKey d))
                    registry.

(** The [if (knownPID)] block of the check-in: the contact is marked as on
    the network and, unless it is connected, pending or being connected,
    a persistent connection is requested.  [canConnect] is
    [!mgr.offlineMode && mgr.persPeer && !mgr.persPeer.destroyed] and
    [connecting] is [mgr.connectingPIDs]. *)
Definition markOnNetwork (canConnect : bool) (connecting : list string)
    (knownPID discoveryID : string) (m : Mgr.t) : Mgr.t :=
  let m1 := Mgr.set_contacts
              (JsObj.update knownPID
                 (fun c => Contact.set_networkDiscID (Some discoveryID)
                             (Contact.set_onNetwork true c))
                 (Mgr.contacts m)) m in
  if canConnect then
    match JsObj.get knownPID (Mgr.contacts m1) with
    | Some c =>
      if negb (Messaging.connOpen (Contact.conn c))
         && negb (bool_decide (is_Some (Contact.pending c)))
      then
        let pid := Js.orElse (Some (Contact.currentPID c)) knownPID in
        if existsb (String.eqb pid) connecting then m1
        else emit (ConnectPersistent pid (Contact.friendlyName c))
                  (emit (Log "auto-connecting") m1)
      else m1
    | None => m1
    end
  else m1.

(** The ['data'] handler of [nsHandleRouterConn] for the type ['checkin'];
    [d] holds [d.discoveryID], [d.friendlyname] and [d.publicKey]. *)
Definition handleCheckin (now : Z) (canConnect : bool) (connecting : list string)
    (d : RegistryPeer.t) (conn : Conn.t) (s : t) : t :=
  let s1 :=
    if Js.truthy (RegistryPeer.publicKey d) then
      match NS.orNone (findStaleKey d (registry s)) with
      | Some staleKey =>
        set_registry (JsObj.del staleKey (registry s)) (effect (Log "replaced-stale-entry") s)
      | None => s
      end
    else s in
  let knownPID := NS.orNone (NS.findKnownPID extractDiscUUID d (Mgr.contacts (mgr s1))) in
  let s2 := match knownPID with
            | Some k => set_mgr (markOnNetwork canConnect connecting k
                                               (RegistryPeer.discoveryID d) (mgr s1)) s1
            | None => s1
            end in
  let entry := PeerInfo.mk (RegistryPeer.discoveryID d) (RegistryPeer.friendlyname d) now
                           false (Some conn) knownPID (NS.orNone (RegistryPeer.publicKey d)) in
  let s3 := set_registry (JsObj.set (RegistryPeer.discoveryID d) entry (registry s2)) s2 in
  effect NsEmit (nsBroadcast (effect (Log "peer-checked-in") s3)).

Definition touch (now : Z) (r : PeerInfo.t) : PeerInfo.t :=
  PeerInfo.mk (PeerInfo.discoveryID r) (PeerInfo.friendlyName r) now (PeerInfo.isMe r)
              (PeerInfo.conn r) (PeerInfo.knownPID r) (PeerInfo.publicKey r).

(** The ['data'] handler for the type ['pong']. *)
Definition handlePong (now : Z) (conn : Conn.t) (s : t) : t :=
  match NS.orNone (keyOfConn conn (registry s)) with
  | Some key => set_registry (JsObj.update key (touch now) (registry s)) s
  | None => s
  end.

(** The ['close'] handler. *)
Definition handleClose (conn : Conn.t) (s : t) : t :=
  match NS.orNone (keyOfConn conn (registry s)) with
  | Some key =>
    effect NsEmit (nsBroadcast (set_registry (JsObj.del key (registry s)) s))
  | None => s
  end.

(** One turn of the [forEach] of the ping timer, for the key [did] of the
    snapshot [Object.keys(s.registry)].  A turn deletes no key but its own,
    so in a registry with distinct keys the entry is there when its turn
    comes. *)
Definition pingPeer (now : Z) (s : t) (did : string) : t :=
  match JsObj.get did (registry s) with
  | None => s
  | Some r =>
    if PeerInfo.isMe r then s
    else
      let s1 := match PeerInfo.conn r with
                | Some conn => send (Conn.cid conn) R_ping s
                | None => s
                end in
      if TTL + 10000 <? now - PeerInfo.lastSeen r then
        effect NsEmit
          (nsBroadcast (set_registry (JsObj.del did (registry s1))
                                     (effect (Log "peer-timed-out") s1)))
      else s1
  end.

(** The interval callback of [nsStartPingTimer]; [now] is [Date.now()]. *)
Definition pingTick (now : Z) (s : t) : t :=
  fold_left (pingPeer now) (JsObj.keys (registry s)) s.

(** What happens at a router, as events of a run. *)
Inductive Event :=
| EvCheckin (now : Z) (canConnect : bool) (connecting : list string)
            (d : RegistryPeer.t) (conn : Conn.t)
| EvPong (now : Z) (conn : Conn.t)
| EvClose (conn : Conn.t)
| EvTick (now : Z).

Definition handle (s : t) (e : Event) : t :=
  match e with
  | EvCheckin now canConnect connecting d conn =>
    handleCheckin now canConnect connecting d conn s
  | EvPong now conn => handlePong now conn s
  | EvClose conn => handleClose conn s
  | EvTick now => pingTick now s
  end.

Definition run (es : list Event) (s : t) : t := fold_left handle es s.

End WithDiscovery.

(** A registry as a JS object holds it: each key once. *)
Definition distinctKeys (registry : JsObj.t PeerInfo.t) : Prop :=
  NoDup (JsObj.keys registry).

(** At most one discovery id per public key. *)
Definition onePerKey (registry : JsObj.t PeerInfo.t) : Prop :=
  forall k1 r1 k2 r2, In (k1, r1) registry -> In (k2, r2) registry ->
    Js.truthy (PeerInfo.publicKey r1) = true ->
    PeerInfo.publicKey r1 = PeerInfo.publicKey r2 -> k1 = k2.

(** No entry is stored under the empty string. *)
Definition namedKeys (registry : JsObj.t PeerInfo.t) : Prop :=
  forall k r, In (k, r) registry -> k <> EmptyString.

(** The registry invariant. *)
Definition wf (registry : JsObj.t PeerInfo.t) : Prop :=
  distinctKeys registry /\ namedKeys registry /\ onePerKey registry.

(** The check-ins of a run carry a discovery id. *)
Definition named (e : Event) : Prop :=
  match e with
  | EvCheckin _ _ _ d _ => RegistryPeer.discoveryID d <> EmptyString
  | _ => True
  end.

(** The connections a broadcast goes to: the entries that have one and are
    not the self-entry, in registry order. *)
Definition audience (registry : JsObj.t PeerInfo.t) : list nat :=
  omap (fun r : PeerInfo.t =>
          match PeerInfo.conn r with
          | Some conn => if PeerInfo.isMe r then None else Some (Conn.cid conn)
          | None => None
          end) (JsObj.values registry).

(** The broadcasts among the messages sent. *)
Definition broadcasts (out : list (nat * Msg)) : list (nat * list RegistryPeer.t) :=
  omap (fun cw : nat * Msg =>
          match snd cw with
          | R_registry peers => Some (fst cw, peers)
          | R_ping => None
          end) out.

(** What holds of a router whatever arrives: the registry invariant, and
    every broadcast it has sent lists each discovery id once and each
    public key under one discovery id. *)
Definition announcedWell (s : t) : Prop :=
  wf (registry s) /\ Forall (fun b => NS.distinctPeers (snd b)) (broadcasts (sent s)).

(** The test of the ping timer on an entry. *)
Definition silent (now : Z) (r : PeerInfo.t) : bool :=
  negb (PeerInfo.isMe r) && (TTL + 10000 <? now - PeerInfo.lastSeen r).

(** A router of an empty namespace, with its self-entry. *)
Definition lonelyRouter : t :=
  mk [("disc-me"%string, meEntry)] [] aliceMgr.

(** Bob checks in, Carol checks in and answers a ping, Bob checks in again
    under a new discovery id, the ping timer fires, Bob's connection closes. *)
Definition bob1 : RegistryPeer.t := RegistryPeer.mk "disc-bob" "Bob" (Some "pk-bob"%string).
Definition bob2 : RegistryPeer.t := RegistryPeer.mk "disc-bob-2" "Bob" (Some "pk-bob"%string).
Definition carol : RegistryPeer.t :=
  RegistryPeer.mk "disc-carol" "Carol" (Some "pk-carol"%string).

Definition run1 : list Event :=
  [EvCheckin 1000 true [] bob1 (Conn.mk 21 "disc-bob" true);
   EvCheckin 2000 true [] carol (Conn.mk 22 "disc-carol" true);
   EvPong 3000 (Conn.mk 22 "disc-carol" true);
   EvCheckin 4000 true [] bob2 (Conn.mk 23 "disc-bob-2" true);
   EvTick 103500;
   EvClose (Conn.mk 23 "disc-bob-2" true)].

End Router.

(** * File transfer: [_sendFileNow] and the ['file-start'], ['file-chunk'],
      ['file-end'] and ['file-ack'] branches of [handlePersistentData] in
      [p2p-messaging.ts]

    A file is its name and its bytes; [file.size] and [buf.byteLength] are
    the number of bytes.  The state is the manager (chats and effects),
    [mgr.incomingFiles], the messages put on connections and the calls of
    [saveFile].  The continuation of [saveFile(...).then] is run at once. *)

Module FileTransfer.

(** [CHUNK_SIZE] of [types.ts]. *)
Definition CHUNK_SIZE : nat := Z.to_nat 16000.

Inductive Msg :=
| F_start (tid name : string) (size : Z) (total : nat)
| F_chunk (tid : string) (index : nat) (chunk : list byte)
| F_end (tid : string)
| F_ack (tid : string).

(** [interface FileTransfer]: [chunks] is a JS array, which may have holes. *)
Record Incoming := mkIncoming {
  in_name : string;
  in_size : Z;
  in_total : nat;
  chunks : list (option (list byte));
  received : nat
}.

Record t := mk {
  mgr : Mgr.t;
  incomingFiles : gmap string Incoming;
  outbox : list (nat * Msg);
  saved : list (string * list byte * string * Z)
}.

Definition set_mgr (x : Mgr.t) (s : t) : t := mk x (incomingFiles s) (outbox s) (saved s).
Definition set_incomingFiles (x : gmap string Incoming) (s : t) : t :=
  mk (mgr s) x (outbox s) (saved s).
Definition send (c : nat) (w : Msg) (s : t) : t :=
  mk (mgr s) (incomingFiles s) (outbox s ++ [(c, w)]) (saved s).
Definition saveFile (tid : string) (blob : list byte) (name : string) (ts : Z) (s : t) : t :=
  mk (mgr s) (incomingFiles s) (outbox s) (saved s ++ [(tid, blob, name, ts)]).
Definition effect (e : Effect) (s : t) : t := set_mgr (emit e (mgr s)) s.

(** [Math.ceil(byteLength / CHUNK_SIZE)]. *)
Definition chunkCount (byteLength : nat) : nat :=
  Nat.div (byteLength + CHUNK_SIZE - 1) CHUNK_SIZE.

(** [buf.slice(i * CHUNK_SIZE, (i + 1) * CHUNK_SIZE)]. *)
Definition slice (buf : list byte) (i : nat) : list byte :=
  firstn CHUNK_SIZE (skipn (i * CHUNK_SIZE) buf).

Definition fileMessage (id : string) (dir : Dir) (name tid : string) (size ts : Z)
    (status : option Status) : ChatMessage.t :=
  ChatMessage.mk id dir (Some file) None (Some name) (Some tid) (Some size) ts status
                 false false None None None None.

Definition pushChat (contactKey : string) (msg : ChatMessage.t) (m : Mgr.t) : Mgr.t :=
  Mgr.set_chats (<[contactKey := default [] (Mgr.chats m !! contactKey) ++ [msg]]>
                   (Mgr.chats m)) m.

(** [_sendFileNow], from the [onload] of the reader on; [tid] and [uuid] are
    the two results of [crypto.randomUUID()] and [now1], [now2] those of
    [Date.now()]. *)
Definition _sendFileNow (now1 now2 : Z) (tid uuid : string) (contactKey name : string)
    (buf : list byte) (conn : Conn.t) (s : t) : t :=
  let total := chunkCount (length buf) in
  let size := Z.of_nat (length buf) in
  let s1 := send (Conn.cid conn) (F_start tid name size total) s in
  let s2 := fold_left (fun acc i => send (Conn.cid conn) (F_chunk tid i (slice buf i)) acc)
                      (seq 0 total) s1 in
  let s3 := saveFile tid buf name now1 (send (Conn.cid conn) (F_end tid) s2) in
  let msg := fileMessage uuid sent name tid size now2 (Some st_sent) in
  effect (Log "file-sent")
    (effect (Dispatch "message" contactKey)
       (effect SaveChats (set_mgr (pushChat contactKey msg (mgr s3)) s3))).

(** [f.chunks[index] = chunk] on a JS array: an index past the end extends
    the array with holes. *)
Fixpoint setAt (i : nat) (x : list byte) (l : list (option (list byte)))
  : list (option (list byte)) :=
  match i, l with
  | O, [] => [Some x]
  | O, _ :: l' => Some x :: l'
  | S i', [] => None :: setAt i' x []
  | S i', y :: l' => y :: setAt i' x l'
  end.

(** The bytes of ["undefined"], which is what a hole of the array
    contributes to [new Blob(f.chunks)]. *)
Definition undefinedBytes : list byte :=
  List.map byte_of_ascii (list_ascii_of_string "undefined").

(** [new Blob(f.chunks)]. *)
Definition blobOf (chunks : list (option (list byte))) : list byte :=
  List.concat (List.map (fun c => default undefinedBytes c) chunks).

(** [mgr.chats[ck].find(m => m.tid === tid && m.dir === 'sent')] and the
    assignment [msg.status = 'delivered']. *)
Fixpoint markFileDelivered (tid : string) (msgs : list ChatMessage.t)
  : option (list ChatMessage.t) :=
  match msgs with
  | [] => None
  | msg :: rest =>
    if bool_decide (ChatMessage.tid msg = Some tid)
       && match ChatMessage.dir msg with sent => true | recv => false end
    then Some (ChatMessage.set_status (Some delivered) msg :: rest)
    else cons msg <$> markFileDelivered tid rest
  end.

(** The four file branches of [handlePersistentData]; [now] is [Date.now()]
    and [uuid] is [crypto.randomUUID()] where the branch calls them. *)
Definition handleFile (now : Z) (uuid : string) (d : Msg) (conn : Conn.t) (s : t) : t :=
  let '(ck, m0) := Messaging.contactKeyForPID (Conn.peer conn) (mgr s) in
  let s0 := set_mgr m0 s in
  match d with
  | F_start tid name size total =>
    effect (Log "file-receiving")
      (set_incomingFiles (<[tid := mkIncoming name size total [] 0]> (incomingFiles s0)) s0)
  | F_chunk tid index chunk =>
    match incomingFiles s0 !! tid with
    | Some f =>
      let f' := mkIncoming (in_name f) (in_size f) (in_total f)
                           (setAt index chunk (chunks f)) (S (received f)) in
      effect (Dispatch "file-progress" tid)
        (set_incomingFiles (<[tid := f']> (incomingFiles s0)) s0)
    | None => s0
    end
  | F_end tid =>
    match incomingFiles s0 !! tid with
    | None => s0
    | Some f =>
      let s1 := saveFile tid (blobOf (chunks f)) (in_name f) now s0 in
      let msg := fileMessage uuid recv (in_name f) tid (in_size f) now None in
      let s2 := effect SaveChats (set_mgr (pushChat ck msg (mgr s1)) s1) in
      let s3 := set_incomingFiles (delete tid (incomingFiles s2)) s2 in
      let s4 := if Conn.open conn then send (Conn.cid conn) (F_ack tid) s3 else s3 in
      let fname := match JsObj.get ck (Mgr.contacts (mgr s4)) with
                   | Some c => Js.orElse (Some (Contact.friendlyName c)) "Someone"
                   | None => "Someone"%string
                   end in
      effect (Dispatch "message" ck)
        (effect (Log "file-received") (effect (Notify fname ("file-" ++ ck)) s4))
    end
  | F_ack tid =>
    match Mgr.chats (mgr s0) !! ck with
    | Some msgs =>
      match markFileDelivered tid msgs with
      | Some msgs' =>
        effect (Dispatch "message" ck)
          (effect SaveChats
             (set_mgr (Mgr.set_chats (<[ck := msgs']> (Mgr.chats (mgr s0))) (mgr s0)) s0))
      | None => s0
      end
    | None => s0
    end
  end.

(** The receiver takes the messages in the order given. *)
Definition receive (now : Z) (uuid : string) (conn : Conn.t) (ds : list Msg) (s : t) : t :=
  fold_left (fun acc d => handleFile now uuid d conn acc) ds s.

(** The messages put on connection [c], oldest first. *)
Definition sentOn (c : nat) (out : list (nat * Msg)) : list Msg :=
  List.map snd (List.filter (fun cw => Nat.eqb (fst cw) c) out).

(** The messages [_sendFileNow] puts on the connection. *)
Definition transfer (tid name : string) (buf : list byte) : list Msg :=
  F_start tid name (Z.of_nat (length buf)) (chunkCount (length buf))
  :: List.map (fun i => F_chunk tid i (slice buf i)) (seq 0 (chunkCount (length buf)))
  ++ [F_end tid].

(** [contactKeyForPID] has nothing left to cache for [pid]. *)
Definition resolved (pid ck : string) (m : Mgr.t) : Prop :=
  Messaging.contactKeyForPID pid m = (ck, m).

(** The state of a transfer under way: the [pre] first chunks are in. *)
Definition receiving (pid ck tid name : string) (size : Z) (total : nat)
    (pre : list (list byte)) (r r' : t) : Prop :=
  resolved pid ck (mgr r') /\
  Mgr.chats (mgr r') = Mgr.chats (mgr r) /\
  Mgr.contacts (mgr r') = Mgr.contacts (mgr r) /\
  saved r' = saved r /\ outbox r' = outbox r /\
  incomingFiles r' !! tid
  = Some (mkIncoming name size total (List.map Some pre) (length pre)).

Definition start (m : Mgr.t) : t := mk m ∅ [] [].

(** A file of five bytes. *)
Definition hello : list byte := [x68; x65; x6c; x6c; x6f].

End FileTransfer.

(** * Reconnecting to the signaling server: [schedulePersReconnect] of
      [p2p-signaling.ts]

    The state is the fields of the manager the function and its timer
    callback read or write, and what they do: timers set, calls of
    [registerPersistent] and of PeerJS, log lines.  [registerPersistent]
    itself is not part of this model. *)

Module Reconnect.

(** [mgr.persPeer]: absent, destroyed, disconnected from the signaling
    server, or connected to it. *)
Inductive Peer := NoPeer | PeerDestroyed | PeerDisconnected | PeerConnected.

(** A timer records the two operands of its delay,
    [Math.min(1000 * Math.pow(2, backoff), 30000)] and [Math.random()]:
    the delay is [base + random * 1000]. *)
Inductive Act :=
| SetTimeout (base : Z) (random : Q)
| RegisterPersistent
| PeerReconnect
| PeerDestroy
| LogLine (tag : string).

Record t := mk {
  offlineMode : bool;
  reconnectScheduled : bool;
  reconnectBackoff : Z;
  persPeer : Peer;
  acts : list Act
}.

Definition act (a : Act) (s : t) : t :=
  mk (offlineMode s) (reconnectScheduled s) (reconnectBackoff s) (persPeer s) (acts s ++ [a]).

Definition set_persPeer (p : Peer) (s : t) : t :=
  mk (offlineMode s) (reconnectScheduled s) (reconnectBackoff s) p (acts s).

(** [schedulePersReconnect], up to the call of [setTimeout]; [random] is
    the result of [Math.random()]. *)
Definition schedulePersReconnect (random : Q) (s : t) : t :=
  if offlineMode s || reconnectScheduled s then s
  else
    let base := Z.min (1000 * 2 ^ reconnectBackoff s) 30000 in
    let backoff := Z.min (reconnectBackoff s + 1) 5 in
    act (SetTimeout base random)
      (act (LogLine "scheduling-reconnect")
         (mk (offlineMode s) true backoff (persPeer s) (acts s))).

(** The callback of the timer; [throws] tells whether
    [mgr.persPeer.reconnect()] throws. *)
Definition timerFired (throws : bool) (s : t) : t :=
  let s1 := mk (offlineMode s) false (reconnectBackoff s) (persPeer s) (acts s) in
  match persPeer s1 with
  | NoPeer | PeerDestroyed => act RegisterPersistent (set_persPeer NoPeer s1)
  | PeerDisconnected =>
    if throws
    then act RegisterPersistent (set_persPeer NoPeer (act PeerDestroy (act PeerReconnect s1)))
    else act PeerReconnect s1
  | PeerConnected => s1
  end.

(** One failed attempt: the reconnection is scheduled, the peer is found in
    state [p] when the timer fires, and the attempt leaves it in state [p']
    (again without a signaling connection when the next one is scheduled). *)
Definition attempt (s : t) (a : Q * bool * Peer * Peer) : t :=
  let '(random, throws, p, p') := a in
  set_persPeer p' (timerFired throws (set_persPeer p (schedulePersReconnect random s))).

Definition attempts (l : list (Q * bool * Peer * Peer)) (s : t) : t := fold_left attempt l s.

(** The base delays of the timers set, oldest first. *)
Definition bases (l : list Act) : list Z :=
  omap (fun a => match a with SetTimeout base _ => Some base | _ => None end) l.

End Reconnect.

(* ================================================================== *)
(** * Properties *)
(* ================================================================== *)

(** ** The signaling gate *)

Section PeerQueueFacts.
Import PeerQueue.

Lemma intervalOf_values c :
  0 <= c ->
  intervalOf c =
    if c =? 0 then 1500 else if c =? 1 then 4500 else if c =? 2 then 13500 else 15000.
Proof.
  intros Hc. unfold intervalOf, BASE_INTERVAL, THROTTLE_MULTIPLIER, MAX_INTERVAL.
  destruct (Z.eqb_spec c 0) as [->|H0]; [reflexivity|].
  destruct (Z.eqb_spec c 1) as [->|H1]; [reflexivity|].
  destruct (Z.eqb_spec c 2) as [->|H2]; [reflexivity|].
  destruct (Z.eq_dec c 3) as [->|H3]; [reflexivity|].
  replace (Z.min c 4) with 4 by lia. reflexivity.
Qed.

Lemma intervalOf_mono c c' : 0 <= c' <= c -> intervalOf c' <= intervalOf c.
Proof.
  intros H. rewrite !intervalOf_values by lia.
  repeat match goal with |- context [Z.eqb ?a ?b] => destruct (Z.eqb_spec a b) end; lia.
Qed.

Lemma decay_no_change now s :
  now - lastThrottleTs s <= THROTTLE_DECAY -> decay now s = s.
Proof.
  intros H. unfold decay.
  replace (THROTTLE_DECAY <? now - lastThrottleTs s) with false.
  - now rewrite andb_false_r.
  - symmetry. apply Z.ltb_ge. exact H.
Qed.

(** C5. With a throttle count of 0 the interval is the base 1500 ms; with a
    count c >= 1 and no decay at the time of reading, it is
    min(15000, 1500 * 3^min(c,4)); it is 15000 ms for every c >= 3. *)
Theorem C5_adaptive_interval (now : Z) (s : t) :
  (throttleCount s = 0 -> fst (currentInterval now s) = 1500) /\
  (1 <= throttleCount s -> now - lastThrottleTs s <= THROTTLE_DECAY ->
     fst (currentInterval now s) = Z.min 15000 (1500 * 3 ^ Z.min (throttleCount s) 4)) /\
  (3 <= throttleCount s -> now - lastThrottleTs s <= THROTTLE_DECAY ->
     fst (currentInterval now s) = 15000).
Proof.
  split; [|split].
  - intros H0. unfold currentInterval, decay. rewrite H0. cbn. rewrite H0. reflexivity.
  - intros Hc Hd. unfold currentInterval. rewrite decay_no_change by exact Hd.
    cbn [fst]. unfold intervalOf, BASE_INTERVAL, THROTTLE_MULTIPLIER, MAX_INTERVAL.
    destruct (Z.eqb_spec (throttleCount s) 0); [lia|]. apply Z.min_comm.
  - intros Hc Hd. unfold currentInterval. rewrite decay_no_change by exact Hd.
    cbn [fst]. rewrite intervalOf_values by lia.
    repeat match goal with |- context [Z.eqb ?a ?b] => destruct (Z.eqb_spec a b) end; lia.
Qed.

Lemma C5_adaptive_interval_witness :
  fst (currentInterval 50000 (set_lastThrottleTs 10000 (set_throttleCount 2 init))) = 13500
  /\ fst (currentInterval 50000 (set_lastThrottleTs 10000 (set_throttleCount 7 init))) = 15000.
Proof.
  split.
  - pose proof (C5_adaptive_interval 50000
                  (set_lastThrottleTs 10000 (set_throttleCount 2 init))) as (_ & H & _).
    rewrite H; [reflexivity | simpl; lia | vm_compute; discriminate].
  - pose proof (C5_adaptive_interval 50000
                  (set_lastThrottleTs 10000 (set_throttleCount 7 init))) as (_ & _ & H).
    apply H; [simpl; lia | vm_compute; discriminate].
Defined.

(** *** Pausing on network-down and resuming *)

Lemma decay_fields now s :
  queue (decay now s) = queue s /\ lastCreate (decay now s) = lastCreate s /\
  timer (decay now s) = timer s /\ networkDown (decay now s) = networkDown s /\
  executed (decay now s) = executed s /\ totalCreated (decay now s) = totalCreated s.
Proof. unfold decay. destruct (_ && _); cbn; auto 10. Qed.

Lemma decay_count now s :
  0 <= throttleCount s -> 0 <= throttleCount (decay now s) <= throttleCount s.
Proof. intros H. unfold decay. destruct (_ && _); cbn; lia. Qed.

Lemma flush_paused now s : networkDown s = true -> flush now s = s.
Proof. intros H. unfold flush. rewrite H. now destruct (queue s). Qed.

Lemma flush_empty now s : queue s = [] -> flush now s = s.
Proof. intros H. unfold flush. now rewrite H. Qed.

Lemma decay_is now s :
  0 <= throttleCount s ->
  exists c, 0 <= c <= throttleCount s /\ decay now s = set_throttleCount c s.
Proof.
  intros H. unfold decay. destruct (_ && _).
  - exists (Z.max 0 (throttleCount s - 1)). split; [lia | reflexivity].
  - exists (throttleCount s). split; [lia | now destruct s].
Qed.

(** [flush] on a processing gate with no timer pending: nothing is lost, the
    invariant is re-established, and when the interval has elapsed exactly
    the head of the queue runs. *)
Lemma flush_spec now s :
  networkDown s = false -> 0 <= throttleCount s -> timer s = None ->
  let s' := flush now s in
  running s' /\
  (executed s' ++ map fn (queue s') = executed s ++ map fn (queue s) /\
   (length (queue s') <= length (queue s))%nat) /\
  (forall e rest, queue s = e :: rest ->
     lastCreate s + intervalOf (throttleCount s) <= now ->
     executed s' = executed s ++ [fn e] /\ queue s' = rest).
Proof.
  intros Hnd Hc Ht. unfold flush. destruct (queue s) as [|e rest] eqn:Hq.
  { cbn. rewrite Hq. repeat split; auto; try discriminate.
    unfold timer_ok. now rewrite Ht. }
  cbn [length].
  rewrite Hnd. unfold currentInterval.
  destruct (decay_is now s Hc) as (c1 & Hc1 & ->).
  pose proof (intervalOf_mono (throttleCount s) c1 Hc1) as Hm.
  cbn [throttleCount lastCreate timer set_throttleCount queue networkDown executed
       lastThrottleTs lastProbeTs lastProbeResult totalCreated].
  destruct (Z.ltb_spec (now - lastCreate s) (intervalOf c1)) as [Hwait|Hgo].
  - rewrite Ht. cbn. rewrite Hq. split; [|split].
    + unfold running, timer_ok. cbn. split; [exact Hnd | lia].
    + split; [reflexivity | cbn; lia].
    + intros e0 rest0 _ Hdue. lia.
  - unfold emitState, currentInterval. cbn [snd].
    match goal with |- context [decay now ?x] => set (s2 := x) end.
    destruct (decay_is now s2) as (c2 & Hc2 & ->); [subst s2; cbn; lia|].
    subst s2. cbn [throttleCount lastCreate timer set_throttleCount queue networkDown
                   executed lastThrottleTs lastProbeTs lastProbeResult totalCreated] in *.
    rewrite Ht. destruct rest as [|e' rest'].
    + cbn. rewrite app_nil_r. split; [|split].
      * unfold running, timer_ok. cbn. split; [exact Hnd | split; [lia | reflexivity]].
      * split; [reflexivity | lia].
      * intros e0 rest0 [= <- <-] _. auto.
    + match goal with |- context [decay now ?x] => set (s3 := x) end.
      destruct (decay_is now s3) as (c3 & Hc3 & ->); [subst s3; cbn; lia|].
      subst s3. cbn in Hc3 |- *. rewrite <- app_assoc. cbn. split; [|split].
      * unfold running, timer_ok. cbn. split; [exact Hnd | lia].
      * split; [reflexivity | lia].
      * intros e0 rest0 [= <- <-] _. auto.
Qed.

Lemma drain_idle lates s : timer s = None -> drain lates s = s.
Proof. intros H. destruct lates; cbn; [reflexivity | now rewrite H]. Qed.

(** With only the gate's timer firing, a processing gate runs its whole
    queue, in order, one entry per firing. *)
Lemma drain_runs_queue lates :
  forall s, running s -> Forall (fun d => 0 <= d) lates ->
  (length (queue s) <= length lates)%nat ->
  executed (drain lates s) = executed s ++ map fn (queue s) /\
  queue (drain lates s) = [] /\ networkDown (drain lates s) = false.
Proof.
  induction lates as [|late ls IH]; intros s (Hnd & Hc & Hok) Hl Hlen.
  - destruct (queue s) eqn:Hq; [|cbn in Hlen; lia].
    cbn. rewrite Hq, app_nil_r. auto.
  - inversion Hl as [|? ? Hlate Hls]; subst. cbn [drain].
    unfold timer_ok in Hok. destruct (timer s) as [due|] eqn:Ht.
    + unfold timerFire. rewrite Ht.
      destruct (Z.leb_spec due (due + late)); [|lia].
      destruct (flush_spec (due + late) (set_timer None s)) as (Hrun & (Hall & _) & Hhead);
        [exact Hnd | exact Hc | reflexivity |].
      cbn [executed queue set_timer lastCreate throttleCount] in Hall, Hhead.
      destruct (queue s) as [|e rest] eqn:Hq.
      * rewrite flush_empty by (cbn; exact Hq).
        rewrite drain_idle by reflexivity. cbn. rewrite Hq, app_nil_r. auto.
      * destruct (Hhead e rest eq_refl) as (He & Hq'); [lia|].
        destruct (IH _ Hrun Hls) as (He2 & Hq2 & Hn2).
        { rewrite Hq'. cbn in Hlen. lia. }
        rewrite He2, He, Hq', Hq2, Hn2, <- app_assoc. auto.
    + rewrite Hok, app_nil_r. auto.
Qed.

(** [reportSignalingSuccess] resumes processing: nothing queued is lost and
    the gate is processing again (the head runs at once or a timer is armed). *)
Lemma success_resumes now s :
  0 <= throttleCount s -> timer s = None ->
  let s' := reportSignalingSuccess now s in
  running s' /\ executed s' ++ map fn (queue s') = executed s ++ map fn (queue s) /\
  (length (queue s') <= length (queue s))%nat.
Proof.
  intros Hc Ht. unfold reportSignalingSuccess.
  set (s1 := if networkDown s then set_networkDown false s else s).
  assert (H1 : networkDown s1 = false /\ throttleCount s1 = throttleCount s /\
               timer s1 = None /\ queue s1 = queue s /\ executed s1 = executed s).
  { subst s1. destruct (networkDown s) eqn:E; cbn; auto 10. }
  destruct H1 as (N1 & C1 & T1 & Q1 & E1).
  set (s2 := if 0 <? throttleCount s1 then _ else s1).
  assert (H2 : networkDown s2 = false /\ 0 <= throttleCount s2 /\
               timer s2 = None /\ queue s2 = queue s /\ executed s2 = executed s).
  { subst s2. destruct (0 <? throttleCount s1); cbn; repeat split; auto; lia. }
  destruct H2 as (N2 & C2 & T2 & Q2 & E2).
  unfold emitState, currentInterval. cbn [snd].
  destruct (decay_is now s2 C2) as (c3 & Hc3 & ->).
  destruct (flush_spec now (set_throttleCount c3 s2)) as (Hrun & (Hall & Hlen) & _);
    [exact N2 | cbn; lia | exact T2 |].
  split; [exact Hrun|]. rewrite Hall. cbn in Hlen |- *. rewrite Q2 in Hlen.
  now rewrite E2, Q2.
Qed.

Lemma schedule_paused now f p s :
  networkDown s = true ->
  schedule now f p s = set_queue (enqueue (queue s) (now, f, p)) s.
Proof.
  intros H. unfold schedule. rewrite flush_paused by exact H. now destruct p.
Qed.

Lemma scheduleAll_paused jobs :
  forall s, networkDown s = true ->
  scheduleAll jobs s = set_queue (fold_left enqueue jobs (queue s)) s.
Proof.
  induction jobs as [|[[now f] p] js IH]; intros s H.
  - now destruct s.
  - cbn [scheduleAll fold_left]. rewrite schedule_paused by exact H.
    rewrite IH by exact H. reflexivity.
Qed.

Lemma length_insertHigh e q : length (insertHigh e q) = S (length q).
Proof. induction q as [|x q IH]; cbn; [|destruct (priority x); cbn; rewrite ?IH]; reflexivity. Qed.

Lemma length_enqueueAll jobs :
  forall q, length (fold_left enqueue jobs q) = (length q + length jobs)%nat.
Proof.
  induction jobs as [|[[now f] p] js IH]; intros q; cbn [fold_left length].
  - lia.
  - rewrite IH. destruct p; cbn; rewrite ?length_insertHigh, ?length_app; cbn; lia.
Qed.

Lemma probe_failed_pauses now s :
  0 <= throttleCount s ->
  let s' := onProbeResult now false s in
  networkDown s' = true /\ queue s' = [] /\ timer s' = None /\
  executed s' = executed s /\ 0 <= throttleCount s'.
Proof.
  intros Hc. unfold onProbeResult, emitState, currentInterval. cbn [snd].
  match goal with |- context [decay now ?x] => destruct (decay_is now x) as (c & Hc' & ->) end;
    [exact Hc|].
  cbn. repeat split; lia.
Qed.

(** C3, as stated, fails: one pending callback, a failed probe; the queue is
    cleared, and after [reportSignalingSuccess] and any number of timer
    firings the callback has not run. *)
Lemma C3_counterexample :
  let s0 := set_queue [mkEntry 7 normal] init in
  let s1 := reportSignalingError 1000 1001 false s0 in
  fst (probeNetwork 1000 false s0) = false /\
  networkDown s1 = true /\ queue s1 = [] /\
  executed (drain [0; 0; 0] (reportSignalingSuccess 5000 s1)) = [] /\
  ~ pending_entries_survive.
Proof.
  cbn zeta. repeat split; try reflexivity.
  intros H.
  specialize (H 1000 1001 false (set_queue [mkEntry 7 normal] init) (mkEntry 7 normal)
                eq_refl (or_introl eq_refl)).
  vm_compute in H. exact H.
Qed.

Lemma probe_up_resumes now s :
  0 <= throttleCount s ->
  let s' := onProbeResult now true s in
  networkDown s' = false /\ queue s' = queue s /\ timer s' = timer s /\
  executed s' = executed s /\ 0 <= throttleCount s'.
Proof.
  intros Hc. unfold onProbeResult, emitState, currentInterval. cbn [snd].
  match goal with |- context [decay now (decay now ?x)] =>
    destruct (decay_is now x) as (c & Hc' & ->); [cbn; lia|] end.
  match goal with |- context [decay now ?x] =>
    destruct (decay_is now x) as (c2 & Hc2 & ->); [cbn; lia|] end.
  cbn. repeat split; lia.
Qed.

(** An operation that runs the continuation of an error report runs it on
    the state it finds, in which at most the probe cache was written. *)
Lemma reported_step now o s up :
  QueueRuns.reported now o s = Some up ->
  exists now' sp,
    QueueRuns.step now o s = onProbeResult now' up sp /\
    queue sp = queue s /\ timer sp = timer s /\ throttleCount sp = throttleCount s /\
    executed sp = executed s /\ networkDown sp = networkDown s.
Proof.
  destruct o as [f p| |wait fetchOk|started fetchOk|networkUp| |]; try discriminate;
    cbn [QueueRuns.reported QueueRuns.step].
  - intros [= <-]. unfold reportSignalingError.
    destruct (probeNetwork now fetchOk s) as [up sp] eqn:Hp. cbn [fst].
    exists (now + wait), sp. split; [reflexivity|].
    unfold probeNetwork in Hp. destruct (probeCached now s); inversion Hp; subst; cbn; auto.
  - intros [= <-]. exists now, s. auto 10.
Qed.

Lemma success_idle now s :
  queue s = [] -> timer s = None ->
  let s' := reportSignalingSuccess now s in
  queue s' = [] /\ timer s' = None /\ executed s' = executed s.
Proof.
  intros Hq Ht. cbn zeta. unfold reportSignalingSuccess, emitState, currentInterval.
  cbn [snd].
  set (s1 := if networkDown s then set_networkDown false s else s).
  set (s2 := if 0 <? throttleCount s1 then _ else s1).
  assert (H2 : queue s2 = [] /\ timer s2 = None /\ executed s2 = executed s).
  { subst s2 s1. destruct (networkDown s); cbn; destruct (0 <? throttleCount s); cbn; auto. }
  destruct H2 as (Q2 & T2 & E2).
  destruct (decay_fields now s2) as (Q3 & _ & T3 & _ & E3 & _).
  rewrite flush_empty by congruence. rewrite Q3, T3, E3. auto.
Qed.

(** C3 (amended). When the continuation of an error report receives a failed
    probe, the gate is marked network-down, its queue is emptied and its
    timer cancelled.  While it is network-down no callback runs: [schedule]
    only queues, no timer is pending, and a flush or a timer callback does
    nothing.  The pause ends in one of three ways.  [reportSignalingSuccess]
    resumes processing: the callbacks queued since the failed report all
    run, in queue order, at most one per timer firing.  A further error
    report whose probe fails empties the queue again: the callbacks queued
    since the first report are not run, by a later [reportSignalingSuccess]
    either.  An error report whose probe succeeds clears the network-down
    mark without [reportSignalingSuccess]: it runs and drops nothing and
    arms no timer, so the queue stays as it is until the next [schedule] or
    [reportSignalingSuccess], which resumes processing. *)
Theorem C3_network_down_pauses_until_success
    (s : t) (t1 : Z) (o1 : QueueRuns.Op) (jobs : list (Z * nat * Priority)) :
  0 <= throttleCount s ->
  QueueRuns.reported t1 o1 s = Some false ->
  let s1 := QueueRuns.step t1 o1 s in
  let s2 := scheduleAll jobs s1 in
  let queued := fold_left enqueue jobs [] in
  (networkDown s1 = true /\ queue s1 = [] /\ timer s1 = None /\ executed s1 = executed s) /\
  (networkDown s2 = true /\ timer s2 = None /\ executed s2 = executed s /\
   queue s2 = queued /\
   forall t, flush t s2 = s2 /\ timerFire t s2 = s2) /\
  (forall tS lates,
     Forall (fun d => 0 <= d) lates -> (length jobs <= length lates)%nat ->
     let s3 := drain lates (reportSignalingSuccess tS s2) in
     networkDown s3 = false /\ queue s3 = [] /\
     executed s3 = executed s ++ map fn queued) /\
  (forall t2 o2,
     QueueRuns.reported t2 o2 s2 = Some false ->
     let s3 := QueueRuns.step t2 o2 s2 in
     networkDown s3 = true /\ queue s3 = [] /\ timer s3 = None /\
     executed s3 = executed s /\
     forall tS lates, executed (drain lates (reportSignalingSuccess tS s3)) = executed s) /\
  (forall t2 o2,
     QueueRuns.reported t2 o2 s2 = Some true ->
     let s3 := QueueRuns.step t2 o2 s2 in
     networkDown s3 = false /\ queue s3 = queued /\ timer s3 = None /\
     executed s3 = executed s /\
     (forall lates, drain lates s3 = s3) /\
     (forall tN f p lates,
        Forall (fun d => 0 <= d) lates -> (S (length jobs) <= length lates)%nat ->
        let s4 := drain lates (schedule tN f p s3) in
        networkDown s4 = false /\ queue s4 = [] /\
        executed s4 = executed s ++ map fn (enqueue queued (tN, f, p))) /\
     (forall tS lates,
        Forall (fun d => 0 <= d) lates -> (length jobs <= length lates)%nat ->
        let s4 := drain lates (reportSignalingSuccess tS s3) in
        networkDown s4 = false /\ queue s4 = [] /\
        executed s4 = executed s ++ map fn queued)).
Proof.
  intros Hc Hprobe s1 s2 queued.
  assert (Hs1 : networkDown s1 = true /\ queue s1 = [] /\ timer s1 = None /\
                executed s1 = executed s /\ 0 <= throttleCount s1).
  { subst s1. destruct (reported_step t1 o1 s false Hprobe)
      as (now' & sp & -> & _ & _ & Hc1 & He1 & _).
    destruct (probe_failed_pauses now' sp) as (A & B & C & D & E); [lia|].
    rewrite <- He1. auto. }
  destruct Hs1 as (N1 & Q1 & T1 & E1 & C1).
  assert (Hs2 : s2 = set_queue queued s1).
  { subst s2 queued. rewrite scheduleAll_paused by exact N1. now rewrite Q1. }
  assert (F2 : networkDown s2 = true /\ timer s2 = None /\ executed s2 = executed s /\
               queue s2 = queued /\ 0 <= throttleCount s2).
  { rewrite Hs2. cbn. auto. }
  destruct F2 as (N2 & T2 & E2 & Q2 & C2).
  split; [auto|]. split; [|split; [|split]].
  - repeat split; auto.
    + apply flush_paused. exact N2.
    + unfold timerFire. now rewrite T2.
  - intros tS lates Hl Hlen s3. subst s3.
    destruct (success_resumes tS s2 C2 T2) as (Hrun & Hall & Hle).
    assert (Hq2 : length (queue s2) = length jobs).
    { rewrite Q2. subst queued. rewrite length_enqueueAll. reflexivity. }
    destruct (drain_runs_queue lates _ Hrun Hl) as (He & Hq & Hn); [lia|].
    rewrite He, Hall, Hq, Hn, E2, Q2. auto.
  - intros t2 o2 Hrep s3. subst s3.
    destruct (reported_step t2 o2 s2 false Hrep)
      as (now' & sp & -> & _ & _ & Hc3 & He3 & _).
    destruct (probe_failed_pauses now' sp) as (A & B & C & D & E); [lia|].
    rewrite D, He3, E2. repeat split; auto.
    intros tS lates.
    destruct (success_idle tS (onProbeResult now' false sp) B C) as (Q4 & T4 & E4).
    rewrite drain_idle by exact T4. now rewrite E4, D, He3, E2.
  - intros t2 o2 Hrep s3. subst s3.
    destruct (reported_step t2 o2 s2 true Hrep)
      as (now' & sp & -> & Hq3 & Ht3 & Hc3 & He3 & _).
    destruct (probe_up_resumes now' sp) as (A & B & C & D & E); [lia|].
    set (s3 := onProbeResult now' true sp) in *.
    assert (T3 : timer s3 = None) by congruence.
    assert (Q3 : queue s3 = queued) by congruence.
    assert (E3 : executed s3 = executed s) by congruence.
    split; [exact A|]. split; [exact Q3|]. split; [exact T3|]. split; [exact E3|].
    split; [intros lates; apply drain_idle; exact T3|].
    split.
    + intros tN f p lates Hl Hlen s4. subst s4.
      assert (Hsch : schedule tN f p s3
                     = flush tN (set_queue (enqueue (queue s3) (tN, f, p)) s3)).
      { unfold schedule, enqueue. now destruct p. }
      rewrite Hsch.
      destruct (flush_spec tN (set_queue (enqueue (queue s3) (tN, f, p)) s3))
        as (Hrun & (Hall & Hle) & _); [exact A | exact E | exact T3 |].
      cbn [queue set_queue executed] in Hall, Hle.
      assert (Hlen' : length (enqueue (queue s3) (tN, f, p)) = S (length jobs)).
      { rewrite Q3. subst queued. unfold enqueue.
        destruct p; rewrite ?length_insertHigh, ?length_app, length_enqueueAll; cbn; lia. }
      destruct (drain_runs_queue lates _ Hrun Hl) as (He & Hq & Hn); [lia|].
      rewrite He, Hall, Hq, Hn, E3, Q3. auto.
    + intros tS lates Hl Hlen s4. subst s4.
      destruct (success_resumes tS s3 E T3) as (Hrun & Hall & Hle).
      assert (Hlen3 : length (queue s3) = length jobs).
      { rewrite Q3. subst queued. rewrite length_enqueueAll. reflexivity. }
      destruct (drain_runs_queue lates _ Hrun Hl) as (He & Hq & Hn); [lia|].
      rewrite He, Hall, Hq, Hn, E3, Q3. auto.
Qed.

Lemma C3_network_down_pauses_until_success_witness :
  let s := set_queue [mkEntry 7 normal] init in
  let jobs := [(2000, 1%nat, normal); (2100, 2%nat, high); (2200, 3%nat, normal)] in
  let down := scheduleAll jobs (QueueRuns.step 1000 (QueueRuns.OpError 1 false) s) in
  0 <= throttleCount s /\
  QueueRuns.reported 1000 (QueueRuns.OpError 1 false) s = Some false /\
  executed (drain [0; 5; 0] (reportSignalingSuccess 5000 down)) = [2%nat; 1%nat; 3%nat] /\
  QueueRuns.reported 3000 (QueueRuns.OpError 1 true) down = Some false /\
  queue (QueueRuns.step 3000 (QueueRuns.OpError 1 true) down) = [] /\
  QueueRuns.reported 12000 (QueueRuns.OpError 1 true) down = Some true /\
  networkDown (QueueRuns.step 12000 (QueueRuns.OpError 1 true) down) = false.
Proof.
  cbn zeta.
  pose proof (C3_network_down_pauses_until_success
                (set_queue [mkEntry 7 normal] init) 1000 (QueueRuns.OpError 1 false)
                [(2000, 1%nat, normal); (2100, 2%nat, high); (2200, 3%nat, normal)]) as H.
  cbn zeta in H.
  destruct H as (_ & _ & Hok & Hfail & Hup); [vm_compute; discriminate | reflexivity |].
  split; [vm_compute; discriminate|]. split; [reflexivity|].
  split.
  { destruct (Hok 5000 [0; 5; 0]) as (_ & _ & H).
    - repeat constructor; vm_compute; discriminate.
    - cbn. lia.
    - exact H. }
  split; [reflexivity|].
  split; [exact (proj1 (proj2 (Hfail 3000 (QueueRuns.OpError 1 true) eq_refl)))|].
  split; [reflexivity|].
  exact (proj1 (Hup 12000 (QueueRuns.OpError 1 true) eq_refl)).
Defined.

End PeerQueueFacts.

(** ** Fingerprints *)

Section FingerprintFacts.
Import Fingerprint.

Lemma byteHex_wf (b : byte) :
  String.length (byteHex b) = 2%nat /\
  forallb isLowerHex (list_ascii_of_string (byteHex b)) = true.
Proof. destruct b; vm_compute; split; reflexivity. Qed.

Lemma string_length_app (s1 s2 : string) :
  String.length (s1 ++ s2)%string = (String.length s1 + String.length s2)%nat.
Proof. induction s1 as [|a s1 IH]; simpl; [reflexivity | f_equal; exact IH]. Qed.

Lemma list_ascii_app (s1 s2 : string) :
  list_ascii_of_string (s1 ++ s2)%string =
  (list_ascii_of_string s1 ++ list_ascii_of_string s2)%list.
Proof. induction s1 as [|a s1 IH]; simpl; [reflexivity | f_equal; exact IH]. Qed.

Lemma concat_hex_wf (bs : list byte) :
  String.length (String.concat EmptyString (List.map byteHex bs)) = (2 * length bs)%nat /\
  forallb isLowerHex
    (list_ascii_of_string (String.concat EmptyString (List.map byteHex bs))) = true.
Proof.
  induction bs as [|b bs [IHl IHh]]; [split; reflexivity|].
  destruct (byteHex_wf b) as [Hl Hh].
  destruct bs as [|b' bs'].
  - cbn [List.map String.concat]. rewrite Hl. split; [reflexivity | exact Hh].
  - change (String.concat EmptyString (List.map byteHex (b :: b' :: bs')))
      with (byteHex b ++ (EmptyString ++
              String.concat EmptyString (List.map byteHex (b' :: bs'))))%string.
    change (EmptyString ++ ?x)%string with x.
    rewrite string_length_app, list_ascii_app, forallb_app, Hl, Hh, IHl, IHh.
    split; [cbn [length]; lia | reflexivity].
Qed.

Lemma bytesOfHex_byteHex (b : byte) (s : string) :
  bytesOfHex (byteHex b ++ s) = option_map (cons (Byte.to_N b)) (bytesOfHex s).
Proof. destruct b; reflexivity. Qed.

Lemma concat_hex_cons (b : byte) (bs : list byte) :
  String.concat EmptyString (List.map byteHex (b :: bs))
  = (byteHex b ++ String.concat EmptyString (List.map byteHex bs))%string.
Proof.
  destruct bs as [|b' bs']; [|reflexivity].
  cbn [List.map String.concat]. destruct b; reflexivity.
Qed.

(** The digit pairs of the rendering read back as the bytes rendered. *)
Lemma bytesOfHex_concat (bs : list byte) :
  bytesOfHex (String.concat EmptyString (List.map byteHex bs))
  = Some (List.map Byte.to_N bs).
Proof.
  induction bs as [|b bs IH]; [reflexivity|].
  rewrite concat_hex_cons, bytesOfHex_byteHex, IH. reflexivity.
Qed.

(** Only the sixteen lowercase digits have a value, so the bytes read back
    determine the string. *)
Lemma hexValue_digit (a : ascii) (n : N) :
  hexValue a = Some n -> a = hexDigit n /\ (n < 16)%N.
Proof.
  destruct a as [[] [] [] [] [] [] [] []]; vm_compute; intros [= <-]; split; reflexivity.
Qed.

Lemma bytesOfHex_inj (n : nat) :
  forall s s' bs, (String.length s <= n)%nat ->
    bytesOfHex s = Some bs -> bytesOfHex s' = Some bs -> s = s'.
Proof.
  induction n as [|n IH]; intros s s' bs Hn Hs Hs'.
  - destruct s; [|cbn in Hn; lia]. injection Hs as <-.
    destruct s' as [|a [|b r]]; [reflexivity | discriminate |].
    cbn in Hs'. destruct (hexValue a), (hexValue b), (bytesOfHex r); discriminate.
  - destruct s as [|hi [|lo rest]]; [| discriminate |].
    + injection Hs as <-.
      destruct s' as [|a [|b r]]; [reflexivity | discriminate |].
      cbn in Hs'. destruct (hexValue a), (hexValue b), (bytesOfHex r); discriminate.
    + cbn [bytesOfHex] in Hs.
      destruct (hexValue hi) as [h|] eqn:Eh; [|discriminate].
      destruct (hexValue lo) as [l|] eqn:El; [|discriminate].
      destruct (bytesOfHex rest) as [bs0|] eqn:Er; [|discriminate].
      injection Hs as <-.
      destruct s' as [|hi' [|lo' rest']]; [discriminate | discriminate |].
      cbn [bytesOfHex] in Hs'.
      destruct (hexValue hi') as [h'|] eqn:Eh'; [|discriminate].
      destruct (hexValue lo') as [l'|] eqn:El'; [|discriminate].
      destruct (bytesOfHex rest') as [bs1|] eqn:Er'; [|discriminate].
      injection Hs' as Hb Hl. subst bs1.
      destruct (hexValue_digit _ _ Eh) as [-> Bh]. destruct (hexValue_digit _ _ El) as [-> Bl].
      destruct (hexValue_digit _ _ Eh') as [-> Bh']. destruct (hexValue_digit _ _ El') as [-> Bl'].
      assert (h' = h /\ l' = l) as [-> ->] by lia.
      f_equal. f_equal. apply (IH rest rest' bs0); [cbn in Hn; lia | exact Er | exact Er'].
Qed.

(** C10. [computeFingerprint] never raises: without [crypto.subtle], or when
    the digest throws, it returns the empty string; when Web Crypto is
    available and the digest returns its 32 bytes, the result is the 16
    lowercase hex characters of the first 8 bytes of the digest of the
    UTF-8 bytes of the key string: read back two digits per byte it gives
    those 8 bytes, and it is the only string that does; equal digests give
    equal fingerprints, and two keys have the same fingerprint only if
    their digests agree on the first 8 bytes. *)
Theorem C10_computeFingerprint (C : CryptoOps) (pk : string) :
  (subtle C = false -> computeFingerprint C pk = EmptyString) /\
  (digest C (encode pk) = None -> computeFingerprint C pk = EmptyString) /\
  (forall hash, subtle C = true -> digest C (encode pk) = Some hash ->
     length hash = 32%nat ->
     bytesOfHex (computeFingerprint C pk) = Some (List.map Byte.to_N (firstn 8 hash)) /\
     (forall s, bytesOfHex s = Some (List.map Byte.to_N (firstn 8 hash)) ->
                s = computeFingerprint C pk) /\
     String.length (computeFingerprint C pk) = 16%nat /\
     forallb isLowerHex (list_ascii_of_string (computeFingerprint C pk)) = true) /\
  (forall pk', digest C (encode pk') = digest C (encode pk) ->
     computeFingerprint C pk' = computeFingerprint C pk) /\
  (forall pk' hash hash', subtle C = true ->
     digest C (encode pk) = Some hash -> digest C (encode pk') = Some hash' ->
     computeFingerprint C pk' = computeFingerprint C pk -> firstn 8 hash' = firstn 8 hash).
Proof.
  unfold computeFingerprint. split; [|split; [|split; [|split]]].
  - intros ->. reflexivity.
  - intros ->. now destruct (subtle C).
  - intros hash Hs Hd Hl. rewrite Hs, Hd. cbn [negb]. unfold hexOfFirst8.
    destruct (concat_hex_wf (firstn 8 hash)) as [Hlen Hhex].
    split; [apply bytesOfHex_concat|]. split; [|split; [|exact Hhex]].
    + intros s Hs'. symmetry.
      eapply bytesOfHex_inj; [apply Nat.le_refl | apply bytesOfHex_concat | exact Hs'].
    + rewrite Hlen, length_firstn, Hl. reflexivity.
  - intros pk' ->. reflexivity.
  - intros pk' hash hash' Hs Hd Hd'. rewrite Hs, Hd, Hd'. cbn [negb]. unfold hexOfFirst8.
    intros E. apply (f_equal bytesOfHex) in E. rewrite !bytesOfHex_concat in E.
    injection E as E. revert E. generalize (firstn 8 hash') (firstn 8 hash).
    induction l as [|x l IH]; intros [|y l'] E; try discriminate; [reflexivity|].
    cbn in E. injection E as Exy E. f_equal; [|now apply IH].
    apply (f_equal Byte.of_N) in Exy. rewrite !Byte.of_to_N in Exy. now injection Exy.
Qed.

Lemma C10_computeFingerprint_witness :
  subtle testCrypto = true /\
  digest testCrypto (encode "abc") = Some (SHA256.digest (encode "abc")) /\
  length (SHA256.digest (encode "abc")) = 32%nat /\
  List.map Byte.to_N (firstn 8 (SHA256.digest (encode "abc")))
    = [186; 120; 22; 191; 143; 1; 207; 234]%N /\
  bytesOfHex (computeFingerprint testCrypto "abc") = Some [186; 120; 22; 191; 143; 1; 207; 234]%N /\
  computeFingerprint testCrypto "abc" = "ba7816bf8f01cfea"%string /\
  String.length (computeFingerprint testCrypto "abc") = 16%nat /\
  computeFingerprint noSubtle "abc" = EmptyString /\
  computeFingerprint digestFails "abc" = EmptyString.
Proof.
  destruct (C10_computeFingerprint testCrypto "abc") as (_ & _ & H & _).
  destruct (H (SHA256.digest (encode "abc")) eq_refl eq_refl eq_refl) as (H1 & H2 & H3 & _).
  destruct (C10_computeFingerprint noSubtle "abc") as (Hn & _).
  destruct (C10_computeFingerprint digestFails "abc") as (_ & Hd & _).
  split; [reflexivity|]. split; [reflexivity|]. split; [reflexivity|].
  split; [vm_compute; reflexivity|].
  split; [exact H1|].
  split; [symmetry; apply H2; vm_compute; reflexivity|].
  split; [exact H3|]. split; [exact (Hn eq_refl) | exact (Hd eq_refl)].
Defined.

(** With SHA-256 as the digest the precondition on the digest always holds. *)
Lemma sha256_length (msg : list byte) : length (SHA256.digest msg) = 32%nat.
Proof. reflexivity. Qed.

End FingerprintFacts.

(** ** Group backfill *)

Section GroupFacts.
Import Group.
Context (C : CryptoOps).

Lemma effects_emit e m : Mgr.effects (emit e m) = Mgr.effects m ++ [e].
Proof. reflexivity. Qed.

Lemma groups_emit e m : Mgr.groups (emit e m) = Mgr.groups m.
Proof. reflexivity. Qed.

Lemma backfillsOn_app c l1 l2 :
  backfillsOn c (l1 ++ l2) = backfillsOn c l1 ++ backfillsOn c l2.
Proof. apply omap_app. Qed.

Lemma broadcast_effects w registry :
  forall m, exists sends,
    Mgr.effects (broadcast w registry m) = Mgr.effects m ++ sends /\
    Forall (fun e => exists c, e = Send c w) sends /\
    Mgr.groups (broadcast w registry m) = Mgr.groups m.
Proof.
  unfold broadcast. induction (JsObj.values registry) as [|r rs IH]; intros m.
  - exists []. cbn. rewrite app_nil_r. auto.
  - cbn [fold_left].
    match goal with |- context [fold_left ?f rs ?m1] =>
      destruct (IH m1) as (sends & He & Hs & Hg) end.
    destruct (PeerInfo.conn r) as [conn|]; [destruct (PeerInfo.isMe r)|];
      try (exists sends; auto; fail).
    exists (Send (Conn.cid conn) w :: sends). rewrite He, Hg.
    rewrite effects_emit, <- app_assoc. repeat split; eauto.
Qed.

Lemma broadcast_no_backfill c info registry m :
  backfillsOn c (Mgr.effects (broadcast (W_group_info_update info) registry m))
  = backfillsOn c (Mgr.effects m).
Proof.
  destruct (broadcast_effects (W_group_info_update info) registry m) as (sends & -> & Hs & _).
  rewrite backfillsOn_app.
  assert (backfillsOn c sends = []) as ->; [|apply app_nil_r].
  induction Hs as [|e l [c' ->] _ IH]; [reflexivity | exact IH].
Qed.

(** What [groupBackfill] puts on the wire. *)
Lemma groupBackfill_effects groupId conn sinceTs m state :
  Mgr.groups m !! groupId = Some state -> Conn.open conn = true ->
  Mgr.effects (groupBackfill groupId conn sinceTs m) =
    Mgr.effects m ++
    match List.filter (fun msg => sinceTs <? GroupMessage.ts msg) (GroupNSState.messages state) with
    | [] => []
    | missed => [Send (Conn.cid conn) (W_group_backfill missed)]
    end.
Proof.
  intros Hg Ho. unfold groupBackfill. rewrite Hg, Ho.
  destruct (List.filter _ _); [now rewrite app_nil_r | reflexivity].
Qed.

(** C8. When a member checks in with [sinceTs], the router (its connection
    to the member being open) sends on that connection one [group-backfill]
    whose messages are exactly the stored messages with [ts > sinceTs], in
    stored order, and sends no backfill when there is none. *)
Theorem C8_backfill_since (now since : Z) (groupId : string) (d : GroupCheckin.t)
    (conn : Conn.t) (m : Mgr.t) (state : GroupNSState.t) :
  Mgr.groups m !! groupId = Some state ->
  Conn.open conn = true ->
  GroupCheckin.sinceTs d = Some since ->
  let missed := List.filter (fun msg => since <? GroupMessage.ts msg)
                            (GroupNSState.messages state) in
  backfillsOn (Conn.cid conn)
              (Mgr.effects (groupHandleRouterData_checkin C now groupId d conn m))
    = backfillsOn (Conn.cid conn) (Mgr.effects m)
      ++ match missed with [] => [] | _ => [missed] end
  /\ (forall msg, In msg missed <->
                  In msg (GroupNSState.messages state) /\ since < GroupMessage.ts msg).
Proof.
  intros Hg Ho Hs missed. split.
  - unfold groupHandleRouterData_checkin. rewrite Hg, Ho, Hs.
    rewrite effects_emit, backfillsOn_app, broadcast_no_backfill.
    cbn [backfillsOn omap]. rewrite app_nil_r.
    set (info := checkinMember now d (GroupNSState.info state)).
    set (state1 := GroupNSState.set_info info state).
    set (m1 := emit GroupSave _).
    set (m2 := groupBackfill _ _ _ _).
    assert (H2 : backfillsOn (Conn.cid conn) (Mgr.effects m2)
                 = backfillsOn (Conn.cid conn) (Mgr.effects m)
                   ++ match missed with [] => [] | _ => [missed] end).
    { subst m2. erewrite groupBackfill_effects with (state := state1).
      - rewrite !backfillsOn_app. subst m1. rewrite !effects_emit. cbn [Mgr.effects Mgr.set_groups].
        rewrite !backfillsOn_app.
        change (backfillsOn (Conn.cid conn) [GroupSave]) with (@nil (list GroupMessage.t)).
        change (backfillsOn (Conn.cid conn) [Send (Conn.cid conn) (W_group_info_update info)])
          with (@nil (list GroupMessage.t)).
        rewrite !app_nil_r. f_equal.
        change (GroupNSState.messages state1) with (GroupNSState.messages state).
        change (sinceOrZero (Some since)) with since. fold missed.
        destruct missed; [reflexivity|].
        cbn. now rewrite Nat.eqb_refl.
      - rewrite groups_emit. subst m1. rewrite groups_emit. cbn. apply lookup_insert_eq.
      - exact Ho. }
    destruct (GroupNSState.groupKey state1); [|exact H2].
    rewrite andb_true_r. destruct (Js.truthy (GroupCheckin.publicKey d)); [|exact H2].
    destruct (wrapGroupKey C _ _ _) as [[iv ct]|];
      rewrite effects_emit, backfillsOn_app; cbn [backfillsOn omap];
      rewrite app_nil_r; exact H2.
  - intros msg. subst missed. rewrite filter_In. rewrite Z.ltb_lt. reflexivity.
Qed.

(** *** A relayed message is stored once *)

Lemma localCopy_id state msg : GroupMessage.id (localCopy C state msg) = GroupMessage.id msg.
Proof.
  unfold localCopy. destruct (GroupNSState.groupKey state); [|reflexivity].
  destruct (_ && _); [|reflexivity].
  destruct (decryptMessage C _ _ _); [reflexivity|].
  destruct (decryptWithHistory C _ _ _); reflexivity.
Qed.

Lemma hasId_snoc id msgs msg :
  GroupMessage.id msg = id -> hasId id (msgs ++ [msg]) = true.
Proof.
  intros <-. unfold hasId. rewrite existsb_app. cbn.
  rewrite String.eqb_refl. now rewrite orb_true_r.
Qed.

Lemma group_relay_fresh groupId msg conn m state :
  Mgr.groups m !! groupId = Some state ->
  String.eqb (GroupMessage.senderFP msg) (Mgr.pubkeyFingerprint m) = false ->
  hasId (GroupMessage.id msg) (GroupNSState.messages state) = false ->
  let m1 := groupHandleMemberData_relay C groupId msg conn m in
  Mgr.groups m1 !! groupId =
    Some (GroupNSState.set_messages
            (GroupNSState.messages state ++ [localCopy C state msg]) state) /\
  Mgr.pubkeyFingerprint m1 = Mgr.pubkeyFingerprint m.
Proof.
  intros Hg Hown Hid. unfold groupHandleMemberData_relay. rewrite Hg, Hown, Hid.
  destruct conn as [conn|]; [destruct (Conn.open conn)|];
    destruct (GroupMessage.type (localCopy C state msg));
    unfold emit, setMessages;
    cbn [Mgr.groups Mgr.set_groups Mgr.set_effects Mgr.pubkeyFingerprint];
    (split; [apply lookup_insert_eq | reflexivity]).
Qed.

(** Receiving the same ['group-relay'] a second time, once the handler of
    the first has run through, changes nothing: no field of the manager, no
    message stored, no effect. *)
Lemma group_relay_idempotent groupId msg conn m :
  let m1 := groupHandleMemberData_relay C groupId msg conn m in
  groupHandleMemberData_relay C groupId msg conn m1 = m1.
Proof.
  cbn zeta.
  destruct (Mgr.groups m !! groupId) as [state|] eqn:Hg.
  2:{ assert (E : groupHandleMemberData_relay C groupId msg conn m = m)
        by (unfold groupHandleMemberData_relay; now rewrite Hg).
      now rewrite !E. }
  destruct (String.eqb (GroupMessage.senderFP msg) (Mgr.pubkeyFingerprint m)) eqn:Hown.
  { assert (E : groupHandleMemberData_relay C groupId msg conn m = m)
      by (unfold groupHandleMemberData_relay; now rewrite Hg, Hown).
    now rewrite !E. }
  destruct (hasId (GroupMessage.id msg) (GroupNSState.messages state)) eqn:Hid.
  { assert (E : groupHandleMemberData_relay C groupId msg conn m = m)
      by (unfold groupHandleMemberData_relay; now rewrite Hg, Hown, Hid).
    now rewrite !E. }
  destruct (group_relay_fresh groupId msg conn m state Hg Hown Hid) as [Hg1 Hfp].
  unfold groupHandleMemberData_relay at 1. rewrite Hg1, Hfp, Hown.
  cbn [GroupNSState.messages GroupNSState.set_messages].
  rewrite hasId_snoc by apply localCopy_id. reflexivity.
Qed.

End GroupFacts.

Lemma C8_backfill_since_witness :
  let d := GroupCheckin.mk (Some "fp-bob") (Some "Bob") (Some "pk-bob") (Some "pid-bob")
                           (Some 15) in
  let conn := Conn.mk 5 "pid-bob" true in
  Mgr.groups routerMgr !! "g1"%string = Some routerState /\
  Conn.open conn = true /\
  GroupCheckin.sinceTs d = Some 15 /\
  Group.backfillsOn 5
    (Mgr.effects (Group.groupHandleRouterData_checkin testCrypto 100 "g1" d conn routerMgr))
  = [[groupMsg "b" "fp-bob" "two" 20; groupMsg "c" "fp-carol" "three" 30]].
Proof.
  cbn zeta. split; [vm_compute; reflexivity|]. split; [reflexivity|]. split; [reflexivity|].
  destruct (C8_backfill_since testCrypto 100 15 "g1"
              (GroupCheckin.mk (Some "fp-bob"%string) (Some "Bob"%string) (Some "pk-bob"%string)
                               (Some "pid-bob"%string) (Some 15))
              (Conn.mk 5 "pid-bob" true) routerMgr routerState)
    as [H _]; [vm_compute; reflexivity | reflexivity | reflexivity |].
  refine (eq_trans H _). vm_compute. reflexivity.
Defined.

(** ** Direct messages *)

Section MessagingFacts.
Import Messaging.
Context (C : CryptoOps).

Lemma directPayloads_app c l1 l2 :
  directPayloads c (l1 ++ l2) = directPayloads c l1 ++ directPayloads c l2.
Proof. apply omap_app. Qed.

Lemma directPayloads_send c d :
  directPayloads c [Send c (W_message d)] = [d].
Proof. cbn. now rewrite Nat.eqb_refl. Qed.

(** [getOrDeriveSharedKey] sends nothing and leaves our signing key alone. *)
Lemma getOrDeriveSharedKey_frame contactKey m :
  let r := getOrDeriveSharedKey C contactKey m in
  Mgr.privateKey (snd r) = Mgr.privateKey m /\
  Mgr.chats (snd r) = Mgr.chats m /\
  forall cid, directPayloads cid (Mgr.effects (snd r)) = directPayloads cid (Mgr.effects m).
Proof.
  unfold getOrDeriveSharedKey.
  destruct (Mgr.ecdhPrivateKey m); [|cbn; auto].
  destruct (JsObj.get contactKey (Mgr.contacts m)); [|cbn; auto].
  destruct (negb _); [cbn; auto|].
  destruct (Mgr.sharedKeys m !! contactKey); [cbn; auto|].
  destruct (deriveSharedKey C _ _); unfold emit;
    cbn [snd Mgr.effects Mgr.set_effects Mgr.set_contacts Mgr.set_sharedKeys
         Mgr.privateKey Mgr.chats];
    (split; [reflexivity | split; [reflexivity|]]); intros cid;
    rewrite !directPayloads_app; cbn [directPayloads omap]; now rewrite ?app_nil_r.
Qed.

Lemma sendEncryptedMessage_payload contactKey conn msg m :
  directPayloads (Conn.cid conn)
    (Mgr.effects (sendEncryptedMessage C contactKey conn msg m))
  = directPayloads (Conn.cid conn) (Mgr.effects m)
    ++ [chosenPayload C (fst (getOrDeriveSharedKey C contactKey m)) (Mgr.privateKey m) msg].
Proof.
  unfold sendEncryptedMessage, chosenPayload.
  destruct (getOrDeriveSharedKey_frame contactKey m) as (Hp & _ & He).
  destruct (getOrDeriveSharedKey C contactKey m) as [sk m1]. cbn [fst snd] in *.
  rewrite <- Hp, <- (He (Conn.cid conn)).
  destruct sk as [sk|]; [destruct (Mgr.privateKey m1) as [priv|]|];
    [destruct (encryptAndSign C sk priv msg)| |];
    rewrite ?effects_emit, ?directPayloads_app, ?directPayloads_send; cbn;
    now rewrite ?app_nil_r.
Qed.


Lemma plaintextPayload_plain msg : isPlaintext (plaintextPayload msg) = true.
Proof. reflexivity. Qed.


End MessagingFacts.

(** ** Encryption on the send paths *)

Section SendFacts.
Import Messaging Group.
Context (C : CryptoOps).







Lemma groupRelayMessage_groups groupId msg m :
  Mgr.groups (groupRelayMessage groupId msg m) = Mgr.groups m.
Proof.
  unfold groupRelayMessage. destruct (Mgr.groups m !! groupId) as [st|]; [|reflexivity].
  destruct (GroupNSState.isRouter st); [|reflexivity].
  destruct (broadcast_effects (W_group_relay msg) (GroupNSState.registry st) m)
    as (sends & _ & _ & G). exact G.
Qed.



End SendFacts.


(** ** Duplicate deliveries and the periodic reset *)

Section DeliveryFacts.
Import Messaging.
Context (C : CryptoOps).

Lemma contactKeyForPID_chats pid m :
  Mgr.chats (snd (contactKeyForPID pid m)) = Mgr.chats m.
Proof.
  unfold contactKeyForPID. destruct (Js.truthy _); [reflexivity|].
  destruct (List.find _ _) as [[key c]|]; reflexivity.
Qed.

Lemma receivedContent_chats ck d m :
  Mgr.chats (snd (receivedContent C ck d m)) = Mgr.chats m.
Proof.
  unfold receivedContent. destruct (_ && _); [|reflexivity].
  destruct (getOrDeriveSharedKey_frame C ck m) as (_ & Hc & _).
  destruct (getOrDeriveSharedKey C ck m) as [sk m1]. cbn [snd] in Hc.
  destruct sk as [sk|]; [|exact Hc].
  destruct (JsObj.get ck (Mgr.contacts m1)) as [contact|]; [|exact Hc].
  destruct (Js.truthy _); [|exact Hc].
  destruct (importPublicKey C _); [|exact Hc].
  destruct (verifySignature C _ _ _) as [[|]|]; try exact Hc.
  destruct (decryptMessage C _ _ _); exact Hc.
Qed.

(** Every delivery of a direct ['message'] appends one entry to the chat of
    the sender, whatever the chat already holds: the handler does not look
    at the ids of the stored messages. *)
Lemma direct_message_always_appended uuid d conn m :
  let ck := fst (contactKeyForPID (Conn.peer conn) m) in
  exists msg,
    ChatMessage.id msg = Js.orElse (DirectMsg.id d) uuid /\
    Mgr.chats (handlePersistentData C uuid (D_message d) conn m) !! ck
      = Some (default [] (Mgr.chats m !! ck) ++ [msg]).
Proof.
  cbn zeta. unfold handlePersistentData.
  pose proof (contactKeyForPID_chats (Conn.peer conn) m) as H0.
  destruct (contactKeyForPID (Conn.peer conn) m) as [ck m0]. cbn [fst snd] in *.
  pose proof (receivedContent_chats ck d m0) as H1.
  destruct (receivedContent C ck d m0) as [content m1]. cbn [snd] in H1.
  eexists. split; [|].
  2:{ destruct (Conn.open conn); unfold emit;
        cbn [Mgr.chats Mgr.set_effects Mgr.set_chats];
        rewrite lookup_insert_eq, <- H0; reflexivity. }
  reflexivity.
Qed.

(** C2 on the code: the same direct ['message'] (id "m1") delivered twice on
    the same connection is stored twice, and the second delivery changes the
    state; a ['group-relay'] delivered twice is stored once
    ([group_relay_idempotent]). *)
Theorem C2_duplicate_direct_message_stored_twice :
  let d := DirectMsg.mk (Some "m1"%string) 1000 (Some "hi"%string) None None None false in
  let m1 := handlePersistentData testCrypto "r1" (D_message d) aliceConn aliceMgr in
  let m2 := handlePersistentData testCrypto "r2" (D_message d) aliceConn m1 in
  List.map ChatMessage.id (default [] (Mgr.chats m1 !! "fp-alice"%string)) = ["m1"%string] /\
  List.map ChatMessage.id (default [] (Mgr.chats m2 !! "fp-alice"%string))
    = ["m1"%string; "m1"%string] /\
  m2 <> m1 /\
  ~ direct_message_idempotent.
Proof.
  cbn zeta.
  assert (H2 : List.map ChatMessage.id
                 (default [] (Mgr.chats
                    (handlePersistentData testCrypto "r2"
                       (D_message (DirectMsg.mk (Some "m1"%string) 1000 (Some "hi"%string)
                                                None None None false)) aliceConn
                       (handlePersistentData testCrypto "r1"
                          (D_message (DirectMsg.mk (Some "m1"%string) 1000 (Some "hi"%string)
                                                   None None None false))
                          aliceConn aliceMgr)) !! "fp-alice"%string))
               = ["m1"%string; "m1"%string]) by (vm_compute; reflexivity).
  assert (H1 : List.map ChatMessage.id
                 (default [] (Mgr.chats
                    (handlePersistentData testCrypto "r1"
                       (D_message (DirectMsg.mk (Some "m1"%string) 1000 (Some "hi"%string)
                                                None None None false))
                       aliceConn aliceMgr) !! "fp-alice"%string))
               = ["m1"%string]) by (vm_compute; reflexivity).
  split; [exact H1|]. split; [exact H2|].
  assert (Hne : forall m1 m2 : Mgr.t,
            List.map ChatMessage.id (default [] (Mgr.chats m1 !! "fp-alice"%string)) = ["m1"%string] ->
            List.map ChatMessage.id (default [] (Mgr.chats m2 !! "fp-alice"%string))
              = ["m1"%string; "m1"%string] -> m2 <> m1).
  { intros a b Ha Hb ->. rewrite Ha in Hb. discriminate Hb. }
  split; [exact (Hne _ _ H1 H2)|].
  intros H. apply (Hne _ _ H1 H2). apply H.
Qed.

(** [resetUnackedMessages] resets every chat with [resetMessage], which
    reads the direction and the status of a message and nothing else. *)
Lemma resetUnackedMessages_chats m k :
  Mgr.chats (resetUnackedMessages m) !! k = List.map resetMessage <$> Mgr.chats m !! k.
Proof.
  unfold resetUnackedMessages. destruct (bool_decide _); unfold emit;
    cbn [Mgr.chats Mgr.set_effects Mgr.set_chats]; apply lookup_fmap.
Qed.

Lemma resetMessage_unacked msg :
  unacked msg = true -> ChatMessage.status (resetMessage msg) = Some waiting.
Proof. intros H. unfold resetMessage. now rewrite H. Qed.

(** Any unacknowledged ['sent'] message is reset, whatever its timestamp. *)
Lemma reset_ignores_age m k msgs :
  Mgr.chats m !! k = Some msgs ->
  exists msgs', Mgr.chats (resetUnackedMessages m) !! k = Some msgs' /\
    Forall2 (fun old new =>
               ChatMessage.id new = ChatMessage.id old /\
               ChatMessage.ts new = ChatMessage.ts old /\
               (unacked old = true -> ChatMessage.status new = Some waiting) /\
               (unacked old = false -> new = old)) msgs msgs'.
Proof.
  intros H. exists (List.map resetMessage msgs). rewrite resetUnackedMessages_chats, H.
  split; [reflexivity|]. clear H.
  induction msgs as [|msg msgs IH]; cbn [List.map]; constructor; [|exact IH].
  unfold resetMessage. destruct (unacked msg) eqn:E.
  - split; [reflexivity|]. split; [reflexivity|]. split; [reflexivity | discriminate].
  - split; [reflexivity|]. split; [reflexivity|]. split; [discriminate | reflexivity].
Qed.

Lemma chosenPayload_id sk priv msg :
  DirectMsg.id (chosenPayload C sk priv msg) = Some (ChatMessage.id msg).
Proof.
  unfold chosenPayload, encryptAndSign.
  destruct sk as [sk|]; [|reflexivity]. destruct priv as [priv|]; [|reflexivity].
  destruct (encryptMessage C _ _) as [[iv ct]|]; [|reflexivity].
  destruct (signData C priv ct); reflexivity.
Qed.

(** One flush sends each queued text message once, in chat order. *)
Lemma flushLoop_sends_each_once contactKey conn msgs :
  forall m, exists payloads,
    directPayloads (Conn.cid conn)
      (Mgr.effects (snd (flushLoop C contactKey conn msgs m)))
    = directPayloads (Conn.cid conn) (Mgr.effects m) ++ payloads /\
    List.map DirectMsg.id payloads
    = List.map (fun msg => Some (ChatMessage.id msg))
               (List.filter (fun msg => queued msg && isText msg) msgs).
Proof.
  induction msgs as [|msg rest IH]; intros m.
  - exists []. cbn. now rewrite app_nil_r.
  - cbn [flushLoop List.filter]. destruct (queued msg && isText msg).
    + destruct (IH (sendEncryptedMessage C contactKey conn msg m)) as (ps & He & Hi).
      destruct (flushLoop C contactKey conn rest _) as [[rest' u] m2]. cbn [snd] in *.
      eexists (_ :: ps). rewrite He, sendEncryptedMessage_payload, <- app_assoc.
      split; [reflexivity|]. cbn [List.map]. now rewrite chosenPayload_id, Hi.
    + destruct (IH m) as (ps & He & Hi).
      destruct (flushLoop C contactKey conn rest m) as [[rest' u] m2]. cbn [snd] in *.
      exists ps. auto.
Qed.

(** C4 on the code: a message sent at time 1,000,000 over an open channel is
    ['sent']; the reset that the next check-in tick performs puts it back to
    ['waiting'] although it has waited for less than 2 minutes at any time
    before 1,120,000 (the reset reads no clock and no timestamp), and the
    flush of the same tick sends it a second time. *)
Theorem C4_reset_ignores_message_age :
  let m1 := sendMessage testCrypto 1000000 "u1" "fp-alice" "hello" aliceMgr in
  let m2 := resetUnackedMessages m1 in
  let m3 := checkinTick testCrypto m1 in
  List.map (fun msg => (ChatMessage.ts msg, ChatMessage.status msg))
           (default [] (Mgr.chats m1 !! "fp-alice"%string)) = [(1000000, Some st_sent)] /\
  List.map (fun msg => (ChatMessage.ts msg, ChatMessage.status msg))
           (default [] (Mgr.chats m2 !! "fp-alice"%string)) = [(1000000, Some waiting)] /\
  List.map DirectMsg.id (directPayloads 1 (Mgr.effects m1)) = [Some "u1"%string] /\
  List.map DirectMsg.id (directPayloads 1 (Mgr.effects m3))
    = [Some "u1"%string; Some "u1"%string] /\
  ~ reset_spares_recent 1001000.
Proof.
  cbn zeta. split; [vm_compute; reflexivity|]. split; [vm_compute; reflexivity|].
  split; [vm_compute; reflexivity|]. split; [vm_compute; reflexivity|].
  intros H.
  destruct (H (sendMessage testCrypto 1000000 "u1" "fp-alice" "hello" aliceMgr)
              "fp-alice"%string [textMsg "u1" "hello" 1000000 st_sent]
              (textMsg "u1" "hello" 1000000 st_sent))
    as (msgs' & Hl & Hin).
  - vm_compute. reflexivity.
  - left. reflexivity.
  - reflexivity.
  - cbn. lia.
  - assert (E : Mgr.chats (resetUnackedMessages
                   (sendMessage testCrypto 1000000 "u1" "fp-alice" "hello" aliceMgr))
                !! "fp-alice"%string = Some [textMsg "u1" "hello" 1000000 waiting])
      by (vm_compute; reflexivity).
    rewrite E in Hl. injection Hl as <-. destruct Hin as [Hin|[]]. discriminate Hin.
Qed.

End DeliveryFacts.

(** ** Contact migration *)

Section MigrationFacts.
Import Contacts.

Lemma jsobj_get_del {V} (k : string) (o : JsObj.t V) : JsObj.get k (JsObj.del k o) = None.
Proof.
  induction o as [|[k' v] o IH]; [reflexivity|]. unfold JsObj.del in *. cbn.
  destruct (String.eqb k k') eqn:E; cbn; [exact IH | now rewrite E].
Qed.

Lemma existsb_eqb_In (x : string) (l : list string) :
  existsb (String.eqb x) l = true <-> In x l.
Proof.
  rewrite existsb_exists. split.
  - intros (y & Hy & E). apply String.eqb_eq in E. now subst.
  - intros H. exists x. split; [exact H | apply String.eqb_refl].
Qed.

(** *** The set of known PIDs *)

Lemma setAdd_absorb acc l :
  (forall x, In x l -> In x acc) -> fold_left Js.setAdd l acc = acc.
Proof.
  induction l as [|x l IH]; intros H; [reflexivity|]. cbn [fold_left].
  unfold Js.setAdd at 2.
  assert (Hx : existsb (String.eqb x) acc = true) by (apply existsb_eqb_In, H; now left).
  rewrite Hx. apply IH. intros y Hy. apply H. now right.
Qed.

Lemma setAdd_distinct l :
  forall acc, NoDup (acc ++ l) -> fold_left Js.setAdd l acc = acc ++ l.
Proof.
  induction l as [|x l IH]; intros acc H; [now rewrite app_nil_r|]. cbn [fold_left].
  assert (Hx : existsb (String.eqb x) acc = false).
  { apply not_true_is_false. rewrite existsb_eqb_In. intros Hin.
    apply NoDup_app in H. destruct H as (_ & H & _).
    apply (H x); [now apply list_elem_of_In | apply list_elem_of_here]. }
  unfold Js.setAdd at 2. rewrite Hx. rewrite IH; rewrite <- app_assoc; [reflexivity | exact H].
Qed.

Lemma setAdd_spec l :
  forall acc, NoDup acc ->
    NoDup (fold_left Js.setAdd l acc) /\
    forall x, In x (fold_left Js.setAdd l acc) <-> In x acc \/ In x l.
Proof.
  induction l as [|y l IH]; intros acc Hnd.
  - cbn. split; [exact Hnd | intros x; tauto].
  - cbn [fold_left]. unfold Js.setAdd at 2 4.
    destruct (existsb (String.eqb y) acc) eqn:E.
    + destruct (IH acc Hnd) as [H1 H2]. split; [exact H1|]. intros x. rewrite H2. cbn.
      apply existsb_eqb_In in E. split; [tauto|]. intros [H|[<-|H]]; tauto.
    + assert (Hnd' : NoDup (acc ++ [y])).
      { apply NoDup_app. split; [exact Hnd|]. split; [|apply NoDup_singleton].
        intros x Hx Hy. apply list_elem_of_In in Hx. apply list_elem_of_In in Hy.
        destruct Hy as [<-|[]]. apply existsb_eqb_In in Hx. congruence. }
      destruct (IH _ Hnd') as [H1 H2]. split; [exact H1|]. intros x. rewrite H2, in_app_iff.
      cbn. tauto.
Qed.

Lemma mergeKnownPIDs_idempotent newPIDs oldPIDs :
  mergeKnownPIDs (Some (mergeKnownPIDs newPIDs oldPIDs)) oldPIDs
  = mergeKnownPIDs newPIDs oldPIDs.
Proof.
  unfold mergeKnownPIDs, Js.setOf. cbn [default].
  set (l := default [] newPIDs ++ oldPIDs).
  destruct (setAdd_spec l [] (NoDup_nil_2 (A:=string))) as [Hnd Hin].
  rewrite fold_left_app. rewrite (setAdd_distinct _ []) by exact Hnd. cbn [app].
  apply setAdd_absorb. intros x Hx. apply Hin. right. subst l. apply in_or_app. now right.
Qed.

(** *** The merged chat history *)

Lemma insertByTs_head x y l :
  ChatMessage.ts x <= ChatMessage.ts y -> insertByTs x (y :: l) = x :: y :: l.
Proof. intros H. cbn. destruct (Z.leb_spec (ChatMessage.ts x) (ChatMessage.ts y)); [reflexivity | lia]. Qed.

Lemma sortByTs_sorted_id l : sortedTs l -> sortByTs l = l.
Proof.
  induction l as [|x l IH]; intros H; [reflexivity|].
  change (sortByTs (x :: l)) with (insertByTs x (sortByTs l)).
  destruct l as [|y l']; [reflexivity|]. destruct H as [Hxy Hs].
  rewrite (IH Hs). now apply insertByTs_head.
Qed.

Lemma insertByTs_sorted x l : sortedTs l -> sortedTs (insertByTs x l).
Proof.
  induction l as [|y l IH]; intros H; [exact I|]. cbn [insertByTs].
  destruct (Z.leb_spec (ChatMessage.ts x) (ChatMessage.ts y)) as [Hle|Hgt].
  - split; [exact Hle | exact H].
  - assert (Hs : sortedTs l) by (destruct l; [exact I | apply H]).
    specialize (IH Hs). destruct l as [|z l'].
    + cbn. split; [lia | exact I].
    + cbn [insertByTs] in IH |- *. destruct H as [Hyz _].
      destruct (ChatMessage.ts x <=? ChatMessage.ts z); (split; [lia | exact IH]).
Qed.

Lemma sortByTs_sorted l : sortedTs (sortByTs l).
Proof. induction l as [|x l IH]; [exact I | now apply insertByTs_sorted]. Qed.

Lemma existsb_insertByTs p x l :
  existsb p (insertByTs x l) = p x || existsb p l.
Proof.
  induction l as [|y l IH]; [reflexivity|]. cbn [insertByTs].
  destruct (_ <=? _); [reflexivity|]. cbn [existsb]. rewrite IH.
  destruct (p x), (p y); reflexivity.
Qed.

Lemma existsb_sortByTs p l : existsb p (sortByTs l) = existsb p l.
Proof.
  induction l as [|x l IH]; [reflexivity|].
  change (sortByTs (x :: l)) with (insertByTs x (sortByTs l)).
  now rewrite existsb_insertByTs, IH.
Qed.

Lemma existsb_map_id (id : string) (l : list ChatMessage.t) :
  existsb (String.eqb id) (List.map ChatMessage.id l)
  = existsb (fun msg => String.eqb id (ChatMessage.id msg)) l.
Proof. induction l as [|x l IH]; [reflexivity | cbn; now rewrite IH]. Qed.

Lemma filter_none {A} (p : A -> bool) (l : list A) :
  (forall x, In x l -> p x = false) -> List.filter p l = [].
Proof.
  induction l as [|x l IH]; intros H; [reflexivity|]. cbn.
  rewrite (H x (or_introl eq_refl)). apply IH. intros y Hy. apply H. now right.
Qed.

Lemma mergeChats_idempotent newMsgs oldMsgs :
  mergeChats (mergeChats newMsgs oldMsgs) oldMsgs = mergeChats newMsgs oldMsgs.
Proof.
  unfold mergeChats at 1.
  set (merged := mergeChats newMsgs oldMsgs).
  rewrite filter_none.
  - rewrite app_nil_r. apply sortByTs_sorted_id. apply sortByTs_sorted.
  - intros msg Hin. apply negb_false_iff. subst merged. unfold mergeChats.
    rewrite existsb_map_id, existsb_sortByTs, existsb_app.
    destruct (existsb (fun m0 => String.eqb (ChatMessage.id msg) (ChatMessage.id m0)) newMsgs)
      eqn:E; [reflexivity|]. cbn [orb].
    apply existsb_exists. exists msg. split; [|apply String.eqb_refl].
    apply filter_In. split; [exact Hin|]. now rewrite existsb_map_id, E.
Qed.

(** The record [mergeContact] builds, field by field. *)
Lemma mergeContact_fields existing target :
  mergeContact existing target =
  Contact.mk (Contact.friendlyName target)
    (if Js.truthy (Contact.fingerprint existing) && negb (Js.truthy (Contact.fingerprint target))
     then Contact.fingerprint existing else Contact.fingerprint target)
    (if Js.truthy (Contact.publicKey existing) && negb (Js.truthy (Contact.publicKey target))
     then Contact.publicKey existing else Contact.publicKey target)
    (if Js.truthy (Some (Contact.currentPID existing))
     then Contact.currentPID existing else Contact.currentPID target)
    (match Contact.knownPIDs existing with
     | Some oldPIDs => Some (mergeKnownPIDs (Contact.knownPIDs target) oldPIDs)
     | None => Contact.knownPIDs target
     end)
    (Contact.discoveryID target) (Contact.discoveryUUID target)
    (Contact.sharedKeyFingerprint target) (Contact.conn target) (Contact.onNetwork target)
    (Contact.networkDiscID target) (Contact.lastSeen target) (Contact.pending target)
    (Contact.pendingFingerprint target) (Contact.pendingVerified target).
Proof.
  destruct target as [fn' fp' pk' cur' known' did' duuid' skfp' conn' onn' ndid' ls' pend' pfp' pv'].
  unfold mergeContact. cbn [Contact.publicKey Contact.fingerprint].
  destruct (Js.truthy (Contact.publicKey existing) && negb (Js.truthy pk'));
    cbn [Contact.set_publicKey Contact.fingerprint Contact.friendlyName Contact.publicKey
         Contact.currentPID Contact.knownPIDs Contact.discoveryID Contact.discoveryUUID
         Contact.sharedKeyFingerprint Contact.conn Contact.onNetwork Contact.networkDiscID
         Contact.lastSeen Contact.pending Contact.pendingFingerprint Contact.pendingVerified];
  destruct (Js.truthy (Contact.fingerprint existing) && negb (Js.truthy fp'));
    cbn [Contact.set_fingerprint Contact.fingerprint Contact.friendlyName Contact.publicKey
         Contact.currentPID Contact.knownPIDs Contact.discoveryID Contact.discoveryUUID
         Contact.sharedKeyFingerprint Contact.conn Contact.onNetwork Contact.networkDiscID
         Contact.lastSeen Contact.pending Contact.pendingFingerprint Contact.pendingVerified];
  destruct (Js.truthy (Some (Contact.currentPID existing)));
    cbn [Contact.set_currentPID Contact.fingerprint Contact.friendlyName Contact.publicKey
         Contact.currentPID Contact.knownPIDs Contact.discoveryID Contact.discoveryUUID
         Contact.sharedKeyFingerprint Contact.conn Contact.onNetwork Contact.networkDiscID
         Contact.lastSeen Contact.pending Contact.pendingFingerprint Contact.pendingVerified];
  destruct (Contact.knownPIDs existing); reflexivity.
Qed.

Lemma mergeContact_idempotent existing target :
  mergeContact existing (mergeContact existing target) = mergeContact existing target.
Proof.
  rewrite (mergeContact_fields existing (mergeContact existing target)).
  rewrite (mergeContact_fields existing target).
  cbn [Contact.fingerprint Contact.friendlyName Contact.publicKey
       Contact.currentPID Contact.knownPIDs Contact.discoveryID Contact.discoveryUUID
       Contact.sharedKeyFingerprint Contact.conn Contact.onNetwork Contact.networkDiscID
       Contact.lastSeen Contact.pending Contact.pendingFingerprint Contact.pendingVerified].
  f_equal.
  - destruct (Js.truthy (Contact.fingerprint existing)) eqn:E; [|reflexivity].
    destruct (Js.truthy (Contact.fingerprint target)) eqn:E'; cbn [andb negb];
      rewrite ?E, ?E'; reflexivity.
  - destruct (Js.truthy (Contact.publicKey existing)) eqn:E; [|reflexivity].
    destruct (Js.truthy (Contact.publicKey target)) eqn:E'; cbn [andb negb];
      rewrite ?E, ?E'; reflexivity.
  - destruct (Js.truthy (Some (Contact.currentPID existing))); reflexivity.
  - destruct (Contact.knownPIDs existing); [|reflexivity].
    now rewrite mergeKnownPIDs_idempotent.
Qed.

(** After a migration that did something, the record under the old key is gone. *)
Lemma migrateContact_removes A B m existing :
  String.eqb A B = false -> JsObj.get A (Mgr.contacts m) = Some existing ->
  JsObj.get A (Mgr.contacts (migrateContact A B m)) = None.
Proof.
  intros EAB EA. unfold migrateContact. rewrite EAB, EA.
  match goal with
  | |- context [let '(_, _) := ?p in _] => destruct p as [pidToFP1 failures1]
  end.
  unfold emit. cbn [Mgr.contacts Mgr.set_effects Mgr.set_contacts].
  apply jsobj_get_del.
Qed.

(** C7. [migrateContact(A, B)] called a second time returns at once: the
    record under [A] is gone, so the contact map, the chat histories, the
    shared-key cache, the PID map, the failure counters and the effect log
    are exactly as the first call left them.  The merges of the first call
    are idempotent too: merging the old known PIDs, the old chat history or
    the old record again into the result changes nothing. *)
Theorem C7_migrate_twice_is_noop (A B : string) (m : Mgr.t) :
  migrateContact A B (migrateContact A B m) = migrateContact A B m /\
  (forall newMsgs oldMsgs,
     mergeChats (mergeChats newMsgs oldMsgs) oldMsgs = mergeChats newMsgs oldMsgs) /\
  (forall newPIDs oldPIDs,
     mergeKnownPIDs (Some (mergeKnownPIDs newPIDs oldPIDs)) oldPIDs
     = mergeKnownPIDs newPIDs oldPIDs) /\
  (forall existing target,
     mergeContact existing (mergeContact existing target) = mergeContact existing target).
Proof.
  split; [|split; [exact mergeChats_idempotent
                  |split; [exact mergeKnownPIDs_idempotent | exact mergeContact_idempotent]]].
  destruct (String.eqb A B) eqn:EAB.
  { unfold migrateContact. now rewrite EAB. }
  destruct (JsObj.get A (Mgr.contacts m)) as [existing|] eqn:EA.
  2:{ assert (E : migrateContact A B m = m) by (unfold migrateContact; now rewrite EAB, EA).
      now rewrite !E. }
  unfold migrateContact at 1.
  rewrite EAB, (migrateContact_removes A B m existing EAB EA). reflexivity.
Qed.

End MigrationFacts.

(** A run: the record under Bob's PID is merged into the one under his
    fingerprint (known PIDs united, chats united by id and ordered by
    timestamp) and removed; a second call changes nothing. *)
Example migrate_two_bobs :
  let m1 := Contacts.migrateContact "pid-bob-2" "fp-bob" twoBobs in
  JsObj.keys (Mgr.contacts m1) = ["fp-bob"%string] /\
  (Contact.knownPIDs <$> JsObj.get "fp-bob" (Mgr.contacts m1))
    = Some (Some ["pid-bob-1"%string; "pid-bob-2"%string]) /\
  (List.map ChatMessage.id <$> Mgr.chats m1 !! "fp-bob"%string)
    = Some ["m1"%string; "m2"%string; "m3"%string] /\
  Mgr.chats m1 !! "pid-bob-2"%string = None /\
  Contacts.migrateContact "pid-bob-2" "fp-bob" m1 = m1.
Proof.
  cbn zeta. split; [vm_compute; reflexivity|]. split; [vm_compute; reflexivity|].
  split; [vm_compute; reflexivity|]. split; vm_compute; reflexivity.
Qed.

(** ** The rendezvous exchange *)

Section RvzFacts.
Import Rvz.
Context (C : CryptoOps).

Lemma repliesOn_emit c e m :
  repliesOn c (emit e m) = (repliesOn c m + (if isReplyOn c e then 1 else 0))%nat.
Proof.
  unfold repliesOn. rewrite effects_emit, List.filter_app, length_app. cbn.
  now destruct (isReplyOn c e).
Qed.

Lemma quiet_refl m : quiet m m.
Proof. split; auto. Qed.

Lemma quiet_trans m1 m2 m3 : quiet m1 m2 -> quiet m2 m3 -> quiet m1 m3.
Proof. intros [H1 H2] [H3 H4]. split; [intros c; now rewrite H3, H1 | congruence]. Qed.

Lemma quiet_emit e m :
  (forall c, isReplyOn c e = false) -> quiet m (emit e m).
Proof. intros H. split; [|reflexivity]. intros c. rewrite repliesOn_emit, H. lia. Qed.

Lemma rvzDeactivate_quiet k m : quiet m (rvzDeactivate k m).
Proof.
  unfold rvzDeactivate. destruct (Mgr.rvzMap m !! k); [|apply quiet_refl].
  eapply quiet_trans; [|apply quiet_emit; reflexivity]. split; reflexivity.
Qed.

Lemma reconnect_quiet contactKey newPID fname m :
  quiet m (reconnect contactKey newPID fname m).
Proof.
  unfold reconnect, reconnectWith, connectLater.
  set (m1 := if Js.truthy contactKey then _ else m).
  assert (H1 : quiet m m1).
  { subst m1. destruct (Js.truthy contactKey); [apply rvzDeactivate_quiet | apply quiet_refl]. }
  destruct (if Js.truthy contactKey then contactKey else newPID) as [ck|]; [|exact H1].
  destruct (JsObj.get ck (Mgr.contacts m1)); [|exact H1].
  destruct newPID as [pid|].
  - eapply quiet_trans; [exact H1|].
    eapply quiet_trans; [|apply quiet_emit; reflexivity]. split; reflexivity.
  - eapply quiet_trans; [exact H1 | apply quiet_emit; reflexivity].
Qed.

Lemma updateContactPID_quiet contactKey c newPID m m1 :
  updateContactPID contactKey c newPID m = Some m1 -> quiet m m1.
Proof.
  unfold updateContactPID. destruct (bool_decide _).
  - intros [= <-]. apply quiet_refl.
  - destruct newPID as [pid|]; [|discriminate]. intros [= <-].
    eapply quiet_trans; [|apply quiet_emit; reflexivity].
    eapply quiet_trans; [apply (quiet_emit (Log "rvz-pid-updated")); reflexivity|].
    split; reflexivity.
Qed.

(** One delivery: a reply is sent on a connection only if it is the
    connection of the delivery and it was not in the replied set, and that
    connection is in the replied set afterwards. *)
Lemma rvzHandleExchange_step ts d conn m c :
  let m' := rvzHandleExchange C ts d conn m in
  Mgr.rvzRepliedConns m ⊆ Mgr.rvzRepliedConns m' /\
  (repliesOn c m' = repliesOn c m \/
   (repliesOn c m' = S (repliesOn c m) /\ c = Conn.cid conn /\
    (c ∉ Mgr.rvzRepliedConns m) /\ (c ∈ Mgr.rvzRepliedConns m'))).
Proof.
  cbn zeta. unfold rvzHandleExchange, rvzHandleExchangeWith. fold reconnect.
  destruct (negb (exchangeVerified C d)).
  { split; [reflexivity|]. left. rewrite !repliesOn_emit. cbn [isReplyOn]. lia. }
  set (contactKey := if Js.truthy (RvzExchange.publicKey d) then _ else None).
  set (found := if Js.truthy contactKey then _ else None).
  set (r1 := match found with Some _ => _ | None => _ end).
  assert (H1 : forall m1, r1 = Some m1 -> quiet m m1).
  { subst r1. intros m1. destruct found as [c0|].
    - apply updateContactPID_quiet.
    - destruct (_ && _); intros [= <-]; [apply quiet_emit; reflexivity | apply quiet_refl]. }
  destruct r1 as [m1|]; [|split; [reflexivity | now left]].
  destruct (H1 m1 eq_refl) as [Hq Hr]. clear H1.
  destruct (Conn.open conn && negb (bool_decide (Conn.cid conn ∈ Mgr.rvzRepliedConns m1))) eqn:E.
  - apply andb_prop in E. destruct E as [_ E]. apply negb_true_iff, bool_decide_eq_false in E.
    rewrite Hr in E.
    set (m2 := Mgr.set_rvzRepliedConns _ m1).
    assert (H2 : forall c', repliesOn c' m2 = repliesOn c' m) by (intros c'; apply Hq).
    assert (Hin : Conn.cid conn ∈ Mgr.rvzRepliedConns m2).
    { subst m2. cbn [Mgr.rvzRepliedConns Mgr.set_rvzRepliedConns].
      apply elem_of_union_l, elem_of_singleton. reflexivity. }
    assert (Hsub : Mgr.rvzRepliedConns m ⊆ Mgr.rvzRepliedConns m2).
    { subst m2. cbn [Mgr.rvzRepliedConns Mgr.set_rvzRepliedConns]. rewrite Hr.
      apply union_subseteq_r. }
    assert (Hsent : forall x (m3 : Mgr.t),
              m3 = emit (CloseAfter (Conn.cid conn) 1000)
                        (emit (Send (Conn.cid conn) (W_rvz_exchange x)) m2) ->
              let m' := reconnect (contactKey) (RvzExchange.persistentID d)
                                  (Rvz.senderName d) m3 in
              Mgr.rvzRepliedConns m ⊆ Mgr.rvzRepliedConns m' /\
              (repliesOn c m' = repliesOn c m \/
               (repliesOn c m' = S (repliesOn c m) /\ c = Conn.cid conn /\
                (c ∉ Mgr.rvzRepliedConns m) /\ (c ∈ Mgr.rvzRepliedConns m')))).
    { intros x m3 -> m'. subst m'.
      match goal with |- context [reconnect ?a ?b ?f ?x] =>
        destruct (reconnect_quiet a b f x) as [Hq' Hr'] end.
      rewrite Hr', Hq'. cbn [Mgr.rvzRepliedConns emit Mgr.set_effects].
      split; [exact Hsub|]. rewrite !repliesOn_emit, H2. cbn [isReplyOn].
      destruct (Nat.eqb_spec c (Conn.cid conn)) as [->|Hne]; [right | left; lia].
      split; [lia|]. split; [reflexivity|]. split; [exact E | exact Hin]. }
    destruct (Mgr.privateKey m2) as [priv|].
    + destruct (signData C priv ts) as [signature|].
      * eapply Hsent. reflexivity.
      * split; [exact Hsub|]. left. apply H2.
    + eapply Hsent. reflexivity.
  - match goal with |- context [reconnect ?a ?b ?f ?x] =>
      destruct (reconnect_quiet a b f x) as [Hq' Hr'] end.
    rewrite Hr', Hq', Hr, Hq. split; [reflexivity | now left].
Qed.

(** Over any sequence of deliveries, the replies sent on a connection and
    the one reply it may still send never add up to more than before. *)
Lemma handleAll_budget ds c :
  forall m,
    (repliesOn c (handleAll C ds m)
     + (if bool_decide (c ∈ Mgr.rvzRepliedConns (handleAll C ds m)) then 0 else 1)
     <= repliesOn c m + (if bool_decide (c ∈ Mgr.rvzRepliedConns m) then 0 else 1))%nat.
Proof.
  induction ds as [|[[ts d] conn] ds IH]; intros m; [cbn; lia|].
  cbn [handleAll]. etransitivity; [apply IH|].
  destruct (rvzHandleExchange_step ts d conn m c) as [Hsub [Heq|(Heq & _ & Hnin & Hin)]].
  - rewrite Heq. repeat case_bool_decide; try lia. set_solver.
  - rewrite Heq. repeat case_bool_decide; try lia; contradiction.
Qed.

(** C9. A connection answers at most one exchange: over any sequence of
    [rvz-exchange] deliveries (on any connections, open or not, with any
    contents) the handler sends at most one reply on a given connection, and
    none on a connection that is already in the replied set; in particular,
    once a delivery has made the responder reply on a connection, no later
    delivery on it triggers a second reply. *)
Theorem C9_at_most_one_reply_per_connection
    (ds : list (string * RvzExchange.t * Conn.t)) (m : Mgr.t) (c : nat) :
  (repliesOn c (handleAll C ds m) <= repliesOn c m + 1)%nat /\
  (c ∈ Mgr.rvzRepliedConns m -> repliesOn c (handleAll C ds m) = repliesOn c m) /\
  (forall ts d conn,
     let m1 := rvzHandleExchange C ts d conn m in
     repliesOn (Conn.cid conn) m1 = S (repliesOn (Conn.cid conn) m) ->
     Conn.cid conn ∈ Mgr.rvzRepliedConns m1 /\
     repliesOn (Conn.cid conn) (handleAll C ds m1) = repliesOn (Conn.cid conn) m1).
Proof.
  assert (Hmono : forall ds' m', (repliesOn c m' <= repliesOn c (handleAll C ds' m'))%nat).
  { induction ds' as [|[[ts d] conn] ds' IH]; intros m'; [cbn; lia|].
    cbn [handleAll]. etransitivity; [|apply IH].
    destruct (rvzHandleExchange_step ts d conn m' c) as [_ [->|(-> & _)]]; lia. }
  assert (Hfix : forall c' ds' m', c' ∈ Mgr.rvzRepliedConns m' ->
            (repliesOn c' (handleAll C ds' m') <= repliesOn c' m')%nat).
  { intros c' ds' m' Hin. pose proof (handleAll_budget ds' c' m') as H.
    rewrite (bool_decide_eq_true_2 _ Hin) in H. case_bool_decide; lia. }
  split; [|split].
  - pose proof (handleAll_budget ds c m) as H. repeat case_bool_decide; lia.
  - intros Hin. specialize (Hfix c ds m Hin). specialize (Hmono ds m). lia.
  - intros ts d conn m1 Hs.
    destruct (rvzHandleExchange_step ts d conn m (Conn.cid conn)) as [_ [Heq|(_ & _ & _ & Hin)]].
    + subst m1. rewrite Heq in Hs. lia.
    + split; [exact Hin|]. fold m1 in Hin.
      assert (Hle := Hfix (Conn.cid conn) ds m1 Hin).
      assert (Hge : (repliesOn (Conn.cid conn) m1
                     <= repliesOn (Conn.cid conn) (handleAll C ds m1))%nat).
      { clear -C. generalize m1. induction ds as [|[[ts' d'] conn'] ds' IH]; intros m'; [cbn; lia|].
        cbn [handleAll]. etransitivity; [|apply IH].
        destruct (rvzHandleExchange_step ts' d' conn' m' (Conn.cid conn)) as [_ [->|(-> & _)]]; lia. }
      lia.
Qed.

End RvzFacts.

Lemma C9_at_most_one_reply_per_connection_witness :
  let m1 := Rvz.rvzHandleExchange testCrypto "t1" rvzFromAlice rvzConn aliceMgr in
  let ds := [("t2"%string, rvzFromAlice, rvzConn); ("t3"%string, rvzFromAlice, rvzConn)] in
  Rvz.repliesOn 7 m1 = S (Rvz.repliesOn 7 aliceMgr) /\
  7%nat ∈ Mgr.rvzRepliedConns m1 /\
  Rvz.repliesOn 7 (Rvz.handleAll testCrypto ds m1) = 1%nat.
Proof.
  cbn zeta. split; [vm_compute; reflexivity|].
  destruct (C9_at_most_one_reply_per_connection testCrypto
              [("t2"%string, rvzFromAlice, rvzConn); ("t3"%string, rvzFromAlice, rvzConn)]
              aliceMgr 7) as (_ & _ & H).
  destruct (H "t1"%string rvzFromAlice rvzConn) as [Hin Heq]; [vm_compute; reflexivity|].
  split; [exact Hin|]. refine (eq_trans Heq _). vm_compute. reflexivity.
Defined.

(** ** The registry merge *)

Section RegistryFacts.
Import NS.
Context (extractDiscUUID : string -> string).

Lemma jsobj_get_In {V} (k : string) (v : V) (o : JsObj.t V) :
  JsObj.get k o = Some v -> In (k, v) o.
Proof.
  induction o as [|[k' v'] o IH]; [discriminate|]. cbn.
  destruct (String.eqb_spec k k') as [->|Hne].
  - intros [= ->]. now left.
  - intros H. right. exact (IH H).
Qed.

Lemma jsobj_In_set {V} (k k' : string) (v v' : V) (o : JsObj.t V) :
  In (k', v') (JsObj.set k v o) -> (k', v') = (k, v) \/ In (k', v') o.
Proof.
  induction o as [|[k0 v0] o IH]; cbn.
  - intros [H|[]]. left. now symmetry.
  - destruct (String.eqb k k0); cbn.
    + intros [H|H]; [left; now symmetry | right; now right].
    + intros [H|H]; [right; now left|]. destruct (IH H) as [?|?]; [now left | right; now right].
Qed.

Lemma jsobj_In_del {V} (k : string) (x : string * V) (o : JsObj.t V) :
  In x (JsObj.del k o) -> In x o.
Proof. unfold JsObj.del. rewrite filter_In. tauto. Qed.

Lemma jsobj_get_set_ne {V} (k k' : string) (v : V) (o : JsObj.t V) :
  k <> k' -> JsObj.get k' (JsObj.set k v o) = JsObj.get k' o.
Proof.
  intros Hne. induction o as [|[k0 v0] o IH]; cbn.
  - destruct (String.eqb_spec k' k); [congruence | reflexivity].
  - destruct (String.eqb_spec k k0) as [->|H0]; cbn.
    + destruct (String.eqb_spec k' k0); [congruence | reflexivity].
    + destruct (String.eqb_spec k' k0); [reflexivity | exact IH].
Qed.

Lemma jsobj_get_del_ne {V} (k k' : string) (o : JsObj.t V) :
  k <> k' -> JsObj.get k' (JsObj.del k o) = JsObj.get k' o.
Proof.
  intros Hne. unfold JsObj.del. induction o as [|[k0 v0] o IH]; [reflexivity|]. cbn.
  destruct (String.eqb_spec k k0) as [->|H0]; cbn.
  - destruct (String.eqb_spec k' k0); [congruence | exact IH].
  - destruct (String.eqb_spec k' k0); [reflexivity | exact IH].
Qed.

Lemma findStaleKey_not_me p (newRegistry : JsObj.t PeerInfo.t) k :
  findStaleKey p newRegistry = Some k ->
  exists r, In (k, r) newRegistry /\ PeerInfo.isMe r = false.
Proof.
  unfold findStaleKey. destruct (List.find _ _) as [[k' r]|] eqn:E; [|discriminate].
  intros [= <-]. apply find_some in E. destruct E as [Hin Hp]. exists r. split; [exact Hin|].
  cbn in Hp. apply andb_prop in Hp. destruct Hp as [Hp _].
  apply andb_prop in Hp. destruct Hp as [Hp _]. apply andb_prop in Hp. destruct Hp as [_ Hp].
  now apply negb_true_iff in Hp.
Qed.

Lemma mergePeer_inv now myDiscID meKey me peers acc p :
  In p peers -> selfKeyFree myDiscID meKey peers ->
  mergeInv now myDiscID meKey me peers (fst acc) ->
  mergeInv now myDiscID meKey me peers (fst (mergePeer extractDiscUUID now myDiscID acc p)).
Proof.
  intros Hp Hfree [Hme Hall]. destruct acc as [reg m]. unfold mergePeer. cbn [fst] in *.
  destruct (String.eqb_spec (RegistryPeer.discoveryID p) myDiscID) as [Heq|Hne].
  { split; assumption. }
  assert (Hkey : RegistryPeer.discoveryID p <> meKey).
  { intros E. apply Hne. exact (Hfree p Hp E). }
  set (reg1 := if Js.truthy (RegistryPeer.publicKey p) then _ else reg).
  assert (H1 : (forall r, me = Some r -> JsObj.get meKey reg1 = Some r) /\
               (forall x, In x reg1 -> In x reg)).
  { subst reg1. destruct (Js.truthy (RegistryPeer.publicKey p)); [|auto].
    unfold orNone. destruct (Js.truthy (findStaleKey p reg)); [|auto].
    destruct (findStaleKey p reg) as [k|] eqn:Ek; [|auto].
    destruct (findStaleKey_not_me p reg k Ek) as (r & Hin & Hr).
    split; [|intros x; apply jsobj_In_del].
    intros r0 Hr0. rewrite jsobj_get_del_ne; [auto|].
    intros ->. destruct (Hall _ _ Hin) as [(_ & _ & Ht)|(Hk & _)]; congruence. }
  destruct H1 as [Hme1 Hsub].
  cbn [fst].
  match goal with
  | |- mergeInv _ _ _ _ _ (JsObj.set ?k ?e reg1) => set (entry := e)
  end.
  split.
  - intros r Hr. rewrite jsobj_get_set_ne by exact Hkey. auto.
  - intros k r Hin. apply jsobj_In_set in Hin. destruct Hin as [[= -> ->]|Hin].
    + right. split; [exact Hkey|]. split; [exact Hne|]. exists p. split; [exact Hp|].
      split; [reflexivity|]. subst entry. repeat split.
    + apply Hall, Hsub, Hin.
Qed.

Lemma mergePeers_inv now myDiscID meKey me all peers :
  selfKeyFree myDiscID meKey all ->
  forall acc, incl peers all -> mergeInv now myDiscID meKey me all (fst acc) ->
  mergeInv now myDiscID meKey me all
    (fst (fold_left (mergePeer extractDiscUUID now myDiscID) peers acc)).
Proof.
  intros Hfree. induction peers as [|p peers IH]; intros acc Hincl Hinv; [exact Hinv|].
  cbn [fold_left]. apply IH.
  - intros x Hx. apply Hincl. now right.
  - apply mergePeer_inv; [apply Hincl; now left | exact Hfree | exact Hinv].
Qed.

Lemma jsobj_get_set_eq {V} (k : string) (v : V) (o : JsObj.t V) :
  JsObj.get k (JsObj.set k v o) = Some v.
Proof.
  induction o as [|[k0 v0] o IH]; cbn.
  - now rewrite String.eqb_refl.
  - destruct (String.eqb_spec k k0) as [->|Hne]; cbn.
    + now rewrite String.eqb_refl.
    + destruct (String.eqb_spec k k0); [contradiction | exact IH].
Qed.

Lemma findStaleKey_spec p (newRegistry : JsObj.t PeerInfo.t) k :
  findStaleKey p newRegistry = Some k ->
  exists r, In (k, r) newRegistry /\ k <> RegistryPeer.discoveryID p /\
            PeerInfo.isMe r = false /\ Js.truthy (PeerInfo.publicKey r) = true /\
            PeerInfo.publicKey r = RegistryPeer.publicKey p.
Proof.
  unfold findStaleKey. destruct (List.find _ _) as [[k' r]|] eqn:E; [|discriminate].
  intros [= <-]. apply find_some in E. destruct E as [Hin Hp]. exists r. cbn [fst snd] in Hp.
  apply andb_prop in Hp. destruct Hp as [Hp H4]. apply andb_prop in Hp. destruct Hp as [Hp H3].
  apply andb_prop in Hp. destruct Hp as [H1 H2].
  split; [exact Hin|]. split.
  - intros ->. rewrite String.eqb_refl in H1. discriminate H1.
  - split; [now apply negb_true_iff in H2|]. split; [exact H3|].
    now apply bool_decide_eq_true in H4.
Qed.

Lemma orNone_truthy (s : option string) :
  Js.truthy (orNone s) = Js.truthy s.
Proof. unfold orNone. destruct (Js.truthy s) eqn:E; [exact E | reflexivity]. Qed.

(** In a broadcast with distinct peers no entry is ever evicted as stale. *)
Lemma no_stale_key now myDiscID meKey me all reg p :
  distinctPeers all -> In p all -> mergeInv now myDiscID meKey me all reg ->
  findStaleKey p reg = None.
Proof.
  intros [_ Hkey] Hp [_ Hall].
  destruct (findStaleKey p reg) as [k|] eqn:E; [|reflexivity]. exfalso.
  destruct (findStaleKey_spec p reg k E) as (r & Hin & Hk & Hme & Ht & Hpk).
  destruct (Hall _ _ Hin) as [(_ & _ & Hme')|(_ & _ & q & Hq & Hdq & Hfrom)]; [congruence|].
  destruct Hfrom as (_ & _ & Hrpk & _).
  assert (Htq : Js.truthy (RegistryPeer.publicKey q) = true)
    by (rewrite <- orNone_truthy, <- Hrpk; exact Ht).
  assert (Hqpk : RegistryPeer.publicKey q = RegistryPeer.publicKey p).
  { rewrite <- Hpk, Hrpk. unfold orNone. now rewrite Htq. }
  apply Hk. rewrite <- Hdq. exact (Hkey q p Hq Hp Htq Hqpk).
Qed.

Lemma mergePeer_listed now myDiscID meKey me all done acc p :
  distinctPeers all -> In p all -> incl done all ->
  mergeInv now myDiscID meKey me all (fst acc) ->
  listed now myDiscID done (fst acc) ->
  listed now myDiscID (done ++ [p]) (fst (mergePeer extractDiscUUID now myDiscID acc p)).
Proof.
  intros Hd Hp Hdone Hinv Hl. destruct acc as [reg m]. cbn [fst] in *.
  pose proof (no_stale_key now myDiscID meKey me all reg p Hd Hp Hinv) as Hns.
  unfold mergePeer.
  destruct (String.eqb_spec (RegistryPeer.discoveryID p) myDiscID) as [Heq|Hne].
  { cbn [fst]. intros q Hq Hqne. apply in_app_or in Hq. destruct Hq as [Hq|[<-|[]]].
    - exact (Hl q Hq Hqne).
    - contradiction. }
  rewrite Hns. cbn [orNone Js.truthy].
  replace (if Js.truthy (RegistryPeer.publicKey p) then reg else reg) with reg
    by (now destruct (Js.truthy (RegistryPeer.publicKey p))).
  cbn [fst]. intros q Hq Hqne.
  assert (Hqall : In q all).
  { apply in_app_or in Hq. destruct Hq as [Hq|[<-|[]]]; [now apply Hdone | exact Hp]. }
  destruct (String.eqb_spec (RegistryPeer.discoveryID p) (RegistryPeer.discoveryID q))
    as [Hpq|Hpq].
  - assert (p = q) by (apply (proj1 Hd); assumption). subst q.
    rewrite jsobj_get_set_eq. eexists. split; [reflexivity|]. repeat split.
  - rewrite jsobj_get_set_ne by exact Hpq.
    apply in_app_or in Hq. destruct Hq as [Hq|[<-|[]]]; [exact (Hl q Hq Hqne) | contradiction].
Qed.

Lemma mergePeers_listed now myDiscID meKey me all peers :
  distinctPeers all -> selfKeyFree myDiscID meKey all ->
  forall done acc, incl peers all -> incl done all ->
    mergeInv now myDiscID meKey me all (fst acc) ->
    listed now myDiscID done (fst acc) ->
    listed now myDiscID (done ++ peers)
      (fst (fold_left (mergePeer extractDiscUUID now myDiscID) peers acc)).
Proof.
  intros Hd Hfree. induction peers as [|p peers IH]; intros done acc Hincl Hdone Hinv Hl.
  - now rewrite app_nil_r.
  - cbn [fold_left]. replace (done ++ p :: peers) with ((done ++ [p]) ++ peers)
      by (now rewrite <- app_assoc).
    assert (Hp : In p all) by (apply Hincl; now left).
    apply IH.
    + intros x Hx. apply Hincl. now right.
    + intros x Hx. apply in_app_or in Hx. destruct Hx as [Hx|[<-|[]]]; [now apply Hdone | exact Hp].
    + apply mergePeer_inv; assumption.
    + apply mergePeer_listed with (meKey := meKey) (me := me) (all := all); assumption.
Qed.


End RegistryFacts.



(** ** Runs of the peer queue *)

Section QueueRunFacts.
Import PeerQueue QueueRuns.

Ltac fields := cbn [throttleCount lastCreate timer set_throttleCount queue networkDown executed
       lastThrottleTs lastProbeTs lastProbeResult totalCreated set_timer set_queue
       set_networkDown set_lastThrottleTs set_probe] in *.

(** What one [flush] does: it leaves the log of executions alone, or it runs
    the head of the queue, and the head runs only when an interval has
    passed since the last creation. *)
Lemma flush_cases now s :
  0 <= throttleCount s ->
  let s' := flush now s in
  (0 <= throttleCount s' /\ networkDown s' = networkDown s /\
   lastProbeTs s' = lastProbeTs s /\ lastProbeResult s' = lastProbeResult s) /\
  ((executed s' = executed s /\ totalCreated s' = totalCreated s /\
    lastCreate s' = lastCreate s /\ queue s' = queue s)
   \/
   (exists e rest, queue s = e :: rest /\ queue s' = rest /\ networkDown s = false /\
      executed s' = executed s ++ [fn e] /\ totalCreated s' = totalCreated s + 1 /\
      lastCreate s' = now /\ lastCreate s + BASE_INTERVAL <= now)).
Proof.
  intros Hc. unfold flush. destruct (queue s) as [|e rest] eqn:Hq.
  { cbn. rewrite Hq. split; [auto|]. left. auto. }
  destruct (networkDown s) eqn:Hnd.
  { cbn. rewrite Hq, Hnd. split; [auto|]. left. auto. }
  unfold currentInterval.
  destruct (decay_is now s Hc) as (c1 & Hc1 & ->). fields.
  assert (Hi1 : BASE_INTERVAL <= intervalOf c1).
  { rewrite intervalOf_values by lia. unfold BASE_INTERVAL.
    repeat match goal with |- context [Z.eqb ?a ?b] => destruct (Z.eqb_spec a b) end; lia. }
  destruct (Z.ltb_spec (now - lastCreate s) (intervalOf c1)) as [Hwait|Hgo].
  - destruct (timer s) eqn:Ht; cbn; fields; rewrite ?Hq, ?Hnd.
    + split; [split; [lia | auto] | left; auto].
    + split; [split; [lia | auto] | left; auto].
  - unfold emitState, currentInterval. cbn [snd].
    match goal with |- context [decay now ?x] => set (s2 := x) end.
    destruct (decay_is now s2) as (c2 & Hc2 & ->); [subst s2; cbn; lia|].
    subst s2. fields.
    assert (Hsp : lastCreate s + BASE_INTERVAL <= now) by lia.
    destruct rest as [|e' rest'].
    + cbn. split; [split; [lia | auto] |]. right. exists e, []. auto 10.
    + destruct (timer s) eqn:Ht.
      * cbn. split; [split; [lia | auto] |]. right. exists e, (e' :: rest'). auto 10.
      * match goal with |- context [decay now ?x] => set (s3 := x) end.
        destruct (decay_is now s3) as (c3 & Hc3 & ->); [subst s3; cbn; lia|].
        subst s3. cbn in Hc3 |- *. split; [split; [lia | auto] |].
        right. exists e, (e' :: rest'). auto 10.
Qed.

Lemma filter_insertHigh e q :
  isHigh e = true ->
  q = List.filter isHigh q ++ List.filter isNormal q ->
  insertHigh e q = List.filter isHigh q ++ e :: List.filter isNormal q.
Proof.
  intros He. induction q as [|x q IH]; intros Hq; [reflexivity|].
  cbn [insertHigh List.filter] in *. unfold isNormal, isHigh in *.
  destruct (priority x) eqn:Hx; cbn [negb] in *.
  - cbn in Hq. injection Hq as Hq. rewrite (IH Hq) at 1. reflexivity.
  - (* x is normal: nothing after it is high *)
    assert (Hnil : List.filter (fun e0 => match priority e0 with high => true | normal => false end) q = []).
    { destruct (List.filter _ q) as [|y l] eqn:Hf; [reflexivity|]. exfalso.
      cbn in Hq. injection Hq as Hxy _.
      assert (Hin : In y (List.filter (fun e0 => match priority e0 with high => true | normal => false end) q))
        by (rewrite Hf; now left).
      apply filter_In in Hin. destruct Hin as [_ Hy]. subst y. now rewrite Hx in Hy. }
    rewrite Hnil in *. cbn in *. injection Hq as Hq. now rewrite <- Hq.
Qed.

Lemma partitioned_tail x q :
  x :: q = List.filter isHigh (x :: q) ++ List.filter isNormal (x :: q) ->
  q = List.filter isHigh q ++ List.filter isNormal q.
Proof.
  cbn. unfold isNormal. destruct (isHigh x) eqn:Hx; cbn.
  - now intros [= ?].
  - intros H.
    assert (Hnil : List.filter isHigh q = []).
    { destruct (List.filter isHigh q) as [|y l] eqn:Hf; [reflexivity|]. exfalso.
      cbn in H. injection H as Hxy _.
      assert (Hin : In y (List.filter isHigh q)) by (rewrite Hf; now left).
      apply filter_In in Hin. destruct Hin as [_ Hy]. subst y. congruence. }
    rewrite Hnil in *. cbn in *. now injection H.
Qed.

Lemma filter_twice {A} (p q : A -> bool) (l : list A) :
  List.filter p (List.filter q l) = List.filter (fun x => q x && p x) l.
Proof.
  induction l as [|x l IH]; cbn; [reflexivity|].
  destruct (q x); cbn; [destruct (p x)|]; now rewrite IH.
Qed.

Lemma filter_false {A} (p : A -> bool) (l : list A) :
  (forall x, p x = false) -> List.filter p l = [].
Proof. intros H. induction l as [|x l IH]; cbn; [|rewrite H]; auto. Qed.

Lemma filter_same {A} (p q : A -> bool) (l : list A) :
  (forall x, p x = q x) -> List.filter p l = List.filter q l.
Proof. intros H. induction l as [|x l IH]; cbn; [|rewrite H, IH]; auto. Qed.

Lemma partitioned_enqueue f p q :
  q = List.filter isHigh q ++ List.filter isNormal q ->
  let q' := match p with high => insertHigh (mkEntry f p) q | normal => q ++ [mkEntry f p] end in
  q' = List.filter isHigh q' ++ List.filter isNormal q' /\
  List.filter isHigh q' = List.filter isHigh q ++ (if isHigh (mkEntry f p) then [mkEntry f p] else []) /\
  List.filter isNormal q' = List.filter isNormal q ++ (if isHigh (mkEntry f p) then [] else [mkEntry f p]).
Proof.
  intros Hq.
  assert (E1 : List.filter isHigh (List.filter isHigh q) = List.filter isHigh q).
  { rewrite filter_twice. apply filter_same. intros x. now destruct (isHigh x). }
  assert (E2 : List.filter isHigh (List.filter isNormal q) = []).
  { rewrite filter_twice. apply filter_false. intros x. unfold isNormal. now destruct (isHigh x). }
  assert (E3 : List.filter isNormal (List.filter isHigh q) = []).
  { rewrite filter_twice. apply filter_false. intros x. unfold isNormal. now destruct (isHigh x). }
  assert (E4 : List.filter isNormal (List.filter isNormal q) = List.filter isNormal q).
  { rewrite filter_twice. apply filter_same. intros x. unfold isNormal. now destruct (isHigh x). }
  destruct p; cbn zeta.
  - rewrite (filter_insertHigh (mkEntry f high) q eq_refl Hq).
    assert (F1 : List.filter isHigh (List.filter isHigh q ++ mkEntry f high :: List.filter isNormal q)
                 = List.filter isHigh q ++ [mkEntry f high]).
    { rewrite List.filter_app. cbn [List.filter]. change (isHigh (mkEntry f high)) with true.
      cbv iota. now rewrite E1, E2. }
    assert (F2 : List.filter isNormal (List.filter isHigh q ++ mkEntry f high :: List.filter isNormal q)
                 = List.filter isNormal q).
    { rewrite List.filter_app. cbn [List.filter]. change (isNormal (mkEntry f high)) with false.
      cbv iota. now rewrite E3, E4. }
    rewrite F1, F2. change (isHigh (mkEntry f high)) with true. cbv iota.
    rewrite <- app_assoc, app_nil_r. auto.
  - rewrite !List.filter_app. cbn [List.filter].
    change (isHigh (mkEntry f normal)) with false. change (isNormal (mkEntry f normal)) with true.
    cbv iota. rewrite !app_nil_r. rewrite app_assoc, <- Hq. auto.
Qed.

Lemma inv_flush now s : inv s -> inv (flush now s).
Proof.
  intros (Hc & Hnd & Hq).
  destruct (networkDown s) eqn:E.
  { rewrite flush_paused by exact E. split; [exact Hc|]. split; [now rewrite E | exact Hq]. }
  destruct (flush_cases now s Hc) as ((Hc' & Hnd' & _) & Hcase). cbn zeta in *.
  split; [exact Hc'|]. split; [rewrite Hnd', E; discriminate|].
  destruct Hcase as [(_ & _ & _ & ->)|(e & rest & Hqs & -> & _)]; [exact Hq|].
  rewrite Hqs in Hq. exact (partitioned_tail _ _ Hq).
Qed.

Lemma inv_emitState now s : inv s -> inv (emitState now s).
Proof.
  intros (Hc & Hnd & Hq). unfold emitState, currentInterval. cbn [snd].
  destruct (decay_is now s Hc) as (c & Hc' & ->). split; [cbn; lia|]. split; [exact Hnd | exact Hq].
Qed.

Lemma inv_step now o s : inv s -> inv (step now o s).
Proof.
  assert (Hres : forall t up sp, inv sp -> inv (onProbeResult t up sp)).
  { intros t up sp Hsp. unfold onProbeResult. destruct up.
    + apply inv_emitState. unfold emitState, currentInterval. cbn [snd].
      destruct Hsp as (Hc & Hnd & Hq).
      match goal with |- context [decay ?n ?x] => destruct (decay_is n x) as (c & Hc' & ->) end;
        [cbn; lia|].
      split; [cbn; lia|]. split; [discriminate | exact Hq].
    + apply inv_emitState. destruct Hsp as (Hc & Hnd & Hq). split; [exact Hc|]. split; reflexivity. }
  intros Hinv. destruct o as [f p| |wait fetchOk|started fetchOk|networkUp| |]; cbn [step].
  - (* schedule *)
    unfold schedule. apply inv_flush. destruct Hinv as (Hc & Hnd & Hq).
    split; [exact Hc|]. split; [exact Hnd|]. fields.
    exact (proj1 (partitioned_enqueue f p (queue s) Hq)).
  - (* timer *)
    unfold timerFire. destruct (timer s) as [due|] eqn:Ht; [|exact Hinv].
    destruct (due <=? now); [|exact Hinv]. apply inv_flush.
    destruct Hinv as (Hc & Hnd & Hq). split; [exact Hc|]. split; [reflexivity | exact Hq].
  - (* error report *)
    unfold reportSignalingError.
    destruct (probeNetwork now fetchOk s) as [up sp] eqn:Hp.
    assert (Hsp : inv sp).
    { unfold probeNetwork in Hp. destruct (probeCached now s);
        inversion Hp; subst; exact Hinv. }
    apply Hres, Hsp.
  - (* the request of a probe settles *)
    exact Hinv.
  - (* the continuation of an error report *)
    apply Hres, Hinv.
  - (* success *)
    unfold reportSignalingSuccess. apply inv_flush, inv_emitState.
    destruct Hinv as (Hc & Hnd & Hq).
    destruct (networkDown s) eqn:E; fields.
    + destruct (0 <? throttleCount s); (split; [cbn; lia|]; split; [discriminate | exact Hq]).
    + destruct (0 <? throttleCount s); (split; [cbn; lia|]; split; [cbn; rewrite E; discriminate | exact Hq]).
  - (* cancel *)
    destruct Hinv as (Hc & Hnd & Hq). split; [exact Hc|]. split; reflexivity.
Qed.

Lemma inv_init : inv init.
Proof. split; [cbn; lia|]. split; reflexivity. Qed.

Lemma inv_run ops : forall s, inv s -> inv (run ops s).
Proof.
  induction ops as [|[now o] rest IH]; intros s H; [exact H|].
  cbn [run]. apply IH, inv_step, H.
Qed.

(** One operation creates at most one peer, and creates one only when the
    base interval has passed since the last creation. *)
Lemma step_creates now o s :
  inv s ->
  let s' := step now o s in
  (totalCreated s' = totalCreated s /\ lastCreate s' = lastCreate s /\ executed s' = executed s) \/
  (totalCreated s' = totalCreated s + 1 /\ lastCreate s' = now /\
   lastCreate s + BASE_INTERVAL <= now /\ exists f, executed s' = executed s ++ [f]).
Proof.
  intros (Hc & Hnd & Hq).
  assert (Hflush : forall s0, 0 <= throttleCount s0 ->
            (totalCreated (flush now s0) = totalCreated s0 /\
             lastCreate (flush now s0) = lastCreate s0 /\ executed (flush now s0) = executed s0) \/
            (totalCreated (flush now s0) = totalCreated s0 + 1 /\ lastCreate (flush now s0) = now /\
             lastCreate s0 + BASE_INTERVAL <= now /\
             exists f, executed (flush now s0) = executed s0 ++ [f])).
  { intros s0 H0. destruct (flush_cases now s0 H0) as (_ & [(A & B & C & _)|(e & rest & _ & _ & _ & A & B & C & D)]).
    - left. auto.
    - right. eauto 10. }
  assert (Hres : forall t up sp, 0 <= throttleCount sp ->
            totalCreated (onProbeResult t up sp) = totalCreated sp /\
            lastCreate (onProbeResult t up sp) = lastCreate sp /\
            executed (onProbeResult t up sp) = executed sp).
  { intros t up sp E. unfold onProbeResult, emitState, currentInterval. destruct up; cbn [snd].
    + match goal with |- context [decay ?n (decay ?n' ?x)] =>
        destruct (decay_is n' x) as (c & Hc' & ->); [cbn; lia|] end.
      match goal with |- context [decay ?n ?x] =>
        destruct (decay_is n x) as (c2 & Hc2 & ->); [cbn; lia|] end.
      cbn. auto.
    + match goal with |- context [decay ?n ?x] =>
        destruct (decay_is n x) as (c2 & Hc2 & ->); [cbn; lia|] end.
      cbn. auto. }
  destruct o as [f p| |wait fetchOk|started fetchOk|networkUp| |]; cbn [step] in *; cbn zeta.
  - unfold schedule. destruct (Hflush (set_queue (match p with high => insertHigh (mkEntry f p) (queue s) | normal => queue s ++ [mkEntry f p] end) s) Hc) as [H|H]; [left|right]; exact H.
  - unfold timerFire. destruct (timer s) as [due|]; [|left; auto].
    destruct (due <=? now); [|left; auto].
    destruct (Hflush (set_timer None s) Hc) as [H|H]; [left|right]; exact H.
  - left. unfold reportSignalingError.
    destruct (probeNetwork now fetchOk s) as [up sp] eqn:Hp.
    assert (Hsp : totalCreated sp = totalCreated s /\ lastCreate sp = lastCreate s /\
                  executed sp = executed s /\ 0 <= throttleCount sp).
    { unfold probeNetwork in Hp. destruct (probeCached now s);
        inversion Hp; subst; cbn; auto. }
    destruct Hsp as (A & B & D & E). rewrite <- A, <- B, <- D.
    apply Hres, E.
  - left. cbn. auto.
  - left. apply Hres, Hc.
  - unfold reportSignalingSuccess, emitState, currentInterval. cbn [snd].
    set (s1 := if networkDown s then set_networkDown false s else s).
    assert (H1 : totalCreated s1 = totalCreated s /\ lastCreate s1 = lastCreate s /\
                 executed s1 = executed s /\ throttleCount s1 = throttleCount s).
    { subst s1. destruct (networkDown s); cbn; auto. }
    destruct H1 as (A1 & B1 & D1 & E1).
    set (s2 := if 0 <? throttleCount s1 then _ else s1).
    assert (H2 : totalCreated s2 = totalCreated s /\ lastCreate s2 = lastCreate s /\
                 executed s2 = executed s /\ 0 <= throttleCount s2).
    { subst s2. destruct (0 <? throttleCount s1); cbn; repeat split; auto; lia. }
    destruct H2 as (A2 & B2 & D2 & E2).
    destruct (decay_is now s2 E2) as (c & Hc' & ->).
    destruct (Hflush (set_throttleCount c s2)) as [H|H]; [cbn; lia | left | right];
      cbn in H; rewrite A2, B2, D2 in H; exact H.
  - left. cbn. auto.
Qed.

(** X1. Whatever is called on the peer queue and whenever, starting from a new
    [PeerQueue]: two consecutive peer creations are at least the base
    interval of 1500 ms apart (the first one at least 1500 ms after time 0),
    every callback that runs is a creation, and an operation runs at most
    one callback. *)
Theorem queue_rate_limit (ops : list (Z * Op)) :
  spaced (lastCreate init) (creations ops init) /\
  length (executed (run ops init)) = length (creations ops init) /\
  (length (executed (run ops init)) <= length ops)%nat.
Proof.
  assert (G : forall ops s, inv s ->
            spaced (lastCreate s) (creations ops s) /\
            length (executed (run ops s)) = (length (executed s) + length (creations ops s))%nat /\
            (length (creations ops s) <= length ops)%nat).
  { clear ops. induction ops as [|[now o] rest IH]; intros s Hinv.
    - cbn. split; [exact I | lia].
    - cbn [creations run length].
      destruct (IH (step now o s) (inv_step now o s Hinv)) as (Hs & Hl & Hn).
      destruct (step_creates now o s Hinv) as [(A & B & D)|(A & B & D & f & E)]; cbn zeta in *.
      + rewrite A, Z.ltb_irrefl. rewrite B in Hs. rewrite D in Hl. split; [exact Hs | lia].
      + replace (totalCreated s <? totalCreated (step now o s)) with true
          by (symmetry; apply Z.ltb_lt; lia).
        cbn [spaced length]. rewrite B in Hs. rewrite E, length_app in Hl. cbn in Hl.
        split; [split; [exact D | exact Hs] | lia]. }
  destruct (G ops init inv_init) as (A & B & D). cbn in B. split; [exact A |]. split; lia.
Qed.

(** X2. The queue always holds its high-priority entries before
    its normal ones; the insertion of [schedule] puts a high-priority entry
    behind the high-priority entries already queued and before every normal
    one, and a normal entry at the end, so entries of one priority keep the
    order in which they were scheduled. *)
Theorem queue_high_priority_first (ops : list (Z * Op)) (now : Z) (f : nat) (p : Priority) :
  let s := run ops init in
  let q := queue s in
  let q' := enqueue q (now, f, p) in
  schedule now f p s = flush now (set_queue q' s) /\
  q = List.filter isHigh q ++ List.filter isNormal q /\
  q' = List.filter isHigh q' ++ List.filter isNormal q' /\
  List.filter isHigh q' = List.filter isHigh q ++ (if isHigh (mkEntry f p) then [mkEntry f p] else []) /\
  List.filter isNormal q' = List.filter isNormal q ++ (if isHigh (mkEntry f p) then [] else [mkEntry f p]).
Proof.
  cbn zeta. destruct (inv_run ops init inv_init) as (_ & _ & Hq).
  split; [unfold schedule, enqueue; now destruct p|]. split; [exact Hq|].
  unfold enqueue. exact (partitioned_enqueue f p _ Hq).
Qed.

Lemma keepsProbe_step now o s :
  inv s -> keepsProbe (now, o) ->
  lastProbeTs (step now o s) = lastProbeTs s /\
  lastProbeResult (step now o s) = lastProbeResult s.
Proof.
  intros (Hc & _) Hne.
  assert (Hflush : forall s0, 0 <= throttleCount s0 ->
            lastProbeTs (flush now s0) = lastProbeTs s0 /\
            lastProbeResult (flush now s0) = lastProbeResult s0).
  { intros s0 H0. destruct (flush_cases now s0 H0) as ((_ & _ & A & B) & _). auto. }
  destruct o as [f p| |wait fetchOk|started fetchOk|networkUp| |]; cbn [step];
    try (now destruct Hne); clear Hne.
  - unfold schedule.
    match goal with |- context [flush now ?x] => destruct (Hflush x Hc) as (A & B) end.
    cbn in A, B. auto.
  - unfold timerFire. destruct (timer s); [|auto]. destruct (_ <=? _); [|auto].
    destruct (Hflush (set_timer None s) Hc) as (A & B). cbn in A, B. auto.
  - unfold onProbeResult, emitState, currentInterval. destruct networkUp; cbn [snd].
    + match goal with |- context [decay ?n (decay ?n' ?x)] =>
        destruct (decay_is n' x) as (c & Hc' & ->); [cbn; lia|] end.
      match goal with |- context [decay ?n ?x] =>
        destruct (decay_is n x) as (c2 & Hc2 & ->); [cbn; lia|] end.
      cbn. auto.
    + match goal with |- context [decay ?n ?x] =>
        destruct (decay_is n x) as (c2 & Hc2 & ->); [cbn; lia|] end.
      cbn. auto.
  - unfold reportSignalingSuccess, emitState, currentInterval. cbn [snd].
    set (s1 := if networkDown s then set_networkDown false s else s).
    set (s2 := if 0 <? throttleCount s1 then _ else s1).
    assert (H2 : lastProbeTs s2 = lastProbeTs s /\ lastProbeResult s2 = lastProbeResult s /\
                 0 <= throttleCount s2).
    { subst s2 s1. destruct (networkDown s); cbn; destruct (0 <? throttleCount s); cbn;
        repeat split; lia. }
    destruct H2 as (A & B & E). destruct (decay_is now s2 E) as (c & Hc' & ->).
    destruct (Hflush (set_throttleCount c s2)) as (F & G); [cbn; lia|].
    cbn in F, G. rewrite F, G. auto.
Qed.

Lemma keepsProbe_run ops :
  forall s, inv s -> Forall keepsProbe ops ->
  lastProbeTs (run ops s) = lastProbeTs s /\ lastProbeResult (run ops s) = lastProbeResult s.
Proof.
  induction ops as [|[now o] rest IH]; intros s Hinv Hall; [auto|].
  inversion Hall as [|? ? Ho Hrest]; subst. cbn [run].
  destruct (IH (step now o s) (inv_step now o s Hinv) Hrest) as (A & B).
  destruct (keepsProbe_step now o s Hinv Ho) as (D & E).
  rewrite A, B. auto.
Qed.

(** X3. The result of a network probe is reused for 10 s, counted from the
    time the probe was called.  Once the request of a probe called at [t0]
    has settled with the result [r], an error report made less than 10 s
    after [t0], no other probe having settled in between, sends no request
    and leaves the cache alone: its continuation receives [r], whatever the
    network is by then and whatever else was called on the peer queue in
    between; when [r] is a failure it takes the network for down, empties
    the queue, cancels the timer and runs nothing.  A report made while no
    result is cached, or 10 s or more after the cached probe was called,
    finds nothing to reuse: it sends a request of its own. *)
Theorem queue_probe_result_cached
    (pre ops : list (Z * Op)) (t0 now0 t1 w1 : Z) (r fetchOk1 : bool) :
  let s0 := run pre init in
  let s1 := step now0 (OpProbeSettled t0 r) s0 in
  Forall keepsProbe ops ->
  t1 - t0 < PROBE_COOLDOWN ->
  let s2 := run ops s1 in
  let s3 := step t1 (OpError w1 fetchOk1) s2 in
  probeCached t1 s2 = Some r /\
  reported t1 (OpError w1 fetchOk1) s2 = Some r /\
  s3 = onProbeResult (t1 + w1) r s2 /\
  lastProbeTs s3 = t0 /\ lastProbeResult s3 = Some r /\
  (r = false ->
   networkDown s3 = true /\ queue s3 = [] /\ timer s3 = None /\ executed s3 = executed s2) /\
  (forall t, lastProbeResult s0 = None \/ PROBE_COOLDOWN <= t - lastProbeTs s0 ->
     probeCached t s0 = None /\
     forall fetchOk, probeNetwork t fetchOk s0 = (fetchOk, probeSettled t fetchOk s0)).
Proof.
  intros s0 s1 Hops Ht s2 s3.
  assert (Hinv : inv s0) by (apply inv_run, inv_init).
  assert (Hinv1 : inv s1) by (apply inv_step, Hinv).
  assert (Hinv2 : inv s2) by (apply inv_run, Hinv1).
  destruct (keepsProbe_run ops s1 Hinv1 Hops) as (P2 & R2).
  fold s2 in P2, R2. cbn in P2, R2.
  assert (Hc : probeCached t1 s2 = Some r).
  { unfold probeCached. rewrite R2, P2.
    destruct (Z.ltb_spec (t1 - t0) PROBE_COOLDOWN); [reflexivity | lia]. }
  assert (Hs3 : s3 = onProbeResult (t1 + w1) r s2).
  { subst s3. cbn [step]. unfold reportSignalingError, probeNetwork. now rewrite Hc. }
  assert (Hkeep : lastProbeTs s3 = t0 /\ lastProbeResult s3 = Some r).
  { destruct (keepsProbe_step (t1 + w1) (OpProbeResult r) s2 Hinv2 I) as (A & B).
    cbn [step] in A, B. rewrite Hs3, A, B. auto. }
  split; [exact Hc|]. split.
  { cbn [reported]. unfold probeNetwork. now rewrite Hc. }
  split; [exact Hs3|]. split; [apply Hkeep|]. split; [apply Hkeep|]. split.
  - intros ->. rewrite Hs3.
    destruct (probe_failed_pauses (t1 + w1) s2) as (A & B & D & E & _); [apply Hinv2|]. auto.
  - intros t Hstale.
    assert (Hn : probeCached t s0 = None).
    { unfold probeCached. destruct Hstale as [->|Hold]; [reflexivity|].
      destruct (lastProbeResult s0); [|reflexivity].
      destruct (Z.ltb_spec (t - lastProbeTs s0) PROBE_COOLDOWN); [lia | reflexivity]. }
    split; [exact Hn|]. intros fetchOk. unfold probeNetwork. now rewrite Hn.
Qed.

(** X4. In every state a new [PeerQueue] can reach: the throttle count is not
    negative; the interval read at any time lies between the base 1500 ms
    and the cap 15000 ms; and while it is network-down no timer is
    pending, and neither a timer callback nor a flush does anything. *)
Theorem queue_invariant (ops : list (Z * Op)) (now : Z) :
  let s := run ops init in
  0 <= throttleCount s /\
  BASE_INTERVAL <= fst (currentInterval now s) <= MAX_INTERVAL /\
  (networkDown s = true ->
   timer s = None /\ timerFire now s = s /\ flush now s = s).
Proof.
  cbn zeta. destruct (inv_run ops init inv_init) as (Hc & Hnd & _).
  split; [exact Hc|]. split.
  - unfold currentInterval. cbn [fst].
    destruct (decay_is now (run ops init) Hc) as (c & Hc' & ->). cbn.
    rewrite intervalOf_values by lia. unfold BASE_INTERVAL, MAX_INTERVAL.
    repeat match goal with |- context [Z.eqb ?a ?b] => destruct (Z.eqb_spec a b) end; lia.
  - intros Hd. specialize (Hnd Hd). split; [exact Hnd|]. split.
    + unfold timerFire. now rewrite Hnd.
    + apply flush_paused, Hd.
Qed.

End QueueRunFacts.

Lemma queue_probe_result_cached_witness :
  let pre := [(2000, QueueRuns.OpSchedule 1 PeerQueue.normal)] in
  let ops := [(5040, QueueRuns.OpProbeResult false); (6000, QueueRuns.OpSuccess);
              (6100, QueueRuns.OpSchedule 2 PeerQueue.high);
              (6200, QueueRuns.OpSchedule 3 PeerQueue.normal)] in
  let s2 := QueueRuns.run ops
              (QueueRuns.step 5040 (QueueRuns.OpProbeSettled 5000 false)
                              (QueueRuns.run pre PeerQueue.init)) in
  Forall QueueRuns.keepsProbe ops /\ 9000 - 5000 < PeerQueue.PROBE_COOLDOWN /\
  PeerQueue.networkDown s2 = false /\ PeerQueue.queue s2 <> [] /\
  PeerQueue.networkDown (QueueRuns.step 9000 (QueueRuns.OpError 1 true) s2) = true /\
  PeerQueue.queue (QueueRuns.step 9000 (QueueRuns.OpError 1 true) s2) = [].
Proof.
  cbn zeta.
  assert (Hops : Forall QueueRuns.keepsProbe
                   [(5040, QueueRuns.OpProbeResult false); (6000, QueueRuns.OpSuccess);
                    (6100, QueueRuns.OpSchedule 2 PeerQueue.high);
                    (6200, QueueRuns.OpSchedule 3 PeerQueue.normal)])
    by (repeat constructor).
  assert (Ht : 9000 - 5000 < PeerQueue.PROBE_COOLDOWN) by (vm_compute; reflexivity).
  split; [exact Hops|]. split; [exact Ht|].
  split; [reflexivity|]. split; [vm_compute; discriminate|].
  destruct (queue_probe_result_cached [(2000, QueueRuns.OpSchedule 1 PeerQueue.normal)]
              [(5040, QueueRuns.OpProbeResult false); (6000, QueueRuns.OpSuccess);
               (6100, QueueRuns.OpSchedule 2 PeerQueue.high);
               (6200, QueueRuns.OpSchedule 3 PeerQueue.normal)]
              5000 5040 9000 1 false true Hops Ht) as (_ & _ & _ & _ & _ & H & _).
  destruct (H eq_refl) as (A & B & _). split; [exact A | exact B].
Defined.

(** ** Geohashes *)

Section GeohashFacts.
Import Geohash.
Local Open Scope Q_scope.

Ltac qmid := unfold mid, Qdiv in *; change (/ 2) with (1#2) in *.

Lemma narrow_proper il u b : proper b -> proper (narrow il u b).
Proof.
  intros (H1 & H2). unfold narrow, proper. destruct il, u; cbn; qmid; split; lra.
Qed.

Lemma narrow_within il u b : proper b -> within (narrow il u b) b.
Proof.
  intros (H1 & H2). unfold narrow, within. destruct il, u; cbn; qmid; repeat split; lra.
Qed.

Lemma within_refl b : within b b.
Proof. unfold within. repeat split; lra. Qed.

Lemma within_trans b1 b2 b3 : within b1 b2 -> within b2 b3 -> within b1 b3.
Proof. unfold within. intros (A & B & C & D) (E & F & G & H). repeat split; lra. Qed.

(** *** The loop of [encode], character by character *)

Lemma encodeStep_inner lat lng b h k c il :
  (0 <= k < 4)%Z ->
  encodeStep lat lng (mkEnc b h k c il)
  = mkEnc (narrow il (upperHalf lat lng il b) b) h (k + 1)
          (if upperHalf lat lng il b then Z.lor c (Z.shiftl 1 (4 - k)) else c) (negb il).
Proof.
  intros Hk. unfold encodeStep. cbn [box hash bit ch isLng].
  destruct (Z.eqb_spec (k + 1) 5); [lia | reflexivity].
Qed.

Lemma encodeStep_last lat lng b h c il :
  encodeStep lat lng (mkEnc b h 4 c il)
  = mkEnc (narrow il (upperHalf lat lng il b) b)
          (appendChar h (if upperHalf lat lng il b then Z.lor c (Z.shiftl 1 (4 - 4)) else c))
          0 0 (negb il).
Proof. reflexivity. Qed.

Lemma encodeStep5 lat lng b h il :
  match pointBits 5 lat lng il b with
  | (us, (b5, il5)) =>
    encodeStep lat lng (encodeStep lat lng (encodeStep lat lng (encodeStep lat lng
      (encodeStep lat lng (mkEnc b h 0 0 il)))))
    = mkEnc b5 (appendChar h (indexOfBits us)) 0 0 il5
  end.
Proof.
  cbn [pointBits].
  rewrite (encodeStep_inner lat lng b h 0) by lia.
  rewrite (encodeStep_inner lat lng _ h (0 + 1)) by lia.
  rewrite (encodeStep_inner lat lng _ h (0 + 1 + 1)) by lia.
  rewrite (encodeStep_inner lat lng _ h (0 + 1 + 1 + 1)) by lia.
  change (0 + 1 + 1 + 1 + 1)%Z with 4%Z. rewrite encodeStep_last.
  set (u0 := upperHalf lat lng il b). set (b1 := narrow il u0 b).
  set (u1 := upperHalf lat lng (negb il) b1). set (b2 := narrow (negb il) u1 b1).
  set (u2 := upperHalf lat lng (negb (negb il)) b2). set (b3 := narrow (negb (negb il)) u2 b2).
  set (u3 := upperHalf lat lng (negb (negb (negb il))) b3).
  set (b4 := narrow (negb (negb (negb il))) u3 b3).
  set (u4 := upperHalf lat lng (negb (negb (negb (negb il)))) b4).
  f_equal. f_equal. clearbody u0 u1 u2 u3 u4. clear.
  destruct u0, u1, u2, u3, u4; vm_compute; reflexivity.
Qed.

Lemma pointBits_length n lat lng il b : length (fst (pointBits n lat lng il b)) = n.
Proof.
  revert il b. induction n as [|n IH]; intros il b; [reflexivity|].
  cbn [pointBits]. specialize (IH (negb il) (narrow il (upperHalf lat lng il b) b)).
  destruct (pointBits n lat lng _ _) as [us r]. cbn in *. now rewrite IH.
Qed.

Lemma indexOfBits_char (us : list bool) :
  length us = 5%nat ->
  exists c, String.get (Z.to_nat (indexOfBits us)) BASE32 = Some c /\
            indexOf c BASE32 = Some (Z.to_nat (indexOfBits us)) /\
            Z.of_nat (Z.to_nat (indexOfBits us)) = indexOfBits us /\
            List.map (fun k => negb (Z.land (indexOfBits us) (Z.shiftl 1 k) =? 0)%Z)
                     [4; 3; 2; 1; 0]%Z = us.
Proof.
  intros H. destruct us as [|u0 [|u1 [|u2 [|u3 [|u4 [|]]]]]]; try discriminate H.
  destruct u0, u1, u2, u3, u4; eexists; (split; [vm_compute; reflexivity|]);
    (split; [vm_compute; reflexivity|]); split; reflexivity.
Qed.

Lemma append_assoc (a b c : string) : ((a ++ b) ++ c = a ++ (b ++ c))%string.
Proof.
  induction a as [|x a IH]; [reflexivity|].
  change (String x ((a ++ b) ++ c) = String x (a ++ (b ++ c)))%string. now rewrite IH.
Qed.

Lemma append_nil_r (a : string) : (a ++ EmptyString)%string = a.
Proof.
  induction a as [|x a IH]; [reflexivity|].
  change (String x (a ++ EmptyString)%string = String x a). now rewrite IH.
Qed.

Lemma appendChar_spec h (us : list bool) :
  length us = 5%nat ->
  appendChar h (indexOfBits us) = (h ++ appendChar EmptyString (indexOfBits us))%string /\
  String.length (appendChar EmptyString (indexOfBits us)) = 1%nat.
Proof.
  intros H. destruct (indexOfBits_char us H) as (c & Hc & _). unfold appendChar.
  rewrite Hc. split; reflexivity.
Qed.

Lemma encodeLoop5 f p lat lng b h il :
  (String.length h < p)%nat ->
  encodeLoop (5 + f) p lat lng (mkEnc b h 0 0 il)
  = encodeLoop f p lat lng
      (encodeStep lat lng (encodeStep lat lng (encodeStep lat lng (encodeStep lat lng
         (encodeStep lat lng (mkEnc b h 0 0 il)))))).
Proof.
  intros Hl. apply Nat.ltb_lt in Hl.
  change (5 + f)%nat with (S (S (S (S (S f))))).
  cbn [encodeLoop]. cbn [hash]. rewrite Hl.
  rewrite (encodeStep_inner lat lng b h 0) by lia. cbn [hash]. rewrite Hl.
  rewrite (encodeStep_inner lat lng _ h (0 + 1)) by lia. cbn [hash]. rewrite Hl.
  rewrite (encodeStep_inner lat lng _ h (0 + 1 + 1)) by lia. cbn [hash]. rewrite Hl.
  rewrite (encodeStep_inner lat lng _ h (0 + 1 + 1 + 1)) by lia. cbn [hash]. rewrite Hl.
  reflexivity.
Qed.

Lemma encodeLoop_done f p lat lng e :
  (p <= String.length (hash e))%nat -> encodeLoop f p lat lng e = hash e.
Proof.
  intros H. destruct f; [reflexivity|]. cbn [encodeLoop].
  destruct (Nat.ltb_spec (String.length (hash e)) p); [lia | reflexivity].
Qed.

(** The loop of [encode] runs to its end on the fuel given, and is
    [encodeChars]. *)
Lemma encodeLoop_chars k lat lng :
  forall b h il,
    encodeLoop (5 * k) (String.length h + k) lat lng (mkEnc b h 0 0 il)
    = (h ++ encodeChars k lat lng il b)%string.
Proof.
  induction k as [|k IH]; intros b h il.
  - rewrite encodeLoop_done by (cbn; lia). cbn.
    symmetry. apply append_nil_r.
  - replace (5 * S k)%nat with (5 + 5 * k)%nat by lia.
    rewrite encodeLoop5 by lia.
    pose proof (encodeStep5 lat lng b h il) as H5.
    pose proof (pointBits_length 5 lat lng il b) as Hlen.
    cbn [encodeChars].
    destruct (pointBits 5 lat lng il b) as [us [b5 il5]]. cbn [fst] in Hlen.
    rewrite H5. destruct (appendChar_spec h us Hlen) as (Ha & Hl1).
    specialize (IH b5 (appendChar h (indexOfBits us)) il5).
    replace (String.length (appendChar h (indexOfBits us)) + k)%nat
      with (String.length h + S k)%nat in IH
      by (rewrite Ha, string_length_app, Hl1; lia).
    rewrite IH, Ha, append_assoc. reflexivity.
Qed.

Lemma encode_chars lat lng p : encode lat lng p = encodeChars p lat lng true world.
Proof. unfold encode. exact (encodeLoop_chars p lat lng world EmptyString true). Qed.

Lemma encodeChars_shape k lat lng :
  forall il b, String.length (encodeChars k lat lng il b) = k /\
               wellFormed (encodeChars k lat lng il b).
Proof.
  induction k as [|k IH]; intros il b; [split; [reflexivity | constructor]|].
  cbn [encodeChars]. pose proof (pointBits_length 5 lat lng il b) as Hlen.
  destruct (pointBits 5 lat lng il b) as [us [b5 il5]]. cbn [fst] in Hlen.
  destruct (indexOfBits_char us Hlen) as (c & Hc & Hi & _).
  destruct (IH il5 b5) as (Hl & Hw). unfold appendChar. rewrite Hc.
  change ((EmptyString ++ String c EmptyString) ++ encodeChars k lat lng il5 b5)%string
    with (String c (encodeChars k lat lng il5 b5)).
  split; [cbn [String.length]; now rewrite Hl|].
  unfold wellFormed. cbn [list_ascii_of_string].
  constructor; [rewrite Hi; discriminate | exact Hw].
Qed.

(** X5. [encode] returns a hash of exactly [precision] characters, all of
    the alphabet, whatever the coordinates (the loop ends). *)
Theorem geohash_encode_shape (lat lng : Q) (precision : nat) :
  String.length (encode lat lng precision) = precision /\
  wellFormed (encode lat lng precision).
Proof. rewrite encode_chars. apply encodeChars_shape. Qed.

(** *** The loops of [decode] *)

Lemma decodeBit_fold idx ks :
  forall acc, fold_left (decodeBit idx) ks acc
              = narrowBits (List.map (fun k => negb (Z.land idx (Z.shiftl 1 k) =? 0)%Z) ks) acc.
Proof.
  induction ks as [|k ks IH]; intros [b il]; [reflexivity|].
  cbn [fold_left List.map narrowBits]. rewrite IH. reflexivity.
Qed.

Lemma pointBits_narrow n lat lng :
  forall il b, snd (pointBits n lat lng il b) = narrowBits (fst (pointBits n lat lng il b)) (b, il).
Proof.
  induction n as [|n IH]; intros il b; [reflexivity|].
  cbn [pointBits]. specialize (IH (negb il) (narrow il (upperHalf lat lng il b) b)).
  destruct (pointBits n lat lng _ _) as [us r]. cbn [fst snd] in *. rewrite IH. reflexivity.
Qed.

Lemma narrowBits_proper us :
  forall b il, proper b ->
    proper (fst (narrowBits us (b, il))) /\ within (fst (narrowBits us (b, il))) b.
Proof.
  induction us as [|u us IH]; intros b il Hp.
  - split; [exact Hp | apply within_refl].
  - cbn [narrowBits fold_left fst snd].
    destruct (IH (narrow il u b) (negb il) (narrow_proper il u b Hp)) as (A & B).
    split; [exact A|]. eapply within_trans; [exact B | apply narrow_within, Hp].
Qed.

Lemma indexOf_get c s : forall i, indexOf c s = Some i -> String.get i s = Some c.
Proof.
  induction s as [|c' s IH]; intros i H; [discriminate|]. cbn [indexOf] in H.
  destruct (Ascii.eqb_spec c c') as [->|Hne].
  - injection H as <-. reflexivity.
  - destruct (indexOf c s) as [j|]; [|discriminate]. injection H as <-.
    cbn [String.get]. now apply IH.
Qed.

(** The index of a character of the alphabet is below 32, and its five bits
    give it back. *)
Lemma index_bits (i : nat) c :
  String.get i BASE32 = Some c ->
  indexOfBits (List.map (fun k => negb (Z.land (Z.of_nat i) (Z.shiftl 1 k) =? 0)%Z)
                        [4; 3; 2; 1; 0]%Z) = Z.of_nat i.
Proof.
  intros H.
  do 32 (destruct i as [|i]; [vm_compute; reflexivity|]).
  exfalso. clear -H. cbn in H. discriminate H.
Qed.

Lemma decodeChar_bits c i b il :
  indexOf c BASE32 = Some i ->
  exists us, length us = 5%nat /\ indexOfBits us = Z.of_nat i /\
             decodeChar (b, il) c = narrowBits us (b, il).
Proof.
  intros H. unfold decodeChar. rewrite H, decodeBit_fold.
  exists (List.map (fun k => negb (Z.land (Z.of_nat i) (Z.shiftl 1 k) =? 0)%Z) [4; 3; 2; 1; 0]%Z).
  split; [reflexivity|]. split; [|reflexivity].
  apply index_bits with (c := c), indexOf_get, H.
Qed.

Lemma decodeFrom_proper cs :
  forall b il, proper b ->
    proper (fst (fold_left decodeChar cs (b, il))) /\
    within (fst (fold_left decodeChar cs (b, il))) b.
Proof.
  induction cs as [|c cs IH]; intros b il Hp.
  - split; [exact Hp | apply within_refl].
  - cbn [fold_left]. unfold decodeChar at 2 4. destruct (indexOf c BASE32) as [i|].
    + rewrite decodeBit_fold.
      match goal with |- context [narrowBits ?us (b, il)] =>
        destruct (narrowBits_proper us b il Hp) as (A & B);
        destruct (narrowBits us (b, il)) as [b5 il5] eqn:E end.
      cbn [fst] in A, B. destruct (IH b5 il5 A) as (A' & B').
      split; [exact A' | eapply within_trans; eassumption].
    + apply IH, Hp.
Qed.

(** *** A point strictly inside the final bounds retraces the halves *)

Lemma upperHalf_inside lat lng il u b f :
  inside f lat lng -> within f (narrow il u b) -> upperHalf lat lng il b = u.
Proof.
  intros (A1 & A2 & A3 & A4) (B1 & B2 & B3 & B4). unfold upperHalf, narrow in *.
  destruct il, u; cbn [minLat maxLat minLng maxLng] in *.
  - apply Qle_bool_iff. lra.
  - destruct (Qle_bool _ lng) eqn:E; [|reflexivity]. apply Qle_bool_iff in E. lra.
  - apply Qle_bool_iff. lra.
  - destruct (Qle_bool _ lat) eqn:E; [|reflexivity]. apply Qle_bool_iff in E. lra.
Qed.

Lemma pointBits_inside lat lng f us :
  forall b il, proper b -> inside f lat lng -> within f (fst (narrowBits us (b, il))) ->
    pointBits (length us) lat lng il b = (us, narrowBits us (b, il)).
Proof.
  induction us as [|u us IH]; intros b il Hp Hin Hw; [reflexivity|].
  cbn [length pointBits narrowBits fold_left fst snd] in *.
  assert (Hu : upperHalf lat lng il b = u).
  { apply upperHalf_inside with (f := f); [exact Hin|].
    eapply within_trans; [exact Hw|].
    apply narrowBits_proper, narrow_proper, Hp. }
  rewrite Hu. rewrite (IH (narrow il u b) (negb il) (narrow_proper il u b Hp) Hin Hw).
  reflexivity.
Qed.

Lemma encodeChars_inside lat lng cs :
  forall b il,
    Forall (fun c => indexOf c BASE32 <> None) cs -> proper b ->
    inside (fst (fold_left decodeChar cs (b, il))) lat lng ->
    encodeChars (length cs) lat lng il b = string_of_list_ascii cs.
Proof.
  induction cs as [|c cs IH]; intros b il Hall Hp Hin; [reflexivity|].
  inversion Hall as [|? ? Hc Hcs]; subst.
  destruct (indexOf c BASE32) as [i|] eqn:Hi; [clear Hc | now destruct Hc].
  destruct (decodeChar_bits c i b il Hi) as (us & Hlen & Hidx & Hdec).
  cbn [fold_left] in Hin. rewrite Hdec in Hin.
  destruct (narrowBits_proper us b il Hp) as (Hp5 & _).
  destruct (narrowBits us (b, il)) as [b5 il5] eqn:E. cbn [fst] in Hp5.
  assert (Hpb : pointBits 5 lat lng il b = (us, (b5, il5))).
  { rewrite <- Hlen, <- E. apply pointBits_inside with (f := fst (fold_left decodeChar cs (b5, il5))).
    - exact Hp.
    - exact Hin.
    - rewrite E. cbn [fst]. apply decodeFrom_proper, Hp5. }
  cbn [length encodeChars]. rewrite Hpb, (IH b5 il5 Hcs Hp5 Hin).
  unfold appendChar. rewrite Hidx, Nat2Z.id, (indexOf_get c BASE32 i Hi). reflexivity.
Qed.

Lemma string_of_list_ascii_length cs :
  String.length (string_of_list_ascii cs) = length cs.
Proof. induction cs as [|c cs IH]; cbn; [|rewrite IH]; reflexivity. Qed.

(** X6. [encode] undoes [decode]: for a hash over the alphabet, of at most
    12 characters, encoding the point that [decode] returns, at the
    precision of the hash, gives the hash back. *)
Theorem geohash_encode_decode (h : string) :
  wellFormed h -> (String.length h <= 12)%nat ->
  encode (fst (decode h)) (snd (decode h)) (String.length h) = h.
Proof.
  intros Hw _. rewrite encode_chars. unfold decode, decodeBox. cbn [fst snd].
  assert (Hpw : proper world) by (split; reflexivity).
  assert (Hlen : String.length h = length (list_ascii_of_string h)).
  { rewrite <- (string_of_list_ascii_of_string h) at 1. apply string_of_list_ascii_length. }
  rewrite Hlen. rewrite <- (string_of_list_ascii_of_string h) at 6.
  apply encodeChars_inside; [exact Hw | exact Hpw |].
  destruct (decodeFrom_proper (list_ascii_of_string h) world true Hpw) as ((A & B) & _).
  unfold inside. qmid. repeat split; lra.
Qed.

(** *** The bounds [decode] reaches on a hash of [encode] *)

Lemma narrow_contains lat lng il b :
  contains b lat lng -> contains (narrow il (upperHalf lat lng il b) b) lat lng.
Proof.
  intros (A & B & C & D). unfold upperHalf, narrow, contains.
  destruct il.
  - destruct (Qle_bool _ lng) eqn:E; cbn [minLat maxLat minLng maxLng].
    + apply Qle_bool_iff in E. repeat split; lra.
    + assert (~ mid (minLng b) (maxLng b) <= lng) by (rewrite <- Qle_bool_iff; congruence).
      repeat split; lra.
  - destruct (Qle_bool _ lat) eqn:E; cbn [minLat maxLat minLng maxLng].
    + apply Qle_bool_iff in E. repeat split; lra.
    + assert (~ mid (minLat b) (maxLat b) <= lat) by (rewrite <- Qle_bool_iff; congruence).
      repeat split; lra.
Qed.

Lemma pointBits_contains n lat lng :
  forall il b, contains b lat lng -> contains (fst (snd (pointBits n lat lng il b))) lat lng.
Proof.
  induction n as [|n IH]; intros il b H; [exact H|].
  cbn [pointBits]. specialize (IH (negb il) _ (narrow_contains lat lng il b H)).
  destruct (pointBits n lat lng _ _) as [us r]. exact IH.
Qed.

Lemma halved_proper n x y : x == y -> halved n x == halved n y.
Proof.
  intros H. induction n as [|n IH]; cbn [halved]; [exact H|]. rewrite IH. reflexivity.
Qed.

Lemma halved_half n w : halved n (w / 2) == halved n w / 2.
Proof.
  induction n as [|n IH]; cbn [halved]; [reflexivity|]. rewrite IH. reflexivity.
Qed.

(** The widths after [n] halvings taken in turn: the coordinate in turn
    gets the first one. *)
Lemma narrowBits_width us :
  forall b il,
    let r := narrowBits us (b, il) in
    let n := length us in
    maxLng (fst r) - minLng (fst r)
      == halved (if il then (n + 1) / 2 else n / 2) (maxLng b - minLng b) /\
    maxLat (fst r) - minLat (fst r)
      == halved (if il then n / 2 else (n + 1) / 2) (maxLat b - minLat b) /\
    snd r = (if Nat.even n then il else negb il).
Proof.
  induction us as [|u us IH]; intros b il; cbn zeta.
  - cbn. destruct il; repeat split; reflexivity.
  - cbn [narrowBits fold_left fst snd length].
    destruct (IH (narrow il u b) (negb il)) as (A & B & C). cbn zeta in A, B, C.
    fold (narrowBits us (narrow il u b, negb il)).
    rewrite A, B, C.
    assert (E1 : ((S (length us) + 1) / 2 = S (length us / 2))%nat).
    { replace (S (length us) + 1)%nat with (length us + 1 * 2)%nat by lia.
      rewrite Nat.div_add by lia. lia. }
    assert (E2 : (S (length us) / 2 = (length us + 1) / 2)%nat) by (f_equal; lia).
    rewrite Nat.even_succ, <- Nat.negb_even.
    destruct il; cbn [negb]; rewrite ?E1, ?E2; cbn [halved].
    + split; [|split; [|now destruct (Nat.even (length us))]].
      * rewrite <- halved_half. destruct u; cbn [narrow minLng maxLng];
          apply halved_proper; qmid; lra.
      * destruct u; reflexivity.
    + split; [|split; [|now destruct (Nat.even (length us))]].
      * destruct u; reflexivity.
      * rewrite <- halved_half. destruct u; cbn [narrow minLat maxLat];
          apply halved_proper; qmid; lra.
Qed.

Lemma narrowBits_app us vs acc :
  narrowBits (us ++ vs) acc = narrowBits vs (narrowBits us acc).
Proof. unfold narrowBits. apply fold_left_app. Qed.

Lemma decode_encodeChars k lat lng :
  forall il b, contains b lat lng ->
    exists us, length us = (5 * k)%nat /\
      fold_left decodeChar (list_ascii_of_string (encodeChars k lat lng il b)) (b, il)
      = narrowBits us (b, il) /\
      contains (fst (narrowBits us (b, il))) lat lng.
Proof.
  induction k as [|k IH]; intros il b Hin.
  - exists []. split; [reflexivity|]. split; [reflexivity | exact Hin].
  - cbn [encodeChars].
    pose proof (pointBits_length 5 lat lng il b) as Hlen.
    pose proof (pointBits_narrow 5 lat lng il b) as Hnar.
    pose proof (pointBits_contains 5 lat lng il b Hin) as Hc5.
    destruct (pointBits 5 lat lng il b) as [us [b5 il5]]. cbn [fst snd] in Hlen, Hnar, Hc5.
    destruct (indexOfBits_char us Hlen) as (c & Hc & Hi & Hz & Hbits).
    unfold appendChar. rewrite Hc.
    change ((EmptyString ++ String c EmptyString) ++ encodeChars k lat lng il5 b5)%string
      with (String c (encodeChars k lat lng il5 b5)).
    cbn [list_ascii_of_string fold_left].
    assert (Hd : decodeChar (b, il) c = (b5, il5)).
    { unfold decodeChar. rewrite Hi, decodeBit_fold, Hz, Hbits. now rewrite Hnar. }
    rewrite Hd. destruct (IH il5 b5 Hc5) as (vs & Hl & He & Hcont).
    exists (us ++ vs). rewrite narrowBits_app, <- Hnar, length_app, Hlen, Hl.
    split; [lia|]. split; [exact He | exact Hcont].
Qed.

(** X7. [decode] undoes [encode] up to the cell: for a point of the globe
    and a precision of at most 12, the bounds [decode] reaches on the hash
    of the point contain the point, and are the ranges of latitude and
    longitude halved [5p/2] times (rounded down for the latitude, up for
    the longitude); so the point [decode] returns, the middle of these
    bounds, is within half a cell of the point encoded. *)
Theorem geohash_decode_encode (lat lng : Q) (p : nat) :
  contains world lat lng -> (p <= 12)%nat ->
  let b := decodeBox (encode lat lng p) in
  contains b lat lng /\
  maxLat b - minLat b == halved (5 * p / 2) 180 /\
  maxLng b - minLng b == halved ((5 * p + 1) / 2) 360 /\
  - halved (5 * p / 2) 90 <= lat - fst (decode (encode lat lng p)) <= halved (5 * p / 2) 90 /\
  - halved ((5 * p + 1) / 2) 180 <= lng - snd (decode (encode lat lng p))
    <= halved ((5 * p + 1) / 2) 180.
Proof.
  intros Hin _. cbn zeta. unfold decode, decodeBox. cbn [fst snd]. rewrite encode_chars.
  destruct (decode_encodeChars p lat lng true world Hin) as (us & Hlen & -> & Hc).
  destruct (narrowBits_width us world true) as (Wlng & Wlat & _). cbn zeta in Wlng, Wlat.
  rewrite Hlen in Wlng, Wlat.
  set (b := fst (narrowBits us (world, true))) in *.
  assert (W1 : maxLat b - minLat b == halved (5 * p / 2) 180).
  { rewrite Wlat. apply halved_proper. reflexivity. }
  assert (W2 : maxLng b - minLng b == halved ((5 * p + 1) / 2) 360).
  { rewrite Wlng. apply halved_proper. reflexivity. }
  assert (H1 : halved (5 * p / 2) 90 == halved (5 * p / 2) 180 / 2).
  { rewrite <- halved_half. apply halved_proper. reflexivity. }
  assert (H2 : halved ((5 * p + 1) / 2) 180 == halved ((5 * p + 1) / 2) 360 / 2).
  { rewrite <- halved_half. apply halved_proper. reflexivity. }
  split; [exact Hc|]. split; [exact W1|]. split; [exact W2|].
  destruct Hc as (A & B & C & D).
  rewrite H1, H2, <- W1, <- W2. qmid. repeat split; lra.
Qed.

End GeohashFacts.

Lemma geohash_encode_decode_witness :
  Geohash.wellFormed "9q8yy" /\ (String.length "9q8yy" <= 12)%nat /\
  Geohash.encode (fst (Geohash.decode "9q8yy")) (snd (Geohash.decode "9q8yy")) 5 = "9q8yy"%string.
Proof.
  assert (Hw : Geohash.wellFormed "9q8yy") by (repeat constructor; discriminate).
  assert (Hl : (String.length "9q8yy" <= 12)%nat) by (cbn; lia).
  split; [exact Hw|]. split; [exact Hl|].
  exact (geohash_encode_decode "9q8yy" Hw Hl).
Defined.

Lemma geohash_decode_encode_witness :
  Geohash.contains Geohash.world (377 # 10) (-1224 # 10) /\ (7 <= 12)%nat /\
  Geohash.contains (Geohash.decodeBox (Geohash.encode (377 # 10) (-1224 # 10) 7))
                   (377 # 10) (-1224 # 10).
Proof.
  assert (Hc : Geohash.contains Geohash.world (377 # 10) (-1224 # 10)).
  { unfold Geohash.contains. cbn. repeat split; discriminate. }
  assert (Hl : (7 <= 12)%nat) by lia.
  split; [exact Hc|]. split; [exact Hl|].
  exact (proj1 (geohash_decode_encode (377 # 10) (-1224 # 10) 7 Hc Hl)).
Defined.

(** ** Direct messages through their statuses *)

Section ChatFacts.
Import Messaging Chat.
Context (C : CryptoOps).

Lemma sendEncryptedMessage_chats contactKey conn msg m :
  Mgr.chats (sendEncryptedMessage C contactKey conn msg m) = Mgr.chats m.
Proof.
  unfold sendEncryptedMessage.
  destruct (getOrDeriveSharedKey_frame C contactKey m) as (_ & Hc & _).
  destruct (getOrDeriveSharedKey C contactKey m) as [sk m1]. cbn [snd] in Hc.
  destruct sk as [sk|]; [destruct (Mgr.privateKey m1) as [priv|]|];
    [destruct (encryptAndSign C sk priv msg)| |]; exact Hc.
Qed.

Lemma flushLoop_messages contactKey conn msgs :
  forall m,
    fst (fst (flushLoop C contactKey conn msgs m)) = List.map flushed msgs /\
    snd (fst (flushLoop C contactKey conn msgs m))
      = existsb (fun msg => queued msg && isText msg) msgs /\
    Mgr.chats (snd (flushLoop C contactKey conn msgs m)) = Mgr.chats m.
Proof.
  induction msgs as [|msg rest IH]; intros m; [auto|].
  cbn [flushLoop List.map existsb]. unfold flushed at 1.
  destruct (queued msg && isText msg).
  - destruct (IH (sendEncryptedMessage C contactKey conn msg m)) as (A & B & D).
    destruct (flushLoop C contactKey conn rest _) as [[rest' u] m2]. cbn [fst snd] in *.
    rewrite A, D, sendEncryptedMessage_chats. auto.
  - destruct (IH m) as (A & B & D).
    destruct (flushLoop C contactKey conn rest m) as [[rest' u] m2]. cbn [fst snd] in *.
    rewrite A, B, D. auto.
Qed.

Lemma directPayloads_emit c e m :
  (forall d, e <> Send c (W_message d)) ->
  directPayloads c (Mgr.effects (emit e m)) = directPayloads c (Mgr.effects m).
Proof.
  intros H. rewrite effects_emit, directPayloads_app.
  assert (E : directPayloads c [e] = []).
  { destruct e as [c' w| | | | | | | | | | | | | | |]; try reflexivity.
    destruct w; try reflexivity. cbn. destruct (Nat.eqb_spec c c') as [->|]; [|reflexivity].
    now destruct (H m0). }
  rewrite E. apply app_nil_r.
Qed.

Lemma sendFiles_frame contactKey c files :
  forall m,
    let m' := fold_left (fun acc file => emit (SendFileNow contactKey file c) acc) files m in
    Mgr.chats m' = Mgr.chats m /\
    forall cid, directPayloads cid (Mgr.effects m') = directPayloads cid (Mgr.effects m).
Proof.
  induction files as [|f fs IH]; intros m; cbn zeta; [auto|]. cbn [fold_left].
  destruct (IH (emit (SendFileNow contactKey f c) m)) as (A & B). cbn zeta in A, B.
  rewrite A. split; [reflexivity|]. intros cid. rewrite B.
  apply directPayloads_emit. discriminate.
Qed.

(** The flush of a chat whose contact has an open connection. *)
Lemma flushMessageQueue_open (contactKey : string) (m : Mgr.t)
    (c : Contact.t) (conn : Conn.t) (msgs : list ChatMessage.t) :
  JsObj.get contactKey (Mgr.contacts m) = Some c ->
  Contact.conn c = Some conn -> Conn.open conn = true ->
  Mgr.chats m !! contactKey = Some msgs ->
  let m' := flushMessageQueue C contactKey m in
  (exists payloads,
     directPayloads (Conn.cid conn) (Mgr.effects m')
     = directPayloads (Conn.cid conn) (Mgr.effects m) ++ payloads /\
     List.map DirectMsg.id payloads
     = List.map (fun msg => Some (ChatMessage.id msg))
                (List.filter (fun msg => queued msg && isText msg) msgs)) /\
  Mgr.chats m' !! contactKey = Some (List.map flushed msgs) /\
  (forall k, k <> contactKey -> Mgr.chats m' !! k = Mgr.chats m !! k).
Proof.
  intros Hc Hconn Hopen Hmsgs. cbn zeta. unfold flushMessageQueue.
  rewrite Hc, Hconn, Hopen, Hmsgs. cbn [negb].
  destruct (flushLoop_sends_each_once C contactKey conn msgs m) as (ps & He & Hi).
  destruct (flushLoop_messages contactKey conn msgs m) as (A & B & D).
  destruct (flushLoop C contactKey conn msgs m) as [[msgs' updated] m1].
  cbn [fst snd] in *. subst msgs'.
  set (m2 := Mgr.set_chats (<[contactKey := List.map flushed msgs]> (Mgr.chats m1)) m1).
  set (m3 := if updated then _ else m2).
  assert (H3 : Mgr.chats m3 = <[contactKey := List.map flushed msgs]> (Mgr.chats m) /\
               Mgr.effects m3 = Mgr.effects m1 ++
                 (if updated then [SaveChats; Dispatch "message" contactKey] else [])).
  { subst m3 m2. rewrite <- D. destruct updated; unfold emit;
      cbn [Mgr.chats Mgr.effects Mgr.set_effects Mgr.set_chats Mgr.set_connectFailures];
      rewrite <- ?app_assoc, ?app_nil_r; auto. }
  destruct H3 as (Hch3 & Hef3).
  assert (Hpay3 : directPayloads (Conn.cid conn) (Mgr.effects m3)
                  = directPayloads (Conn.cid conn) (Mgr.effects m) ++ ps).
  { rewrite Hef3, directPayloads_app, He. destruct updated; cbn; now rewrite app_nil_r. }
  assert (Hfin : forall m4, Mgr.chats m4 = Mgr.chats m3 ->
            directPayloads (Conn.cid conn) (Mgr.effects m4)
            = directPayloads (Conn.cid conn) (Mgr.effects m3) ->
            (exists payloads,
               directPayloads (Conn.cid conn) (Mgr.effects m4)
               = directPayloads (Conn.cid conn) (Mgr.effects m) ++ payloads /\
               List.map DirectMsg.id payloads
               = List.map (fun msg => Some (ChatMessage.id msg))
                          (List.filter (fun msg => queued msg && isText msg) msgs)) /\
            Mgr.chats m4 !! contactKey = Some (List.map flushed msgs) /\
            (forall k, k <> contactKey -> Mgr.chats m4 !! k = Mgr.chats m !! k)).
  { intros m4 E1 E2. rewrite E1, E2, Hch3, Hpay3. split; [eauto|]. split.
    - apply lookup_insert_eq.
    - intros k Hk. apply lookup_insert_ne. congruence. }
  destruct (Mgr.pendingFiles m3 !! contactKey) as [[|f fs]|]; try (apply Hfin; reflexivity).
  destruct (sendFiles_frame contactKey (Conn.cid conn) (f :: fs) m3) as (E1 & E2).
  cbn zeta in E1, E2. apply Hfin; [exact E1 | apply E2].
Qed.

(** X8. [flushMessageQueue] on a contact with an open connection puts on
    it one ['message'] per stored text message that is ['waiting'] or
    ['failed'], in the order of the chat and each once; these messages
    become ['sent'] and every other message, and every other chat, is left
    as it was. *)
Theorem flush_sends_queue_once (contactKey : string) (m : Mgr.t)
    (c : Contact.t) (conn : Conn.t) (msgs : list ChatMessage.t) :
  JsObj.get contactKey (Mgr.contacts m) = Some c ->
  Contact.conn c = Some conn -> Conn.open conn = true ->
  Mgr.chats m !! contactKey = Some msgs ->
  let m' := flushMessageQueue C contactKey m in
  (exists payloads,
     directPayloads (Conn.cid conn) (Mgr.effects m')
     = directPayloads (Conn.cid conn) (Mgr.effects m) ++ payloads /\
     List.map DirectMsg.id payloads
     = List.map (fun msg => Some (ChatMessage.id msg))
                (List.filter (fun msg => queued msg && isText msg) msgs)) /\
  Mgr.chats m' !! contactKey = Some (List.map flushed msgs) /\
  (forall k, k <> contactKey -> Mgr.chats m' !! k = Mgr.chats m !! k).
Proof. exact (flushMessageQueue_open contactKey m c conn msgs). Qed.

Lemma jsobj_get_update {V} (k : string) (f : V -> V) (o : JsObj.t V) :
  JsObj.get k (JsObj.update k f o) = f <$> JsObj.get k o.
Proof.
  unfold JsObj.update. destruct (JsObj.get k o) as [v|] eqn:E; [|now rewrite E].
  apply jsobj_get_set_eq.
Qed.

Lemma filter_app_queued (l1 l2 : list ChatMessage.t) p :
  List.filter p (l1 ++ l2) = List.filter p l1 ++ List.filter p l2.
Proof. apply List.filter_app. Qed.

(** X9. A message typed while the contact has no open connection is not
    lost: [sendMessage] sends nothing, stores it as ['waiting'] at the end
    of the chat and asks for a connection to the contact's current PID;
    once a connection is set on the contact, the flush sends it, once and
    after the messages queued before it, and marks it ['sent']. *)
Theorem offline_message_is_queued (now : Z) (uuid contactKey content : string)
    (m : Mgr.t) (c : Contact.t) (conn : Conn.t) :
  JsObj.get contactKey (Mgr.contacts m) = Some c ->
  connOpen (Contact.conn c) = false ->
  Conn.open conn = true ->
  let old := default [] (Mgr.chats m !! contactKey) in
  let msg := ChatMessage.mk uuid sent (Some text) (Some content) None None None now
                            (Some waiting) false false None None None None in
  let m1 := sendMessage C now uuid contactKey content m in
  let m2 := flushMessageQueue C contactKey (withConn contactKey conn m1) in
  (forall cid, directPayloads cid (Mgr.effects m1) = directPayloads cid (Mgr.effects m)) /\
  In (ConnectPersistent (Js.orElse (Some (Contact.currentPID c)) contactKey)
                        (Contact.friendlyName c)) (Mgr.effects m1) /\
  Mgr.chats m1 !! contactKey = Some (old ++ [msg]) /\
  (exists payloads,
     directPayloads (Conn.cid conn) (Mgr.effects m2)
     = directPayloads (Conn.cid conn) (Mgr.effects m) ++ payloads /\
     List.map DirectMsg.id payloads
     = List.map (fun x => Some (ChatMessage.id x))
                (List.filter (fun x => queued x && isText x) old) ++ [Some uuid]) /\
  Mgr.chats m2 !! contactKey
  = Some (List.map flushed old ++ [ChatMessage.set_status (Some st_sent) msg]).
Proof.
  intros Hc Hclosed Hopen old msg m1 m2.
  assert (H1 : (forall cid, directPayloads cid (Mgr.effects m1) = directPayloads cid (Mgr.effects m)) /\
               In (ConnectPersistent (Js.orElse (Some (Contact.currentPID c)) contactKey)
                                     (Contact.friendlyName c)) (Mgr.effects m1) /\
               Mgr.chats m1 = <[contactKey := old ++ [msg]]> (Mgr.chats m) /\
               exists c1, JsObj.get contactKey (Mgr.contacts m1) = Some c1).
  { subst m1. unfold sendMessage. rewrite Hc. fold old. fold msg.
    unfold connOpen in Hclosed.
    destruct (Contact.conn c) as [cn|] eqn:Hcn.
    - rewrite Hclosed. unfold emit.
      cbn [Mgr.chats Mgr.effects Mgr.contacts Mgr.set_effects Mgr.set_chats Mgr.set_contacts].
      split; [|split; [|split]].
      + intros cid. rewrite !directPayloads_app. cbn. now rewrite !app_nil_r.
      + rewrite !in_app_iff. cbn. tauto.
      + reflexivity.
      + rewrite jsobj_get_update, Hc. eauto.
    - unfold emit.
      cbn [Mgr.chats Mgr.effects Mgr.contacts Mgr.set_effects Mgr.set_chats Mgr.set_contacts].
      split; [|split; [|split]].
      + intros cid. rewrite !directPayloads_app. cbn. now rewrite !app_nil_r.
      + rewrite !in_app_iff. cbn. tauto.
      + reflexivity.
      + eauto. }
  destruct H1 as (Hq & Hcp & Hch & c1 & Hc1).
  split; [exact Hq|]. split; [exact Hcp|]. split; [rewrite Hch; apply lookup_insert_eq|].
  assert (Hget : JsObj.get contactKey (Mgr.contacts (withConn contactKey conn m1))
                 = Some (Contact.set_conn (Some conn) c1)).
  { unfold withConn. cbn [Mgr.contacts Mgr.set_contacts]. now rewrite jsobj_get_update, Hc1. }
  destruct (flushMessageQueue_open contactKey (withConn contactKey conn m1) _ conn (old ++ [msg])
              Hget eq_refl Hopen) as ((ps & Hp & Hi) & Hm & _).
  { unfold withConn. cbn [Mgr.chats Mgr.set_contacts]. rewrite Hch. apply lookup_insert_eq. }
  fold m2 in Hp, Hm. split.
  - exists ps. unfold withConn in Hp. cbn [Mgr.effects Mgr.set_contacts] in Hp.
    rewrite Hp, Hq. split; [reflexivity|].
    rewrite Hi, List.filter_app, List.map_app. reflexivity.
  - rewrite Hm, List.map_app. reflexivity.
Qed.

Lemma chosenPayload_ts sk priv msg :
  DirectMsg.ts (chosenPayload C sk priv msg) = ChatMessage.ts msg.
Proof.
  unfold chosenPayload, encryptAndSign.
  destruct sk as [sk|]; [|reflexivity]. destruct priv as [priv|]; [|reflexivity].
  destruct (encryptMessage C _ _) as [[iv ct]|]; [|reflexivity].
  destruct (signData C priv ct); reflexivity.
Qed.

Lemma markDelivered_last id old msg :
  Forall (fun x => ChatMessage.id x <> id) old ->
  ChatMessage.id msg = id -> ChatMessage.dir msg = sent ->
  markDelivered id (old ++ [msg]) = Some (old ++ [ChatMessage.set_status (Some delivered) msg]).
Proof.
  intros Hold Hid Hdir. induction old as [|x old IH]; cbn [markDelivered app].
  - rewrite Hdir. subst id. now rewrite String.eqb_refl.
  - inversion Hold as [|? ? Hx Hrest]; subst.
    rewrite (IH Hrest). destruct (ChatMessage.dir x); [|reflexivity].
    destruct (String.eqb_spec (ChatMessage.id x) (ChatMessage.id msg)); [contradiction | reflexivity].
Qed.

(** X10. A message sent over an open connection and then acknowledged is
    ['delivered']: [sendMessage] puts one ['message'] with the id of the new
    message on the connection and stores the message as ['sent']; the
    ['message-ack'] that carries this id, received on a connection of the
    same contact, turns that message, and no other, to ['delivered'],
    provided no older message of the chat has the same id. *)
Theorem send_then_ack_delivers (now : Z) (uuid uuid' contactKey content : string)
    (m : Mgr.t) (c : Contact.t) (conn ackConn : Conn.t) :
  JsObj.get contactKey (Mgr.contacts m) = Some c ->
  Contact.conn c = Some conn -> Conn.open conn = true ->
  let old := default [] (Mgr.chats m !! contactKey) in
  let msg := ChatMessage.mk uuid sent (Some text) (Some content) None None None now
                            (Some st_sent) false false None None None None in
  let m1 := sendMessage C now uuid contactKey content m in
  let m2 := handlePersistentData C uuid' (D_message_ack (Some uuid)) ackConn m1 in
  Forall (fun x => ChatMessage.id x <> uuid) old ->
  fst (contactKeyForPID (Conn.peer ackConn) m1) = contactKey ->
  (exists d, directPayloads (Conn.cid conn) (Mgr.effects m1)
             = directPayloads (Conn.cid conn) (Mgr.effects m) ++ [d] /\
             DirectMsg.id d = Some uuid /\ DirectMsg.ts d = now) /\
  Mgr.chats m1 !! contactKey = Some (old ++ [msg]) /\
  Mgr.chats m2 !! contactKey
  = Some (old ++ [ChatMessage.set_status (Some delivered) msg]).
Proof.
  intros Hc Hconn Hopen old msg m1 m2 Hfresh Hck.
  assert (H1 : (exists d, directPayloads (Conn.cid conn) (Mgr.effects m1)
                          = directPayloads (Conn.cid conn) (Mgr.effects m) ++ [d] /\
                          DirectMsg.id d = Some uuid /\ DirectMsg.ts d = now) /\
               Mgr.chats m1 !! contactKey = Some (old ++ [msg])).
  { subst m1. unfold sendMessage. rewrite Hc, Hconn, Hopen. fold old.
    set (msg0 := ChatMessage.mk uuid sent (Some text) (Some content) None None None now
                                (Some waiting) false false None None None None).
    split.
    - eexists. rewrite !directPayloads_emit by discriminate.
      cbn [Mgr.effects Mgr.set_chats].
      rewrite sendEncryptedMessage_payload.
      rewrite directPayloads_emit by discriminate.
      cbn [Mgr.effects Mgr.set_chats]. split; [reflexivity|].
      rewrite chosenPayload_id, chosenPayload_ts. split; reflexivity.
    - unfold emit. cbn [Mgr.chats Mgr.set_effects Mgr.set_chats]. apply lookup_insert_eq. }
  destruct H1 as (Hpay & Hch1). split; [exact Hpay|]. split; [exact Hch1|].
  subst m2. unfold handlePersistentData.
  pose proof (contactKeyForPID_chats (Conn.peer ackConn) m1) as H0.
  destruct (contactKeyForPID (Conn.peer ackConn) m1) as [ck m0]. cbn [fst snd] in *. subst ck.
  rewrite H0, Hch1.
  rewrite (markDelivered_last uuid old msg Hfresh eq_refl eq_refl).
  unfold emit. cbn [Mgr.chats Mgr.set_effects Mgr.set_chats]. apply lookup_insert_eq.
Qed.

(** *** A delivered message stays delivered *)

Lemma keeps_refl msgs : keeps msgs msgs.
Proof. intros i msg H _. exact H. Qed.

Lemma keeps_trans a b c : keeps a b -> keeps b c -> keeps a c.
Proof. intros H1 H2 i msg Hi Hd. apply H2; [apply H1|]; assumption. Qed.

Lemma keeps_map f msgs :
  (forall msg, ChatMessage.status msg = Some delivered -> f msg = msg) ->
  keeps msgs (List.map f msgs).
Proof.
  intros Hf i msg Hi Hd. change (List.map f msgs) with (f <$> msgs).
  rewrite list_lookup_fmap, Hi. cbn. now rewrite Hf.
Qed.

Lemma keeps_app msgs l : keeps msgs (msgs ++ l).
Proof. intros i msg Hi _. now apply lookup_app_l_Some. Qed.

Lemma set_status_same st msg :
  ChatMessage.status msg = st -> ChatMessage.set_status st msg = msg.
Proof. intros <-. now destruct msg. Qed.

Lemma keeps_markDelivered id msgs msgs' :
  markDelivered id msgs = Some msgs' -> keeps msgs msgs'.
Proof.
  revert msgs'. induction msgs as [|x msgs IH]; intros msgs' H; [discriminate|].
  cbn [markDelivered] in H.
  assert (Hrec : cons x <$> markDelivered id msgs = Some msgs' -> keeps (x :: msgs) msgs').
  { intros E. destruct (markDelivered id msgs) as [r|]; [|discriminate].
    injection E as <-. intros [|i] msg Hi Hd; [exact Hi|]. cbn in *. now apply (IH r eq_refl). }
  destruct (ChatMessage.dir x); [|now apply Hrec].
  destruct (String.eqb (ChatMessage.id x) id); [|now apply Hrec].
  injection H as <-. intros [|i] msg Hi Hd; [|exact Hi].
  cbn in *. injection Hi as ->. now rewrite set_status_same.
Qed.

Lemma keeps_retryFirst id msgs msgs' :
  retryFirst id msgs = Some msgs' -> keeps msgs msgs'.
Proof.
  revert msgs'. induction msgs as [|x msgs IH]; intros msgs' H; [discriminate|].
  cbn [retryFirst] in H.
  destruct (String.eqb (ChatMessage.id x) id && _) eqn:E.
  - injection H as <-. intros [|i] msg Hi Hd; [|exact Hi]. cbn in *. injection Hi as ->.
    apply andb_prop in E. destruct E as [_ E]. rewrite Hd in E.
    now destruct (ChatMessage.dir msg).
  - destruct (retryFirst id msgs) as [r|]; [|discriminate]. injection H as <-.
    intros [|i] msg Hi Hd; [exact Hi|]. cbn in *. now apply (IH r eq_refl).
Qed.

Lemma resetMessage_delivered msg :
  ChatMessage.status msg = Some delivered -> resetMessage msg = msg.
Proof.
  intros H. unfold resetMessage, unacked. rewrite H. now destruct (ChatMessage.dir msg).
Qed.

Lemma failMessage_delivered msg :
  ChatMessage.status msg = Some delivered -> failMessage msg = msg.
Proof.
  intros H. unfold failMessage, stalled. rewrite H. now destruct (ChatMessage.dir msg).
Qed.

Lemma flushed_delivered msg :
  ChatMessage.status msg = Some delivered -> flushed msg = msg.
Proof.
  intros H. unfold flushed, queued. rewrite H. now destruct (ChatMessage.dir msg).
Qed.

(** The chats after a flush. *)
Lemma flushMessageQueue_chats contactKey m :
  Mgr.chats (flushMessageQueue C contactKey m) = Mgr.chats m \/
  exists msgs, Mgr.chats m !! contactKey = Some msgs /\
    Mgr.chats (flushMessageQueue C contactKey m)
    = <[contactKey := List.map flushed msgs]> (Mgr.chats m).
Proof.
  unfold flushMessageQueue.
  destruct (JsObj.get contactKey (Mgr.contacts m)) as [c|]; [|now left].
  destruct (Contact.conn c) as [conn|]; [|now left].
  destruct (Conn.open conn); cbn [negb]; [|now left].
  assert (Hfiles : forall m1,
            Mgr.chats (match Mgr.pendingFiles m1 !! contactKey with
                       | Some (f :: fs) =>
                         let m2 := fold_left (fun acc file =>
                                      emit (SendFileNow contactKey file (Conn.cid conn)) acc)
                                     (f :: fs) m1 in
                         Mgr.set_pendingFiles (delete contactKey (Mgr.pendingFiles m2)) m2
                       | _ => m1
                       end) = Mgr.chats m1).
  { intros m1. destruct (Mgr.pendingFiles m1 !! contactKey) as [[|f fs]|]; try reflexivity.
    cbn zeta. cbn [Mgr.chats Mgr.set_pendingFiles].
    exact (proj1 (sendFiles_frame contactKey (Conn.cid conn) (f :: fs) m1)). }
  rewrite Hfiles.
  destruct (Mgr.chats m !! contactKey) as [msgs|] eqn:Hm; [|now left].
  right. exists msgs. split; [reflexivity|].
  destruct (flushLoop_messages contactKey conn msgs m) as (A & B & D).
  destruct (flushLoop C contactKey conn msgs m) as [[msgs' updated] m1].
  cbn [fst snd] in *. subst msgs'. rewrite <- D.
  destruct updated; reflexivity.
Qed.

Lemma handle_keeps e m k msgs :
  Mgr.chats m !! k = Some msgs ->
  exists msgs', Mgr.chats (handle C e m) !! k = Some msgs' /\ keeps msgs msgs'.
Proof.
  intros Hk.
  assert (Hins : forall m' k0 new,
            Mgr.chats m' = <[k0 := new]> (Mgr.chats m) ->
            (forall old, Mgr.chats m !! k0 = Some old -> keeps old new) ->
            exists msgs', Mgr.chats m' !! k = Some msgs' /\ keeps msgs msgs').
  { intros m' k0 new E Hkeep. rewrite E. destruct (String.eqb_spec k0 k) as [->|Hne].
    - rewrite lookup_insert_eq. eauto.
    - rewrite lookup_insert_ne by exact Hne. exists msgs. split; [exact Hk | apply keeps_refl]. }
  assert (Hsame : forall m', Mgr.chats m' = Mgr.chats m ->
            exists msgs', Mgr.chats m' !! k = Some msgs' /\ keeps msgs msgs').
  { intros m' E. rewrite E. exists msgs. split; [exact Hk | apply keeps_refl]. }
  destruct e as [uuid d conn| |k0|k0|k0 id|k0|now uuid k0 content]; cbn [handle].
  - (* a delivery *)
    unfold handlePersistentData.
    pose proof (contactKeyForPID_chats (Conn.peer conn) m) as H0.
    destruct (contactKeyForPID (Conn.peer conn) m) as [ck m0]. cbn [snd] in H0.
    destruct d as [d|id].
    + pose proof (receivedContent_chats C ck d m0) as H1.
      destruct (receivedContent C ck d m0) as [content m1]. cbn [snd] in H1.
      cbv zeta. rewrite H0.
      match goal with |- context [?old ++ [?x]] =>
        apply (Hins _ ck (old ++ [x])) end.
      * destruct (Conn.open conn); unfold emit; cbn [Mgr.chats Mgr.set_effects Mgr.set_chats];
          rewrite H1, H0; reflexivity.
      * intros old Hold. rewrite Hold. cbn [default]. apply keeps_app.
    + rewrite H0. destruct (Mgr.chats m !! ck) as [cmsgs|] eqn:Hck; [|now apply Hsame].
      destruct id as [id|]; [|now apply Hsame].
      destruct (markDelivered id cmsgs) as [cmsgs'|] eqn:Hmd; [|now apply Hsame].
      eapply (Hins _ ck).
      * reflexivity.
      * intros old Hold. rewrite Hck in Hold. injection Hold as <-.
        now apply keeps_markDelivered with (id := id).
  - (* the periodic reset *)
    exists (List.map resetMessage msgs). rewrite resetUnackedMessages_chats, Hk.
    split; [reflexivity|]. apply keeps_map, resetMessage_delivered.
  - (* the reset on close *)
    unfold resetContactMessages. destruct (Mgr.chats m !! k0) as [cmsgs|] eqn:Hc;
      [|now apply Hsame].
    eapply (Hins _ k0 (List.map resetMessage cmsgs)).
    + destruct (existsb unacked cmsgs); reflexivity.
    + intros old Hold. rewrite Hc in Hold. injection Hold as <-.
      apply keeps_map, resetMessage_delivered.
  - (* the mark after the last failed attempt *)
    unfold markWaitingMessagesFailed. destruct (Mgr.chats m !! k0) as [cmsgs|] eqn:Hc;
      [|now apply Hsame].
    eapply (Hins _ k0 (List.map failMessage cmsgs)).
    + destruct (existsb stalled cmsgs); reflexivity.
    + intros old Hold. rewrite Hc in Hold. injection Hold as <-.
      apply keeps_map, failMessage_delivered.
  - (* a retry *)
    unfold retryMessage. destruct (Mgr.chats m !! k0) as [cmsgs|] eqn:Hc; [|now apply Hsame].
    destruct (retryFirst id cmsgs) as [cmsgs'|] eqn:Hr; [|now apply Hsame].
    eapply (Hins _ k0 cmsgs').
    + destruct (JsObj.get k0 (Mgr.contacts m)); reflexivity.
    + intros old Hold. rewrite Hc in Hold. injection Hold as <-.
      now apply keeps_retryFirst with (id := id).
  - (* a flush *)
    destruct (flushMessageQueue_chats k0 m) as [E|(cmsgs & Hc & E)]; [now apply Hsame|].
    eapply (Hins _ k0 _ E). intros old Hold. rewrite Hc in Hold. injection Hold as <-.
    apply keeps_map, flushed_delivered.
  - (* a new message *)
    unfold sendMessage.
    set (msg0 := ChatMessage.mk uuid sent (Some text) (Some content) None None None now
                                (Some waiting) false false None None None None).
    destruct (JsObj.get k0 (Mgr.contacts m)) as [c|].
    + destruct (Contact.conn c) as [conn|].
      * destruct (Conn.open conn).
        -- eapply (Hins _ k0 (default [] (Mgr.chats m !! k0)
                                ++ [ChatMessage.set_status (Some st_sent) msg0])).
           ++ unfold emit. cbn [Mgr.chats Mgr.set_effects Mgr.set_chats].
              rewrite sendEncryptedMessage_chats. unfold emit.
              cbn [Mgr.chats Mgr.set_effects Mgr.set_chats]. apply insert_insert_eq.
           ++ intros old Hold. rewrite Hold. apply keeps_app.
        -- eapply (Hins _ k0 (default [] (Mgr.chats m !! k0) ++ [msg0])); [reflexivity|].
           intros old Hold. rewrite Hold. apply keeps_app.
      * eapply (Hins _ k0 (default [] (Mgr.chats m !! k0) ++ [msg0])); [reflexivity|].
        intros old Hold. rewrite Hold. apply keeps_app.
    + eapply (Hins _ k0 (default [] (Mgr.chats m !! k0) ++ [msg0])); [reflexivity|].
      intros old Hold. rewrite Hold. apply keeps_app.
Qed.

(** X11. Delivery is final: whatever deliveries, resets, failure marks,
    retries, flushes and new messages follow, in any order, a stored message
    that is ['delivered'] stays at its place in its chat, unchanged. *)
Theorem delivered_is_final (es : list Event) (m : Mgr.t) (k : string)
    (msgs : list ChatMessage.t) (i : nat) (msg : ChatMessage.t) :
  Mgr.chats m !! k = Some msgs -> msgs !! i = Some msg ->
  ChatMessage.status msg = Some delivered ->
  exists msgs', Mgr.chats (handleAll C es m) !! k = Some msgs' /\ msgs' !! i = Some msg.
Proof.
  revert m msgs. induction es as [|e es IH]; intros m msgs Hk Hi Hd.
  - exists msgs. auto.
  - cbn [handleAll fold_left].
    destruct (handle_keeps e m k msgs Hk) as (msgs1 & Hk1 & Hkeep).
    exact (IH (handle C e m) msgs1 Hk1 (Hkeep i msg Hi Hd) Hd).
Qed.

(** *** What the receiver stores *)

Lemma handlePersistentData_message uuid d conn m :
  let ck := fst (contactKeyForPID (Conn.peer conn) m) in
  let m0 := snd (contactKeyForPID (Conn.peer conn) m) in
  let m' := handlePersistentData C uuid (D_message d) conn m in
  Mgr.chats m' !! ck
  = Some (default [] (Mgr.chats m !! ck)
          ++ [received (Js.orElse (DirectMsg.id d) uuid) (fst (receivedContent C ck d m0))
                       (DirectMsg.ts d)]) /\
  (Conn.open conn = true ->
   In (Send (Conn.cid conn) (W_message_ack (DirectMsg.id d))) (Mgr.effects m')).
Proof.
  cbn zeta. unfold handlePersistentData.
  pose proof (contactKeyForPID_chats (Conn.peer conn) m) as H0.
  destruct (contactKeyForPID (Conn.peer conn) m) as [ck m0]. cbn [fst snd] in *.
  pose proof (receivedContent_chats C ck d m0) as H1.
  destruct (receivedContent C ck d m0) as [content m1]. cbn [fst snd] in *.
  cbv zeta. rewrite H0. split.
  - destruct (Conn.open conn); unfold emit; cbn [Mgr.chats Mgr.set_effects Mgr.set_chats];
      apply lookup_insert_eq.
  - intros ->. rewrite !effects_emit, !in_app_iff. cbn. tauto.
Qed.

Lemma truthy_Some s : s <> EmptyString -> Js.truthy (Some s) = true.
Proof. intros H. cbn. now destruct (String.eqb_spec s EmptyString). Qed.

Lemma receivedContent_chosenPayload skS privS msg ck m :
  cipherLaws C ->
  (DirectMsg.e2e (chosenPayload C skS privS msg) = true -> receiverReady C ck m skS privS) ->
  fst (receivedContent C ck (chosenPayload C skS privS msg) m)
  = Js.orElse (ChatMessage.content msg) EmptyString.
Proof.
  intros Hcipher Hready. unfold chosenPayload in *.
  destruct skS as [sk|]; [|reflexivity]. destruct privS as [priv|]; [|reflexivity].
  unfold encryptAndSign in *.
  destruct (encryptMessage C (key sk) _) as [[iv ct]|] eqn:Henc; [|reflexivity].
  destruct (signData C priv ct) as [sig|] eqn:Hsig; [|reflexivity].
  destruct (Hready eq_refl) as (skR & contact & pub & Hsk & Hkey & Hc & Hpk & Himp & Hsign).
  destruct (Hcipher _ _ _ _ Henc) as (Hdec & Hiv & Hct).
  unfold receivedContent, encryptedPayload.
  cbn [DirectMsg.e2e DirectMsg.ct DirectMsg.iv DirectMsg.sig DirectMsg.content].
  rewrite (truthy_Some ct Hct), (truthy_Some iv Hiv). cbn [andb default].
  destruct (getOrDeriveSharedKey C ck m) as [skR' m1]. cbn [fst snd] in *. subst skR'.
  cbv zeta. rewrite Hc, Hpk, Himp. cbn [default from_option]. unfold id. rewrite (Hsign priv eq_refl ct sig Hsig), <- (Hkey sk eq_refl), Hdec.
  reflexivity.
Qed.

(** X12. What one peer types is what the other stores: whichever payload
    [sendEncryptedMessage] chooses for a message (encrypted and signed, or
    the plaintext fallback), [handlePersistentData] on the other end appends
    a received message with the sender's id, timestamp and text, and
    acknowledges it with that id on an open connection; this needs a cipher
    that decrypts what it encrypts with non-empty [iv] and [ct], and, for an
    encrypted payload, a receiver that derives the same key and holds the
    sender's public key. *)
Theorem direct_message_round_trip (skS : option SharedKey) (privS : option CryptoKey)
    (msg : ChatMessage.t) (uuid : string) (conn : Conn.t) (mR : Mgr.t) :
  cipherLaws C ->
  let d := chosenPayload C skS privS msg in
  let ck := fst (contactKeyForPID (Conn.peer conn) mR) in
  let m0 := snd (contactKeyForPID (Conn.peer conn) mR) in
  (DirectMsg.e2e d = true -> receiverReady C ck m0 skS privS) ->
  let m' := handlePersistentData C uuid (D_message d) conn mR in
  Mgr.chats m' !! ck
  = Some (default [] (Mgr.chats mR !! ck)
          ++ [received (Js.orElse (Some (ChatMessage.id msg)) uuid)
                       (Js.orElse (ChatMessage.content msg) EmptyString)
                       (ChatMessage.ts msg)]) /\
  (Conn.open conn = true ->
   In (Send (Conn.cid conn) (W_message_ack (Some (ChatMessage.id msg)))) (Mgr.effects m')).
Proof.
  intros Hcipher d ck m0 Hready m'.
  destruct (handlePersistentData_message uuid d conn mR) as (Hch & Hack).
  fold ck m0 m' in Hch, Hack. subst d.
  rewrite (receivedContent_chosenPayload _ _ _ _ _ Hcipher Hready) in Hch.
  rewrite chosenPayload_id, chosenPayload_ts in Hch. rewrite chosenPayload_id in Hack.
  split; assumption.
Qed.

(** X13. An incoming ['message'] marked [e2e] with an [iv] and a [ct] is
    never shown from its [content] field, nor unverified: the text stored
    for it is one of the three placeholders, or it is the decryption of [ct]
    under the contact's shared key, made after the signature over [ct] was
    verified with the contact's stored public key. *)
Theorem e2e_message_shown_only_verified (uuid : string) (d : DirectMsg.t)
    (conn : Conn.t) (m : Mgr.t) :
  DirectMsg.e2e d = true -> Js.truthy (DirectMsg.ct d) = true ->
  Js.truthy (DirectMsg.iv d) = true ->
  let ck := fst (contactKeyForPID (Conn.peer conn) m) in
  let m0 := snd (contactKeyForPID (Conn.peer conn) m) in
  exists content,
    Mgr.chats (handlePersistentData C uuid (D_message d) conn m) !! ck
    = Some (default [] (Mgr.chats m !! ck)
            ++ [received (Js.orElse (DirectMsg.id d) uuid) content (DirectMsg.ts d)]) /\
    (In content placeholders \/
     exists sk contact pub,
       fst (getOrDeriveSharedKey C ck m0) = Some sk /\
       JsObj.get ck (Mgr.contacts (snd (getOrDeriveSharedKey C ck m0))) = Some contact /\
       importPublicKey C (default EmptyString (Contact.publicKey contact)) = Some pub /\
       verifySignature C pub (DirectMsg.sig d) (default EmptyString (DirectMsg.ct d))
       = Some true /\
       decryptMessage C (key sk) (default EmptyString (DirectMsg.iv d))
                      (default EmptyString (DirectMsg.ct d)) = Some content).
Proof.
  intros He2e Hct Hiv ck m0.
  exists (fst (receivedContent C ck d m0)).
  split; [exact (proj1 (handlePersistentData_message uuid d conn m))|].
  unfold receivedContent, placeholders. rewrite He2e, Hct, Hiv. cbn [andb].
  destruct (getOrDeriveSharedKey C ck m0) as [sk m1]. cbn [fst snd].
  destruct sk as [sk|]; [|cbn; tauto].
  destruct (JsObj.get ck (Mgr.contacts m1)) as [contact|] eqn:Hc; [|cbn; tauto].
  destruct (Js.truthy (Contact.publicKey contact)); [|cbn; tauto].
  destruct (importPublicKey C _) as [pub|] eqn:Himp; [|cbn; tauto].
  destruct (verifySignature C pub _ _) as [[|]|] eqn:Hv; [|cbn; tauto|cbn; tauto].
  destruct (decryptMessage C _ _ _) as [plain|] eqn:Hdec; [|cbn; tauto].
  right. exists sk, contact, pub. cbn [fst]. auto.
Qed.

(** *** Reconnection *)

Lemma flushed_resetMessage msg :
  flushed (resetMessage msg)
  = if undelivered msg then ChatMessage.set_status (Some st_sent) msg else resetMessage msg.
Proof.
  unfold flushed, resetMessage, undelivered, queued, unacked, isText.
  destruct msg as [id dir ty content name tid size ts st ed del re ck cd cr].
  destruct dir; [|reflexivity].
  destruct st as [[| | |]|]; cbn; try reflexivity; destruct ty as [[]|]; reflexivity.
Qed.

Lemma queued_resetMessage msg :
  queued (resetMessage msg) && isText (resetMessage msg) = undelivered msg.
Proof.
  unfold resetMessage, undelivered, queued, unacked, isText.
  destruct msg as [id dir ty content name tid size ts st ed del re ck cd cr].
  destruct dir; [|reflexivity].
  destruct st as [[| | |]|]; cbn; try reflexivity; destruct ty as [[]|]; reflexivity.
Qed.

Lemma resetMessage_id msg : ChatMessage.id (resetMessage msg) = ChatMessage.id msg.
Proof. unfold resetMessage. now destruct (unacked msg). Qed.

(** X14. After a connection closes, nothing sent and unacknowledged is
    lost: [resetContactMessages] followed, once the contact has an open
    connection again, by [flushMessageQueue] puts on the new connection one
    ['message'] per stored text message of ours that is not ['delivered']
    (['waiting'], ['failed'] or ['sent']), in the order of the chat and each
    once, and leaves all of them ['sent']; delivered and received messages
    are neither sent nor changed, and a message of ours that is not a text
    is not sent either: if it was ['sent'] the reset leaves it ['waiting']. *)
Theorem reconnect_resends_unacked (contactKey : string) (m : Mgr.t)
    (c : Contact.t) (conn : Conn.t) (msgs : list ChatMessage.t) :
  JsObj.get contactKey (Mgr.contacts m) = Some c ->
  Conn.open conn = true ->
  Mgr.chats m !! contactKey = Some msgs ->
  let m1 := resetContactMessages contactKey m in
  let m2 := flushMessageQueue C contactKey (withConn contactKey conn m1) in
  (exists payloads,
     directPayloads (Conn.cid conn) (Mgr.effects m2)
     = directPayloads (Conn.cid conn) (Mgr.effects m) ++ payloads /\
     List.map DirectMsg.id payloads
     = List.map (fun msg => Some (ChatMessage.id msg)) (List.filter undelivered msgs)) /\
  Mgr.chats m2 !! contactKey
  = Some (List.map (fun msg => if undelivered msg
                               then ChatMessage.set_status (Some st_sent) msg
                               else resetMessage msg) msgs) /\
  (forall msg, In msg msgs -> ChatMessage.status msg = Some delivered \/ ChatMessage.dir msg = recv ->
               undelivered msg = false /\ resetMessage msg = msg).
Proof.
  intros Hc Hopen Hmsgs m1 m2.
  assert (H1 : Mgr.chats m1 = <[contactKey := List.map resetMessage msgs]> (Mgr.chats m) /\
               Mgr.contacts m1 = Mgr.contacts m /\
               forall cid, directPayloads cid (Mgr.effects m1)
                           = directPayloads cid (Mgr.effects m)).
  { subst m1. unfold resetContactMessages. rewrite Hmsgs.
    destruct (existsb unacked msgs); (split; [reflexivity|]); (split; [reflexivity|]);
      intros cid; [|reflexivity].
    rewrite !directPayloads_emit by discriminate. reflexivity. }
  destruct H1 as (Hch & Hco & Hpay).
  assert (Hget : JsObj.get contactKey (Mgr.contacts (withConn contactKey conn m1))
                 = Some (Contact.set_conn (Some conn) c)).
  { unfold withConn. cbn [Mgr.contacts Mgr.set_contacts].
    now rewrite jsobj_get_update, Hco, Hc. }
  destruct (flushMessageQueue_open contactKey (withConn contactKey conn m1) _ conn
              (List.map resetMessage msgs) Hget eq_refl Hopen) as ((ps & Hp & Hi) & Hm & _).
  { unfold withConn. cbn [Mgr.chats Mgr.set_contacts]. rewrite Hch. apply lookup_insert_eq. }
  fold m2 in Hp, Hm. split; [|split].
  3: { intros msg _ H. unfold undelivered, resetMessage, unacked.
       destruct H as [-> | ->]; [destruct (ChatMessage.dir msg)|]; auto. }
  - exists ps. unfold withConn in Hp. cbn [Mgr.effects Mgr.set_contacts] in Hp.
    rewrite Hp, Hpay. split; [reflexivity|]. rewrite Hi.
    clear. induction msgs as [|x l IH]; [reflexivity|].
    cbn [List.map List.filter]. rewrite queued_resetMessage.
    destruct (undelivered x); cbn [List.map]; rewrite IH, ?resetMessage_id; reflexivity.
  - rewrite Hm. f_equal. rewrite List.map_map. apply List.map_ext.
    intros x. apply flushed_resetMessage.
Qed.

End ChatFacts.

Section ChatRuns.
Import Chat.

Lemma flush_sends_queue_once_witness :
  JsObj.get "fp-alice" (Mgr.contacts aliceChats) = Some alice /\
  Contact.conn alice = Some aliceConn /\ Conn.open aliceConn = true /\
  Mgr.chats aliceChats !! "fp-alice"%string = Some aliceChat /\
  Mgr.chats (Messaging.flushMessageQueue testCrypto "fp-alice" aliceChats) !! "fp-alice"%string
  = Some [textMsg "a" "one" 10 st_sent; textMsg "b" "two" 20 delivered;
          textMsg "c" "three" 30 st_sent; textMsg "d" "four" 40 st_sent].
Proof.
  split; [reflexivity|]. split; [reflexivity|]. split; [reflexivity|].
  split; [vm_compute; reflexivity|].
  destruct (flush_sends_queue_once testCrypto "fp-alice" aliceChats alice aliceConn aliceChat)
    as (_ & H & _); [reflexivity | reflexivity | reflexivity | vm_compute; reflexivity |].
  exact H.
Defined.

Lemma offline_message_is_queued_witness :
  let m1 := Messaging.sendMessage testCrypto 50 "e" "fp-alice" "five" aliceOffline in
  let m2 := Messaging.flushMessageQueue testCrypto "fp-alice" (withConn "fp-alice" aliceConn m1) in
  JsObj.get "fp-alice" (Mgr.contacts aliceOffline) = Some (Contact.set_conn None alice) /\
  Messaging.connOpen (Contact.conn (Contact.set_conn None alice)) = false /\
  Conn.open aliceConn = true /\
  Mgr.chats m1 !! "fp-alice"%string = Some (aliceChat ++ [textMsg "e" "five" 50 waiting]) /\
  Mgr.chats m2 !! "fp-alice"%string
  = Some [textMsg "a" "one" 10 st_sent; textMsg "b" "two" 20 delivered;
          textMsg "c" "three" 30 st_sent; textMsg "d" "four" 40 st_sent;
          textMsg "e" "five" 50 st_sent].
Proof.
  cbn zeta. split; [reflexivity|]. split; [reflexivity|]. split; [reflexivity|].
  destruct (offline_message_is_queued testCrypto 50 "e" "fp-alice" "five" aliceOffline
              (Contact.set_conn None alice) aliceConn eq_refl eq_refl eq_refl)
    as (_ & _ & H1 & _ & H2).
  split.
  - refine (eq_trans H1 _). vm_compute. reflexivity.
  - refine (eq_trans H2 _). vm_compute. reflexivity.
Defined.

Lemma send_then_ack_delivers_witness :
  let m1 := Messaging.sendMessage testCrypto 50 "e" "fp-alice" "five" aliceChats in
  let m2 := Messaging.handlePersistentData testCrypto "u" (Messaging.D_message_ack (Some "e"%string))
              aliceConn m1 in
  JsObj.get "fp-alice" (Mgr.contacts aliceChats) = Some alice /\
  Contact.conn alice = Some aliceConn /\ Conn.open aliceConn = true /\
  Forall (fun x => ChatMessage.id x <> "e"%string) aliceChat /\
  fst (Messaging.contactKeyForPID (Conn.peer aliceConn) m1) = "fp-alice"%string /\
  Mgr.chats m2 !! "fp-alice"%string = Some (aliceChat ++ [textMsg "e" "five" 50 delivered]).
Proof.
  cbn zeta.
  assert (Hfresh : Forall (fun x => ChatMessage.id x <> "e"%string)
                          (default [] (Mgr.chats aliceChats !! "fp-alice"%string))).
  { repeat constructor; discriminate. }
  split; [reflexivity|]. split; [reflexivity|]. split; [reflexivity|].
  split; [exact Hfresh|]. split; [vm_compute; reflexivity|].
  destruct (send_then_ack_delivers testCrypto 50 "e" "u" "fp-alice" "five" aliceChats
              alice aliceConn aliceConn eq_refl eq_refl eq_refl Hfresh)
    as (_ & _ & H); [vm_compute; reflexivity|].
  refine (eq_trans H _). vm_compute. reflexivity.
Defined.

Lemma delivered_is_final_witness :
  let es := [EvResetUnacked; EvResetContact "fp-alice"; EvMarkFailed "fp-alice";
             EvRetry "fp-alice" "c"; EvFlush "fp-alice";
             EvData "u" (Messaging.D_message_ack (Some "b"%string)) aliceConn;
             EvSend 50 "e" "fp-alice" "five"] in
  Mgr.chats aliceChats !! "fp-alice"%string = Some aliceChat /\
  aliceChat !! 1%nat = Some (textMsg "b" "two" 20 delivered) /\
  exists msgs', Mgr.chats (handleAll testCrypto es aliceChats) !! "fp-alice"%string = Some msgs' /\
                msgs' !! 1%nat = Some (textMsg "b" "two" 20 delivered).
Proof.
  cbn zeta. split; [vm_compute; reflexivity|]. split; [reflexivity|].
  apply (delivered_is_final testCrypto _ aliceChats "fp-alice" aliceChat 1
           (textMsg "b" "two" 20 delivered)); [vm_compute; reflexivity | reflexivity | reflexivity].
Defined.

Lemma direct_message_round_trip_witness :
  let msg := textMsg "e" "five" 50 waiting in
  let sk := Some (mkSharedKey "shared" "skfp") in
  let d := Messaging.chosenPayload echoCrypto sk (Some "priv-alice"%string) msg in
  cipherLaws echoCrypto /\
  DirectMsg.e2e d = true /\
  receiverReady echoCrypto "fp-alice"
    (snd (Messaging.contactKeyForPID "pid-alice" aliceMgr)) sk (Some "priv-alice"%string) /\
  Mgr.chats (Messaging.handlePersistentData echoCrypto "u" (Messaging.D_message d) aliceConn aliceMgr)
    !! "fp-alice"%string
  = Some [received "e" "five" 50].
Proof.
  cbn zeta.
  assert (Hcipher : cipherLaws echoCrypto).
  { intros key plain iv ct H. injection H as <- <-. repeat split; discriminate. }
  assert (Hready : receiverReady echoCrypto "fp-alice"
            (snd (Messaging.contactKeyForPID "pid-alice" aliceMgr))
            (Some (mkSharedKey "shared" "skfp")) (Some "priv-alice"%string)).
  { exists (mkSharedKey "shared" "skfp"),
           (Contact.set_sharedKeyFingerprint (Some "skfp"%string) alice), "pk-alice"%string.
    split; [vm_compute; reflexivity|]. split; [intros sk H; injection H as <-; reflexivity|].
    split; [vm_compute; reflexivity|]. split; [reflexivity|]. split; [reflexivity|].
    intros priv _ data sig _. reflexivity. }
  split; [exact Hcipher|]. split; [reflexivity|]. split; [exact Hready|].
  destruct (direct_message_round_trip echoCrypto (Some (mkSharedKey "shared" "skfp"))
              (Some "priv-alice"%string) (textMsg "e" "five" 50 waiting) "u" aliceConn aliceMgr
              Hcipher (fun _ => Hready)) as (H & _).
  refine (eq_trans _ (eq_trans H _)); vm_compute; reflexivity.
Defined.

Lemma e2e_message_shown_only_verified_witness :
  let d := Messaging.encryptedPayload (textMsg "e" "five" 50 waiting) "iv0" "#five" "sig" in
  DirectMsg.e2e d = true /\ Js.truthy (DirectMsg.ct d) = true /\
  Js.truthy (DirectMsg.iv d) = true /\
  exists content,
    Mgr.chats (Messaging.handlePersistentData echoCrypto "u" (Messaging.D_message d) aliceConn
                                              aliceMgr) !! "fp-alice"%string
    = Some [received "e" content 50].
Proof.
  cbn zeta. split; [reflexivity|]. split; [reflexivity|]. split; [reflexivity|].
  destruct (e2e_message_shown_only_verified echoCrypto "u"
              (Messaging.encryptedPayload (textMsg "e" "five" 50 waiting) "iv0" "#five" "sig")
              aliceConn aliceMgr eq_refl eq_refl eq_refl) as (content & H & _).
  exists content. refine (eq_trans _ (eq_trans H _)); vm_compute; reflexivity.
Defined.

Lemma reconnect_resends_unacked_witness :
  let m1 := Messaging.resetContactMessages "fp-alice" aliceOffline in
  let m2 := Messaging.flushMessageQueue testCrypto "fp-alice" (withConn "fp-alice" aliceConn m1) in
  JsObj.get "fp-alice" (Mgr.contacts aliceOffline) = Some (Contact.set_conn None alice) /\
  Conn.open aliceConn = true /\
  Mgr.chats aliceOffline !! "fp-alice"%string = Some aliceChat /\
  Mgr.chats m2 !! "fp-alice"%string
  = Some [textMsg "a" "one" 10 st_sent; textMsg "b" "two" 20 delivered;
          textMsg "c" "three" 30 st_sent; textMsg "d" "four" 40 st_sent].
Proof.
  cbn zeta. split; [reflexivity|]. split; [reflexivity|]. split; [vm_compute; reflexivity|].
  destruct (reconnect_resends_unacked testCrypto "fp-alice" aliceOffline
              (Contact.set_conn None alice) aliceConn aliceChat eq_refl eq_refl)
    as (_ & H & _); [vm_compute; reflexivity|].
  exact H.
Defined.

End ChatRuns.

(** ** Merging and deleting contact records *)

Section RosterFacts.
Import Contacts Roster.

Lemma insertByTs_perm x l : insertByTs x l ≡ₚ x :: l.
Proof.
  induction l as [|y l IH]; [reflexivity|]. cbn [insertByTs].
  destruct (ChatMessage.ts x <=? ChatMessage.ts y); [reflexivity|].
  rewrite IH. apply Permutation_swap.
Qed.

Lemma sortByTs_perm l : sortByTs l ≡ₚ l.
Proof.
  induction l as [|x l IH]; [reflexivity|].
  cbn [sortByTs fold_right]. fold (sortByTs l). now rewrite insertByTs_perm, IH.
Qed.

Lemma mergeChats_perm newMsgs oldMsgs :
  mergeChats newMsgs oldMsgs
  ≡ₚ newMsgs ++ List.filter (fun msg => negb (existsb (String.eqb (ChatMessage.id msg))
                                                       (ids newMsgs))) oldMsgs.
Proof. apply sortByTs_perm. Qed.

Lemma mergeChats_ids newMsgs oldMsgs id :
  In id (ids (mergeChats newMsgs oldMsgs)) <-> In id (ids newMsgs) \/ In id (ids oldMsgs).
Proof.
  pose proof (Permutation_map ChatMessage.id (mergeChats_perm newMsgs oldMsgs)) as P.
  rewrite List.map_app in P. fold (ids newMsgs) in P.
  split.
  - intros H. apply (Permutation_in _ P), in_app_iff in H.
    destruct H as [H|H]; [now left|]. right. apply in_map_iff in H.
    destruct H as (msg & <- & H). apply List.filter_In in H. apply in_map. tauto.
  - intros H. apply (Permutation_in _ (Permutation_sym P)), in_app_iff.
    destruct H as [H|H]; [now left|].
    destruct (existsb (String.eqb id) (ids newMsgs)) eqn:E.
    + left. now apply existsb_eqb_In.
    + right. unfold ids in H. apply in_map_iff in H. destruct H as (msg & <- & H).
      apply in_map, List.filter_In. split; [exact H|]. now rewrite E.
Qed.

Lemma mergeChats_NoDup newMsgs oldMsgs :
  NoDup (ids newMsgs) -> NoDup (ids oldMsgs) -> NoDup (ids (mergeChats newMsgs oldMsgs)).
Proof.
  intros Hn Ho.
  pose proof (Permutation_map ChatMessage.id (mergeChats_perm newMsgs oldMsgs)) as P.
  change (NoDup (List.map ChatMessage.id (mergeChats newMsgs oldMsgs))).
  rewrite P, List.map_app. apply NoDup_app. split; [exact Hn|]. split.
  - intros id Hid Hin. apply list_elem_of_In, in_map_iff in Hin.
    destruct Hin as (msg & <- & H). apply List.filter_In in H. destruct H as [_ H].
    apply list_elem_of_In, existsb_eqb_In in Hid. fold (ids newMsgs) in H.
    unfold ids in H, Hid. now rewrite Hid in H.
  - clear -Ho. induction oldMsgs as [|x l IH]; [constructor|].
    cbn [ids List.map] in Ho. apply NoDup_cons in Ho. destruct Ho as [Hx Hl].
    cbn [List.filter]. destruct (negb _); [|now apply IH].
    cbn [List.map]. apply NoDup_cons. split; [|now apply IH].
    intros H. apply Hx. apply list_elem_of_In, in_map_iff in H.
    destruct H as (msg & E & H). apply List.filter_In in H.
    apply list_elem_of_In. unfold ids. rewrite <- E. apply in_map. tauto.
Qed.

(** X15. [migrateContact] loses no message: the chat of the old key is
    removed and the new key holds the merged history, in which every id of
    either history occurs; when the new key had a history, the merged one
    is a rearrangement of it followed by the old messages whose id it lacks,
    in timestamp order, and ids stay unique if they were in each history;
    when it had none, the old history is moved as it is.  Other chats are
    untouched. *)
Theorem migrate_merges_histories (oldKey newKey : string) (m : Mgr.t)
    (existing : Contact.t) (oldMsgs : list ChatMessage.t) :
  oldKey <> newKey ->
  JsObj.get oldKey (Mgr.contacts m) = Some existing ->
  Mgr.chats m !! oldKey = Some oldMsgs ->
  let m' := migrateContact oldKey newKey m in
  Mgr.chats m' !! oldKey = None /\
  (exists merged,
     Mgr.chats m' !! newKey = Some merged /\
     (forall id, In id (ids merged) <->
                 In id (ids oldMsgs) \/ In id (ids (default [] (Mgr.chats m !! newKey)))) /\
     (forall newMsgs, Mgr.chats m !! newKey = Some newMsgs ->
        merged ≡ₚ newMsgs ++ List.filter (fun msg => negb (existsb (String.eqb (ChatMessage.id msg))
                                                                  (ids newMsgs))) oldMsgs /\
        sortedTs merged /\
        (NoDup (ids newMsgs) -> NoDup (ids oldMsgs) -> NoDup (ids merged))) /\
     (Mgr.chats m !! newKey = None -> merged = oldMsgs)) /\
  (forall k, k <> oldKey -> k <> newKey -> Mgr.chats m' !! k = Mgr.chats m !! k).
Proof.
  intros Hne Hc Hold m'.
  assert (Hch : Mgr.chats m'
                = delete oldKey (<[newKey := match Mgr.chats m !! newKey with
                                             | None => oldMsgs
                                             | Some newMsgs => mergeChats newMsgs oldMsgs
                                             end]> (Mgr.chats m))).
  { subst m'. unfold migrateContact.
    destruct (String.eqb_spec oldKey newKey) as [|_]; [contradiction|].
    rewrite Hc, Hold. cbv zeta.
    destruct (if Js.truthy _ then _ else _) as [p f]. reflexivity. }
  rewrite Hch. split; [apply lookup_delete_eq|]. split.
  - eexists. split; [rewrite lookup_delete_ne by exact Hne; apply lookup_insert_eq|].
    destruct (Mgr.chats m !! newKey) as [newMsgs|]; cbn [default].
    + split; [intros id; rewrite mergeChats_ids; tauto|]. split; [|discriminate].
      intros ? [= <-]. split; [apply mergeChats_perm|]. split; [apply sortByTs_sorted|].
      apply mergeChats_NoDup.
    + split; [intros id; cbn; tauto|]. split; [discriminate | reflexivity].
  - intros k H1 H2. rewrite lookup_delete_ne, lookup_insert_ne; congruence.
Qed.

(** *** The PID map after a migration *)

Lemma remapPID_fold fp l :
  forall acc pid,
    let r := fold_left (remapPID fp) l acc in
    (In pid l -> fst r !! pid = Some fp /\ snd r !! pid = None) /\
    (~ In pid l -> fst r !! pid = fst acc !! pid /\ snd r !! pid = snd acc !! pid).
Proof.
  induction l as [|x l IH]; intros acc pid; cbn zeta; cbn [fold_left].
  - split; [intros []|auto].
  - destruct (IH (remapPID fp acc x) pid) as [Hin Hout]. cbn zeta in Hin, Hout.
    destruct (in_dec String.string_dec pid l) as [Hl|Hl].
    + split; [intros _; now apply Hin | intros H; exfalso; apply H; now right].
    + destruct (Hout Hl) as [E1 E2]. rewrite E1, E2. unfold remapPID. cbn [fst snd].
      split.
      * intros [->|H]; [|contradiction]. now rewrite lookup_insert_eq, lookup_delete_eq.
      * intros H. assert (x <> pid) by (intros ->; apply H; now left).
        now rewrite lookup_insert_ne, lookup_delete_ne.
Qed.

Lemma pidsOf_mergeContact existing target pid :
  In pid (pidsOf existing) -> In pid (pidsOf (mergeContact existing target)).
Proof.
  rewrite mergeContact_fields. unfold pidsOf. cbn [Contact.knownPIDs Contact.currentPID].
  rewrite !in_app_iff. intros [H|H].
  - left. destruct (Contact.knownPIDs existing) as [old|]; [|destruct H]. cbn [default] in *.
    unfold mergeKnownPIDs, Js.setOf.
    apply (proj2 (setAdd_spec _ [] (NoDup_nil_2 (A:=string)))). right.
    apply in_or_app. now right.
  - right. destruct (Js.truthy (Some (Contact.currentPID existing))) eqn:E; [|destruct H].
    now rewrite E.
Qed.

(** X16. After [migrateContact] the record under the new key answers for
    every PID the old record was known by: they are all among its PIDs, and
    when the record has a fingerprint each of its PIDs is mapped to that
    fingerprint, has no failure counter left, and is resolved to the
    fingerprint by [contactKeyForPID] without a search. *)
Theorem migrate_remaps_pids (oldKey newKey : string) (m : Mgr.t) (existing : Contact.t) :
  oldKey <> newKey ->
  JsObj.get oldKey (Mgr.contacts m) = Some existing ->
  let m' := migrateContact oldKey newKey m in
  JsObj.get oldKey (Mgr.contacts m') = None /\
  exists target,
    JsObj.get newKey (Mgr.contacts m') = Some target /\
    (forall pid, In pid (pidsOf existing) -> In pid (pidsOf target)) /\
    (Js.truthy (Contact.fingerprint target) = true ->
     forall pid, In pid (pidsOf target) ->
       Mgr.pidToFP m' !! pid = Contact.fingerprint target /\
       Mgr.connectFailures m' !! pid = None /\
       Messaging.contactKeyForPID pid m'
       = (default EmptyString (Contact.fingerprint target), m')).
Proof.
  intros Hne Hc m'.
  set (target := match JsObj.get newKey (Mgr.contacts m) with
                 | None => Contact.set_conn None existing
                 | Some target => mergeContact existing target
                 end).
  set (fp := default EmptyString (Contact.fingerprint target)).
  set (acc := fold_left (remapPID fp) (default [] (Contact.knownPIDs target))
                        (Mgr.pidToFP m, Mgr.connectFailures m)).
  assert (Hm' : Mgr.contacts m' = JsObj.del oldKey (JsObj.set newKey target (Mgr.contacts m)) /\
                (Js.truthy (Contact.fingerprint target) = true ->
                 (Mgr.pidToFP m', Mgr.connectFailures m')
                 = if Js.truthy (Some (Contact.currentPID target))
                   then remapPID fp acc (Contact.currentPID target) else acc)).
  { subst m'. unfold migrateContact.
    destruct (String.eqb_spec oldKey newKey) as [|_]; [contradiction|].
    rewrite Hc. fold target. cbv zeta. fold fp. fold acc.
    destruct (Js.truthy (Contact.fingerprint target)).
    - destruct (if Js.truthy (Some (Contact.currentPID target)) then _ else _) as [p f].
      split; [reflexivity | intros _; reflexivity].
    - split; [reflexivity | discriminate]. }
  destruct Hm' as [Hco Hmaps].
  split; [rewrite Hco; apply jsobj_get_del|].
  exists target. split; [|split].
  - rewrite Hco, jsobj_get_del_ne by congruence. apply jsobj_get_set_eq.
  - intros pid Hpid. subst target. destruct (JsObj.get newKey (Mgr.contacts m)).
    + now apply pidsOf_mergeContact.
    + exact Hpid.
  - intros Hfp pid Hpid. specialize (Hmaps Hfp).
    assert (Hfp' : Contact.fingerprint target = Some fp).
    { subst fp. destruct (Contact.fingerprint target); [reflexivity | discriminate]. }
    assert (Hboth : Mgr.pidToFP m' !! pid = Some fp /\ Mgr.connectFailures m' !! pid = None).
    { assert (Hp1 : Mgr.pidToFP m' = fst (Mgr.pidToFP m', Mgr.connectFailures m'))
        by reflexivity.
      assert (Hp2 : Mgr.connectFailures m' = snd (Mgr.pidToFP m', Mgr.connectFailures m'))
        by reflexivity.
      rewrite Hmaps in Hp1, Hp2. rewrite Hp1, Hp2. clear Hp1 Hp2.
      unfold pidsOf in Hpid. apply in_app_iff in Hpid.
      destruct (remapPID_fold fp (default [] (Contact.knownPIDs target))
                  (Mgr.pidToFP m, Mgr.connectFailures m) pid) as [Hin Hout].
      cbn zeta in Hin, Hout. fold acc in Hin, Hout.
      destruct (Js.truthy (Some (Contact.currentPID target))).
      - unfold remapPID. cbn [fst snd].
        destruct (String.eqb_spec (Contact.currentPID target) pid) as [->|Hcur].
        + now rewrite lookup_insert_eq, lookup_delete_eq.
        + rewrite lookup_insert_ne, lookup_delete_ne by exact Hcur.
          destruct Hpid as [H|[H|[]]]; [now apply Hin | contradiction].
      - destruct Hpid as [H|[]]. now apply Hin. }
    destruct Hboth as [Hp Hf]. rewrite Hfp'. split; [exact Hp|]. split; [exact Hf|].
    unfold Messaging.contactKeyForPID. rewrite Hp, <- Hfp', Hfp. now rewrite Hfp'.
Qed.

(** *** Deleting a contact *)

Lemma delete_fold (l : list string) :
  forall (p : gmap string string) pid,
    (In pid l -> fold_left (fun acc pid => delete pid acc) l p !! pid = None) /\
    (~ In pid l -> fold_left (fun acc pid => delete pid acc) l p !! pid = p !! pid).
Proof.
  induction l as [|x l IH]; intros p pid; cbn [fold_left].
  - split; [intros [] | reflexivity].
  - destruct (IH (delete x p) pid) as [Hin Hout].
    destruct (in_dec String.string_dec pid l) as [Hl|Hl].
    + split; [intros _; now apply Hin | intros H; exfalso; apply H; now right].
    + rewrite (Hout Hl). split.
      * intros [->|H]; [apply lookup_delete_eq | contradiction].
      * intros H. apply lookup_delete_ne. intros ->. apply H. now left.
Qed.

(** X17. [deleteContact] removes the record, the chat and the cached shared
    key of the contact and the PID mapping of each of its PIDs, closes its
    connection if it is open, and touches no other contact, chat, shared
    key or PID mapping; the failure counters, the pending files and the
    rendezvous entries are left as they are. *)
Theorem deleteContact_removes (contactKey : string) (m : Mgr.t) :
  let m' := deleteContact contactKey m in
  let c := JsObj.get contactKey (Mgr.contacts m) in
  JsObj.get contactKey (Mgr.contacts m') = None /\
  Mgr.chats m' !! contactKey = None /\
  Mgr.sharedKeys m' !! contactKey = None /\
  (forall pid, In pid (default [] (pidsOf <$> c)) -> Mgr.pidToFP m' !! pid = None) /\
  (forall conn, c ≫= Contact.conn = Some conn -> Conn.open conn = true ->
                In (Close (Conn.cid conn)) (Mgr.effects m')) /\
  (forall k, k <> contactKey ->
     JsObj.get k (Mgr.contacts m') = JsObj.get k (Mgr.contacts m) /\
     Mgr.chats m' !! k = Mgr.chats m !! k /\
     Mgr.sharedKeys m' !! k = Mgr.sharedKeys m !! k) /\
  (forall pid, ~ In pid (default [] (pidsOf <$> c)) ->
     Mgr.pidToFP m' !! pid = Mgr.pidToFP m !! pid) /\
  Mgr.connectFailures m' = Mgr.connectFailures m /\
  Mgr.pendingFiles m' = Mgr.pendingFiles m /\
  Mgr.rvzMap m' = Mgr.rvzMap m.
Proof.
  cbn zeta. unfold deleteContact.
  set (c := JsObj.get contactKey (Mgr.contacts m)).
  set (m1 := if Messaging.connOpen (c ≫= Contact.conn) then _ else m).
  assert (H1 : Mgr.contacts m1 = Mgr.contacts m /\ Mgr.chats m1 = Mgr.chats m /\
               Mgr.sharedKeys m1 = Mgr.sharedKeys m /\ Mgr.pidToFP m1 = Mgr.pidToFP m /\
               Mgr.connectFailures m1 = Mgr.connectFailures m /\
               Mgr.pendingFiles m1 = Mgr.pendingFiles m /\ Mgr.rvzMap m1 = Mgr.rvzMap m /\
               (forall conn, c ≫= Contact.conn = Some conn -> Conn.open conn = true ->
                             In (Close (Conn.cid conn)) (Mgr.effects m1))).
  { subst m1. destruct (c ≫= Contact.conn) as [conn|]; cbn [Messaging.connOpen].
    - destruct (Conn.open conn) eqn:Ho; repeat (split; [reflexivity|]).
      + intros ? [= <-] _. rewrite effects_emit. apply in_or_app. right. now left.
      + intros ? [= <-]. congruence.
    - repeat (split; [reflexivity|]). discriminate. }
  destruct H1 as (E1 & E2 & E3 & E4 & E5 & E6 & E7 & Hclose).
  unfold emitPeerListUpdate, emit.
  cbn [Mgr.contacts Mgr.chats Mgr.sharedKeys Mgr.pidToFP Mgr.connectFailures Mgr.pendingFiles
       Mgr.rvzMap Mgr.effects Mgr.set_effects Mgr.set_chats Mgr.set_contacts
       Mgr.set_sharedKeys Mgr.set_pidToFP].
  rewrite E1, E2, E3, E4, E5, E6, E7.
  set (known := default [] (c ≫= Contact.knownPIDs)).
  set (p2 := match c with Some c0 => _ | None => _ end).
  assert (Hpid : forall pid,
            (In pid (default [] (pidsOf <$> c)) -> p2 !! pid = None) /\
            (~ In pid (default [] (pidsOf <$> c)) -> p2 !! pid = Mgr.pidToFP m !! pid)).
  { intros pid. subst p2 known.
    destruct c as [c0|].
    - change (default [] (pidsOf <$> Some c0)) with (pidsOf c0).
      change (default [] (Some c0 ≫= Contact.knownPIDs))
        with (default [] (Contact.knownPIDs c0)).
      unfold pidsOf. rewrite in_app_iff.
      destruct (delete_fold (default [] (Contact.knownPIDs c0)) (Mgr.pidToFP m) pid)
        as [Hin Hout].
      destruct (Js.truthy (Some (Contact.currentPID c0))).
      + destruct (String.eqb_spec (Contact.currentPID c0) pid) as [->|Hne].
        * rewrite lookup_delete_eq. split; [reflexivity|]. intros H. exfalso. apply H.
          right. now left.
        * rewrite lookup_delete_ne by exact Hne. split.
          -- intros [H|[H|[]]]; [now apply Hin | contradiction].
          -- intros H. apply Hout. tauto.
      + split.
        * intros [H|[]]. now apply Hin.
        * intros H. apply Hout. tauto.
    - cbn. split; [intros [] | reflexivity]. }
  split; [apply jsobj_get_del|]. split; [apply lookup_delete_eq|].
  split; [apply lookup_delete_eq|]. split; [intros pid; apply Hpid|].
  split.
  { intros conn Hconn Ho. rewrite !in_app_iff. left. left. left. left. now apply Hclose. }
  split.
  { intros k Hk. rewrite jsobj_get_del_ne, !lookup_delete_ne by congruence. auto. }
  split; [intros pid; apply Hpid|]. auto.
Qed.

End RosterFacts.

Lemma migrate_merges_histories_witness :
  "pid-bob-2"%string <> "fp-bob"%string /\
  JsObj.get "pid-bob-2" (Mgr.contacts twoBobs) = Some bobByPID /\
  Mgr.chats twoBobs !! "pid-bob-2"%string
  = Some [textMsg "m2" "b" 20 delivered; textMsg "m1" "a" 10 delivered] /\
  Mgr.chats (Contacts.migrateContact "pid-bob-2" "fp-bob" twoBobs) !! "pid-bob-2"%string = None /\
  Mgr.chats (Contacts.migrateContact "pid-bob-2" "fp-bob" twoBobs) !! "fp-bob"%string
  = Some [textMsg "m1" "a" 10 delivered; textMsg "m2" "b" 20 delivered;
          textMsg "m3" "c" 30 waiting].
Proof.
  assert (Hne : "pid-bob-2"%string <> "fp-bob"%string) by discriminate.
  split; [exact Hne|]. split; [reflexivity|]. split; [vm_compute; reflexivity|].
  destruct (migrate_merges_histories "pid-bob-2" "fp-bob" twoBobs bobByPID
              [textMsg "m2" "b" 20 delivered; textMsg "m1" "a" 10 delivered] Hne eq_refl)
    as (H & _); [vm_compute; reflexivity|].
  split; [exact H|]. vm_compute. reflexivity.
Defined.

Lemma migrate_remaps_pids_witness :
  "pid-bob-2"%string <> "fp-bob"%string /\
  JsObj.get "pid-bob-2" (Mgr.contacts twoBobs) = Some bobByPID /\
  JsObj.get "pid-bob-2" (Mgr.contacts (Contacts.migrateContact "pid-bob-2" "fp-bob" twoBobs))
  = None /\
  Mgr.pidToFP (Contacts.migrateContact "pid-bob-2" "fp-bob" twoBobs) !! "pid-bob-2"%string
  = Some "fp-bob"%string.
Proof.
  assert (Hne : "pid-bob-2"%string <> "fp-bob"%string) by discriminate.
  split; [exact Hne|]. split; [reflexivity|].
  destruct (migrate_remaps_pids "pid-bob-2" "fp-bob" twoBobs bobByPID Hne eq_refl)
    as (H & _).
  split; [exact H|]. vm_compute. reflexivity.
Defined.

(** ** The rendezvous exchange and the contact it names *)

Section RendezvousFacts.
Import Rvz.
Context (C : CryptoOps).

Lemma rvzDeactivate_frame k m :
  Mgr.contacts (rvzDeactivate k m) = Mgr.contacts m /\
  Mgr.pidToFP (rvzDeactivate k m) = Mgr.pidToFP m /\
  Mgr.connectFailures (rvzDeactivate k m) = Mgr.connectFailures m /\
  Mgr.rvzMap (rvzDeactivate k m) = delete k (Mgr.rvzMap m) /\
  (forall e, In e (Mgr.effects m) -> In e (Mgr.effects (rvzDeactivate k m))).
Proof.
  unfold rvzDeactivate. destruct (Mgr.rvzMap m !! k) eqn:E.
  - repeat (split; [reflexivity|]). intros e He. rewrite effects_emit. apply in_or_app. now left.
  - repeat (split; [reflexivity|]). split; [|auto]. symmetry. now apply delete_id.
Qed.

Lemma reconnect_contacts contactKey newPID fname m :
  Mgr.contacts (reconnect contactKey newPID fname m) = Mgr.contacts m /\
  Mgr.pidToFP (reconnect contactKey newPID fname m) = Mgr.pidToFP m.
Proof.
  unfold reconnect, reconnectWith, connectLater.
  set (m1 := if Js.truthy contactKey then _ else m).
  assert (H1 : Mgr.contacts m1 = Mgr.contacts m /\ Mgr.pidToFP m1 = Mgr.pidToFP m).
  { subst m1. destruct (Js.truthy contactKey); [|auto].
    destruct (rvzDeactivate_frame (default EmptyString contactKey) m) as (A & B & _). auto. }
  destruct H1 as [A B].
  destruct (if Js.truthy contactKey then contactKey else newPID) as [ck|]; [|auto].
  destruct (JsObj.get ck (Mgr.contacts m1)); [|auto].
  destruct newPID; auto.
Qed.

Lemma updateContactPID_frame contactKey c newPID m m1 k :
  updateContactPID contactKey c newPID m = Some m1 -> k <> contactKey ->
  JsObj.get k (Mgr.contacts m1) = JsObj.get k (Mgr.contacts m).
Proof.
  unfold updateContactPID. destruct (bool_decide _); [now intros [= <-]|].
  destruct newPID as [pid|]; [|discriminate]. intros [= <-] Hk.
  unfold emit. cbn [Mgr.contacts Mgr.set_effects Mgr.set_contacts Mgr.set_pidToFP].
  apply jsobj_get_set_ne. congruence.
Qed.

(** The part of the handler between the contact update and the
    reconnection leaves the contacts and the maps alone and drops no
    effect. *)
Lemma reply_frame ts conn m1 :
  let replied :=
    if Conn.open conn && negb (bool_decide (Conn.cid conn ∈ Mgr.rvzRepliedConns m1)) then
      let m2 := Mgr.set_rvzRepliedConns ({[Conn.cid conn]} ∪ Mgr.rvzRepliedConns m1) m1 in
      match Mgr.privateKey m2 with
      | Some priv =>
        match signData C priv ts with
        | Some signature =>
          Some (emit (CloseAfter (Conn.cid conn) 1000)
                  (emit (Send (Conn.cid conn)
                              (W_rvz_exchange (replyPayload ts signature m2))) m2))
        | None => None
        end
      | None =>
        Some (emit (CloseAfter (Conn.cid conn) 1000)
                (emit (Send (Conn.cid conn)
                            (W_rvz_exchange (replyPayload ts EmptyString m2))) m2))
      end
    else Some m1 in
  let m3 := match replied with
            | Some m3 => m3
            | None => Mgr.set_rvzRepliedConns ({[Conn.cid conn]} ∪ Mgr.rvzRepliedConns m1) m1
            end in
  Mgr.contacts m3 = Mgr.contacts m1 /\ Mgr.pidToFP m3 = Mgr.pidToFP m1 /\
  Mgr.connectFailures m3 = Mgr.connectFailures m1 /\ Mgr.rvzMap m3 = Mgr.rvzMap m1 /\
  (forall e, In e (Mgr.effects m1) -> In e (Mgr.effects m3)).
Proof.
  cbn zeta. destruct (Conn.open conn && _); [|auto 6].
  cbn [Mgr.privateKey Mgr.set_rvzRepliedConns].
  destruct (Mgr.privateKey m1) as [priv|]; [destruct (signData C priv ts)|];
    repeat (split; [reflexivity|]); intros e He; rewrite ?effects_emit, ?in_app_iff;
    cbn [Mgr.effects Mgr.set_rvzRepliedConns]; auto.
Qed.

(** X18. An accepted exchange moves the contact to its new PID: when the
    payload passes the signature check and carries the public key of a
    stored contact and a PID other than the contact's current one, then
    after [rvzHandleExchange] the contact's current PID is the new one, the
    new PID is among its known PIDs with all the earlier ones, the PID is
    mapped to the contact's key (so that [contactKeyForPID] resolves it),
    its failure counter is cleared, the rendezvous entry of the contact is
    gone and a persistent connection to the new PID is requested.  The
    handler goes this far provided signing the reply does not throw. *)
Theorem rvz_exchange_moves_contact (ts : string) (d : RvzExchange.t) (conn : Conn.t)
    (m : Mgr.t) (pk ck pid : string) (c : Contact.t) :
  exchangeVerified C d = true ->
  RvzExchange.publicKey d = Some pk -> pk <> EmptyString ->
  Contacts.findContactByPublicKey pk None m = Some ck -> ck <> EmptyString ->
  JsObj.get ck (Mgr.contacts m) = Some c ->
  RvzExchange.persistentID d = Some pid -> pid <> EmptyString ->
  Contact.currentPID c <> pid ->
  (forall priv, Mgr.privateKey m = Some priv -> is_Some (signData C priv ts)) ->
  let m' := rvzHandleExchange C ts d conn m in
  (exists c',
     JsObj.get ck (Mgr.contacts m') = Some c' /\
     Contact.currentPID c' = pid /\
     In pid (default [] (Contact.knownPIDs c')) /\
     (forall p, In p (default [] (Contact.knownPIDs c)) ->
                In p (default [] (Contact.knownPIDs c'))) /\
     Contact.publicKey c' = Contact.publicKey c) /\
  (forall k, k <> ck -> JsObj.get k (Mgr.contacts m') = JsObj.get k (Mgr.contacts m)) /\
  Mgr.pidToFP m' !! pid = Some ck /\
  Messaging.contactKeyForPID pid m' = (ck, m') /\
  Mgr.connectFailures m' !! pid = None /\
  Mgr.rvzMap m' !! ck = None /\
  In (ConnectPersistent pid (Rvz.senderName d))
     (Mgr.effects m').
Proof.
  intros Hver Hpk Hpk0 Hfind Hck0 Hc Hpid Hpid0 Hcur Hsign m'.
  assert (Tpk : Js.truthy (Some pk) = true).
  { cbn. now destruct (String.eqb_spec pk EmptyString). }
  assert (Tck : Js.truthy (Some ck) = true).
  { cbn. now destruct (String.eqb_spec ck EmptyString). }
  assert (Tpid : Js.truthy (Some pid) = true).
  { cbn. now destruct (String.eqb_spec pid EmptyString). }
  set (known := default [] (Contact.knownPIDs c)).
  set (c2 := if existsb (String.eqb pid) known then Contact.set_currentPID pid c
             else Contact.set_knownPIDs (Some (known ++ [pid])) (Contact.set_currentPID pid c)).
  set (m1 := emit SaveContacts
               (Mgr.set_pidToFP (<[pid := ck]> (Mgr.pidToFP m))
                  (Mgr.set_contacts (JsObj.set ck c2 (Mgr.contacts m))
                     (emit (Log "rvz-pid-updated") m)))).
  assert (Hupd : updateContactPID ck c (Some pid) m = Some m1).
  { unfold updateContactPID. rewrite bool_decide_eq_false_2 by congruence. reflexivity. }
  pose proof (reply_frame ts conn m1) as Hreply. cbn zeta in Hreply.
  subst m'. unfold rvzHandleExchange, rvzHandleExchangeWith. fold reconnect. rewrite Hver, Hpk, Hpid. cbn [negb default].
  rewrite Tpk. unfold id. rewrite Hfind, Tck.
  cbn [mbind option_bind default]. unfold id. rewrite Hc, Hupd.
  set (replied := if Conn.open conn && _ then _ else Some m1) in *.
  assert (Hsome : exists m3, replied = Some m3).
  { subst replied. destruct (Conn.open conn && _); [|eauto].
    cbn [Mgr.privateKey Mgr.set_rvzRepliedConns].
    change (Mgr.privateKey m1) with (Mgr.privateKey m).
    destruct (Mgr.privateKey m) as [priv|] eqn:Hp; [|eauto].
    destruct (Hsign priv eq_refl) as [sg ->]. eauto. }
  destruct Hsome as [m3 Hm3]. rewrite Hm3 in Hreply |- *.
  destruct Hreply as (Aco & Apf & Acf & Arv & Aef).
  unfold reconnect, reconnectWith, connectLater. rewrite Tck. cbn [default]. unfold id.
  destruct (rvzDeactivate_frame ck m3) as (Bco & Bpf & Bcf & Brv & Bef).
  assert (Hget : JsObj.get ck (Mgr.contacts (rvzDeactivate ck m3)) = Some c2).
  { rewrite Bco, Aco. apply jsobj_get_set_eq. }
  rewrite Hget.
  set (m5 := emit _ _).
  assert (Hco5 : Mgr.contacts m5 = JsObj.set ck c2 (Mgr.contacts m)) by (subst m5; cbn; now rewrite Bco, Aco).
  assert (Hpf5 : Mgr.pidToFP m5 = <[pid := ck]> (Mgr.pidToFP m)) by (subst m5; cbn; now rewrite Bpf, Apf).
  split; [|split; [|split; [|split; [|split; [|split]]]]].
  - exists c2. rewrite Hco5. split; [apply jsobj_get_set_eq|].
    subst c2. destruct (existsb (String.eqb pid) known) eqn:E;
      cbn [Contact.currentPID Contact.knownPIDs Contact.publicKey Contact.set_currentPID
           Contact.set_knownPIDs default]; fold known.
    + split; [reflexivity|]. split; [now apply existsb_eqb_In|]. auto.
    + split; [reflexivity|]. unfold id. split; [apply in_or_app; right; now left|].
      split; [intros p Hp; apply in_or_app; now left | reflexivity].
  - intros k Hk. rewrite Hco5. apply jsobj_get_set_ne. congruence.
  - rewrite Hpf5. apply lookup_insert_eq.
  - unfold Messaging.contactKeyForPID. rewrite Hpf5, lookup_insert_eq, Tck. reflexivity.
  - subst m5. cbn. apply lookup_delete_eq.
  - subst m5. cbn. rewrite Brv. apply lookup_delete_eq.
  - subst m5. rewrite effects_emit. apply in_or_app. right. now left.
Qed.

Lemma contactKeyForPID_frame pid m :
  Mgr.contacts (snd (Messaging.contactKeyForPID pid m)) = Mgr.contacts m /\
  (forall p, p <> pid ->
     Mgr.pidToFP (snd (Messaging.contactKeyForPID pid m)) !! p = Mgr.pidToFP m !! p).
Proof.
  unfold Messaging.contactKeyForPID. destruct (Js.truthy _); [auto|].
  destruct (List.find _ _) as [[key c]|]; [|auto]. cbn. split; [reflexivity|].
  intros p Hp. apply lookup_insert_ne. congruence.
Qed.

(** What the call of [connectPersistent] changes: the PID map at the PID
    only, and of the contact records at most one, which loses a connection
    that is closed. *)
Lemma connectPersistent_frame persPeer connectingPIDs pid fname m k :
  let m' := Handshake.mgr (Handshake.connectPersistent persPeer connectingPIDs pid fname m) in
  (forall p, p <> pid -> Mgr.pidToFP m' !! p = Mgr.pidToFP m !! p) /\
  (JsObj.get k (Mgr.contacts m') = JsObj.get k (Mgr.contacts m) \/
   exists c, JsObj.get k (Mgr.contacts m) = Some c /\
             Messaging.connOpen (Contact.conn c) = false /\
             JsObj.get k (Mgr.contacts m') = Some (Contact.set_conn None c)).
Proof.
  cbn zeta. unfold Handshake.connectPersistent.
  destruct persPeer; cbn [Handshake.mgr]; try (split; [reflexivity | now left]).
  destruct (existsb _ connectingPIDs); cbn [Handshake.mgr]; [split; [reflexivity | now left]|].
  destruct (contactKeyForPID_frame pid m) as [Hco Hpf].
  destruct (Messaging.contactKeyForPID pid m) as [ck m1]. cbn [snd] in Hco, Hpf.
  set (m2 := match JsObj.get ck (Mgr.contacts m1) with Some c => _ | None => m1 end).
  assert (H2 : Mgr.pidToFP m2 = Mgr.pidToFP m1 /\
               (JsObj.get k (Mgr.contacts m2) = JsObj.get k (Mgr.contacts m) \/
                exists c, JsObj.get k (Mgr.contacts m) = Some c /\
                          Messaging.connOpen (Contact.conn c) = false /\
                          JsObj.get k (Mgr.contacts m2) = Some (Contact.set_conn None c))).
  { subst m2. destruct (JsObj.get ck (Mgr.contacts m1)) as [c|] eqn:Hc;
      [|split; [reflexivity | left; now rewrite Hco]].
    destruct (Contact.conn c) as [cn|] eqn:Hcn; [|split; [reflexivity | left; now rewrite Hco]].
    destruct (Conn.open cn) eqn:Ho; [split; [reflexivity | left; now rewrite Hco]|].
    split; [reflexivity|]. cbn [Mgr.contacts Mgr.set_contacts].
    destruct (String.eqb_spec k ck) as [->|Hne].
    - right. exists c. rewrite <- Hco. split; [exact Hc|]. split.
      + rewrite Hcn. exact Ho.
      + apply jsobj_get_set_eq.
    - left. rewrite jsobj_get_set_ne by congruence. now rewrite Hco. }
  destruct H2 as [Hpf2 Hco2].
  destruct (Messaging.connOpen _); cbn [Handshake.mgr];
    (split; [intros p Hp; cbn; rewrite Hpf2; now apply Hpf | exact Hco2]).
Qed.

(** X19. An exchange changes the contact records in two ways only.  The
    record that holds the public key of the payload is the one the handler
    itself updates.  Any other record changes at most by losing a
    connection that is closed: that is the record the new PID resolves to,
    and it is [connectPersistent], called at the end of the handler, that
    drops the connection.  The PID map changes at most at the new PID.  A
    payload that the signature check rejects changes neither; a payload
    without public key, signature or timestamp is not checked and goes
    through the handler like any other. *)
Theorem rvz_exchange_touches_one_contact (persPeer : Handshake.PersPeer)
    (connectingPIDs : list string) (ts : string) (d : RvzExchange.t)
    (conn : Conn.t) (m : Mgr.t) (k : string) :
  let m' := Handshake.rvzHandleExchange C persPeer connectingPIDs ts d conn m in
  let newPID := default EmptyString (RvzExchange.persistentID d) in
  (exchangeVerified C d = false ->
   Mgr.contacts m' = Mgr.contacts m /\ Mgr.pidToFP m' = Mgr.pidToFP m) /\
  (JsObj.get k (Mgr.contacts m') <> JsObj.get k (Mgr.contacts m) ->
   (Js.truthy (RvzExchange.publicKey d) = true /\
    Contacts.findContactByPublicKey (default EmptyString (RvzExchange.publicKey d)) None m
    = Some k) \/
   (exists c, JsObj.get k (Mgr.contacts m) = Some c /\
              Messaging.connOpen (Contact.conn c) = false /\
              JsObj.get k (Mgr.contacts m') = Some (Contact.set_conn None c))) /\
  (forall p, p <> newPID -> Mgr.pidToFP m' !! p = Mgr.pidToFP m !! p).
Proof.
  cbn zeta. unfold Handshake.rvzHandleExchange, rvzHandleExchangeWith.
  destruct (exchangeVerified C d); cbn [negb];
    [|split; [auto|]; split; [intros H; now destruct H | reflexivity]].
  split; [discriminate|].
  set (connect := fun pid fname m0 => Handshake.mgr _).
  set (contactKey := if Js.truthy (RvzExchange.publicKey d) then _ else None).
  set (found := if Js.truthy contactKey then _ else None).
  set (upd := match found with Some c => _ | None => _ end).
  (* the update of the contact that holds the key *)
  assert (Hupd : forall m1, upd = Some m1 ->
            (forall p, p <> default EmptyString (RvzExchange.persistentID d) ->
                       Mgr.pidToFP m1 !! p = Mgr.pidToFP m !! p) /\
            (Mgr.contacts m1 = Mgr.contacts m \/
             exists ck, contactKey = Some ck /\ Js.truthy (RvzExchange.publicKey d) = true /\
               forall k', k' <> ck ->
                 JsObj.get k' (Mgr.contacts m1) = JsObj.get k' (Mgr.contacts m))).
  { intros m1 E. subst upd. destruct found as [c|] eqn:Hf.
    - subst found. destruct (Js.truthy contactKey) eqn:Tc; [|discriminate].
      destruct contactKey as [ck|] eqn:Hck; [|discriminate].
      cbn [default] in E. unfold id in E. split.
      + unfold updateContactPID in E. destruct (bool_decide _); [now injection E as <-|].
        destruct (RvzExchange.persistentID d) as [pid|]; [|discriminate].
        injection E as <-. intros p Hp. cbn. apply lookup_insert_ne. cbn in Hp. congruence.
      + right. exists ck. split; [reflexivity|]. split.
        * subst contactKey.
          destruct (Js.truthy (RvzExchange.publicKey d)); [reflexivity | discriminate].
        * intros k' Hk'. exact (updateContactPID_frame ck c _ m m1 k' E Hk').
    - destruct (negb _ && _); injection E as <-; auto. }
  destruct upd as [m1|]; [|split; [intros H; now destruct H | reflexivity]].
  destruct (Hupd m1 eq_refl) as [Hpf1 Hco1]. clear Hupd.
  pose proof (reply_frame ts conn m1) as Hreply. cbn zeta in Hreply.
  set (replied := if Conn.open conn && _ then _ else Some m1) in *.
  destruct replied as [m3|]; destruct Hreply as (Aco & Apf & _).
  2:{ cbn [Mgr.contacts Mgr.pidToFP Mgr.set_rvzRepliedConns]. split; [|exact Hpf1].
      intros Hk. destruct Hco1 as [E|(ck & Hck & Tpk & Hfr)]; [now rewrite E in Hk|].
      left. split; [exact Tpk|]. subst contactKey. rewrite Tpk in Hck. rewrite Hck.
      f_equal. destruct (String.eqb_spec k ck) as [|Hne]; [congruence|].
      destruct Hk. now apply Hfr. }
  (* the tail: the rendezvous entry goes, then the call *)
  unfold reconnectWith.
  set (m4 := if Js.truthy contactKey then _ else m3).
  assert (H4 : Mgr.contacts m4 = Mgr.contacts m1 /\ Mgr.pidToFP m4 = Mgr.pidToFP m1).
  { subst m4. destruct (Js.truthy contactKey); [|auto].
    destruct (rvzDeactivate_frame (default EmptyString contactKey) m3) as (A & B & _).
    split; congruence. }
  destruct H4 as [Hco4 Hpf4].
  assert (Hcall : forall pid m5,
            Mgr.contacts m5 = Mgr.contacts m1 -> Mgr.pidToFP m5 = Mgr.pidToFP m1 ->
            pid = default EmptyString (RvzExchange.persistentID d) ->
            (JsObj.get k (Mgr.contacts (connect pid (senderName d) m5))
             <> JsObj.get k (Mgr.contacts m) ->
             (Js.truthy (RvzExchange.publicKey d) = true /\
              Contacts.findContactByPublicKey
                (default EmptyString (RvzExchange.publicKey d)) None m = Some k) \/
             (exists c, JsObj.get k (Mgr.contacts m) = Some c /\
                        Messaging.connOpen (Contact.conn c) = false /\
                        JsObj.get k (Mgr.contacts (connect pid (senderName d) m5))
                        = Some (Contact.set_conn None c))) /\
            (forall p, p <> default EmptyString (RvzExchange.persistentID d) ->
               Mgr.pidToFP (connect pid (senderName d) m5) !! p = Mgr.pidToFP m !! p)).
  { intros pid m5 Hco5 Hpf5 ->. subst connect. cbn beta.
    destruct (connectPersistent_frame persPeer connectingPIDs
                (default EmptyString (RvzExchange.persistentID d)) (senderName d)
                (connectLater (default EmptyString (RvzExchange.persistentID d))
                              (senderName d) m5) k) as [Bpf Bco].
    cbn zeta in Bpf, Bco.
    change (Mgr.contacts (connectLater _ _ m5)) with (Mgr.contacts m5) in Bco.
    change (Mgr.pidToFP (connectLater _ _ m5)) with (Mgr.pidToFP m5) in Bpf.
    rewrite Hco5 in Bco. rewrite Hpf5 in Bpf. split.
    - intros Hk. destruct Hco1 as [E|(ck & Hck & Tpk & Hfr)].
      + right. rewrite E in Bco. destruct Bco as [B|B]; [now rewrite B in Hk | exact B].
      + destruct (String.eqb_spec k ck) as [->|Hne].
        * left. split; [exact Tpk|]. subst contactKey. now rewrite Tpk in Hck.
        * right. rewrite (Hfr k Hne) in Bco.
          destruct Bco as [B|B]; [now rewrite B in Hk | exact B].
    - intros p Hp. rewrite (Bpf p Hp). now apply Hpf1. }
  assert (Hstay : (JsObj.get k (Mgr.contacts m4) <> JsObj.get k (Mgr.contacts m) ->
             (Js.truthy (RvzExchange.publicKey d) = true /\
              Contacts.findContactByPublicKey
                (default EmptyString (RvzExchange.publicKey d)) None m = Some k) \/
             (exists c, JsObj.get k (Mgr.contacts m) = Some c /\
                        Messaging.connOpen (Contact.conn c) = false /\
                        JsObj.get k (Mgr.contacts m4) = Some (Contact.set_conn None c))) /\
            (forall p, p <> default EmptyString (RvzExchange.persistentID d) ->
               Mgr.pidToFP m4 !! p = Mgr.pidToFP m !! p)).
  { rewrite Hco4, Hpf4. split; [|exact Hpf1].
    intros Hk. destruct Hco1 as [E|(ck & Hck & Tpk & Hfr)]; [now rewrite E in Hk|].
    left. split; [exact Tpk|]. subst contactKey. rewrite Tpk in Hck. rewrite Hck.
    f_equal. destruct (String.eqb_spec k ck) as [|Hne]; [congruence|].
    destruct Hk. now apply Hfr. }
  destruct (if Js.truthy contactKey then contactKey else RvzExchange.persistentID d)
    as [ck|]; [|exact Hstay].
  destruct (JsObj.get ck (Mgr.contacts m4)); [|exact Hstay].
  destruct (RvzExchange.persistentID d) as [pid|] eqn:Hpid.
  - apply Hcall; [cbn; congruence | cbn; congruence | reflexivity].
  - apply Hcall; [congruence | congruence | reflexivity].
Qed.

End RendezvousFacts.

Lemma rvz_exchange_moves_contact_witness :
  Rvz.exchangeVerified testCrypto rvzFromAlice = true /\
  Contacts.findContactByPublicKey "pk-alice" None aliceMgr = Some "fp-alice"%string /\
  JsObj.get "fp-alice" (Mgr.contacts aliceMgr) = Some alice /\
  Contact.currentPID alice <> "pid-alice-2"%string /\
  Mgr.pidToFP (Rvz.rvzHandleExchange testCrypto "t1" rvzFromAlice rvzConn aliceMgr)
    !! "pid-alice-2"%string = Some "fp-alice"%string.
Proof.
  assert (Hcur : Contact.currentPID alice <> "pid-alice-2"%string) by discriminate.
  split; [reflexivity|]. split; [reflexivity|]. split; [reflexivity|]. split; [exact Hcur|].
  assert (Hsign : forall priv, Mgr.privateKey aliceMgr = Some priv ->
                               is_Some (signData testCrypto priv "t1")).
  { intros priv _. now eexists. }
  assert (Hne : forall s : string, String "p" s <> EmptyString) by discriminate.
  assert (Hne' : forall s : string, String "f" s <> EmptyString) by discriminate.
  exact (proj1 (proj2 (proj2
           (rvz_exchange_moves_contact testCrypto "t1" rvzFromAlice rvzConn aliceMgr
              "pk-alice" "fp-alice" "pid-alice-2" alice eq_refl eq_refl (Hne _) eq_refl
              (Hne' _) eq_refl eq_refl (Hne _) Hcur Hsign)))).
Defined.

Lemma rvz_exchange_touches_one_contact_witness :
  let unsigned := RvzExchange.mk (Some "pid-alice-2"%string) (Some "Alice"%string) None
                                 None None None in
  let m' := Handshake.rvzHandleExchange testCrypto Handshake.persReady [] "t1" unsigned rvzConn
                                        Handshake.twoAlices in
  Rvz.exchangeVerified testCrypto unsigned = true /\
  JsObj.get "pid-alice-2" (Mgr.contacts Handshake.twoAlices) = Some Handshake.aliceByPID /\
  JsObj.get "pid-alice-2" (Mgr.contacts m')
  = Some (Contact.set_conn None Handshake.aliceByPID) /\
  JsObj.get "fp-alice" (Mgr.contacts m') = Some alice /\
  Mgr.pidToFP m' !! "pid-alice-2"%string = Some "pid-alice-2"%string.
Proof.
  cbn zeta.
  set (unsigned := RvzExchange.mk (Some "pid-alice-2"%string) (Some "Alice"%string) None
                                  None None None).
  assert (Hk : JsObj.get "pid-alice-2"
                 (Mgr.contacts (Handshake.rvzHandleExchange testCrypto Handshake.persReady []
                                  "t1" unsigned rvzConn Handshake.twoAlices))
               <> JsObj.get "pid-alice-2" (Mgr.contacts Handshake.twoAlices))
    by (vm_compute; discriminate).
  destruct (rvz_exchange_touches_one_contact testCrypto Handshake.persReady [] "t1" unsigned
              rvzConn Handshake.twoAlices "pid-alice-2") as (_ & H & _).
  destruct (H Hk) as [[Hpk _]|(c & Hc & _ & Hc')]; [discriminate Hpk|].
  split; [reflexivity|]. split; [reflexivity|].
  assert (c = Handshake.aliceByPID) as -> by (vm_compute in Hc; now injection Hc).
  split; [exact Hc'|]. split; vm_compute; reflexivity.
Defined.

(** ** Group messages at the router and the backfill at a member *)

Section GroupSyncFacts.
Import Group GroupSync.
Context (C : CryptoOps).

Lemma localCopy_ts state msg : GroupMessage.ts (localCopy C state msg) = GroupMessage.ts msg.
Proof.
  unfold localCopy. destruct (GroupNSState.groupKey state); [|reflexivity].
  destruct (_ && _); [|reflexivity].
  destruct (decryptMessage C _ _ _); [reflexivity|].
  destruct (decryptWithHistory C _ _ _); reflexivity.
Qed.

Lemma hasId_In id msgs : hasId id msgs = true <-> In id (ids msgs).
Proof.
  unfold hasId, ids. rewrite existsb_exists, in_map_iff. split.
  - intros (x & Hx & E). apply String.eqb_eq in E. eauto.
  - intros (x & E & Hx). exists x. split; [exact Hx|]. now apply String.eqb_eq.
Qed.

Lemma relays_app a b : relays (a ++ b) = relays a ++ relays b.
Proof. unfold relays. apply omap_app. Qed.

Lemma broadcast_relays msg registry :
  forall m,
    relays (Mgr.effects (broadcast (W_group_relay msg) registry m))
    = relays (Mgr.effects m) ++ List.map (fun c => (c, msg)) (reached registry) /\
    Mgr.groups (broadcast (W_group_relay msg) registry m) = Mgr.groups m.
Proof.
  unfold broadcast, reached. induction (JsObj.values registry) as [|r rs IH]; intros m.
  - cbn. now rewrite app_nil_r.
  - cbn [fold_left]. simpl (omap _ (r :: rs)).
    destruct (PeerInfo.conn r) as [conn|]; [|apply IH].
    destruct (PeerInfo.isMe r); [apply IH|].
    destruct (IH (emit (Send (Conn.cid conn) (W_group_relay msg)) m)) as [E G].
    rewrite E, G, effects_emit, relays_app. cbn [List.map]. rewrite <- app_assoc. auto.
Qed.

(** *** The backfill at a member *)

Lemma group_insertByTs_perm x l : insertByTs x l ≡ₚ x :: l.
Proof.
  induction l as [|y l IH]; [reflexivity|]. cbn [insertByTs].
  destruct (GroupMessage.ts x <=? GroupMessage.ts y); [reflexivity|].
  rewrite IH. apply Permutation_swap.
Qed.

Lemma group_sortByTs_perm l : sortByTs l ≡ₚ l.
Proof.
  induction l as [|x l IH]; [reflexivity|].
  cbn [sortByTs fold_right]. fold (sortByTs l). now rewrite group_insertByTs_perm, IH.
Qed.

Lemma group_insertByTs_sorted x l : sortedTs l -> sortedTs (insertByTs x l).
Proof.
  induction l as [|y l IH]; intros Hs; [exact I|]. cbn [insertByTs].
  destruct (Z.leb_spec (GroupMessage.ts x) (GroupMessage.ts y)) as [Hle|Hgt].
  - split; assumption.
  - destruct l as [|z l].
    + cbn. split; [lia | exact I].
    + destruct Hs as [Hyz Hs]. specialize (IH Hs). cbn [insertByTs] in IH |- *.
      destruct (GroupMessage.ts x <=? GroupMessage.ts z) eqn:E.
      * split; [lia | exact IH].
      * split; [exact Hyz | exact IH].
Qed.

Lemma group_sortByTs_sorted l : sortedTs (sortByTs l).
Proof.
  induction l as [|x l IH]; [exact I|]. cbn [sortByTs fold_right]. fold (sortByTs l).
  now apply group_insertByTs_sorted.
Qed.

Lemma ids_perm l l' : l ≡ₚ l' -> ids l ≡ₚ ids l'.
Proof. apply Permutation_map. Qed.

Lemma backfillLoop_spec state msgs :
  forall acc added,
    let r := backfillLoop C state msgs acc added in
    (forall id, In id (ids (fst r)) <-> In id (ids acc) \/ In id (ids msgs)) /\
    (NoDup (ids acc) -> NoDup (ids (fst r))) /\
    ((forall msg, In msg msgs -> In (GroupMessage.id msg) (ids acc)) -> r = (acc, added)) /\
    ((exists msg, In msg msgs /\ ~ In (GroupMessage.id msg) (ids acc)) -> snd r = true) /\
    (snd r = false -> fst r = acc).
Proof.
  induction msgs as [|msg rest IH]; intros acc added; cbn zeta; cbn [backfillLoop].
  - cbn [fst snd]. split; [intros id; cbn; tauto|]. split; [auto|]. split; [auto|].
    split; [intros (msg & [] & _) | auto].
  - destruct (hasId (GroupMessage.id msg) acc) eqn:Hid.
    + destruct (IH acc added) as (A & B & D & E & F). cbn zeta in *.
      apply hasId_In in Hid.
      split; [intros id; rewrite A; cbn [ids List.map In]; intuition (subst; auto)|].
      split; [exact B|]. split; [intros H; apply D; intros x Hx; apply H; now right|].
      split; [|exact F].
      intros (x & [<-|Hx] & Hn); [contradiction | apply E; eauto].
    + destruct (IH (acc ++ [localCopy C state msg]) true) as (A & B & D & E & F).
      cbn zeta in *.
      assert (Hn : ~ In (GroupMessage.id msg) (ids acc)).
      { rewrite <- hasId_In. congruence. }
      assert (Hids : ids (acc ++ [localCopy C state msg]) = ids acc ++ [GroupMessage.id msg]).
      { unfold ids. rewrite List.map_app. cbn [List.map]. now rewrite localCopy_id. }
      rewrite Hids in A, B.
      split.
      { intros id. rewrite A, in_app_iff. cbn [ids List.map In]. tauto. }
      split.
      { intros Hnd. apply B, NoDup_app. split; [exact Hnd|]. split; [|apply NoDup_singleton].
        intros x Hx Hx'. apply list_elem_of_In in Hx'. destruct Hx' as [<-|[]].
        apply list_elem_of_In in Hx. contradiction. }
      split.
      { intros H. exfalso. apply Hn, H. now left. }
      assert (Htrue : snd (backfillLoop C state rest (acc ++ [localCopy C state msg]) true)
                      = true).
      { clear. generalize (acc ++ [localCopy C state msg]).
        induction rest as [|x rest IHr]; intros a; [reflexivity|]. cbn [backfillLoop].
        destruct (hasId (GroupMessage.id x) a); apply IHr. }
      split; [intros _; exact Htrue|]. rewrite Htrue. discriminate.
Qed.

Lemma groupHandleMemberData_backfill_state groupId msgs m state :
  Mgr.groups m !! groupId = Some state ->
  let m' := groupHandleMemberData_backfill C groupId msgs m in
  let r := backfillLoop C state msgs (GroupNSState.messages state) false in
  (snd r = false /\ m' = m) \/
  (snd r = true /\
   Mgr.groups m' !! groupId = Some (GroupNSState.set_messages (sortByTs (fst r)) state)).
Proof.
  intros Hg. cbn zeta. unfold groupHandleMemberData_backfill. rewrite Hg.
  destruct (backfillLoop C state msgs (GroupNSState.messages state) false) as [acc added].
  cbn [fst snd]. destruct added; [right|left; auto].
  split; [reflexivity|]. rewrite !groups_emit. unfold setMessages.
  cbn [Mgr.groups Mgr.set_groups]. apply lookup_insert_eq.
Qed.

Lemma backfill_merges_by_id_aux groupId msgs m state :
  Mgr.groups m !! groupId = Some state ->
  exists state',
    Mgr.groups (groupHandleMemberData_backfill C groupId msgs m) !! groupId = Some state' /\
    forall id, In id (ids (GroupNSState.messages state')) <->
               In id (ids (GroupNSState.messages state)) \/ In id (ids msgs).
Proof.
  intros Hg.
  destruct (backfillLoop_spec state msgs (GroupNSState.messages state) false)
    as (A & _ & _ & _ & F). cbn zeta in *.
  destruct (groupHandleMemberData_backfill_state groupId msgs m state Hg) as [[Hs Hm]|[Hs Hm]];
    cbn zeta in Hs, Hm.
  - rewrite (F Hs) in A. exists state. rewrite Hm. auto.
  - eexists. split; [exact Hm|]. intros id. rewrite <- A.
    cbn [GroupNSState.messages GroupNSState.set_messages].
    split; apply Permutation_in; apply ids_perm;
      [apply group_sortByTs_perm | symmetry; apply group_sortByTs_perm].
Qed.

(** X22. A member that checks in misses nothing newer than its [sinceTs]:
    the batch [groupBackfill] sends on an open connection is made of the
    router's stored messages with [ts > sinceTs], and once the member's
    handler has taken that batch, every such message of the router, and
    every message the member had, has its id in the member's history. *)
Theorem backfill_reaches_member (groupId : string) (conn : Conn.t) (sinceTs : Z)
    (mR mM : Mgr.t) (sR sM : GroupNSState.t) :
  Mgr.groups mR !! groupId = Some sR -> Conn.open conn = true ->
  Mgr.groups mM !! groupId = Some sM ->
  forall missed,
    In (Send (Conn.cid conn) (W_group_backfill missed))
       (Mgr.effects (groupBackfill groupId conn sinceTs mR)) ->
    ~ In (Send (Conn.cid conn) (W_group_backfill missed)) (Mgr.effects mR) ->
    exists sM',
      Mgr.groups (groupHandleMemberData_backfill C groupId missed mM) !! groupId = Some sM' /\
      (forall msg, In msg (GroupNSState.messages sR) -> sinceTs < GroupMessage.ts msg ->
                   In (GroupMessage.id msg) (ids (GroupNSState.messages sM'))) /\
      (forall msg, In msg (GroupNSState.messages sM) ->
                   In (GroupMessage.id msg) (ids (GroupNSState.messages sM'))).
Proof.
  intros HR Ho HM missed Hsent Hnew.
  rewrite (groupBackfill_effects groupId conn sinceTs mR sR HR Ho) in Hsent.
  apply in_app_iff in Hsent. destruct Hsent as [H|H]; [contradiction|].
  assert (Hmissed : missed = List.filter (fun msg => sinceTs <? GroupMessage.ts msg)
                                         (GroupNSState.messages sR)).
  { destruct (List.filter _ _) as [|x l]; [destruct H|].
    destruct H as [[= <-]|[]]. reflexivity. }
  destruct (backfill_merges_by_id_aux groupId missed mM sM HM) as (sM' & Hg & Hin).
  exists sM'. split; [exact Hg|]. split.
  - intros msg Hmsg Hts. apply Hin. right. unfold ids. apply in_map. rewrite Hmissed.
    apply List.filter_In. split; [exact Hmsg|]. now apply Z.ltb_lt.
  - intros msg Hmsg. apply Hin. left. unfold ids. now apply in_map.
Qed.

End GroupSyncFacts.

(** ** Group handlers that give way *)

Section GroupAwaitFacts.
Import Group GroupSync GroupAwait.
Context (C : CryptoOps).

Lemma tryHistory_complete keys iv ct localMsg next m :
  complete C (tryHistory keys iv ct localMsg next m)
  = complete C (next (match decryptWithHistory C keys iv ct with
                      | Some plain => GroupMessage.set_content plain localMsg
                      | None => localMsg
                      end) m).
Proof.
  induction keys as [|hk rest IH]; [reflexivity|].
  cbn [tryHistory complete decryptWithHistory].
  destruct (decryptMessage C hk iv ct); [reflexivity | exact IH].
Qed.

(** A handler that waits for a decryption, resumed on a manager in which
    the group has the key history it had: it goes on with the local copy. *)
Lemma decryptLocal_resume groupId state msg next m now :
  GroupNSState.groupKeyHistory (current groupId state now) = GroupNSState.groupKeyHistory state ->
  awaitsDecrypt state msg = true ->
  (exists key iv ct continue,
     decryptLocal groupId state msg next m = Await m key iv ct continue) /\
  complete C (resume C (decryptLocal groupId state msg next m) now)
  = complete C (next (localCopy C state msg) now).
Proof.
  intros Hh Ha. unfold awaitsDecrypt in Ha. apply andb_prop in Ha. destruct Ha as [Ha Hk].
  apply bool_decide_eq_true in Hk. destruct Hk as [gk Hk].
  unfold decryptLocal, localCopy. rewrite Hk, Ha. split; [eauto|].
  cbn [resume]. destruct (decryptMessage C gk _ _); [reflexivity|].
  rewrite tryHistory_complete, Hh. reflexivity.
Qed.

(** Run through, the decryption gives the local copy. *)
Lemma decryptLocal_complete groupId state msg next m :
  GroupNSState.groupKeyHistory (current groupId state m) = GroupNSState.groupKeyHistory state ->
  complete C (decryptLocal groupId state msg next m)
  = complete C (next (localCopy C state msg) m).
Proof.
  intros Hh. unfold decryptLocal, localCopy.
  destruct (GroupNSState.groupKey state) as [gk|]; [|reflexivity].
  destruct (_ && _); [|reflexivity].
  cbn [complete]. destruct (decryptMessage C gk _ _); [reflexivity|].
  rewrite tryHistory_complete, Hh. reflexivity.
Qed.

Lemma current_here groupId held m state :
  Mgr.groups m !! groupId = Some state -> current groupId held m = state.
Proof. intros H. unfold current. now rewrite H. Qed.

Lemma pushMessage_here groupId msg m state :
  Mgr.groups m !! groupId = Some state ->
  pushMessage groupId msg m = setMessages groupId state (GroupNSState.messages state ++ [msg]) m.
Proof. intros H. unfold pushMessage. now rewrite H. Qed.

(** The router's handler of a ['group-message'], run through. *)
Lemma router_message_complete groupId msg m :
  complete C (GroupAwait.groupHandleRouterData_message groupId msg m)
  = GroupSync.groupHandleRouterData_message C groupId msg m.
Proof.
  unfold GroupAwait.groupHandleRouterData_message, GroupSync.groupHandleRouterData_message.
  destruct (Mgr.groups m !! groupId) as [state|] eqn:Hg; [|reflexivity].
  destruct (hasId _ _); [reflexivity|].
  rewrite decryptLocal_complete by (now rewrite (current_here _ _ _ _ Hg)).
  cbn [complete]. now rewrite (pushMessage_here _ _ _ _ Hg).
Qed.

(** The member's handler of a ['group-relay'], run through. *)
Lemma member_relay_complete groupId msg conn m :
  complete C (GroupAwait.groupHandleMemberData_relay groupId msg conn m)
  = Group.groupHandleMemberData_relay C groupId msg conn m.
Proof.
  unfold GroupAwait.groupHandleMemberData_relay, Group.groupHandleMemberData_relay.
  destruct (Mgr.groups m !! groupId) as [state|] eqn:Hg; [|reflexivity].
  destruct (String.eqb _ _); [reflexivity|].
  destruct (hasId _ _); [reflexivity|].
  rewrite decryptLocal_complete by (now rewrite (current_here _ _ _ _ Hg)).
  cbn [complete]. now rewrite (pushMessage_here _ _ _ _ Hg).
Qed.

(** X20. The router relays a ['group-message'] as it was received: one
    ['group-relay'] carrying the received message (not the router's
    decrypted copy) goes to each registry entry that has a connection and
    is not the router, in registry order.  It stores the message once per
    id provided the handler runs through before the next delivery is
    handled: then, if no stored message has the id, the router's own copy
    is appended, otherwise the history is unchanged, and ids that were
    unique stay unique.  The handler gives way when the message is new and
    encrypted (it awaits the decryption after the test of the id), and a
    second delivery of the message handled in the meantime passes the same
    test: once both handlers have resumed the message is stored twice and
    relayed twice. *)
Theorem router_stores_once_and_relays (groupId : string) (msg : GroupMessage.t)
    (m : Mgr.t) (state : GroupNSState.t) :
  Mgr.groups m !! groupId = Some state ->
  GroupNSState.isRouter state = true ->
  let handler := GroupAwait.groupHandleRouterData_message groupId msg in
  let m' := complete C (handler m) in
  let old := GroupNSState.messages state in
  m' = GroupSync.groupHandleRouterData_message C groupId msg m /\
  (exists state',
     Mgr.groups m' !! groupId = Some state' /\
     GroupNSState.messages state'
     = (if hasId (GroupMessage.id msg) old then old else old ++ [localCopy C state msg]) /\
     (NoDup (ids old) -> NoDup (ids (GroupNSState.messages state'))) /\
     In (GroupMessage.id msg) (ids (GroupNSState.messages state'))) /\
  relays (Mgr.effects m')
  = relays (Mgr.effects m)
    ++ List.map (fun c => (c, msg)) (reached (GroupNSState.registry state)) /\
  (hasId (GroupMessage.id msg) old = false -> awaitsDecrypt state msg = true ->
   (exists key iv ct continue, handler m = Await m key iv ct continue) /\
   let m2 := complete C (resume C (handler m) m') in
   (exists state2,
      Mgr.groups m2 !! groupId = Some state2 /\
      GroupNSState.messages state2
      = old ++ [localCopy C state msg; localCopy C state msg]) /\
   relays (Mgr.effects m2)
   = relays (Mgr.effects m')
     ++ List.map (fun c => (c, msg)) (reached (GroupNSState.registry state))).
Proof.
  intros Hg Hr handler m' old.
  assert (Hm' : m' = GroupSync.groupHandleRouterData_message C groupId msg m)
    by apply router_message_complete.
  split; [exact Hm'|].
  assert (Hrun : (exists state',
     Mgr.groups m' !! groupId = Some state' /\
     GroupNSState.messages state'
     = (if hasId (GroupMessage.id msg) old then old else old ++ [localCopy C state msg]) /\
     GroupNSState.isRouter state' = true /\
     GroupNSState.registry state' = GroupNSState.registry state /\
     GroupNSState.groupKeyHistory state' = GroupNSState.groupKeyHistory state) /\
    relays (Mgr.effects m')
    = relays (Mgr.effects m)
      ++ List.map (fun c => (c, msg)) (reached (GroupNSState.registry state))).
  { rewrite Hm'. unfold GroupSync.groupHandleRouterData_message. rewrite Hg. fold old.
    destruct (hasId (GroupMessage.id msg) old) eqn:Hid.
    - unfold groupRelayMessage. rewrite Hg, Hr.
      destruct (broadcast_relays msg (GroupNSState.registry state) m) as [E G].
      rewrite effects_emit, relays_app, E. cbn [relays omap]. rewrite app_nil_r.
      split; [|reflexivity]. exists state. rewrite groups_emit, G. auto.
    - set (state' := GroupNSState.set_messages (old ++ [localCopy C state msg]) state).
      set (m1 := emit (SaveGroupMessages groupId) _).
      assert (Hg1 : Mgr.groups m1 !! groupId = Some state').
      { subst m1. rewrite groups_emit. unfold setMessages. cbn [Mgr.groups Mgr.set_groups].
        apply lookup_insert_eq. }
      unfold groupRelayMessage. rewrite Hg1. cbn [state' GroupNSState.isRouter
        GroupNSState.set_messages GroupNSState.registry]. rewrite Hr.
      destruct (broadcast_relays msg (GroupNSState.registry state) m1) as [E G].
      rewrite effects_emit, relays_app, E. cbn [relays omap]. rewrite app_nil_r.
      split.
      + exists state'. rewrite groups_emit, G. split; [exact Hg1|]. cbn. auto.
      + subst m1. rewrite effects_emit, relays_app. unfold setMessages.
        cbn [relays omap Mgr.effects Mgr.set_groups]. now rewrite app_nil_r. }
  destruct Hrun as [(state' & Hg' & Hmsgs & Hr' & Hreg' & Hh') Hrel].
  split; [|split; [exact Hrel|]].
  - exists state'. split; [exact Hg'|]. split; [exact Hmsgs|]. rewrite Hmsgs.
    destruct (hasId (GroupMessage.id msg) old) eqn:Hid.
    + split; [auto | now apply hasId_In].
    + unfold ids. rewrite List.map_app. cbn [List.map]. rewrite localCopy_id. split.
      * intros Hnd. apply NoDup_app. split; [exact Hnd|]. split; [|apply NoDup_singleton].
        intros x Hx Hx'. apply list_elem_of_In in Hx'. destruct Hx' as [<-|[]].
        apply list_elem_of_In, hasId_In in Hx. congruence.
      * apply in_or_app. right. now left.
  - intros Hid Ha.
    assert (Hh : GroupNSState.groupKeyHistory (current groupId state m')
                 = GroupNSState.groupKeyHistory state)
      by (now rewrite (current_here _ _ _ _ Hg')).
    subst handler. cbn beta. unfold GroupAwait.groupHandleRouterData_message.
    rewrite Hg. fold old. rewrite Hid.
    match goal with |- context [decryptLocal groupId state msg ?k m] =>
      destruct (decryptLocal_resume groupId state msg k m m' Hh Ha) as [Hw Hres] end.
    split; [exact Hw|]. cbn zeta. rewrite Hres. cbn [complete].
    rewrite (pushMessage_here _ _ _ _ Hg'). rewrite Hid in Hmsgs.
    set (state2 := GroupNSState.set_messages
                     (GroupNSState.messages state' ++ [localCopy C state msg]) state').
    set (m1 := emit (SaveGroupMessages groupId) _).
    assert (Hg1 : Mgr.groups m1 !! groupId = Some state2).
    { subst m1. rewrite groups_emit. unfold setMessages. cbn [Mgr.groups Mgr.set_groups].
      apply lookup_insert_eq. }
    split.
    + exists state2. rewrite groups_emit, groupRelayMessage_groups. split; [exact Hg1|].
      cbn. rewrite Hmsgs, <- app_assoc. reflexivity.
    + unfold groupRelayMessage. rewrite Hg1.
      cbn [state2 GroupNSState.isRouter GroupNSState.set_messages GroupNSState.registry].
      rewrite Hr', Hreg'.
      destruct (broadcast_relays msg (GroupNSState.registry state) m1) as [E G].
      rewrite effects_emit, relays_app, E. cbn [relays omap]. rewrite app_nil_r.
      subst m1. rewrite effects_emit, relays_app. unfold setMessages.
      cbn [relays omap Mgr.effects Mgr.set_groups]. now rewrite app_nil_r.
Qed.

(** A ['group-relay'] delivered a second time while the handler of the
    first waits for the decryption is stored twice. *)
Lemma member_relay_overlap groupId msg conn m state :
  Mgr.groups m !! groupId = Some state ->
  String.eqb (GroupMessage.senderFP msg) (Mgr.pubkeyFingerprint m) = false ->
  hasId (GroupMessage.id msg) (GroupNSState.messages state) = false ->
  awaitsDecrypt state msg = true ->
  let handler := GroupAwait.groupHandleMemberData_relay groupId msg conn in
  let m' := complete C (handler m) in
  (exists key iv ct continue, handler m = Await m key iv ct continue) /\
  exists state2,
    Mgr.groups (complete C (resume C (handler m) m')) !! groupId = Some state2 /\
    GroupNSState.messages state2
    = GroupNSState.messages state ++ [localCopy C state msg; localCopy C state msg].
Proof.
  intros Hg Hown Hid Ha handler m'.
  destruct (group_relay_fresh C groupId msg conn m state Hg Hown Hid) as [Hg' Hfp].
  cbn zeta in Hg', Hfp. rewrite <- (member_relay_complete groupId msg conn m) in Hg', Hfp.
  fold handler in Hg', Hfp. fold m' in Hg', Hfp.
  assert (Hh : GroupNSState.groupKeyHistory (current groupId state m')
               = GroupNSState.groupKeyHistory state)
    by (now rewrite (current_here _ _ _ _ Hg')).
  subst handler. cbn beta. unfold GroupAwait.groupHandleMemberData_relay.
  rewrite Hg, Hown, Hid.
  match goal with |- context [decryptLocal groupId state msg ?k m] =>
    destruct (decryptLocal_resume groupId state msg k m m' Hh Ha) as [Hw Hres] end.
  split; [exact Hw|]. rewrite Hres. cbn beta zeta. cbn [complete].
  rewrite (pushMessage_here _ _ _ _ Hg').
  eexists. split.
  - destruct conn as [conn|]; [destruct (Conn.open conn)|];
      destruct (GroupMessage.type (localCopy C state msg));
      unfold emit, setMessages; cbn [Mgr.groups Mgr.set_groups Mgr.set_effects];
      apply lookup_insert_eq.
  - cbn. now rewrite <- app_assoc.
Qed.

(** *** The backfill at a member, with its awaits *)

Lemma backfillLoop_added state msgs :
  forall acc, snd (backfillLoop C state msgs acc true) = true.
Proof.
  induction msgs as [|x rest IH]; intros acc; [reflexivity|]. cbn [backfillLoop].
  destruct (hasId (GroupMessage.id x) acc); apply IH.
Qed.

Lemma backfillLoop_extends state msgs :
  forall acc added, exists more, fst (backfillLoop C state msgs acc added) = acc ++ more.
Proof.
  induction msgs as [|x rest IH]; intros acc added; cbn [backfillLoop].
  - exists []. now rewrite app_nil_r.
  - destruct (hasId (GroupMessage.id x) acc); [apply IH|].
    destruct (IH (acc ++ [localCopy C state x]) true) as [more ->].
    exists (localCopy C state x :: more). now rewrite <- app_assoc.
Qed.

(** The manager [m] with the messages of the group replaced. *)
Lemma setMessages_twice groupId state l l' m :
  setMessages groupId (GroupNSState.set_messages l state) l' (setMessages groupId state l m)
  = setMessages groupId state l' m.
Proof.
  unfold setMessages. cbn [Mgr.groups Mgr.set_groups]. rewrite insert_insert_eq.
  reflexivity.
Qed.

Lemma setMessages_same groupId state m :
  Mgr.groups m !! groupId = Some state ->
  setMessages groupId state (GroupNSState.messages state) m = m.
Proof.
  intros H. unfold setMessages.
  replace (GroupNSState.set_messages (GroupNSState.messages state) state) with state
    by (now destruct state).
  rewrite insert_id by exact H. now destruct m.
Qed.

(** The loop of the backfill handler, run through from a point where the
    group holds the messages [acc]: it does what [backfillLoop] computes. *)
Lemma backfillFrom_complete groupId state0 m msgs :
  forall acc added held,
    complete C (backfillFrom groupId held msgs added (setMessages groupId state0 acc m))
    = (if snd (backfillLoop C state0 msgs acc added)
       then emit GroupEmit
              (emit (SaveGroupMessages groupId)
                 (setMessages groupId state0
                    (sortByTs (fst (backfillLoop C state0 msgs acc added))) m))
       else setMessages groupId state0 acc m).
Proof.
  assert (Hcur : forall acc held,
            current groupId held (setMessages groupId state0 acc m)
            = GroupNSState.set_messages acc state0).
  { intros acc held. apply current_here. unfold setMessages. cbn. apply lookup_insert_eq. }
  induction msgs as [|msg rest IH]; intros acc added held.
  - cbn [backfillFrom complete backfillLoop fst snd]. destruct added; [|reflexivity].
    unfold sortMessages.
    replace (Mgr.groups (setMessages groupId state0 acc m) !! groupId)
      with (Some (GroupNSState.set_messages acc state0))
      by (unfold setMessages; cbn; now rewrite lookup_insert_eq).
    cbn [GroupNSState.messages GroupNSState.set_messages].
    now rewrite setMessages_twice.
  - cbn [backfillFrom backfillLoop]. rewrite Hcur.
    cbn [GroupNSState.messages GroupNSState.set_messages].
    destruct (hasId (GroupMessage.id msg) acc) eqn:Hid; [apply IH|].
    rewrite decryptLocal_complete by (now rewrite Hcur).
    change (localCopy C (GroupNSState.set_messages acc state0) msg)
      with (localCopy C state0 msg).
    cbn beta zeta. rewrite Hcur.
    cbn [GroupNSState.messages GroupNSState.set_messages].
    rewrite (pushMessage_here groupId _ _ (GroupNSState.set_messages acc state0))
      by (unfold setMessages; cbn; apply lookup_insert_eq).
    cbn [GroupNSState.messages GroupNSState.set_messages].
    rewrite setMessages_twice, IH, backfillLoop_added. reflexivity.
Qed.

(** The member's handler of a ['group-backfill'], run through. *)
Lemma member_backfill_complete groupId msgs m :
  complete C (GroupAwait.groupHandleMemberData_backfill groupId msgs m)
  = GroupSync.groupHandleMemberData_backfill C groupId msgs m.
Proof.
  unfold GroupAwait.groupHandleMemberData_backfill, GroupSync.groupHandleMemberData_backfill.
  destruct (Mgr.groups m !! groupId) as [state|] eqn:Hg; [|reflexivity].
  rewrite <- (setMessages_same groupId state m Hg) at 1.
  rewrite backfillFrom_complete.
  destruct (backfillLoop C state msgs (GroupNSState.messages state) false) as [acc added].
  cbn [fst snd]. destruct added; [reflexivity | apply setMessages_same, Hg].
Qed.

(** X21. The ['group-backfill'] handler of a member merges a batch into
    the stored history by id, provided it runs through before another
    delivery for the group is handled: afterwards the stored ids are those
    stored before and those of the batch, ids that were unique stay unique,
    and if the batch brought a new id the history is in timestamp order; a
    batch that brings no new id changes nothing, so handling the same batch
    again afterwards is a no-op.  The handler gives way at the first
    message that is new and encrypted, and a second delivery of the batch
    handled in the meantime passes the same test of the id: once both
    handlers have resumed, that id is stored twice. *)
Theorem backfill_merges_by_id (groupId : string) (msgs : list GroupMessage.t)
    (m : Mgr.t) (state : GroupNSState.t) :
  Mgr.groups m !! groupId = Some state ->
  let handler := GroupAwait.groupHandleMemberData_backfill groupId msgs in
  let m' := complete C (handler m) in
  let old := GroupNSState.messages state in
  m' = GroupSync.groupHandleMemberData_backfill C groupId msgs m /\
  (exists state',
     Mgr.groups m' !! groupId = Some state' /\
     (forall id, In id (ids (GroupNSState.messages state')) <->
                 In id (ids old) \/ In id (ids msgs)) /\
     (NoDup (ids old) -> NoDup (ids (GroupNSState.messages state'))) /\
     ((exists msg, In msg msgs /\ ~ In (GroupMessage.id msg) (ids old)) ->
      sortedTs (GroupNSState.messages state'))) /\
  ((forall msg, In msg msgs -> In (GroupMessage.id msg) (ids old)) -> m' = m) /\
  complete C (handler m') = m' /\
  (forall msg rest,
     msgs = msg :: rest -> ~ In (GroupMessage.id msg) (ids old) ->
     awaitsDecrypt state msg = true ->
     (exists key iv ct continue, handler m = Await m key iv ct continue) /\
     exists state2,
       Mgr.groups (complete C (resume C (handler m) m')) !! groupId = Some state2 /\
       ~ NoDup (ids (GroupNSState.messages state2))).
Proof.
  intros Hg handler m' old.
  assert (Hm' : m' = GroupSync.groupHandleMemberData_backfill C groupId msgs m)
    by apply member_backfill_complete.
  split; [exact Hm'|].
  destruct (backfillLoop_spec C state msgs old false) as (A & B & D & E & F). cbn zeta in *.
  destruct (groupHandleMemberData_backfill_state C groupId msgs m state Hg) as [[Hs Hm]|[Hs Hm]];
    cbn zeta in Hs, Hm; rewrite <- Hm' in Hm; fold old in Hs, Hm.
  - (* nothing was added *)
    specialize (F Hs). rewrite F in A.
    split; [|split; [auto|split]].
    + exists state. rewrite Hm. split; [exact Hg|]. split; [exact A|]. split; [auto|].
      intros H. specialize (E H). congruence.
    + subst handler. cbn beta. rewrite member_backfill_complete, Hm. now rewrite <- Hm', Hm.
    + intros msg rest -> Hnew _. exfalso. rewrite E in Hs; [discriminate|].
      exists msg. split; [now left | exact Hnew].
  - set (state' := GroupNSState.set_messages
                     (sortByTs (fst (backfillLoop C state msgs old false))) state) in *.
    assert (P : ids (GroupNSState.messages state')
                ≡ₚ ids (fst (backfillLoop C state msgs old false))).
    { apply ids_perm. cbn. apply group_sortByTs_perm. }
    assert (Hin : forall id, In id (ids (GroupNSState.messages state')) <->
                             In id (ids old) \/ In id (ids msgs)).
    { intros id. rewrite <- A. split; apply Permutation_in; [exact P | now symmetry]. }
    split; [|split; [|split]].
    + exists state'. split; [exact Hm|]. split; [exact Hin|]. split.
      * intros Hnd. rewrite P. now apply B.
      * intros _. cbn. apply group_sortByTs_sorted.
    + intros H. rewrite (D H) in Hs. discriminate.
    + subst handler. cbn beta. rewrite member_backfill_complete.
      destruct (groupHandleMemberData_backfill_state C groupId msgs m' state' Hm)
        as [[_ E2]|[Hs2 _]]; [exact E2|]. cbn zeta in Hs2. exfalso.
      destruct (backfillLoop_spec C state' msgs (GroupNSState.messages state') false)
        as (_ & _ & D2 & _). cbn zeta in D2.
      rewrite D2 in Hs2; [discriminate|].
      intros msg Hmsg. apply Hin. right. unfold ids. now apply in_map.
    + intros msg rest Hmsgs Hnew Ha.
      assert (Hid : hasId (GroupMessage.id msg) old = false).
      { destruct (hasId (GroupMessage.id msg) old) eqn:Ei; [|reflexivity].
        apply hasId_In in Ei. contradiction. }
      assert (Hh : GroupNSState.groupKeyHistory (current groupId state m')
                   = GroupNSState.groupKeyHistory state)
        by (now rewrite (current_here _ _ _ _ Hm)).
      subst handler. cbn beta. unfold GroupAwait.groupHandleMemberData_backfill.
      rewrite Hg, Hmsgs. cbn [backfillFrom].
      rewrite (current_here _ _ _ _ Hg). fold old. rewrite Hid.
      match goal with |- context [decryptLocal groupId state msg ?k m] =>
        destruct (decryptLocal_resume groupId state msg k m m' Hh Ha) as [Hw Hres] end.
      split; [exact Hw|]. rewrite Hres. cbn beta zeta.
      rewrite (current_here _ _ _ _ Hm).
      rewrite (pushMessage_here _ _ _ _ Hm).
      rewrite backfillFrom_complete, backfillLoop_added.
      eexists. split.
      { rewrite !groups_emit. unfold setMessages. cbn [Mgr.groups Mgr.set_groups].
        apply lookup_insert_eq. }
      cbn [GroupNSState.messages GroupNSState.set_messages].
      destruct (backfillLoop_extends state' rest
                  (GroupNSState.messages state' ++ [localCopy C state msg]) true)
        as [more ->].
      intros Hnd.
      assert (P2 : ids (sortByTs ((GroupNSState.messages state' ++ [localCopy C state msg])
                                  ++ more))
                   ≡ₚ ids ((GroupNSState.messages state' ++ [localCopy C state msg]) ++ more))
        by (apply ids_perm, group_sortByTs_perm).
      rewrite P2 in Hnd. unfold ids in Hnd. rewrite !List.map_app in Hnd.
      apply NoDup_app in Hnd. destruct Hnd as (Hnd & _).
      apply NoDup_app in Hnd. destruct Hnd as (_ & Hdisj & _).
      apply (Hdisj (GroupMessage.id msg)).
      * apply list_elem_of_In. apply Hin. right. rewrite Hmsgs. now left.
      * cbn [List.map]. rewrite localCopy_id. now left.
Qed.

End GroupAwaitFacts.

Lemma router_stores_once_and_relays_witness :
  let handler := GroupAwait.groupHandleRouterData_message "g1" GroupAwait.sealedMsg in
  let m' := GroupAwait.complete testCrypto (handler GroupSync.busyRouterMgr) in
  let copy := GroupMessage.set_content "plain(ct(four))" GroupAwait.sealedMsg in
  Mgr.groups GroupSync.busyRouterMgr !! "g1"%string = Some GroupSync.busyRouterState /\
  GroupNSState.isRouter GroupSync.busyRouterState = true /\
  GroupAwait.awaitsDecrypt GroupSync.busyRouterState GroupAwait.sealedMsg = true /\
  GroupSync.relays (Mgr.effects m')
  = [(11%nat, GroupAwait.sealedMsg); (12%nat, GroupAwait.sealedMsg)] /\
  exists state2,
    Mgr.groups (GroupAwait.complete testCrypto
                  (GroupAwait.resume testCrypto (handler GroupSync.busyRouterMgr) m'))
      !! "g1"%string = Some state2 /\
    GroupNSState.messages state2 = [groupMsg "a" "fp-bob" "one" 10; copy; copy].
Proof.
  cbn zeta.
  destruct (router_stores_once_and_relays testCrypto "g1" GroupAwait.sealedMsg
              GroupSync.busyRouterMgr GroupSync.busyRouterState)
    as (_ & _ & Hrel & Htwice); [vm_compute; reflexivity | reflexivity |].
  split; [vm_compute; reflexivity|]. split; [reflexivity|]. split; [reflexivity|].
  split; [exact Hrel|].
  destruct (Htwice eq_refl eq_refl) as (_ & (state2 & Hg2 & Hm2) & _).
  exists state2. split; [exact Hg2|]. rewrite Hm2. reflexivity.
Defined.

Lemma backfill_merges_by_id_witness :
  let batch := [GroupAwait.sealedMsg; groupMsg "a" "fp-bob" "one" 10] in
  let handler := GroupAwait.groupHandleMemberData_backfill "g1" batch in
  let m' := GroupAwait.complete testCrypto (handler memberMgr) in
  Mgr.groups memberMgr !! "g1"%string = Some memberState /\
  GroupAwait.awaitsDecrypt memberState GroupAwait.sealedMsg = true /\
  GroupAwait.complete testCrypto (handler m') = m' /\
  exists state2,
    Mgr.groups (GroupAwait.complete testCrypto (GroupAwait.resume testCrypto (handler memberMgr) m'))
      !! "g1"%string = Some state2 /\
    ~ NoDup (GroupSync.ids (GroupNSState.messages state2)).
Proof.
  cbn zeta.
  destruct (backfill_merges_by_id testCrypto "g1"
              [GroupAwait.sealedMsg; groupMsg "a" "fp-bob" "one" 10]
              memberMgr memberState) as (_ & _ & _ & Hidem & Hrace); [vm_compute; reflexivity|].
  split; [vm_compute; reflexivity|]. split; [reflexivity|]. split; [exact Hidem|].
  destruct (Hrace GroupAwait.sealedMsg [groupMsg "a" "fp-bob" "one" 10] eq_refl)
    as (_ & state2 & Hg2 & Hdup); [intros [] | reflexivity |].
  exists state2. split; [exact Hg2 | exact Hdup].
Defined.

Lemma backfill_reaches_member_witness :
  let conn := Conn.mk 5 "pid-bob" true in
  let missed := [groupMsg "b" "fp-bob" "two" 20; groupMsg "c" "fp-carol" "three" 30] in
  Mgr.groups routerMgr !! "g1"%string = Some routerState /\
  Conn.open conn = true /\
  Mgr.groups memberMgr !! "g1"%string = Some memberState /\
  In (Send (Conn.cid conn) (W_group_backfill missed))
     (Mgr.effects (Group.groupBackfill "g1" conn 15 routerMgr)) /\
  ~ In (Send (Conn.cid conn) (W_group_backfill missed)) (Mgr.effects routerMgr) /\
  exists sM',
    Mgr.groups (GroupSync.groupHandleMemberData_backfill testCrypto "g1" missed memberMgr)
      !! "g1"%string = Some sM' /\
    In "c"%string (GroupSync.ids (GroupNSState.messages sM')).
Proof.
  cbn zeta.
  assert (HR : Mgr.groups routerMgr !! "g1"%string = Some routerState)
    by (vm_compute; reflexivity).
  assert (HM : Mgr.groups memberMgr !! "g1"%string = Some memberState)
    by (vm_compute; reflexivity).
  assert (Hsent : In (Send 5 (W_group_backfill
                     [groupMsg "b" "fp-bob" "two" 20; groupMsg "c" "fp-carol" "three" 30]))
                     (Mgr.effects (Group.groupBackfill "g1" (Conn.mk 5 "pid-bob" true) 15
                                                       routerMgr))).
  { vm_compute. now left. }
  assert (Hnew : ~ In (Send 5 (W_group_backfill
                      [groupMsg "b" "fp-bob" "two" 20; groupMsg "c" "fp-carol" "three" 30]))
                      (Mgr.effects routerMgr)).
  { intros []. }
  split; [exact HR|]. split; [reflexivity|]. split; [exact HM|].
  split; [exact Hsent|]. split; [exact Hnew|].
  destruct (backfill_reaches_member testCrypto "g1" (Conn.mk 5 "pid-bob" true) 15
              routerMgr memberMgr routerState memberState HR eq_refl HM _ Hsent Hnew)
    as (sM' & Hg & Hin & _).
  exists sM'. split; [exact Hg|].
  apply (Hin (groupMsg "c" "fp-carol" "three" 30)); [right; right; now left | reflexivity].
Defined.

(** ** The registry a router keeps and announces *)

Section RouterFacts.
Import Router.
Context (extractDiscUUID : string -> string).

Lemma jsobj_keys_set {V} (k : string) (v : V) (o : JsObj.t V) :
  JsObj.keys (JsObj.set k v o)
  = if existsb (String.eqb k) (JsObj.keys o) then JsObj.keys o else JsObj.keys o ++ [k].
Proof.
  unfold JsObj.keys. induction o as [|[k0 v0] o IH]; [reflexivity|]. cbn.
  destruct (String.eqb_spec k k0) as [->|Hne]; cbn; [reflexivity|].
  rewrite IH. now destruct (existsb _ _).
Qed.

Lemma distinctKeys_set k v o : distinctKeys o -> distinctKeys (JsObj.set k v o).
Proof.
  unfold distinctKeys. rewrite jsobj_keys_set. intros H.
  destruct (existsb (String.eqb k) (JsObj.keys o)) eqn:E; [exact H|].
  apply NoDup_app. split; [exact H|]. split; [|apply NoDup_singleton].
  intros x Hx Hx'. apply list_elem_of_In in Hx'. destruct Hx' as [<-|[]].
  apply list_elem_of_In, existsb_eqb_In in Hx. congruence.
Qed.

Lemma distinctKeys_del k (o : JsObj.t PeerInfo.t) : distinctKeys o -> distinctKeys (JsObj.del k o).
Proof.
  unfold distinctKeys, JsObj.del, JsObj.keys. induction o as [|[k0 v0] o IH]; [auto|].
  cbn. intros H. apply NoDup_cons in H. destruct H as [Hk H].
  destruct (negb (String.eqb k k0)); cbn; [|now apply IH].
  apply NoDup_cons. split; [|now apply IH].
  intros Hin. apply Hk. apply list_elem_of_In in Hin. apply list_elem_of_In.
  apply in_map_iff in Hin. destruct Hin as (x & E & Hx). apply List.filter_In in Hx.
  apply in_map_iff. exists x. tauto.
Qed.

Lemma distinctKeys_functional (o : JsObj.t PeerInfo.t) k v v' :
  distinctKeys o -> In (k, v) o -> In (k, v') o -> v = v'.
Proof.
  unfold distinctKeys, JsObj.keys. induction o as [|[k0 v0] o IH]; [intros _ []|].
  cbn. intros H. apply NoDup_cons in H. destruct H as [Hk H].
  assert (Hno : forall x, In (k0, x) o -> False).
  { intros x Hx. apply Hk, list_elem_of_In, in_map_iff. exists (k0, x). auto. }
  intros [E1|H1] [E2|H2].
  - congruence.
  - injection E1 as -> ->. destruct (Hno _ H2).
  - injection E2 as -> ->. destruct (Hno _ H1).
  - now apply IH.
Qed.

Lemma distinctKeys_get (o : JsObj.t PeerInfo.t) k v :
  distinctKeys o -> In (k, v) o -> JsObj.get k o = Some v.
Proof.
  intros Hd Hin. destruct (JsObj.get k o) as [v'|] eqn:E.
  - apply jsobj_get_In in E. f_equal. now apply (distinctKeys_functional o k).
  - exfalso. clear Hd. induction o as [|[k0 v0] o IH]; [destruct Hin|]. cbn in E.
    destruct (String.eqb_spec k k0) as [->|Hne]; [discriminate|].
    destruct Hin as [[= -> ->]|Hin]; [contradiction | now apply IH].
Qed.

Lemma jsobj_In_del_ne {V} (k k' : string) (v : V) (o : JsObj.t V) :
  In (k', v) (JsObj.del k o) -> k' <> k.
Proof.
  unfold JsObj.del. rewrite filter_In. cbn. intros [_ H] ->.
  now rewrite String.eqb_refl in H.
Qed.

Lemma jsobj_In_update {V} (k k' : string) (f : V -> V) (v' : V) (o : JsObj.t V) :
  In (k', v') (JsObj.update k f o) ->
  In (k', v') o \/ exists v, In (k', v) o /\ v' = f v.
Proof.
  unfold JsObj.update. destruct (JsObj.get k o) as [v|] eqn:E; [|auto].
  intros H. apply jsobj_In_set in H. destruct H as [[= -> ->]|H]; [|auto].
  right. exists v. split; [now apply jsobj_get_In | reflexivity].
Qed.

Lemma jsobj_keys_update {V} (k : string) (f : V -> V) (o : JsObj.t V) :
  JsObj.keys (JsObj.update k f o) = JsObj.keys o.
Proof.
  unfold JsObj.update. destruct (JsObj.get k o) as [v|] eqn:E; [|reflexivity].
  rewrite jsobj_keys_set.
  assert (H : existsb (String.eqb k) (JsObj.keys o) = true).
  { apply existsb_eqb_In. apply jsobj_get_In in E. unfold JsObj.keys.
    apply in_map_iff. exists (k, v). auto. }
  now rewrite H.
Qed.

Lemma wf_del k o : wf o -> wf (JsObj.del k o).
Proof.
  intros (A & B & D). split; [now apply distinctKeys_del|]. split.
  - intros k' r H. apply (jsobj_In_del extractDiscUUID) in H. exact (B _ _ H).
  - intros k1 r1 k2 r2 H1 H2. apply (jsobj_In_del extractDiscUUID) in H1. apply (jsobj_In_del extractDiscUUID) in H2.
    exact (D _ _ _ _ H1 H2).
Qed.

Lemma wf_touch now k o : wf o -> wf (JsObj.update k (touch now) o).
Proof.
  intros (A & B & D). split; [|split].
  - unfold distinctKeys. now rewrite jsobj_keys_update.
  - intros k' r H. apply jsobj_In_update in H.
    destruct H as [H|(v & H & _)]; exact (B _ _ H).
  - intros k1 r1 k2 r2 H1 H2 T E.
    apply jsobj_In_update in H1. apply jsobj_In_update in H2.
    destruct H1 as [H1|(v1 & H1 & ->)]; destruct H2 as [H2|(v2 & H2 & ->)];
      cbn [touch PeerInfo.publicKey] in *; exact (D _ _ _ _ H1 H2 T E).
Qed.

(** The stale key of a check-in is a key other than the peer's own whose
    entry carries the peer's public key; when there is none, no such entry
    exists. *)
Lemma router_findStaleKey_spec d o :
  match findStaleKey d o with
  | Some k => exists r, In (k, r) o /\ k <> RegistryPeer.discoveryID d /\
                        PeerInfo.publicKey r = RegistryPeer.publicKey d /\
                        Js.truthy (PeerInfo.publicKey r) = true
  | None => forall k r, In (k, r) o -> k <> RegistryPeer.discoveryID d ->
                        Js.truthy (PeerInfo.publicKey r) = true ->
                        PeerInfo.publicKey r <> RegistryPeer.publicKey d
  end.
Proof.
  unfold findStaleKey.
  destruct (List.find _ o) as [[k r]|] eqn:E; cbn [fmap option_fmap option_map fst].
  - apply find_some in E. destruct E as [Hin E]. cbn [fst snd] in E.
    apply andb_prop in E. destruct E as [E E3]. apply andb_prop in E. destruct E as [E1 E2].
    exists r. split; [exact Hin|]. split.
    + intros ->. now rewrite String.eqb_refl in E1.
    + split; [now apply bool_decide_eq_true_1 in E3 | exact E2].
  - intros k r Hin Hne T Heq. pose proof (find_none _ _ E (k, r) Hin) as F.
    cbn [fst snd] in F. rewrite T, (bool_decide_eq_true_2 _ Heq) in F.
    destruct (String.eqb_spec k (RegistryPeer.discoveryID d)); [contradiction | discriminate].
Qed.

Lemma orNone_eq s : Js.truthy (NS.orNone s) = true -> NS.orNone s = s.
Proof. unfold NS.orNone. destruct (Js.truthy s); [reflexivity | discriminate]. Qed.

Lemma broadcasts_app a b : broadcasts (a ++ b) = broadcasts a ++ broadcasts b.
Proof. unfold broadcasts. apply omap_app. Qed.

(** [nsBroadcast] changes neither the registry nor the manager, and sends
    the peers of the registry to its audience. *)
Lemma nsBroadcast_spec s :
  registry (nsBroadcast s) = registry s /\ mgr (nsBroadcast s) = mgr s /\
  sent (nsBroadcast s)
  = sent s ++ List.map (fun c => (c, R_registry (peersOf (registry s)))) (audience (registry s)).
Proof.
  unfold nsBroadcast, audience. generalize (peersOf (registry s)) as peers. intros peers.
  generalize (JsObj.values (registry s)) as rs. intros rs. revert s.
  induction rs as [|r rs IH]; intros s.
  - cbn. now rewrite app_nil_r.
  - cbn [fold_left]. simpl (omap _ (r :: rs)).
    destruct (PeerInfo.conn r) as [conn|]; [|apply IH].
    destruct (PeerInfo.isMe r); [apply IH|].
    destruct (IH (send (Conn.cid conn) (R_registry peers) s)) as (A & B & D).
    rewrite A, B, D. cbn [send registry mgr sent List.map]. rewrite <- app_assoc. auto.
Qed.

Lemma peersOf_distinct reg : wf reg -> NS.distinctPeers (peersOf reg).
Proof.
  intros (A & _ & D). unfold peersOf. split.
  - intros p q Hp Hq E. apply in_map_iff in Hp. apply in_map_iff in Hq.
    destruct Hp as ([k1 r1] & <- & H1). destruct Hq as ([k2 r2] & <- & H2).
    cbn [fst snd RegistryPeer.discoveryID] in *. subst k2.
    now rewrite (distinctKeys_functional reg k1 r1 r2 A H1 H2).
  - intros p q Hp Hq T E. apply in_map_iff in Hp. apply in_map_iff in Hq.
    destruct Hp as ([k1 r1] & <- & H1). destruct Hq as ([k2 r2] & <- & H2).
    cbn [fst snd RegistryPeer.discoveryID RegistryPeer.publicKey] in *.
    exact (D _ _ _ _ H1 H2 T E).
Qed.

Lemma broadcast_distinct reg (l : list nat) :
  wf reg ->
  Forall (fun b : nat * list RegistryPeer.t => NS.distinctPeers (snd b))
         (broadcasts (List.map (fun c => (c, R_registry (peersOf reg))) l)).
Proof.
  intros Hwf. induction l as [|c l IH]; [constructor|].
  change (Forall (fun b => NS.distinctPeers (snd b))
            ((c, peersOf reg)
             :: broadcasts (List.map (fun c => (c, R_registry (peersOf reg))) l))).
  constructor; [now apply peersOf_distinct | exact IH].
Qed.

Lemma announcedWell_nsBroadcast s : announcedWell s -> announcedWell (nsBroadcast s).
Proof.
  intros [Hwf Hb]. destruct (nsBroadcast_spec s) as (A & _ & D).
  split; [now rewrite A|]. rewrite D, broadcasts_app. apply Forall_app. split; [exact Hb|].
  now apply broadcast_distinct.
Qed.

Lemma announcedWell_frame s s' :
  wf (registry s') -> broadcasts (sent s') = broadcasts (sent s) ->
  announcedWell s -> announcedWell s'.
Proof. intros Hwf E [_ Hb]. split; [exact Hwf | now rewrite E]. Qed.

(** The registry a check-in builds. *)
Lemma handleCheckin_shape now canConnect connecting d conn s :
  let s' := handleCheckin extractDiscUUID now canConnect connecting d conn s in
  exists reg1 knownPID,
    registry s'
    = JsObj.set (RegistryPeer.discoveryID d)
        (PeerInfo.mk (RegistryPeer.discoveryID d) (RegistryPeer.friendlyname d) now false
                     (Some conn) knownPID (NS.orNone (RegistryPeer.publicKey d))) reg1 /\
    sent s' = sent s ++ List.map (fun c => (c, R_registry (peersOf (registry s'))))
                                 (audience (registry s')) /\
    ((Js.truthy (RegistryPeer.publicKey d) = false /\ reg1 = registry s) \/
     (NS.orNone (findStaleKey d (registry s)) = None /\ reg1 = registry s) \/
     (exists k, findStaleKey d (registry s) = Some k /\ reg1 = JsObj.del k (registry s))).
Proof.
  cbn zeta. unfold handleCheckin.
  set (s1 := if Js.truthy (RegistryPeer.publicKey d) then _ else s).
  assert (H1 : sent s1 = sent s /\
               ((Js.truthy (RegistryPeer.publicKey d) = false /\ registry s1 = registry s) \/
                (NS.orNone (findStaleKey d (registry s)) = None /\ registry s1 = registry s) \/
                (exists k, findStaleKey d (registry s) = Some k /\
                           registry s1 = JsObj.del k (registry s)))).
  { subst s1. destruct (Js.truthy (RegistryPeer.publicKey d)); [|auto].
    destruct (NS.orNone (findStaleKey d (registry s))) as [k|] eqn:E; [|auto].
    split; [reflexivity|]. right. right. exists k. split; [|reflexivity].
    unfold NS.orNone in E. destruct (Js.truthy _); [exact E | discriminate]. }
  destruct H1 as [Hsent Hreg].
  set (knownPID := NS.orNone (NS.findKnownPID extractDiscUUID d (Mgr.contacts (mgr s1)))).
  set (s2 := match knownPID with Some k => _ | None => s1 end).
  assert (H2 : sent s2 = sent s1 /\ registry s2 = registry s1).
  { subst s2. destruct knownPID; auto. }
  destruct H2 as [Hsent2 Hreg2].
  set (s3 := set_registry _ s2).
  destruct (nsBroadcast_spec (effect (Log "peer-checked-in") s3)) as (A & _ & D).
  exists (registry s1), knownPID.
  cbn [effect set_mgr registry sent mgr] in *.
  rewrite A, D. subst s3. cbn [set_registry registry sent]. rewrite Hreg2, Hsent2, Hsent.
  split; [reflexivity|]. split; [reflexivity|]. exact Hreg.
Qed.

Lemma handleCheckin_wf now canConnect connecting d conn s :
  RegistryPeer.discoveryID d <> EmptyString -> wf (registry s) ->
  wf (registry (handleCheckin extractDiscUUID now canConnect connecting d conn s)).
Proof.
  intros Hd Hwf.
  destruct (handleCheckin_shape now canConnect connecting d conn s)
    as (reg1 & knownPID & -> & _ & Hreg1).
  set (D := RegistryPeer.discoveryID d) in *.
  set (entry := PeerInfo.mk D _ _ _ _ _ _).
  assert (Hwf1 : wf reg1).
  { destruct Hreg1 as [[_ ->]|[[_ ->]|(k & _ & ->)]]; [exact Hwf | exact Hwf | now apply wf_del]. }
  assert (Hfresh : forall k r, In (k, r) reg1 -> k <> D ->
                     Js.truthy (PeerInfo.publicKey r) = true ->
                     PeerInfo.publicKey r = PeerInfo.publicKey entry -> False).
  { intros k r Hin Hne T E. cbn [entry PeerInfo.publicKey] in E.
    assert (Td : Js.truthy (RegistryPeer.publicKey d) = true).
    { rewrite <- orNone_truthy, <- E. exact T. }
    rewrite orNone_eq in E by (now rewrite orNone_truthy).
    destruct Hwf as (A & B & O).
    pose proof (router_findStaleKey_spec d (registry s)) as Hs.
    destruct Hreg1 as [[F _]|[[F ->]|(k0 & F & ->)]].
    - congruence.
    - destruct (findStaleKey d (registry s)) as [k0|] eqn:E0.
      + destruct Hs as (r0 & Hin0 & _). unfold NS.orNone in F.
        destruct (Js.truthy (Some k0)) eqn:T0; [discriminate|].
        apply (B _ _ Hin0). cbn in T0.
        destruct (String.eqb_spec k0 EmptyString); [assumption | discriminate].
      + exact (Hs k r Hin Hne T E).
    - rewrite F in Hs. destruct Hs as (r0 & Hin0 & _ & E0 & _).
      pose proof (jsobj_In_del_ne _ _ _ _ Hin) as Hk.
      apply (jsobj_In_del extractDiscUUID) in Hin. apply Hk.
      apply (O _ _ _ _ Hin Hin0 T). congruence. }
  destruct Hwf1 as (A & B & O). split; [now apply distinctKeys_set|]. split.
  - intros k r H. apply jsobj_In_set in H. destruct H as [[= -> _]|H]; [exact Hd | exact (B _ _ H)].
  - intros k1 r1 k2 r2 H1 H2 T E.
    apply jsobj_In_set in H1. apply jsobj_In_set in H2.
    destruct H1 as [[= -> ->]|H1]; destruct H2 as [[= -> ->]|H2].
    + reflexivity.
    + destruct (String.eqb_spec k2 D) as [->|Hne]; [reflexivity|].
      exfalso. apply (Hfresh k2 r2 H2 Hne); [now rewrite <- E | now symmetry].
    + destruct (String.eqb_spec k1 D) as [->|Hne]; [reflexivity|].
      exfalso. exact (Hfresh k1 r1 H1 Hne T E).
    + exact (O _ _ _ _ H1 H2 T E).
Qed.

Lemma announcedWell_handle e s :
  named e -> announcedWell s -> announcedWell (handle extractDiscUUID s e).
Proof.
  intros Hn Hs. destruct e as [now cc cing d conn|now conn|conn|now]; cbn [handle named] in *.
  - (* check-in *)
    destruct (handleCheckin_shape now cc cing d conn s) as (reg1 & kp & _ & Hsent & _).
    cbn zeta in Hsent. destruct Hs as [Hwf Hb].
    pose proof (handleCheckin_wf now cc cing d conn s Hn Hwf) as Hwf'.
    split; [exact Hwf'|]. rewrite Hsent, broadcasts_app. apply Forall_app. split; [exact Hb|].
    now apply broadcast_distinct.
  - (* pong *)
    unfold handlePong. destruct (NS.orNone _) as [key|]; [|exact Hs].
    apply (announcedWell_frame s); [|reflexivity | exact Hs].
    apply wf_touch, Hs.
  - (* close *)
    unfold handleClose. destruct (NS.orNone _) as [key|]; [|exact Hs].
    assert (H : announcedWell (nsBroadcast (set_registry (JsObj.del key (registry s)) s))).
    { apply announcedWell_nsBroadcast. apply (announcedWell_frame s); [|reflexivity | exact Hs].
      apply wf_del, Hs. }
    exact H.
  - (* ping timer *)
    unfold pingTick. generalize (JsObj.keys (registry s)) as keys. intros keys.
    revert s Hs. induction keys as [|did keys IH]; intros s Hs; [exact Hs|].
    cbn [fold_left]. apply IH. unfold pingPeer.
    destruct (JsObj.get did (registry s)) as [r|]; [|exact Hs].
    destruct (PeerInfo.isMe r); [exact Hs|].
    set (s1 := match PeerInfo.conn r with Some conn => _ | None => s end).
    assert (H1 : announcedWell s1 /\ registry s1 = registry s).
    { subst s1. destruct (PeerInfo.conn r) as [conn|]; [|auto]. split; [|reflexivity].
      apply (announcedWell_frame s); [apply Hs | | exact Hs].
      cbn [send sent]. rewrite broadcasts_app. cbn. apply app_nil_r. }
    destruct H1 as [Hs1 Hr1].
    destruct (_ <? _); [|exact Hs1].
    assert (H : announcedWell (nsBroadcast (set_registry (JsObj.del did (registry s1))
                                              (effect (Log "peer-timed-out") s1)))).
    { apply announcedWell_nsBroadcast. apply (announcedWell_frame s1); [|reflexivity | exact Hs1].
      apply wf_del, Hs1. }
    exact H.
Qed.

Lemma announcedWell_run es :
  forall s, Forall named es -> announcedWell s -> announcedWell (run extractDiscUUID es s).
Proof.
  induction es as [|e es IH]; intros s Hn Hs; [exact Hs|].
  inversion Hn as [|? ? He Hes]; subst. cbn [run fold_left]. apply IH; [exact Hes|].
  now apply announcedWell_handle.
Qed.

(** X23. A router keeps one registry entry per discovery id and per public
    key: from a registry of which this holds, through any check-ins (each
    with a discovery id), pongs, closes and ping-timer turns, it holds again,
    and every ['registry'] broadcast sent on the way lists each discovery id
    once and each public key under one discovery id. *)
Theorem router_registry_invariant (es : list Event) (s : t) :
  wf (registry s) -> sent s = [] -> Forall named es ->
  let s' := run extractDiscUUID es s in
  wf (registry s') /\
  forall c peers, In (c, R_registry peers) (sent s') -> NS.distinctPeers peers.
Proof.
  intros Hwf Hsent Hn.
  assert (Hs : announcedWell s).
  { split; [exact Hwf|]. rewrite Hsent. constructor. }
  destruct (announcedWell_run es s Hn Hs) as [Hwf' Hb]. split; [exact Hwf'|].
  intros c peers Hin. rewrite Forall_forall in Hb.
  apply (Hb (c, peers)). unfold broadcasts.
  apply list_elem_of_omap. exists (c, R_registry peers).
  split; [now apply list_elem_of_In | reflexivity].
Qed.

Lemma audience_In (reg : JsObj.t PeerInfo.t) k r conn :
  In (k, r) reg -> PeerInfo.conn r = Some conn -> PeerInfo.isMe r = false ->
  In (Conn.cid conn) (audience reg).
Proof.
  intros Hin Hc Hme. unfold audience. apply list_elem_of_In, list_elem_of_omap.
  exists r. split.
  - apply list_elem_of_In. unfold JsObj.values. apply in_map_iff. exists (k, r). auto.
  - now rewrite Hc, Hme.
Qed.

(** X24. A check-in registers the peer and announces it: afterwards the
    registry holds, under the peer's discovery id, an entry with the
    connection the check-in came on, [lastSeen] now and the peer's name and
    public key; one ['registry'] message listing the keys of the new
    registry, the peer among them, has gone to every connected entry other
    than the self-entry, the peer's own connection among them; and every
    other entry of a registry with distinct keys is either kept as it was
    or, carrying the peer's public key, removed as stale. *)
Theorem checkin_registers_and_announces (now : Z) (canConnect : bool)
    (connecting : list string) (d : RegistryPeer.t) (conn : Conn.t) (s : t) :
  let s' := handleCheckin extractDiscUUID now canConnect connecting d conn s in
  let did := RegistryPeer.discoveryID d in
  (exists knownPID,
     JsObj.get did (registry s')
     = Some (PeerInfo.mk did (RegistryPeer.friendlyname d) now false (Some conn) knownPID
                         (NS.orNone (RegistryPeer.publicKey d)))) /\
  sent s' = sent s ++ List.map (fun c => (c, R_registry (peersOf (registry s'))))
                               (audience (registry s')) /\
  In (Conn.cid conn) (audience (registry s')) /\
  In (RegistryPeer.mk did (RegistryPeer.friendlyname d) (NS.orNone (RegistryPeer.publicKey d)))
     (peersOf (registry s')) /\
  (distinctKeys (registry s) ->
   forall k r, JsObj.get k (registry s) = Some r -> k <> did ->
     JsObj.get k (registry s') = Some r \/
     (Js.truthy (PeerInfo.publicKey r) = true /\
      PeerInfo.publicKey r = RegistryPeer.publicKey d /\
      JsObj.get k (registry s') = None)).
Proof.
  cbn zeta.
  destruct (handleCheckin_shape now canConnect connecting d conn s)
    as (reg1 & knownPID & Hreg & Hsent & Hreg1). cbn zeta in Hsent.
  set (entry := PeerInfo.mk _ _ _ _ _ _ _) in Hreg.
  assert (Hget : JsObj.get (RegistryPeer.discoveryID d)
                   (registry (handleCheckin extractDiscUUID now canConnect connecting d conn s))
                 = Some entry) by (rewrite Hreg; apply jsobj_get_set_eq).
  pose proof (jsobj_get_In _ _ _ Hget) as Hin.
  split; [exists knownPID; exact Hget|]. split; [exact Hsent|]. split; [|split].
  - now apply (audience_In _ _ entry conn Hin).
  - unfold peersOf. apply in_map_iff. exists (RegistryPeer.discoveryID d, entry). auto.
  - intros Hd k r Hk Hne. rewrite Hreg, jsobj_get_set_ne by congruence.
    destruct Hreg1 as [[_ ->]|[[_ ->]|(k0 & F & ->)]]; [now left | now left |].
    destruct (String.eqb_spec k0 k) as [->|Hk0].
    + right. pose proof (router_findStaleKey_spec d (registry s)) as Hs. rewrite F in Hs.
      destruct Hs as (r0 & Hin0 & _ & E0 & T0).
      rewrite (distinctKeys_get _ _ _ Hd Hin0) in Hk. injection Hk as <-.
      split; [exact T0|]. split; [exact E0 | apply jsobj_get_del].
    + left. now rewrite jsobj_get_del_ne.
Qed.

(** *** The ping timer *)

Lemma pingPeer_spec now s did :
  let s' := pingPeer now s did in
  registry s'
  = (if default false (silent now <$> JsObj.get did (registry s))
     then JsObj.del did (registry s) else registry s) /\
  (exists more, sent s' = sent s ++ more) /\
  (forall r conn, JsObj.get did (registry s) = Some r -> PeerInfo.isMe r = false ->
                  PeerInfo.conn r = Some conn -> In (Conn.cid conn, R_ping) (sent s')).
Proof.
  cbn zeta. unfold pingPeer, silent.
  destruct (JsObj.get did (registry s)) as [r|]; cbn [fmap option_fmap option_map default].
  2:{ split; [reflexivity|]. split; [exists []; now rewrite app_nil_r | discriminate]. }
  unfold id. destruct (PeerInfo.isMe r) eqn:Hme; cbn [negb andb].
  { split; [reflexivity|]. split; [exists []; now rewrite app_nil_r|]. intros ? ? [= <-]. congruence. }
  set (s1 := match PeerInfo.conn r with Some conn => _ | None => s end).
  assert (H1 : registry s1 = registry s /\ (exists more, sent s1 = sent s ++ more) /\
               (forall conn, PeerInfo.conn r = Some conn -> In (Conn.cid conn, R_ping) (sent s1))).
  { subst s1. destruct (PeerInfo.conn r) as [conn|].
    - split; [reflexivity|]. split; [eexists; reflexivity|]. intros ? [= <-].
      cbn [send sent]. apply in_or_app. right. now left.
    - split; [reflexivity|]. split; [exists []; now rewrite app_nil_r | discriminate]. }
  destruct H1 as (Hr1 & (more1 & Hs1) & Hp1).
  destruct (TTL + 10000 <? now - PeerInfo.lastSeen r).
  - destruct (nsBroadcast_spec (set_registry (JsObj.del did (registry s1))
                                  (effect (Log "peer-timed-out") s1))) as (A & _ & D).
    cbn [effect set_mgr set_registry registry sent mgr] in *. rewrite A, D, Hr1.
    split; [reflexivity|]. split.
    + rewrite Hs1, <- app_assoc. eexists; reflexivity.
    + intros ? conn [= <-] _ Hc. apply in_or_app. left. now apply Hp1.
  - split; [exact Hr1|]. split; [eauto|]. intros ? conn [= <-] _ Hc. now apply Hp1.
Qed.

Lemma pingTick_fold now keys :
  forall s, NoDup keys ->
    let s' := fold_left (pingPeer now) keys s in
    (forall k, JsObj.get k (registry s')
               = if existsb (String.eqb k) keys
                    && default false (silent now <$> JsObj.get k (registry s))
                 then None else JsObj.get k (registry s)) /\
    (exists more, sent s' = sent s ++ more) /\
    (forall k r conn, In k keys -> JsObj.get k (registry s) = Some r ->
                      PeerInfo.isMe r = false -> PeerInfo.conn r = Some conn ->
                      In (Conn.cid conn, R_ping) (sent s')).
Proof.
  induction keys as [|did keys IH]; intros s Hnd; cbn zeta.
  - cbn. split; [reflexivity|]. split; [exists []; now rewrite app_nil_r | intros ? ? ? []].
  - apply NoDup_cons in Hnd. destruct Hnd as [Hdid Hnd]. cbn [fold_left existsb].
    destruct (pingPeer_spec now s did) as (Hreg & (more1 & Hsent1) & Hping). cbn zeta in *.
    destruct (IH (pingPeer now s did) Hnd) as (A & (more2 & B) & D). cbn zeta in *.
    assert (Hother : forall k, k <> did ->
              JsObj.get k (registry (pingPeer now s did)) = JsObj.get k (registry s)).
    { intros k Hk. rewrite Hreg. destruct (default false _); [|reflexivity].
      apply jsobj_get_del_ne. congruence. }
    split; [|split].
    + intros k. rewrite A. destruct (String.eqb_spec k did) as [->|Hk].
      * assert (E : existsb (String.eqb did) keys = false).
        { apply not_true_is_false. rewrite existsb_eqb_In. intros H. apply Hdid.
          now apply list_elem_of_In. }
        rewrite E. cbn [andb orb]. rewrite Hreg.
        destruct (default false _); [apply jsobj_get_del | reflexivity].
      * cbn [orb]. now rewrite (Hother k Hk).
    + exists (more1 ++ more2). now rewrite B, Hsent1, app_assoc.
    + intros k r conn [<-|Hk] Hget Hme Hc.
      * rewrite B. apply in_or_app. left. exact (Hping r conn Hget Hme Hc).
      * assert (Hne : k <> did).
        { intros ->. apply Hdid. now apply list_elem_of_In. }
        apply (D k r conn Hk); [|exact Hme | exact Hc]. now rewrite (Hother k Hne).
Qed.

(** X25. A turn of the ping timer drops exactly the silent peers: in a
    registry with distinct keys, an entry other than the self-entry whose
    [lastSeen] is more than [TTL] + 10 s (100 s) before now is removed, every
    other entry is left as it was, nothing is added, and a ['ping'] has gone
    to every entry other than the self-entry that has a connection, those
    removed included. *)
Theorem ping_timer_evicts_silent_peers (now : Z) (s : t) :
  distinctKeys (registry s) ->
  let s' := pingTick now s in
  (forall k r, JsObj.get k (registry s) = Some r ->
     JsObj.get k (registry s')
     = if negb (PeerInfo.isMe r) && (100000 <? now - PeerInfo.lastSeen r)
       then None else Some r) /\
  (forall k, JsObj.get k (registry s) = None -> JsObj.get k (registry s') = None) /\
  (forall k r conn, JsObj.get k (registry s) = Some r -> PeerInfo.isMe r = false ->
                    PeerInfo.conn r = Some conn -> In (Conn.cid conn, R_ping) (sent s')).
Proof.
  intros Hd. cbn zeta. unfold pingTick.
  destruct (pingTick_fold now (JsObj.keys (registry s)) s Hd) as (A & _ & D). cbn zeta in *.
  assert (Hkey : forall k r, JsObj.get k (registry s) = Some r ->
                             In k (JsObj.keys (registry s))).
  { intros k r H. apply jsobj_get_In in H. unfold JsObj.keys. apply in_map_iff.
    exists (k, r). auto. }
  split; [|split].
  - intros k r Hk. rewrite A, Hk.
    rewrite (proj2 (existsb_eqb_In k _) (Hkey k r Hk)). reflexivity.
  - intros k Hk. rewrite A, Hk. now destruct (_ && _).
  - intros k r conn Hk Hme Hc. exact (D k r conn (Hkey k r Hk) Hk Hme Hc).
Qed.

(** *** From the router's broadcast to a member's registry *)

(** X26. What a router announces is what a member ends up with: for any
    ['registry'] broadcast sent in a run of a router that started from a
    registry with one entry per discovery id and public key, a member that
    merges it with [nsMergeRegistry], its self-entry stored under its own
    discovery id, holds afterwards its self-entry, an entry built from each
    peer of the broadcast other than itself, and nothing else. *)
Theorem member_sees_router_registry (es : list Event) (s : t) (c : nat)
    (peers : list RegistryPeer.t) (now : Z) (isPublic : bool) (myDiscID : string)
    (canConnect : bool) (connecting : list string) (registryM : JsObj.t PeerInfo.t)
    (m : Mgr.t) (me : PeerInfo.t) :
  wf (registry s) -> sent s = [] -> Forall named es ->
  In (c, R_registry peers) (sent (run extractDiscUUID es s)) ->
  NS.findMe registryM = Some me -> PeerInfo.discoveryID me = myDiscID ->
  let merged := fst (NS.nsMergeRegistry extractDiscUUID now isPublic myDiscID canConnect
                                        connecting registryM peers m) in
  JsObj.get myDiscID merged = Some me /\
  (forall p, In p peers -> RegistryPeer.discoveryID p <> myDiscID ->
     exists r, JsObj.get (RegistryPeer.discoveryID p) merged = Some r /\
               NS.fromBroadcast now p r) /\
  (forall did r, JsObj.get did merged = Some r -> did <> myDiscID ->
     exists p, In p peers /\ RegistryPeer.discoveryID p = did /\ NS.fromBroadcast now p r).
Proof.
  intros Hwf Hsent Hn Hin Hme Hid merged.
  assert (Hs : announcedWell s).
  { split; [exact Hwf|]. rewrite Hsent. constructor. }
  assert (Hd : NS.distinctPeers peers).
  { destruct (announcedWell_run es s Hn Hs) as [_ Hb]. rewrite Forall_forall in Hb.
    apply (Hb (c, peers)). unfold broadcasts. apply list_elem_of_omap.
    exists (c, R_registry peers). split; [now apply list_elem_of_In | reflexivity]. }
  assert (Hfree : NS.selfKeyFree myDiscID (PeerInfo.discoveryID me) peers).
  { intros p _ Hp. congruence. }
  assert (HisMe : PeerInfo.isMe me = true).
  { unfold NS.findMe in Hme. apply find_some in Hme. apply Hme. }
  assert (Hinit : NS.mergeInv now myDiscID (PeerInfo.discoveryID me) (Some me) peers
                              (NS.initialRegistry registryM)).
  { unfold NS.initialRegistry. rewrite Hme. cbn [JsObj.set]. split.
    - intros r [= <-]. cbn. now rewrite String.eqb_refl.
    - intros k r [[= <- <-]|[]]. left. auto. }
  assert (Hboth : NS.mergeInv now myDiscID (PeerInfo.discoveryID me) (Some me) peers merged /\
                  NS.listed now myDiscID peers merged).
  { subst merged. unfold NS.nsMergeRegistry.
    match goal with |- context [fold_left ?f peers ?acc] =>
      pose proof (mergePeers_inv extractDiscUUID now myDiscID (PeerInfo.discoveryID me)
                    (Some me) peers peers Hfree acc (incl_refl _)) as H1;
      pose proof (mergePeers_listed extractDiscUUID now myDiscID (PeerInfo.discoveryID me)
                    (Some me) peers peers Hd Hfree [] acc (incl_refl _) (incl_nil_l _)) as H2;
      destruct (fold_left f peers acc) as [reg' m2] end.
    cbn [fst app] in *. split; [now apply H1|]. apply H2; [exact Hinit|]. intros q []. }
  destruct Hboth as [[Hget Hall] Hlisted]. rewrite Hid in *.
  split; [now apply Hget|]. split.
  - intros p Hp Hne. now apply Hlisted.
  - intros did r Hr Hne. apply jsobj_get_In in Hr.
    destruct (Hall _ _ Hr) as [(Hk & _)|(_ & _ & Hp)]; [contradiction | exact Hp].
Qed.

End RouterFacts.

Section RouterRuns.
Import Router.

Lemma router_registry_invariant_witness :
  wf (registry lonelyRouter) /\ sent lonelyRouter = [] /\ Forall named run1 /\
  wf (registry (run (fun did => did) run1 lonelyRouter)) /\
  JsObj.keys (registry (run (fun did => did) run1 lonelyRouter)) = ["disc-me"%string].
Proof.
  assert (Hwf : wf (registry lonelyRouter)).
  { split; [|split].
    - repeat constructor. intros H. inversion H.
    - intros k r [[= <- _]|[]]. discriminate.
    - intros k1 r1 k2 r2 [[= <- _]|[]] [[= <- _]|[]] _ _. reflexivity. }
  assert (Hn : Forall named run1) by (repeat constructor; discriminate).
  split; [exact Hwf|]. split; [reflexivity|]. split; [exact Hn|].
  split; [|vm_compute; reflexivity].
  exact (proj1 (router_registry_invariant (fun did => did) run1 lonelyRouter Hwf eq_refl Hn)).
Defined.

Lemma checkin_registers_and_announces_witness :
  let s' := handleCheckin (fun did => did) 1000 true [] bob1 (Conn.mk 21 "disc-bob" true)
                          lonelyRouter in
  sent s' = [(21%nat, R_registry [RegistryPeer.mk "disc-me" "Me" (Some "pk-me"%string); bob1])].
Proof.
  cbn zeta.
  destruct (checkin_registers_and_announces (fun did => did) 1000 true [] bob1
              (Conn.mk 21 "disc-bob" true) lonelyRouter) as (_ & H & _).
  refine (eq_trans H _). vm_compute. reflexivity.
Defined.

Lemma ping_timer_evicts_silent_peers_witness :
  let s := run (fun did => did) (firstn 4 run1) lonelyRouter in
  distinctKeys (registry s) /\
  JsObj.keys (registry s) = ["disc-me"; "disc-carol"; "disc-bob-2"]%string /\
  JsObj.get "disc-carol" (registry (pingTick 103500 s)) = None /\
  (exists r, JsObj.get "disc-bob-2" (registry (pingTick 103500 s)) = Some r).
Proof.
  cbn zeta.
  assert (Hd : distinctKeys (registry (run (fun did => did) (firstn 4 run1) lonelyRouter))).
  { unfold distinctKeys.
    replace (JsObj.keys (registry (run (fun did => did) (firstn 4 run1) lonelyRouter)))
      with ["disc-me"; "disc-carol"; "disc-bob-2"]%string by (vm_compute; reflexivity).
    apply (bool_decide_unpack _). vm_compute. exact I. }
  split; [exact Hd|]. split; [vm_compute; reflexivity|].
  destruct (ping_timer_evicts_silent_peers 103500 _ Hd) as (H & _).
  split.
  - rewrite (H "disc-carol"%string
               (PeerInfo.mk "disc-carol" "Carol" 3000 false (Some (Conn.mk 22 "disc-carol" true))
                            None (Some "pk-carol"%string))); [reflexivity | vm_compute; reflexivity].
  - eexists.
    rewrite (H "disc-bob-2"%string
               (PeerInfo.mk "disc-bob-2" "Bob" 4000 false (Some (Conn.mk 23 "disc-bob-2" true))
                            None (Some "pk-bob"%string))); [reflexivity | vm_compute; reflexivity].
Defined.

Lemma member_sees_router_registry_witness :
  let peers := [RegistryPeer.mk "disc-me" "Me" (Some "pk-me"%string); bob1] in
  let registryM := [("disc-bob"%string,
                     PeerInfo.mk "disc-bob" "Bob" 500 true None None (Some "pk-bob"%string))] in
  wf (registry lonelyRouter) /\ sent lonelyRouter = [] /\ Forall named (firstn 1 run1) /\
  In (21%nat, R_registry peers) (sent (run (fun did => did) (firstn 1 run1) lonelyRouter)) /\
  JsObj.keys (fst (NS.nsMergeRegistry (fun did => did) 1500 false "disc-bob" true []
                                      registryM peers emptyMgr))
  = ["disc-bob"; "disc-me"]%string /\
  exists r, JsObj.get "disc-me"
              (fst (NS.nsMergeRegistry (fun did => did) 1500 false "disc-bob" true []
                                       registryM peers emptyMgr)) = Some r /\
            PeerInfo.lastSeen r = 1500.
Proof.
  cbn zeta.
  assert (Hwf : wf (registry lonelyRouter)).
  { split; [|split].
    - repeat constructor. intros H. inversion H.
    - intros k r [[= <- _]|[]]. discriminate.
    - intros k1 r1 k2 r2 [[= <- _]|[]] [[= <- _]|[]] _ _. reflexivity. }
  assert (Hn : Forall named (firstn 1 run1)) by (repeat constructor; discriminate).
  assert (Hin : In (21%nat, R_registry [RegistryPeer.mk "disc-me" "Me" (Some "pk-me"%string); bob1])
                   (sent (run (fun did => did) (firstn 1 run1) lonelyRouter))).
  { vm_compute. now left. }
  split; [exact Hwf|]. split; [reflexivity|]. split; [exact Hn|]. split; [exact Hin|].
  split; [vm_compute; reflexivity|].
  destruct (member_sees_router_registry (fun did => did) (firstn 1 run1) lonelyRouter 21
              [RegistryPeer.mk "disc-me" "Me" (Some "pk-me"%string); bob1] 1500 false "disc-bob"
              true [] [("disc-bob"%string,
                        PeerInfo.mk "disc-bob" "Bob" 500 true None None (Some "pk-bob"%string))]
              emptyMgr _ Hwf eq_refl Hn Hin eq_refl eq_refl) as (_ & H & _).
  destruct (H (RegistryPeer.mk "disc-me" "Me" (Some "pk-me"%string)))
    as (r & Hr & _ & _ & _ & Hls & _); [now left | discriminate |].
  exists r. split; [exact Hr | exact Hls].
Defined.

End RouterRuns.

(** ** A file from one peer to the other *)

Section FileFacts.
Import FileTransfer.

Lemma CHUNK_SIZE_pos : (0 < CHUNK_SIZE)%nat.
Proof. unfold CHUNK_SIZE. lia. Qed.

(** *** Cutting a buffer into chunks *)

Lemma ceil_div_spec (cs n : nat) :
  (0 < cs)%nat ->
  (n <= Nat.div (n + cs - 1) cs * cs)%nat /\
  (forall i, i < Nat.div (n + cs - 1) cs -> i * cs < n)%nat.
Proof.
  intros Hcs. pose proof (Nat.div_mod (n + cs - 1) cs ltac:(lia)) as Hdm.
  pose proof (Nat.mod_upper_bound (n + cs - 1) cs ltac:(lia)) as Hmod.
  set (q := Nat.div (n + cs - 1) cs) in *. split; [nia|]. intros i Hi. nia.
Qed.

Lemma slices_concat (cs : nat) :
  (0 < cs)%nat ->
  forall n (buf : list byte), (length buf <= n * cs)%nat ->
    List.concat (List.map (fun i => firstn cs (skipn (i * cs) buf)) (seq 0 n)) = buf.
Proof.
  intros Hcs. induction n as [|n IH]; intros buf Hlen.
  - destruct buf; [reflexivity | cbn in Hlen; lia].
  - rewrite <- cons_seq, <- seq_shift. cbn [List.map List.concat]. rewrite List.map_map.
    rewrite Nat.mul_0_l. cbn [skipn].
    rewrite (List.map_ext _ (fun i => firstn cs (skipn (i * cs) (skipn cs buf)))).
    + rewrite IH; [apply firstn_skipn|]. rewrite length_skipn. lia.
    + intros i. rewrite skipn_skipn. do 2 f_equal. lia.
Qed.

Lemma slice_length buf i :
  (i < chunkCount (length buf))%nat ->
  (0 < length (slice buf i) <= CHUNK_SIZE)%nat.
Proof.
  intros Hi. unfold slice. rewrite length_firstn, length_skipn.
  pose proof CHUNK_SIZE_pos as Hcs.
  destruct (ceil_div_spec CHUNK_SIZE (length buf) Hcs) as [_ H]. specialize (H i Hi). lia.
Qed.

Lemma chunks_rebuild buf :
  List.concat (List.map (slice buf) (seq 0 (chunkCount (length buf)))) = buf.
Proof.
  apply (slices_concat CHUNK_SIZE CHUNK_SIZE_pos).
  apply (ceil_div_spec CHUNK_SIZE (length buf) CHUNK_SIZE_pos).
Qed.

(** *** The sender *)

Lemma send_chunks_spec c tid buf l :
  forall s,
    let s' := fold_left (fun acc i => send c (F_chunk tid i (slice buf i)) acc) l s in
    outbox s' = outbox s ++ List.map (fun i => (c, F_chunk tid i (slice buf i))) l /\
    mgr s' = mgr s /\ saved s' = saved s /\ incomingFiles s' = incomingFiles s.
Proof.
  induction l as [|i l IH]; intros s; cbn zeta.
  - cbn. now rewrite app_nil_r.
  - cbn [fold_left List.map]. destruct (IH (send c (F_chunk tid i (slice buf i)) s))
      as (A & B & D & E). cbn zeta in *. rewrite A, B, D, E. cbn [send outbox mgr saved
      incomingFiles]. rewrite <- app_assoc. auto.
Qed.

Lemma sentOn_app c a b : sentOn c (a ++ b) = sentOn c a ++ sentOn c b.
Proof. unfold sentOn. now rewrite List.filter_app, List.map_app. Qed.

Lemma sentOn_same c (l : list Msg) : sentOn c (List.map (fun d => (c, d)) l) = l.
Proof.
  unfold sentOn. induction l as [|d l IH]; [reflexivity|]. cbn.
  rewrite Nat.eqb_refl. cbn. now rewrite IH.
Qed.

Lemma sendFileNow_spec now1 now2 tid uuid contactKey name buf conn s :
  let s' := _sendFileNow now1 now2 tid uuid contactKey name buf conn s in
  outbox s' = outbox s ++ List.map (fun d => (Conn.cid conn, d)) (transfer tid name buf) /\
  saved s' = saved s ++ [(tid, buf, name, now1)] /\
  Mgr.chats (mgr s')
  = <[contactKey := default [] (Mgr.chats (mgr s) !! contactKey)
                    ++ [fileMessage uuid sent name tid (Z.of_nat (length buf)) now2
                                    (Some st_sent)]]> (Mgr.chats (mgr s)) /\
  Mgr.contacts (mgr s') = Mgr.contacts (mgr s) /\ Mgr.pidToFP (mgr s') = Mgr.pidToFP (mgr s).
Proof.
  cbn zeta. unfold _sendFileNow.
  destruct (send_chunks_spec (Conn.cid conn) tid buf (seq 0 (chunkCount (length buf)))
              (send (Conn.cid conn)
                    (F_start tid name (Z.of_nat (length buf)) (chunkCount (length buf))) s))
    as (A & B & D & _). cbn zeta in *.
  unfold effect, set_mgr, saveFile in *. cbn [send outbox mgr saved incomingFiles] in *.
  rewrite A, B, D. unfold pushChat, emit.
  cbn [Mgr.chats Mgr.contacts Mgr.pidToFP Mgr.set_effects Mgr.set_chats].
  split; [|auto]. unfold transfer. cbn [List.map].
  rewrite List.map_app, List.map_map, <- !app_assoc. reflexivity.
Qed.

(** *** The receiver *)

Lemma set_pidToFP_same m : Mgr.set_pidToFP (Mgr.pidToFP m) m = m.
Proof. now destruct m. Qed.

Lemma contactKeyForPID_resolves pid m :
  resolved pid (fst (Messaging.contactKeyForPID pid m)) (snd (Messaging.contactKeyForPID pid m)).
Proof.
  unfold resolved, Messaging.contactKeyForPID.
  destruct (Js.truthy (Mgr.pidToFP m !! pid)) eqn:T; cbn [fst snd]; [now rewrite T|].
  destruct (List.find _ (Mgr.contacts m)) as [[key c]|] eqn:F; cbn [fst snd].
  - cbn [Mgr.pidToFP Mgr.contacts Mgr.set_pidToFP]. rewrite lookup_insert_eq, F.
    destruct (Js.truthy (Some key)); [reflexivity|].
    f_equal. destruct m. unfold Mgr.set_pidToFP. cbn. f_equal. apply insert_insert_eq.
  - now rewrite T, F.
Qed.

Lemma resolved_frame pid ck m m' :
  Mgr.pidToFP m' = Mgr.pidToFP m -> Mgr.contacts m' = Mgr.contacts m ->
  resolved pid ck m -> resolved pid ck m'.
Proof.
  unfold resolved, Messaging.contactKeyForPID. intros E1 E2. rewrite E1, E2.
  destruct (Js.truthy (Mgr.pidToFP m !! pid)); [now intros [= ->]|].
  destruct (List.find _ (Mgr.contacts m)) as [[key c]|].
  - intros [= -> Hm]. f_equal.
    assert (E : <[pid := ck]> (Mgr.pidToFP m) = Mgr.pidToFP m).
    { rewrite <- Hm at 2. reflexivity. }
    rewrite E, <- E1. apply set_pidToFP_same.
  - now intros [= ->].
Qed.

Lemma set_mgr_same s : set_mgr (mgr s) s = s.
Proof. now destruct s. Qed.

Lemma setAt_end x l :
  setAt (length l) x (List.map Some l) = List.map Some (l ++ [x]).
Proof. induction l as [|y l IH]; [reflexivity|]. cbn. now rewrite IH. Qed.

Lemma blobOf_full l : blobOf (List.map Some l) = List.concat l.
Proof. unfold blobOf. rewrite List.map_map. cbn. now rewrite List.map_id. Qed.

Lemma receive_chunks now uuid conn ck tid name size total (f : nat -> list byte) r n :
  forall pre r',
    receiving (Conn.peer conn) ck tid name size total pre r r' ->
    receiving (Conn.peer conn) ck tid name size total
      (pre ++ List.map f (seq (length pre) n)) r
      (receive now uuid conn (List.map (fun i => F_chunk tid i (f i)) (seq (length pre) n)) r').
Proof.
  induction n as [|n IH]; intros pre r' Hr.
  - cbn. now rewrite app_nil_r.
  - cbn [seq List.map receive fold_left].
    set (r1 := handleFile now uuid (F_chunk tid (length pre) (f (length pre))) conn r').
    assert (H1 : receiving (Conn.peer conn) ck tid name size total (pre ++ [f (length pre)])
                           r r1).
    { destruct Hr as (R & A & B & D & E & F). subst r1. unfold handleFile.
      unfold resolved in R. rewrite R, set_mgr_same, F. cbv zeta.
      cbn [in_name in_size in_total chunks received].
      unfold receiving, effect, set_mgr, set_incomingFiles.
      cbn [mgr saved outbox incomingFiles].
      split; [now apply (resolved_frame _ _ (mgr r'))|].
      split; [exact A|]. split; [exact B|]. split; [exact D|]. split; [exact E|].
      rewrite lookup_insert_eq, setAt_end, length_app, Nat.add_comm. reflexivity. }
    specialize (IH (pre ++ [f (length pre)]) r1 H1).
    rewrite length_app, Nat.add_comm in IH. cbn [length Nat.add] in IH.
    rewrite <- app_assoc in IH. exact IH.
Qed.

(** X27. A file sent with [_sendFileNow] arrives whole: the sender puts on
    the connection a ['file-start'], one ['file-chunk'] per 16000 bytes
    (the last one shorter, none for an empty file) and a ['file-end'], saves
    the file and stores a ['sent'] file message; a receiver that handles
    these messages in order saves a file with the sender's [tid] and name
    and exactly the sender's bytes, appends a received file message with
    the byte count to the sender's chat, forgets the transfer and, if its
    connection is open, answers with one ['file-ack']. *)
Theorem file_round_trip (now1 now2 nowR : Z) (tid uuid uuidR contactKey name : string)
    (buf : list byte) (conn connR : Conn.t) (s r : t) :
  let s' := _sendFileNow now1 now2 tid uuid contactKey name buf conn s in
  let ds := transfer tid name buf in
  let r' := receive nowR uuidR connR ds r in
  let ck := fst (Messaging.contactKeyForPID (Conn.peer connR) (mgr r)) in
  let size := Z.of_nat (length buf) in
  (sentOn (Conn.cid conn) (outbox s') = sentOn (Conn.cid conn) (outbox s) ++ ds /\
   length ds = (chunkCount (length buf) + 2)%nat /\
   (forall i c, In (F_chunk tid i c) ds -> 0 < Z.of_nat (length c) <= 16000) /\
   saved s' = saved s ++ [(tid, buf, name, now1)] /\
   Mgr.chats (mgr s') !! contactKey
   = Some (default [] (Mgr.chats (mgr s) !! contactKey)
           ++ [fileMessage uuid sent name tid size now2 (Some st_sent)])) /\
  (saved r' = saved r ++ [(tid, buf, name, nowR)] /\
   Mgr.chats (mgr r') !! ck
   = Some (default [] (Mgr.chats (mgr r) !! ck)
           ++ [fileMessage uuidR recv name tid size nowR None]) /\
   incomingFiles r' !! tid = None /\
   outbox r' = outbox r ++ (if Conn.open connR then [(Conn.cid connR, F_ack tid)] else [])).
Proof.
  cbn zeta. split.
  - destruct (sendFileNow_spec now1 now2 tid uuid contactKey name buf conn s)
      as (A & B & D & _). cbn zeta in *. rewrite A, B, D, sentOn_app, sentOn_same.
    split; [reflexivity|]. split; [|split; [|split; [reflexivity | apply lookup_insert_eq]]].
    + unfold transfer. cbn [length]. rewrite length_app, length_map, length_seq. cbn. lia.
    + intros i c Hin. unfold transfer in Hin. destruct Hin as [Hin|Hin]; [discriminate|].
      apply in_app_iff in Hin. destruct Hin as [Hin|[Hin|[]]]; [|discriminate].
      apply in_map_iff in Hin. destruct Hin as (j & [= <- <-] & Hj). apply in_seq in Hj.
      pose proof (slice_length buf j ltac:(lia)) as Hs. unfold CHUNK_SIZE in Hs. lia.
  - unfold transfer, receive. cbn [fold_left]. rewrite fold_left_app. cbn [fold_left].
    pose proof (contactKeyForPID_resolves (Conn.peer connR) (mgr r)) as Hres.
    pose proof (contactKeyForPID_chats (Conn.peer connR) (mgr r)) as Hch0.
    assert (Hco0 : Mgr.contacts (snd (Messaging.contactKeyForPID (Conn.peer connR) (mgr r)))
                   = Mgr.contacts (mgr r)).
    { unfold Messaging.contactKeyForPID. destruct (Js.truthy _); [reflexivity|].
      destruct (List.find _ _) as [[k c]|]; reflexivity. }
    set (size := Z.of_nat (length buf)). set (total := chunkCount (length buf)).
    set (r1 := handleFile nowR uuidR (F_start tid name size total) connR r).
    assert (H1 : receiving (Conn.peer connR) (fst (Messaging.contactKeyForPID (Conn.peer connR) (mgr r))) tid name size
                           total [] r r1 /\
                 incomingFiles r1 = <[tid := mkIncoming name size total [] 0]> (incomingFiles r)).
    { subst r1. unfold handleFile.
      destruct (Messaging.contactKeyForPID (Conn.peer connR) (mgr r)) as [ck m0].
      cbn [fst snd] in *.
      unfold receiving, effect, set_mgr, set_incomingFiles.
      cbn [mgr saved outbox incomingFiles].
      split; [|reflexivity].
      split; [now apply (resolved_frame _ _ m0)|].
      split; [exact Hch0|]. split; [exact Hco0|]. split; [reflexivity|].
      split; [reflexivity|]. apply lookup_insert_eq. }
    set (ck := fst (Messaging.contactKeyForPID (Conn.peer connR) (mgr r))) in *.
    destruct H1 as [H1 Hinc1].
    pose proof (receive_chunks nowR uuidR connR ck tid name size total (slice buf) r total
                  [] r1 H1) as H2. cbn [length app] in H2. unfold receive in H2.
    set (r2 := fold_left _ (List.map _ (seq 0 total)) r1) in *.
    destruct H2 as (R & A & B & D & E & F). unfold handleFile.
    unfold resolved in R. rewrite R, set_mgr_same, F.
    cbn [in_name in_size in_total chunks received].
    rewrite blobOf_full. subst total. rewrite chunks_rebuild.
    cbv zeta.
    destruct (Conn.open connR);
      unfold effect, set_mgr, set_incomingFiles, saveFile, send;
      cbn [mgr saved outbox incomingFiles];
      unfold pushChat, emit; cbn [Mgr.chats Mgr.set_effects Mgr.set_chats];
      rewrite D, A, E, lookup_insert_eq, lookup_delete_eq, ?app_nil_r; auto.
Qed.

(** X28. The acknowledgement closes the transfer: when the sender of a file
    handles the ['file-ack'] for its [tid] on a connection of the same
    contact, the file message [_sendFileNow] stored becomes ['delivered'],
    provided no older message of ours in that chat has the same [tid];
    nothing else in the chat changes. *)
Theorem file_ack_delivers (now1 now2 nowA : Z) (tid uuid uuidA contactKey name : string)
    (buf : list byte) (conn ackConn : Conn.t) (s : t) :
  let s' := _sendFileNow now1 now2 tid uuid contactKey name buf conn s in
  let old := default [] (Mgr.chats (mgr s) !! contactKey) in
  let msg := fileMessage uuid sent name tid (Z.of_nat (length buf)) now2 in
  fst (Messaging.contactKeyForPID (Conn.peer ackConn) (mgr s')) = contactKey ->
  Forall (fun x => ChatMessage.tid x <> Some tid \/ ChatMessage.dir x = recv) old ->
  Mgr.chats (mgr (handleFile nowA uuidA (F_ack tid) ackConn s')) !! contactKey
  = Some (old ++ [msg (Some delivered)]).
Proof.
  cbn zeta. intros Hck Hold.
  destruct (sendFileNow_spec now1 now2 tid uuid contactKey name buf conn s)
    as (_ & _ & D & _). cbn zeta in D.
  set (s' := _sendFileNow now1 now2 tid uuid contactKey name buf conn s) in *.
  unfold handleFile.
  pose proof (contactKeyForPID_chats (Conn.peer ackConn) (mgr s')) as Hch0.
  destruct (Messaging.contactKeyForPID (Conn.peer ackConn) (mgr s')) as [ck m0].
  cbn [fst snd] in *. subst ck. unfold set_mgr at 1 2 3. cbn [mgr].
  rewrite Hch0, D, lookup_insert_eq.
  set (old := default [] (Mgr.chats (mgr s) !! contactKey)) in *.
  assert (Hmark : markFileDelivered tid
                    (old ++ [fileMessage uuid sent name tid (Z.of_nat (length buf)) now2
                                         (Some st_sent)])
                  = Some (old ++ [fileMessage uuid sent name tid (Z.of_nat (length buf)) now2
                                              (Some delivered)])).
  { clear -Hold. induction old as [|x old IH]; cbn [markFileDelivered app].
    - cbn. now rewrite bool_decide_eq_true_2.
    - inversion Hold as [|? ? Hx Hrest]; subst. rewrite (IH Hrest).
      destruct Hx as [Hx| ->].
      + now rewrite (bool_decide_eq_false_2 _ Hx).
      + now rewrite andb_false_r. }
  rewrite Hmark. unfold effect, set_mgr. cbn [mgr]. unfold emit.
  cbn [Mgr.chats Mgr.set_effects Mgr.set_chats]. apply lookup_insert_eq.
Qed.

End FileFacts.

Lemma file_ack_delivers_witness :
  let s' := FileTransfer._sendFileNow 10 20 "t1" "u1" "fp-alice" "a.txt" FileTransfer.hello
                                      aliceConn (FileTransfer.start aliceMgr) in
  fst (Messaging.contactKeyForPID (Conn.peer aliceConn) (FileTransfer.mgr s'))
  = "fp-alice"%string /\
  Mgr.chats (FileTransfer.mgr (FileTransfer.handleFile 30 "u2" (FileTransfer.F_ack "t1")
                                                        aliceConn s')) !! "fp-alice"%string
  = Some [FileTransfer.fileMessage "u1" sent "a.txt" "t1" 5 20 (Some delivered)].
Proof.
  cbn zeta.
  assert (Hck : fst (Messaging.contactKeyForPID (Conn.peer aliceConn)
                       (FileTransfer.mgr
                          (FileTransfer._sendFileNow 10 20 "t1" "u1" "fp-alice" "a.txt"
                             FileTransfer.hello aliceConn (FileTransfer.start aliceMgr))))
                = "fp-alice"%string) by (vm_compute; reflexivity).
  split; [exact Hck|].
  exact (file_ack_delivers 10 20 30 "t1" "u1" "u2" "fp-alice" "a.txt" FileTransfer.hello
           aliceConn aliceConn (FileTransfer.start aliceMgr) Hck (List.Forall_nil _)).
Defined.

(** ** The reconnection backoff *)

Section ReconnectFacts.
Import Reconnect.

Lemma bases_app a b : bases (a ++ b) = bases a ++ bases b.
Proof. unfold bases. apply omap_app. Qed.

Lemma timerFired_spec throws s :
  reconnectScheduled (timerFired throws s) = false /\
  reconnectBackoff (timerFired throws s) = reconnectBackoff s /\
  offlineMode (timerFired throws s) = offlineMode s /\
  bases (acts (timerFired throws s)) = bases (acts s).
Proof.
  unfold timerFired. cbn [persPeer].
  destruct (persPeer s); [| |destruct throws|];
    cbn [act set_persPeer reconnectScheduled reconnectBackoff offlineMode acts];
    rewrite ?bases_app; cbn [bases omap]; rewrite ?app_nil_r; auto.
Qed.

Lemma attempt_spec s a :
  offlineMode s = false -> reconnectScheduled s = false ->
  let s' := attempt s a in
  offlineMode s' = false /\ reconnectScheduled s' = false /\
  reconnectBackoff s' = Z.min (reconnectBackoff s + 1) 5 /\
  bases (acts s') = bases (acts s) ++ [Z.min (1000 * 2 ^ reconnectBackoff s) 30000].
Proof.
  intros Hoff Hsch. destruct a as [[[random throws] p] p']. cbn zeta. unfold attempt.
  set (s1 := set_persPeer p (schedulePersReconnect random s)).
  destruct (timerFired_spec throws s1) as (A & B & D & E).
  cbn [set_persPeer offlineMode reconnectScheduled reconnectBackoff acts].
  rewrite A, B, D, E. subst s1. unfold schedulePersReconnect. rewrite Hoff, Hsch.
  cbn [orb set_persPeer act offlineMode reconnectScheduled reconnectBackoff acts].
  rewrite !bases_app. cbn [bases omap]. rewrite app_nil_r. auto.
Qed.

(** X29. Reconnection attempts back off: starting with no reconnection
    scheduled, not in offline mode and with the backoff counter at [b]
    (0 after a successful registration), the timers of [n] consecutive
    attempts are set with base delays [min(1000 * 2^(b+i), 30000)] ms for
    [i = 0 .. n-1] (1, 2, 4, 8, 16, 30, 30, ... seconds from [b = 0]), to
    which less than a second of jitter is added; the counter ends at
    [min(b + n, 5)] and no reconnection is left scheduled.  A second call
    before the timer fires, and any call in offline mode, does nothing. *)
Theorem reconnect_backs_off (l : list (Q * bool * Peer * Peer)) (s : t) :
  offlineMode s = false -> reconnectScheduled s = false ->
  0 <= reconnectBackoff s <= 5 ->
  let s' := attempts l s in
  let b := reconnectBackoff s in
  bases (acts s')
  = bases (acts s)
    ++ List.map (fun i => Z.min (1000 * 2 ^ (b + Z.of_nat i)) 30000) (seq 0 (length l)) /\
  reconnectBackoff s' = Z.min (b + Z.of_nat (length l)) 5 /\
  reconnectScheduled s' = false /\
  (forall random random' s0,
     schedulePersReconnect random' (schedulePersReconnect random s0)
     = schedulePersReconnect random s0) /\
  (forall random s0, offlineMode s0 = true -> schedulePersReconnect random s0 = s0).
Proof.
  intros Hoff Hsch Hb. cbn zeta.
  assert (Hmain : forall l s, offlineMode s = false -> reconnectScheduled s = false ->
            0 <= reconnectBackoff s <= 5 ->
            offlineMode (attempts l s) = false /\
            bases (acts (attempts l s))
            = bases (acts s)
              ++ List.map (fun i => Z.min (1000 * 2 ^ (reconnectBackoff s + Z.of_nat i)) 30000)
                          (seq 0 (length l)) /\
            reconnectBackoff (attempts l s) = Z.min (reconnectBackoff s + Z.of_nat (length l)) 5 /\
            reconnectScheduled (attempts l s) = false).
  { clear. induction l as [|a l IH]; intros s Hoff Hsch Hb.
    - cbn. rewrite app_nil_r, Z.add_0_r. repeat split; auto; lia.
    - cbn [attempts fold_left length seq List.map].
      destruct (attempt_spec s a Hoff Hsch) as (A & B & D & E). cbn zeta in *.
      destruct (IH (attempt s a) A B ltac:(lia)) as (F & G & H & I).
      unfold attempts in *. rewrite G, H, I, E, D, F, <- app_assoc. cbn [app].
      rewrite Z.add_0_r. split; [reflexivity|]. split; [|split; [lia | reflexivity]].
      do 2 f_equal. rewrite <- seq_shift, List.map_map. apply List.map_ext_in.
      intros i _.
      destruct (Z.le_gt_cases 5 (reconnectBackoff s + 1)) as [Hge|Hlt].
      + rewrite (Z.min_r _ 5) by lia.
        assert (H5 : reconnectBackoff s = 4 \/ reconnectBackoff s = 5) by lia.
        assert (Hpow : forall k, 5 <= k -> Z.min (1000 * 2 ^ k) 30000 = 30000).
        { intros k Hk. apply Z.min_r.
          assert (2 ^ 5 <= 2 ^ k) by (apply Z.pow_le_mono_r; lia). lia. }
        rewrite !Hpow by lia. reflexivity.
      + rewrite (Z.min_l _ 5) by lia. do 3 f_equal. lia. }
  destruct (Hmain l s Hoff Hsch Hb) as (A & B & D & E).
  split; [exact B|]. split; [exact D|]. split; [exact E|]. split.
  - intros random random' [off sch b0 p a]. destruct off, sch; reflexivity.
  - intros random s0 H0. unfold schedulePersReconnect. now rewrite H0.
Qed.

End ReconnectFacts.

Lemma reconnect_backs_off_witness :
  let s := Reconnect.mk false false 0 Reconnect.PeerDisconnected [] in
  let a := ((1#2)%Q, false, Reconnect.PeerDisconnected, Reconnect.PeerDisconnected) in
  Reconnect.offlineMode s = false /\ Reconnect.reconnectScheduled s = false /\
  0 <= Reconnect.reconnectBackoff s <= 5 /\
  Reconnect.bases (Reconnect.acts (Reconnect.attempts [a; a; a; a; a; a; a] s))
  = [1000; 2000; 4000; 8000; 16000; 30000; 30000].
Proof.
  cbn zeta. split; [reflexivity|]. split; [reflexivity|]. split; [cbn; lia|].
  destruct (reconnect_backs_off
              (repeat ((1#2)%Q, false, Reconnect.PeerDisconnected, Reconnect.PeerDisconnected) 7)
              (Reconnect.mk false false 0 Reconnect.PeerDisconnected [])
              eq_refl eq_refl ltac:(cbn; lia)) as (H & _).
  exact H.
Defined.
